(** * SymSpell C99: a shallow embedding of [symspell.c] and its headers

    The development follows the C sources function by function:
    - [xxh3.h]   : the 64-bit hash used as key of both tables;
    - [hash.h]   : the transient uniqueness table of the delete enumerator;
    - [symspell.c]: arenas, delete enumeration, Damerau-Levenshtein distance,
      the exact-match table, the delete index, dictionary load and lookup.

    Modelling conventions.
    - C strings are [string]s without the terminating NUL; a byte is an
      [ascii].  Unsigned 64-bit quantities are [Z] with the wrap-around
      written out ([u64]); C [int]s are [Z].
    - The calloc'ed arrays of the two open-addressed tables are finite maps
      from the slot index to the slot contents; an absent key is a slot that
      still holds the zero bytes calloc put there.
    - [malloc], [calloc] and [realloc] are assumed to succeed.  The arena
      allocator is modelled with its capacity, because running out of arena
      space terminates the process.
    - [logf] comes from libm and is a parameter of the development. *)

From Stdlib Require Import ZArith String Ascii List Bool Lia.
From Stdlib Require Import Floats.SpecFloat.
From stdpp Require Import base option gmap strings.

Import ListNotations.
Local Open Scope string_scope.
Local Open Scope Z_scope.


(** ** Machine integers *)

Definition u64 (x : Z) : Z := x mod 2 ^ 64.
Definition u32 (x : Z) : Z := x mod 2 ^ 32.

(** ** Bytes and C strings *)

Definition byte_of (c : ascii) : Z := Z.of_N (N_of_ascii c).

Definition bytes_of (s : string) : list Z := map byte_of (list_ascii_of_string s).

Definition strlen (s : string) : Z := Z.of_nat (String.length s).

Module XXH3.

(** *** [xxh3.h] *)

Definition XXH3_STRIPE_LEN : Z := 64.
Definition XXH3_SECRET_CONSUME_RATE : Z := 8.
Definition XXH3_ACC_NB : Z := 8.
Definition XXH3_SECRET_DEFAULT_SIZE : Z := 192.
Definition XXH3_SECRET_SIZE_MIN : Z := 136.

Definition XXH3_PRIME32_1 : Z := 0x9E3779B1.
Definition XXH3_PRIME32_2 : Z := 0x85EBCA77.
Definition XXH3_PRIME32_3 : Z := 0xC2B2AE3D.

Definition XXH3_PRIME64_1 : Z := 0x9E3779B185EBCA87.
Definition XXH3_PRIME64_2 : Z := 0xC2B2AE3D27D4EB4F.
Definition XXH3_PRIME64_3 : Z := 0x165667B19E3779F9.
Definition XXH3_PRIME64_4 : Z := 0x85EBCA77C2B2AE63.
Definition XXH3_PRIME64_5 : Z := 0x27D4EB2F165667C5.

Definition xxh3_kSecret : list Z :=
  [ 0xb8; 0xfe; 0x6c; 0x39; 0x23; 0xa4; 0x4b; 0xbe; 0x7c; 0x01; 0x81; 0x2c;
    0xf7; 0x21; 0xad; 0x1c; 0xde; 0xd4; 0x6d; 0xe9; 0x83; 0x90; 0x97; 0xdb;
    0x72; 0x40; 0xa4; 0xa4; 0xb7; 0xb3; 0x67; 0x1f; 0xcb; 0x79; 0xe6; 0x4e;
    0xcc; 0xc0; 0xe5; 0x78; 0x82; 0x5a; 0xd0; 0x7d; 0xcc; 0xff; 0x72; 0x21;
    0xb8; 0x08; 0x46; 0x74; 0xf7; 0x43; 0x24; 0x8e; 0xe0; 0x35; 0x90; 0xe6;
    0x81; 0x3a; 0x26; 0x4c; 0x3c; 0x28; 0x52; 0xbb; 0x91; 0xc3; 0x00; 0xcb;
    0x88; 0xd0; 0x65; 0x8b; 0x1b; 0x53; 0x2e; 0xa3; 0x71; 0x64; 0x48; 0x97;
    0xa2; 0x0d; 0xf9; 0x4e; 0x38; 0x19; 0xef; 0x46; 0xa9; 0xde; 0xac; 0xd8;
    0xa8; 0xfa; 0x76; 0x3f; 0xe3; 0x9c; 0x34; 0x3f; 0xf9; 0xdc; 0xbb; 0xc7;
    0xc7; 0x0b; 0x4f; 0x1d; 0x8a; 0x51; 0xe0; 0x4b; 0xcd; 0xb4; 0x59; 0x31;
    0xc8; 0x9f; 0x7e; 0xc9; 0xd9; 0x78; 0x73; 0x64; 0xea; 0xc5; 0xac; 0x83;
    0x34; 0xd3; 0xeb; 0xc3; 0xc5; 0x81; 0xa0; 0xff; 0xfa; 0x13; 0x63; 0xeb;
    0x17; 0x0d; 0xdd; 0x51; 0xb7; 0xf0; 0xda; 0x49; 0xd3; 0x16; 0x55; 0x26;
    0x29; 0xd4; 0x68; 0x9e; 0x2b; 0x16; 0xbe; 0x58; 0x7d; 0x47; 0xa1; 0xfc;
    0x8f; 0xf8; 0xb8; 0xd1; 0x7a; 0xd0; 0x31; 0xce; 0x45; 0xcb; 0x3a; 0x8f;
    0x95; 0x16; 0x04; 0x28; 0xaf; 0xd7; 0xfb; 0xca; 0xbb; 0x4b; 0x40; 0x7e ].

(** A pointer into a byte buffer is the buffer and an offset; [p[i]]. *)
Definition at_ (p : list Z) (off : Z) : Z := nth (Z.to_nat off) p 0.

Definition xxh3_swap32 (x : Z) : Z :=
  Z.lor (Z.lor (Z.lor
    (Z.land (u32 (Z.shiftl x 24)) 0xff000000)
    (Z.land (u32 (Z.shiftl x 8)) 0x00ff0000))
    (Z.land (Z.shiftr x 8) 0x0000ff00))
    (Z.land (Z.shiftr x 24) 0x000000ff).

Definition xxh3_readLE32 (p : list Z) (off : Z) : Z :=
  Z.lor (Z.lor (Z.lor
    (at_ p off)
    (Z.shiftl (at_ p (off + 1)) 8))
    (Z.shiftl (at_ p (off + 2)) 16))
    (Z.shiftl (at_ p (off + 3)) 24).

Definition xxh3_swap64 (x : Z) : Z :=
  Z.lor (Z.lor (Z.lor (Z.lor (Z.lor (Z.lor (Z.lor
    (Z.land (u64 (Z.shiftl x 56)) 0xff00000000000000)
    (Z.land (u64 (Z.shiftl x 40)) 0x00ff000000000000))
    (Z.land (u64 (Z.shiftl x 24)) 0x0000ff0000000000))
    (Z.land (u64 (Z.shiftl x 8)) 0x000000ff00000000))
    (Z.land (Z.shiftr x 8) 0x00000000ff000000))
    (Z.land (Z.shiftr x 24) 0x0000000000ff0000))
    (Z.land (Z.shiftr x 40) 0x000000000000ff00))
    (Z.land (Z.shiftr x 56) 0x00000000000000ff).

Definition xxh3_readLE64 (p : list Z) (off : Z) : Z :=
  Z.lor (xxh3_readLE32 p off) (Z.shiftl (xxh3_readLE32 p (off + 4)) 32).

(** Both preprocessor branches of [xxh3_mul128_fold64] compute the two
    halves of the exact 128-bit product and xor them. *)
Definition xxh3_mul128_fold64 (lhs rhs : Z) : Z :=
  let product := lhs * rhs in
  Z.lxor (Z.shiftr product 64) (u64 product).

Definition xxh3_XXH64_avalanche (h : Z) : Z :=
  let h := u64 (Z.lxor h (Z.shiftr h 33) * XXH3_PRIME64_2) in
  let h := u64 (Z.lxor h (Z.shiftr h 29) * XXH3_PRIME64_3) in
  Z.lxor h (Z.shiftr h 32).

Definition xxh3_XXH3_avalanche (h : Z) : Z :=
  let h := u64 (Z.lxor h (Z.shiftr h 37) * 0x165667919E3779F9) in
  Z.lxor h (Z.shiftr h 32).

Definition xxh3_rrmxmx (h len : Z) : Z :=
  let h := Z.lxor h (Z.lxor
             (Z.lor (u64 (Z.shiftl h 49)) (Z.shiftr h 15))
             (Z.lor (u64 (Z.shiftl h 24)) (Z.shiftr h 40))) in
  let h := u64 (h * 0x9FB21C651E98DF25) in
  let h := Z.lxor h (u64 (Z.shiftr h 35 + len)) in
  let h := u64 (h * 0x9FB21C651E98DF25) in
  Z.lxor h (Z.shiftr h 28).

Definition xxh3_mix16B (inp : list Z) (ioff : Z) (sec : list Z) (soff : Z)
    (seed : Z) : Z :=
  xxh3_mul128_fold64
    (Z.lxor (xxh3_readLE64 inp ioff) (u64 (xxh3_readLE64 sec soff + seed)))
    (Z.lxor (xxh3_readLE64 inp (ioff + 8))
            (u64 (xxh3_readLE64 sec (soff + 8) - seed))).

(** [acc[i] = v] on the eight-lane accumulator. *)
Definition acc_set (acc : list Z) (i : Z) (v : Z) : list Z :=
  <[Z.to_nat i := v]> acc.

Definition xxh3_accumulate_512 (acc : list Z) (inp : list Z) (ioff : Z)
    (sec : list Z) (soff : Z) : list Z :=
  fold_left
    (fun acc i =>
       let data_val := xxh3_readLE64 inp (ioff + 8 * i) in
       let data_key := Z.lxor data_val (xxh3_readLE64 sec (soff + i * 8)) in
       let acc := acc_set acc (Z.lxor i 1)
                    (u64 (at_ acc (Z.lxor i 1) + data_val)) in
       acc_set acc i (u64 (at_ acc i + u32 data_key * Z.shiftr data_key 32)))
    (seqZ 0 XXH3_ACC_NB) acc.

Definition xxh3_hashLong_64b_internal (inp : list Z) (len : Z)
    (sec : list Z) (secretSize : Z) : Z :=
  let acc := [ XXH3_PRIME32_3; XXH3_PRIME64_1; XXH3_PRIME64_2; XXH3_PRIME64_3;
               XXH3_PRIME64_4; XXH3_PRIME32_2; XXH3_PRIME64_5; XXH3_PRIME32_1 ] in
  let nbStripesPerBlock :=
    (secretSize - XXH3_STRIPE_LEN) / XXH3_SECRET_CONSUME_RATE in
  let block_len := XXH3_STRIPE_LEN * nbStripesPerBlock in
  let nb_blocks := (len - 1) / block_len in
  let acc :=
    fold_left
      (fun acc n =>
         let acc :=
           fold_left
             (fun acc i =>
                xxh3_accumulate_512 acc
                  inp (n * block_len + i * XXH3_STRIPE_LEN)
                  sec (i * XXH3_SECRET_CONSUME_RATE))
             (seqZ 0 nbStripesPerBlock) acc in
         fold_left
           (fun acc i =>
              acc_set acc i
                (u64 (Z.lxor (Z.lxor (at_ acc i) (Z.shiftr (at_ acc i) 47))
                        (xxh3_readLE64 sec
                           (secretSize - XXH3_STRIPE_LEN + 8 * i))
                      * XXH3_PRIME32_1)))
           (seqZ 0 XXH3_ACC_NB) acc)
      (seqZ 0 nb_blocks) acc in
  let nbStripes := ((len - 1) - block_len * nb_blocks) / XXH3_STRIPE_LEN in
  let acc :=
    fold_left
      (fun acc i =>
         xxh3_accumulate_512 acc
           inp (nb_blocks * block_len + i * XXH3_STRIPE_LEN)
           sec (i * XXH3_SECRET_CONSUME_RATE))
      (seqZ 0 nbStripes) acc in
  let acc :=
    xxh3_accumulate_512 acc inp (len - XXH3_STRIPE_LEN)
      sec (secretSize - XXH3_STRIPE_LEN - 7) in
  let result :=
    fold_left
      (fun result i =>
         u64 (result +
              xxh3_mul128_fold64
                (Z.lxor (at_ acc (2 * i)) (xxh3_readLE64 sec (11 + 16 * i)))
                (Z.lxor (at_ acc (2 * i + 1))
                        (xxh3_readLE64 sec (11 + 16 * i + 8)))))
      (seqZ 0 4) (u64 (len * XXH3_PRIME64_1)) in
  xxh3_XXH3_avalanche result.

(** The [for (i = 0, j = len; j > i; i += 16, j -= 16)] loop of the
    17..128 byte case; it runs at most four times. *)
Fixpoint mix_loop (fuel : nat) (inp sec : list Z) (seed : Z)
    (i j secret_off acc : Z) : Z :=
  match fuel with
  | O => acc
  | S fuel =>
      if j >? i then
        let acc := u64 (acc + xxh3_mix16B inp i sec secret_off seed) in
        let acc := u64 (acc + xxh3_mix16B inp (j - 16) sec (secret_off + 16) seed) in
        mix_loop fuel inp sec seed (i + 16) (j - 16) (secret_off + 32) acc
      else acc
  end.

Definition xxh3_XXH3_64bits_internal (inp : list Z) (len : Z) (seed : Z)
    (sec : list Z) (secretLen : Z)
    (f_hashLong : list Z -> Z -> Z -> list Z -> Z -> Z) : Z :=
  if len =? 0 then
    xxh3_XXH64_avalanche
      (Z.lxor seed (Z.lxor (xxh3_readLE64 sec 56) (xxh3_readLE64 sec 64)))
  else if len <? 4 then
    let keyed :=
      Z.lxor
        (Z.lor (Z.lor (Z.lor
           (Z.shiftl (at_ inp 0) 16)
           (Z.shiftl (at_ inp (Z.shiftr len 1)) 24))
           (at_ inp (len - 1)))
           (Z.shiftl (u32 len) 8))
        (u64 (Z.lxor (xxh3_readLE32 sec 0) (xxh3_readLE32 sec 4) + seed)) in
    xxh3_XXH64_avalanche keyed
  else if len <=? 8 then
    let keyed :=
      Z.lxor
        (u64 (xxh3_readLE32 inp (len - 4) + Z.shiftl (xxh3_readLE32 inp 0) 32))
        (u64 (Z.lxor (xxh3_readLE64 sec 8) (xxh3_readLE64 sec 16)
              - Z.lxor seed (u64 (Z.shiftl (xxh3_swap32 (u32 seed)) 32)))) in
    xxh3_rrmxmx keyed len
  else if len <=? 16 then
    let input_lo :=
      Z.lxor (xxh3_readLE64 inp 0)
        (u64 (Z.lxor (xxh3_readLE64 sec 24) (xxh3_readLE64 sec 32) + seed)) in
    let input_hi :=
      Z.lxor (xxh3_readLE64 inp (len - 8))
        (u64 (Z.lxor (xxh3_readLE64 sec 40) (xxh3_readLE64 sec 48) - seed)) in
    let acc :=
      u64 (len + xxh3_swap64 input_lo + input_hi
           + xxh3_mul128_fold64 input_lo input_hi) in
    xxh3_XXH3_avalanche acc
  else if len <=? 128 then
    let acc := u64 (len * XXH3_PRIME64_1) in
    xxh3_XXH3_avalanche (mix_loop 8 inp sec seed 0 len 0 acc)
  else if len <=? 240 then
    let acc := u64 (len * XXH3_PRIME64_1) in
    let acc :=
      fold_left
        (fun acc k => u64 (acc + xxh3_mix16B inp (16 * k) sec (16 * k) seed))
        (seqZ 0 8) acc in
    let acc := xxh3_XXH3_avalanche acc in
    let acc :=
      fold_left
        (fun acc k =>
           let i := 128 + 16 * k in
           u64 (acc + xxh3_mix16B inp i sec ((i - 128) + 3) seed))
        (seqZ 0 ((len / 16 * 16 - 128) / 16)) acc in
    let acc :=
      u64 (acc + xxh3_mix16B inp (len - 16) sec (XXH3_SECRET_SIZE_MIN - 17) seed) in
    xxh3_XXH3_avalanche acc
  else
    f_hashLong inp len seed sec secretLen.

Definition xxh3_hashLong_default_secret (inp : list Z) (len : Z) (seed : Z)
    (secret : list Z) (secretLen : Z) : Z :=
  xxh3_hashLong_64b_internal inp len xxh3_kSecret
    (Z.of_nat (length xxh3_kSecret)).

Definition xxh3_XXH3_64bits_const (inp : list Z) (len : Z) : Z :=
  xxh3_XXH3_64bits_internal inp len 0 xxh3_kSecret
    (Z.of_nat (length xxh3_kSecret)) xxh3_hashLong_default_secret.

End XXH3.

(** [#define xxh3(x, len) xxh3_XXH3_64bits_const(x, len)], always called as
    [xxh3(s, strlen(s))]. *)
Definition xxh3 (s : string) : Z :=
  XXH3.xxh3_XXH3_64bits_const (bytes_of s) (strlen s).

(** ** Single-precision floats

    [float] is IEEE-754 binary32, taken from the Standard Library's
    executable specification [SpecFloat] at precision 24 and maximal
    exponent 128. *)

Definition float : Type := spec_float.

Definition float_prec : Z := 24.
Definition float_emax : Z := 128.

Definition float_zero : float := S754_zero false.
Definition float_one : float := S754_finite false 8388608 (-23).
(** [99.0f] is [12976128 * 2^-17]. *)
Definition float_99 : float := S754_finite false 12976128 (-17).

(** [(float)x] for a [uint64_t] [x]: round to nearest, ties to even, on a
    24-bit significand.  No 64-bit integer overflows the binary32 range. *)
Definition float_of_u64 (x : Z) : float :=
  if x <=? 0 then float_zero
  else
    let d := Z.log2 x + 1 in
    if d <=? float_prec then
      S754_finite false (Z.to_pos (x * 2 ^ (float_prec - d))) (d - float_prec)
    else
      let sh := d - float_prec in
      let q := x / 2 ^ sh in
      let r := x mod 2 ^ sh in
      let half := 2 ^ (sh - 1) in
      let q' := if (r >? half) || ((r =? half) && Z.odd q) then q + 1 else q in
      if q' =? 2 ^ float_prec
      then S754_finite false (Z.to_pos (2 ^ (float_prec - 1))) (sh + 1)
      else S754_finite false (Z.to_pos q') sh.

Definition float_div (a b : float) : float := SFdiv float_prec float_emax a b.

(** [a > b] on floats; false when either side is a NaN. *)
Definition float_gt (a b : float) : bool := SFltb b a.

Definition fabsf (x : float) : float := SFabs x.
Definition float_neg (x : float) : float := SFopp x.

(** ** The C library on strings *)

Definition is_upper (c : ascii) : bool :=
  (65 <=? byte_of c) && (byte_of c <=? 90).

(** [tolower] in the "C" locale. *)
Definition tolower (c : ascii) : ascii :=
  if is_upper c then ascii_of_N (N_of_ascii c + 32) else c.

Fixpoint str_tolower (str : string) : string :=
  match str with
  | EmptyString => EmptyString
  | String c rest => String (tolower c) (str_tolower rest)
  end.

(** The first [n] bytes of [s] (all of [s] when it is shorter). *)
Fixpoint str_take (n : nat) (s : string) : string :=
  match n, s with
  | S n, String c rest => String c (str_take n rest)
  | _, _ => EmptyString
  end.

(** [s] up to, and without, its first byte satisfying [stop]:
    what [s[strcspn(s, set)] = 0] leaves. *)
Fixpoint str_until (stop : ascii -> bool) (s : string) : string :=
  match s with
  | EmptyString => EmptyString
  | String c rest => if stop c then EmptyString else String c (str_until stop rest)
  end.

Definition is_nul (c : ascii) : bool := byte_of c =? 0.
Definition is_crlf (c : ascii) : bool := (byte_of c =? 13) || (byte_of c =? 10).
Definition is_blank (c : ascii) : bool := (byte_of c =? 32) || (byte_of c =? 9).
(** [isspace] in the "C" locale. *)
Definition isspace (c : ascii) : bool :=
  (byte_of c =? 32) || ((9 <=? byte_of c) && (byte_of c <=? 13)).
Definition isdigit (c : ascii) : bool :=
  (48 <=? byte_of c) && (byte_of c <=? 57).

(** A buffer read as a C string ends at its first NUL. *)
Definition c_str (s : string) : string := str_until is_nul s.

(** [strncpy(dst, src, n); dst[n] = 0] for a [dst] of [n + 1] bytes. *)
Definition strncpy (src : string) (n : nat) : string := str_take n (c_str src).

(** [strncpy(dst, src, n)] alone, with [dst] then read as a C string.  A
    [src] of fewer than [n] bytes is copied and padded with zero bytes.
    Otherwise [dst] receives [n] bytes and no terminator, and the string
    read from it runs on into [rest], the bytes that follow in memory. *)
Definition strncpy_open (src : string) (n : nat) (rest : string) : string :=
  if (String.length (c_str src) <? n)%nat then c_str src
  else str_take n (c_str src) ++ c_str rest.

(** [snprintf(buf, size, "%.*s", precision, s)]: a negative precision is
    taken as if it were omitted, and at most [size - 1] bytes are written. *)
Definition snprintf_prec (size : nat) (precision : Z) (s : string) : string :=
  let s := if precision <? 0 then s else str_take (Z.to_nat precision) s in
  str_take (size - 1) s.

(** Successive [fgets(line, size, fp)] calls over the bytes of a file: each
    call returns at most [size - 1] bytes and stops after a newline.  [room]
    counts the bytes the current call may still take, [cur] holds those it
    has taken. *)
Fixpoint fgets_all (size : nat) (file : string) (room : nat) (cur : string)
    : list string :=
  match file with
  | EmptyString => if String.eqb cur "" then [] else [cur]
  | String c rest =>
      let cur' := cur ++ String c "" in
      if (byte_of c =? 10) || (room <=? 1)%nat
      then cur' :: fgets_all size rest (size - 1) ""
      else fgets_all size rest (room - 1) cur'
  end.

(** All tokens [strtok(line, " \t")], [strtok(NULL, " \t")], ... yield. *)
Fixpoint strtok_all (delim : ascii -> bool) (s : string) (cur : string)
    : list string :=
  match s with
  | EmptyString => if String.eqb cur "" then [] else [cur]
  | String c rest =>
      if delim c
      then ((if String.eqb cur "" then [] else [cur]) ++ strtok_all delim rest "")%list
      else strtok_all delim rest (cur ++ String c "")
  end.

Fixpoint skip_space (s : string) : string :=
  match s with
  | String c rest => if isspace c then skip_space rest else s
  | EmptyString => EmptyString
  end.

(** The value of the leading decimal digits of [s], unbounded. *)
Fixpoint digits_value (s : string) (acc : Z) : Z :=
  match s with
  | String c rest =>
      if isdigit c then digits_value rest (acc * 10 + (byte_of c - 48)) else acc
  | EmptyString => acc
  end.

Definition ULLONG_MAX : Z := 2 ^ 64 - 1.

(** [strtoull(s, NULL, 10)]: leading white space, an optional sign, decimal
    digits; 0 without digits, [ULLONG_MAX] on overflow, and a minus sign
    negates the value as an unsigned 64-bit number. *)
Definition strtoull (s : string) : Z :=
  let s := skip_space s in
  let '(negative, s) :=
    match s with
    | String "-"%char rest => (true, rest)
    | String "+"%char rest => (false, rest)
    | _ => (false, s)
    end in
  let v := digits_value s 0 in
  if v >? ULLONG_MAX then ULLONG_MAX
  else if negative then u64 (- v) else v.

(** ** [symspell.c]: constants *)

Definition SYMSPELL_MAX_EDIT_DISTANCE : Z := 3.
Definition SYMSPELL_MAX_TERM_LENGTH : Z := 128.
Definition INITIAL_ENTRY_CAPACITY : Z := 4.
Definition DELETE_QUEUE_CAPACITY : Z := 10000.
Definition MAX_LINE_BUFFER : Z := 512.
Definition MAX_PARTS_PER_LINE : Z := 10.
Definition MAX_CANDIDATES_PER_LOOKUP : Z := 10000.

Definition STRING_ARENA_SIZE : Z := 128 * 1024 * 1024.
Definition ENTRY_ARENA_SIZE : Z := 128 * 1024 * 1024.

Definition TABLE_SIZE_D1 : Z := 524287.
Definition TABLE_SIZE_D2 : Z := 4194301.
Definition TABLE_SIZE_D3 : Z := 33554393.

Definition EXACT_MATCH_TABLE_SIZE : Z := 524287.

(** [sizeof(delete_entry_t)] on an LP64 target: three pointers and two
    [size_t]. *)
Definition sizeof_delete_entry_t : Z := 40.

(** ** Outcomes

    A call either returns or ends the process through [exit(status)]. *)

Inductive result (A : Type) : Type :=
  | Ret (a : A)
  | Exit (status : Z).
Arguments Ret {A} a.
Arguments Exit {A} status.

Definition bind {A B : Type} (m : result A) (k : A -> result B) : result B :=
  match m with
  | Ret a => k a
  | Exit status => Exit status
  end.

Notation "'do' x <- m ; k" := (bind m (fun x => k))
  (at level 10, x pattern, m at level 100, k at level 200).

(** ** Data *)

Record arena_t := {
  capacity : Z;
  used : Z
}.

Record delete_entry_t := {
  delete_str : string;
  words : list string;
  frequencies : list Z;
  entry_capacity : Z
}.

(** [entry->count]: the arrays [words] and [frequencies] are modelled by
    their first [count] elements. *)
Definition count (entry : delete_entry_t) : Z := Z.of_nat (length (words entry)).

Record exact_match_table_t := {
  hashes : gmap Z Z;
  exact_frequencies : gmap Z Z;
  probabilities : gmap Z float;
  iwf : gmap Z float;
  exact_table_size : Z
}.

Record symspell_dict_t := {
  table : gmap Z delete_entry_t;
  exact_table : exact_match_table_t;
  table_size : Z;
  max_edit_distance : Z;
  prefix_length : Z;
  word_count : Z;
  entry_count : Z;
  string_arena : arena_t;
  entry_arena : arena_t;
  delete_buffer_capacity : Z
}.

Record symspell_suggestion_t := {
  term : string;
  distance : Z;
  frequency : Z;
  probability : float;
  suggestion_iwf : float
}.

(** Reading a slot of a calloc'ed array. *)
Definition slotZ (a : gmap Z Z) (i : Z) : Z := default 0 (a !! i).
Definition slotF (a : gmap Z float) (i : Z) : float := default float_zero (a !! i).

Definition set_exact_table (dict : symspell_dict_t) (t : exact_match_table_t)
    : symspell_dict_t :=
  {| table := table dict; exact_table := t; table_size := table_size dict;
     max_edit_distance := max_edit_distance dict;
     prefix_length := prefix_length dict; word_count := word_count dict;
     entry_count := entry_count dict; string_arena := string_arena dict;
     entry_arena := entry_arena dict;
     delete_buffer_capacity := delete_buffer_capacity dict |}.

Definition set_table (dict : symspell_dict_t) (t : gmap Z delete_entry_t)
    : symspell_dict_t :=
  {| table := t; exact_table := exact_table dict; table_size := table_size dict;
     max_edit_distance := max_edit_distance dict;
     prefix_length := prefix_length dict; word_count := word_count dict;
     entry_count := entry_count dict; string_arena := string_arena dict;
     entry_arena := entry_arena dict;
     delete_buffer_capacity := delete_buffer_capacity dict |}.

Definition set_string_arena (dict : symspell_dict_t) (a : arena_t)
    : symspell_dict_t :=
  {| table := table dict; exact_table := exact_table dict;
     table_size := table_size dict;
     max_edit_distance := max_edit_distance dict;
     prefix_length := prefix_length dict; word_count := word_count dict;
     entry_count := entry_count dict; string_arena := a;
     entry_arena := entry_arena dict;
     delete_buffer_capacity := delete_buffer_capacity dict |}.

Definition set_entry_arena (dict : symspell_dict_t) (a : arena_t)
    : symspell_dict_t :=
  {| table := table dict; exact_table := exact_table dict;
     table_size := table_size dict;
     max_edit_distance := max_edit_distance dict;
     prefix_length := prefix_length dict; word_count := word_count dict;
     entry_count := entry_count dict; string_arena := string_arena dict;
     entry_arena := a;
     delete_buffer_capacity := delete_buffer_capacity dict |}.

Definition set_word_count (dict : symspell_dict_t) (n : Z) : symspell_dict_t :=
  {| table := table dict; exact_table := exact_table dict;
     table_size := table_size dict;
     max_edit_distance := max_edit_distance dict;
     prefix_length := prefix_length dict; word_count := n;
     entry_count := entry_count dict; string_arena := string_arena dict;
     entry_arena := entry_arena dict;
     delete_buffer_capacity := delete_buffer_capacity dict |}.

Definition set_entry_count (dict : symspell_dict_t) (n : Z) : symspell_dict_t :=
  {| table := table dict; exact_table := exact_table dict;
     table_size := table_size dict;
     max_edit_distance := max_edit_distance dict;
     prefix_length := prefix_length dict; word_count := word_count dict;
     entry_count := n; string_arena := string_arena dict;
     entry_arena := entry_arena dict;
     delete_buffer_capacity := delete_buffer_capacity dict |}.

(** ** Arena allocator *)

(** [arena_alloc]: the returned pointer is not modelled, only the bump of
    [used]; when the request does not fit the process exits with status 1. *)
Definition arena_alloc (arena : arena_t) (size : Z) : result arena_t :=
  let align_mask := 7 in
  let aligned_used :=
    Z.land (u64 (used arena + align_mask)) (u64 (Z.lnot align_mask)) in
  if u64 (aligned_used + size) >? capacity arena then Exit 1
  else Ret {| capacity := capacity arena; used := u64 (aligned_used + size) |}.

Definition arena_calloc (arena : arena_t) (num size : Z) : result arena_t :=
  arena_alloc arena (u64 (num * size)).

Definition arena_strdup (arena : arena_t) (s : string) : result arena_t :=
  let len := strlen s + 1 in
  arena_alloc arena len.

(** ** Damerau-Levenshtein distance *)

Definition char_at (s : string) (i : Z) : ascii :=
  default zero (String.get (Z.to_nat i) s).

Definition cell (row : list Z) (j : Z) : Z := nth (Z.to_nat j) row 0.

(** [d[i][j]] from the rows [i-2] and [i-1] and the part of row [i] already
    filled. *)
Definition edit_cell (s1 s2 : string) (i j : Z) (prev2 prev cur : list Z) : Z :=
  let cost := if Ascii.eqb (char_at s1 (i - 1)) (char_at s2 (j - 1)) then 0 else 1 in
  let delete_cost := cell prev j + 1 in
  let insert_cost := cell cur (j - 1) + 1 in
  let subst_cost := cell prev (j - 1) + cost in
  let d := if delete_cost <? insert_cost then delete_cost else insert_cost in
  let d := if subst_cost <? d then subst_cost else d in
  if (i >? 1) && (j >? 1)
     && Ascii.eqb (char_at s1 (i - 1)) (char_at s2 (j - 2))
     && Ascii.eqb (char_at s1 (i - 2)) (char_at s2 (j - 1))
  then
    let trans_cost := cell prev2 (j - 2) + 1 in
    if trans_cost <? d then trans_cost else d
  else d.

Definition edit_row (s1 s2 : string) (i : Z) (prev2 prev : list Z) : list Z :=
  fold_left (fun cur j => (cur ++ [edit_cell s1 s2 i j prev2 prev cur])%list)
    (seqZ 1 (strlen s2)) [i].

Definition min_in_row (row : list Z) : Z :=
  fold_left (fun m x => if x <? m then x else m) (tl row) (cell row 0).

(** The loop over the rows [i = 1 .. len1]; [None] is the early
    [return max_distance + 1]. *)
Fixpoint edit_rows (s1 s2 : string) (max_distance : Z) (rows : list Z)
    (prev2 prev : list Z) : option (list Z) :=
  match rows with
  | [] => Some prev
  | i :: rows =>
      let cur := edit_row s1 s2 i prev2 prev in
      if min_in_row cur >? max_distance then None
      else edit_rows s1 s2 max_distance rows prev cur
  end.

Definition edit_distance (s1 s2 : string) (max_distance : Z) : Z :=
  let len1 := strlen s1 in
  let len2 := strlen s2 in
  if (len1 >=? SYMSPELL_MAX_TERM_LENGTH) || (len2 >=? SYMSPELL_MAX_TERM_LENGTH)
  then max_distance + 1
  else if Z.abs (len1 - len2) >? max_distance then max_distance + 1
  else
    match edit_rows s1 s2 max_distance (seqZ 1 len1) [] (seqZ 0 (len2 + 1)) with
    | None => max_distance + 1
    | Some last => cell last len2
    end.

(** ** Delete enumeration *)

Record queue_item_t := {
  str : string;
  item_distance : Z
}.

(** The enumerator's working state.  [deletes_out] holds the first
    [delete_count] output slots; [uniq_set] is the [hash.h] table, which
    without deletions is a finite set of keys; [pending] is
    [queue[queue_start .. queue_end)]. *)
Record deletes_state := {
  deletes_out : list string;
  uniq_set : gset string;
  pending : list queue_item_t;
  queue_end : Z
}.

Definition delete_count (st : deletes_state) : Z :=
  Z.of_nat (length (deletes_out st)).

(** [ht_search(uniq_set, {key, NULL}, HT_FIND) != NULL] *)
Definition ht_find (t : gset string) (key : string) : bool := bool_decide (key ∈ t).
(** [ht_search(uniq_set, {key, 1}, HT_ENTER)] *)
Definition ht_enter (t : gset string) (key : string) : gset string := {[ key ]} ∪ t.

(** Emit [s] unless it was seen before or the output buffer is full. *)
Definition emit (max_deletes : Z) (s : string) (st : deletes_state) : deletes_state :=
  if ht_find (uniq_set st) s then st
  else if delete_count st <? max_deletes then
    {| deletes_out := (deletes_out st ++ [s])%list;
       uniq_set := ht_enter (uniq_set st) s;
       pending := pending st;
       queue_end := queue_end st |}
  else st.

(** [current.str] without its byte [i]. *)
Fixpoint str_remove (i : nat) (s : string) : string :=
  match s with
  | EmptyString => EmptyString
  | String c rest =>
      match i with
      | O => rest
      | S i => String c (str_remove i rest)
      end
  end.

(** The body of [for (int i = 0; i < cur_len; i++)]. *)
Definition delete_step (max_deletes : Z) (current : queue_item_t)
    (st : deletes_state) (i : nat) : deletes_state :=
  let deleted := str_remove i (str current) in
  let st := emit max_deletes deleted st in
  if queue_end st <? DELETE_QUEUE_CAPACITY then
    let in_queue := existsb (fun q => String.eqb (str q) deleted) (pending st) in
    if in_queue then st
    else
      {| deletes_out := deletes_out st;
         uniq_set := uniq_set st;
         pending := (pending st ++
                    [ {| str := deleted; item_distance := item_distance current + 1 |} ])%list;
         queue_end := queue_end st + 1 |}
  else st.

(** [while (queue_start < queue_end && delete_count < max_deletes)].  Every
    round takes one item off the queue and the queue never holds more than
    [DELETE_QUEUE_CAPACITY] items over its life, which bounds the rounds. *)
Fixpoint deletes_loop (fuel : nat) (max_distance max_deletes : Z)
    (st : deletes_state) : deletes_state :=
  match fuel with
  | O => st
  | S fuel =>
      match pending st with
      | [] => st
      | current :: rest =>
          if delete_count st <? max_deletes then
            let st := {| deletes_out := deletes_out st; uniq_set := uniq_set st;
                         pending := rest; queue_end := queue_end st |} in
            let cur_len := strlen (str current) in
            if (item_distance current >=? max_distance) || (cur_len <=? 1)
            then deletes_loop fuel max_distance max_deletes st
            else
              deletes_loop fuel max_distance max_deletes
                (fold_left (delete_step max_deletes current)
                   (seq 0 (Z.to_nat cur_len)) st)
          else st
      end
  end.

(** The prefix the enumeration starts from. *)
Definition delete_prefix (word : string) (prefix_length : Z) : string :=
  let word_len := strlen word in
  snprintf_prec (Z.to_nat SYMSPELL_MAX_TERM_LENGTH)
    (if word_len >? prefix_length then prefix_length else word_len) word.

Definition _generate_all_deletes_reuse (word : string)
    (max_distance prefix_length : Z) (max_deletes : Z) : list string :=
  let word_len := strlen word in
  if word_len =? 0 then []
  else
    let prefix := delete_prefix word prefix_length in
    let prefix_len := strlen prefix in
    let st := {| deletes_out := []; uniq_set := ∅; pending := []; queue_end := 0 |} in
    let st :=
      if (prefix_len <=? max_distance) && (delete_count st <? max_deletes)
      then emit max_deletes "" st else st in
    let st :=
      if delete_count st <? max_deletes then emit max_deletes prefix st else st in
    let st := {| deletes_out := deletes_out st; uniq_set := uniq_set st;
                 pending := [ {| str := prefix; item_distance := 0 |} ];
                 queue_end := 1 |} in
    deletes_out
      (deletes_loop (Z.to_nat DELETE_QUEUE_CAPACITY) max_distance max_deletes st).

(** ** Delete index *)

(** [add_to_entry]'s first loop: the index of [word] in [entry->words]. *)
Fixpoint find_word (ws : list string) (word : string) (i : nat) : option nat :=
  match ws with
  | [] => None
  | w :: ws => if String.eqb w word then Some i else find_word ws word (S i)
  end.

(** [add_to_entry]: the entry is updated through the pointer, so the updated
    entry is returned next to the dictionary (whose string arena grows). *)
Definition add_to_entry (dict : symspell_dict_t) (entry : delete_entry_t)
    (word : string) (freq : Z) : result (bool * symspell_dict_t * delete_entry_t) :=
  match find_word (words entry) word 0 with
  | Some i =>
      let old := nth i (frequencies entry) 0 in
      let entry :=
        if freq >? old
        then {| delete_str := delete_str entry; words := words entry;
                frequencies := <[i := freq]> (frequencies entry);
                entry_capacity := entry_capacity entry |}
        else entry in
      Ret (true, dict, entry)
  | None =>
      let new_cap :=
        if count entry >=? entry_capacity entry
        then (if entry_capacity entry =? 0 then INITIAL_ENTRY_CAPACITY
              else u64 (entry_capacity entry * 2))
        else entry_capacity entry in
      do arena <- arena_strdup (string_arena dict) word;
      Ret (true, set_string_arena dict arena,
           {| delete_str := delete_str entry;
              words := (words entry ++ [word])%list;
              frequencies := (frequencies entry ++ [freq])%list;
              entry_capacity := new_cap |})
  end.

(** The probe loop of [add_delete], [i] running over [0 .. table_size). *)
Fixpoint add_delete_loop (fuel : nat) (dict : symspell_dict_t) (hash : Z)
    (i : Z) (delete_s word : string) (freq : Z)
    : result (bool * symspell_dict_t) :=
  match fuel with
  | O => Ret (false, dict)
  | S fuel =>
      let idx := u64 (hash + i) mod table_size dict in
      match table dict !! idx with
      | None =>
          do earena <- arena_calloc (entry_arena dict) 1 sizeof_delete_entry_t;
          let dict := set_entry_arena dict earena in
          do sarena <- arena_strdup (string_arena dict) delete_s;
          let dict := set_string_arena dict sarena in
          let entry := {| delete_str := delete_s; words := []; frequencies := [];
                          entry_capacity := 0 |} in
          do (ok, dict, entry) <- add_to_entry dict entry word freq;
          if negb ok then Ret (false, dict)
          else
            let dict := set_table dict (<[idx := entry]> (table dict)) in
            Ret (true, set_entry_count dict (u64 (entry_count dict + 1)))
      | Some entry =>
          if String.eqb (delete_str entry) delete_s then
            do (ok, dict, entry) <- add_to_entry dict entry word freq;
            Ret (ok, set_table dict (<[idx := entry]> (table dict)))
          else add_delete_loop fuel dict hash (i + 1) delete_s word freq
      end
  end.

Definition add_delete (dict : symspell_dict_t) (delete_s word : string)
    (freq : Z) : result (bool * symspell_dict_t) :=
  let hash := xxh3 delete_s in
  add_delete_loop (Z.to_nat (table_size dict)) dict hash 0 delete_s word freq.

(** The loop of [generate_deletes]; the result of [add_delete] is dropped. *)
Fixpoint add_deletes (dict : symspell_dict_t) (deletes : list string)
    (word : string) (freq : Z) : result symspell_dict_t :=
  match deletes with
  | [] => Ret dict
  | d :: deletes =>
      do (_, dict) <- add_delete dict d word freq;
      add_deletes dict deletes word freq
  end.

Definition generate_deletes (dict : symspell_dict_t) (word : string) (freq : Z)
    : result (bool * symspell_dict_t) :=
  let deletes :=
    _generate_all_deletes_reuse word (max_edit_distance dict)
      (prefix_length dict) (delete_buffer_capacity dict) in
  do dict <- add_deletes dict deletes word freq;
  Ret (true, dict).

(** ** Exact-match table *)

Definition set_hash_freq (t : exact_match_table_t) (pos h f : Z)
    : exact_match_table_t :=
  {| hashes := <[pos := h]> (hashes t);
     exact_frequencies := <[pos := f]> (exact_frequencies t);
     probabilities := probabilities t; iwf := iwf t;
     exact_table_size := exact_table_size t |}.

Definition set_freq (t : exact_match_table_t) (pos f : Z) : exact_match_table_t :=
  {| hashes := hashes t;
     exact_frequencies := <[pos := f]> (exact_frequencies t);
     probabilities := probabilities t; iwf := iwf t;
     exact_table_size := exact_table_size t |}.

(** The probe loop of [add_exact_match]. *)
Fixpoint add_exact_match_loop (fuel : nat) (t : exact_match_table_t)
    (idx word_hash freq probe : Z) : bool * exact_match_table_t :=
  match fuel with
  | O => (false, t)
  | S fuel =>
      let pos := (idx + probe) mod exact_table_size t in
      if slotZ (hashes t) pos =? 0 then
        (true, set_hash_freq t pos word_hash freq)
      else if slotZ (hashes t) pos =? word_hash then
        (true, if freq >? slotZ (exact_frequencies t) pos
               then set_freq t pos freq else t)
      else add_exact_match_loop fuel t idx word_hash freq (probe + 1)
  end.

Definition add_exact_match (dict : symspell_dict_t) (word : string) (freq : Z)
    : bool * symspell_dict_t :=
  let t := exact_table dict in
  let word_hash := xxh3 word in
  let idx := word_hash mod exact_table_size t in
  let '(ok, t) :=
    add_exact_match_loop (Z.to_nat (exact_table_size t)) t idx word_hash freq 0 in
  (ok, set_exact_table dict t).

(** ** Creation *)

(** The dictionary [symspell_create] builds once its argument check has
    passed: empty tables, empty arenas, the table size chosen by distance. *)
Definition create_dict (max_edit_dist prefix_len : Z) : symspell_dict_t :=
  {| table := ∅;
     exact_table :=
       {| hashes := ∅; exact_frequencies := ∅; probabilities := ∅;
          iwf := ∅; exact_table_size := EXACT_MATCH_TABLE_SIZE |};
     table_size :=
       if max_edit_dist =? 1 then TABLE_SIZE_D1
       else if max_edit_dist =? 2 then TABLE_SIZE_D2
       else TABLE_SIZE_D3;
     max_edit_distance := max_edit_dist;
     prefix_length := prefix_len;
     word_count := 0;
     entry_count := 0;
     string_arena := {| capacity := STRING_ARENA_SIZE; used := 0 |};
     entry_arena := {| capacity := ENTRY_ARENA_SIZE; used := 0 |};
     delete_buffer_capacity := DELETE_QUEUE_CAPACITY |}.

(** [symspell_create]; [None] is the [NULL] result. *)
Definition symspell_create (max_edit_dist prefix_len : Z)
    : option symspell_dict_t :=
  if (max_edit_dist <? 1) || (max_edit_dist >? SYMSPELL_MAX_EDIT_DISTANCE)
  then None
  else Some (create_dict max_edit_dist prefix_len).

(** ** Reading the dictionary file *)

(** One pass of the [while (fgets ...)] body up to the point where the line
    is either skipped ([None]) or admitted with its lowercased term and its
    frequency.  Reading [parts] at a negative index is undefined in C; the
    results below take both column indices non-negative. *)
Definition parse_line (line : string) (term_index count_index : Z)
    : option (string * Z) :=
  let line := str_until is_crlf (c_str line) in
  if strlen line =? 0 then None
  else
    let parts :=
      firstn (Z.to_nat MAX_PARTS_PER_LINE) (strtok_all is_blank line "") in
    let part_count := Z.of_nat (length parts) in
    if (part_count <=? term_index) || (part_count <=? count_index) then None
    else
      let term_s := nth (Z.to_nat term_index) parts "" in
      let freq := strtoull (nth (Z.to_nat count_index) parts "") in
      let freq := if freq =? 0 then 1 else freq in
      Some (str_tolower term_s, freq).

(** The rest of the loop body for an admitted line.  [max_freq] is the
    local variable of that name. *)
Definition ingest (dict : symspell_dict_t) (max_freq : Z) (term_s : string)
    (freq : Z) : result (symspell_dict_t * Z) :=
  let max_freq := if max_freq =? 0 then freq else max_freq in
  let '(_, dict) := add_exact_match dict term_s freq in
  do (_, dict) <- generate_deletes dict term_s freq;
  Ret (set_word_count dict (u64 (word_count dict + 1)), max_freq).

Fixpoint load_lines (lines : list string) (term_index count_index : Z)
    (dict : symspell_dict_t) (max_freq : Z) : result (symspell_dict_t * Z) :=
  match lines with
  | [] => Ret (dict, max_freq)
  | line :: lines =>
      match parse_line line term_index count_index with
      | None => load_lines lines term_index count_index dict max_freq
      | Some (term_s, freq) =>
          do (dict, max_freq) <- ingest dict max_freq term_s freq;
          load_lines lines term_index count_index dict max_freq
      end
  end.

Section Libm.

(** [logf] of the C mathematical library. *)
Variable logf : float -> float.

Definition calculate_iwf (probability : float) : float :=
  if float_gt probability float_zero
  then fabsf (float_neg (logf probability))
  else float_99.

(** The body of the final loop of [symspell_load_dictionary]. *)
Definition sweep_slot (max_freq : Z) (t : exact_match_table_t) (i : Z)
    : exact_match_table_t :=
  if negb (slotZ (hashes t) i =? 0) then
    let probability :=
      float_div (float_of_u64 (slotZ (exact_frequencies t) i))
                (float_of_u64 max_freq) in
    {| hashes := hashes t; exact_frequencies := exact_frequencies t;
       probabilities := <[i := probability]> (probabilities t);
       iwf := <[i := calculate_iwf probability]> (iwf t);
       exact_table_size := exact_table_size t |}
  else t.

(** [for (size_t i = 0; i < table_size; i++)], [fuel] rounds from [i]. *)
Fixpoint sweep_loop (fuel : nat) (max_freq : Z) (t : exact_match_table_t)
    (i : Z) : exact_match_table_t :=
  match fuel with
  | O => t
  | S fuel => sweep_loop fuel max_freq (sweep_slot max_freq t i) (i + 1)
  end.

Definition sweep (t : exact_match_table_t) (max_freq : Z) : exact_match_table_t :=
  sweep_loop (Z.to_nat (exact_table_size t)) max_freq t 0.

(** [symspell_load_dictionary]; [file] is the content [fopen] gives access
    to, [None] when the file cannot be opened. *)
Definition symspell_load_dictionary (dict : symspell_dict_t)
    (file : option string) (term_index count_index : Z)
    : result (bool * symspell_dict_t) :=
  match file with
  | None => Ret (false, dict)
  | Some content =>
      let lines :=
        fgets_all (Z.to_nat MAX_LINE_BUFFER) content
          (Z.to_nat MAX_LINE_BUFFER - 1) "" in
      do (dict, max_freq) <- load_lines lines term_index count_index dict 0;
      Ret (true, set_exact_table dict (sweep (exact_table dict) max_freq))
  end.

(** ** Lookup *)

Fixpoint symspell_get_probability_loop (fuel : nat) (t : exact_match_table_t)
    (idx word_hash probe : Z) : float :=
  match fuel with
  | O => float_zero
  | S fuel =>
      let pos := (idx + probe) mod exact_table_size t in
      if slotZ (hashes t) pos =? 0 then float_zero
      else if slotZ (hashes t) pos =? word_hash then slotF (probabilities t) pos
      else symspell_get_probability_loop fuel t idx word_hash (probe + 1)
  end.

Definition symspell_get_probability (dict : symspell_dict_t) (word_hash : Z)
    : float :=
  let t := exact_table dict in
  let idx := word_hash mod exact_table_size t in
  symspell_get_probability_loop (Z.to_nat (exact_table_size t)) t idx word_hash 0.

Fixpoint symspell_get_iwf_loop (fuel : nat) (t : exact_match_table_t)
    (idx word_hash probe : Z) : float :=
  match fuel with
  | O => float_zero
  | S fuel =>
      let pos := (idx + probe) mod exact_table_size t in
      if slotZ (hashes t) pos =? 0 then float_zero
      else if slotZ (hashes t) pos =? word_hash then slotF (iwf t) pos
      else symspell_get_iwf_loop fuel t idx word_hash (probe + 1)
  end.

Definition symspell_get_iwf (dict : symspell_dict_t) (word : string) : float :=
  let t := exact_table dict in
  let word_hash := xxh3 word in
  let idx := word_hash mod exact_table_size t in
  symspell_get_iwf_loop (Z.to_nat (exact_table_size t)) t idx word_hash 0.

Definition symspell_get_stats (dict : symspell_dict_t) : Z * Z :=
  (word_count dict, entry_count dict).

(** The fast path: [Some] is the suggestion written to [suggestions[0]]
    before [return 1], [None] is leaving the loop without a hit. *)
Fixpoint lookup_fast_loop (fuel : nat) (t : exact_match_table_t)
    (idx query_hash probe : Z) (query : string) : option symspell_suggestion_t :=
  match fuel with
  | O => None
  | S fuel =>
      let pos := (idx + probe) mod exact_table_size t in
      if slotZ (hashes t) pos =? 0 then None
      else if slotZ (hashes t) pos =? query_hash then
        Some {| term := strncpy query (Z.to_nat SYMSPELL_MAX_TERM_LENGTH - 1);
                distance := 0;
                frequency := slotZ (exact_frequencies t) pos;
                probability := slotF (probabilities t) pos;
                suggestion_iwf := slotF (iwf t) pos |}
      else lookup_fast_loop fuel t idx query_hash (probe + 1) query
  end.

(** A slot of [candidate_buffer]: only these three fields are written while
    candidates are collected.  [cand_term] is the string a reader finds in
    the slot. *)
Record candidate_t := {
  cand_term : string;
  cand_frequency : Z;
  cand_distance : Z
}.

(** [symspell_create] takes the candidate buffer from [malloc], and the
    slow path fills a slot with [strncpy(term, word, 127)] alone: byte 127
    of a slot is never written.  [stale c] is what a reader finds in the
    slot [c] from that byte on, up to the first zero byte; the program does
    not determine it.  It is the same for every reader of the slot and of
    its copies, which carry byte 127 and the fields behind it along. *)
Variable stale : nat -> string.

(** Probing the delete index for one delete variant. *)
Fixpoint lookup_probe_loop (fuel : nat) (dict : symspell_dict_t) (hash : Z)
    (probe : Z) (delete_s : string) : option delete_entry_t :=
  match fuel with
  | O => None
  | S fuel =>
      let idx := u64 (hash + probe) mod table_size dict in
      match table dict !! idx with
      | None => None
      | Some entry =>
          if String.eqb (delete_str entry) delete_s then Some entry
          else lookup_probe_loop fuel dict hash (probe + 1) delete_s
      end
  end.

(** The loop over the words of a matching entry. *)
Definition collect_entry (query : string) (max_edit_dist : Z)
    (entry : delete_entry_t) (candidates : list candidate_t) : list candidate_t :=
  fold_left
    (fun candidates j =>
       if Z.of_nat (length candidates) <? MAX_CANDIDATES_PER_LOOKUP then
         let w := nth j (words entry) "" in
         let dist := edit_distance query w max_edit_dist in
         if dist <=? max_edit_dist then
           let found := existsb (fun c => String.eqb (cand_term c) w) candidates in
           if found then candidates
           else (candidates ++
                 [ {| cand_term :=
                        strncpy_open w (Z.to_nat SYMSPELL_MAX_TERM_LENGTH - 1)
                          (stale (length candidates));
                      cand_frequency := nth j (frequencies entry) 0;
                      cand_distance := dist |} ])%list
         else candidates
       else candidates)
    (seq 0 (length (words entry))) candidates.

Definition collect_candidates (dict : symspell_dict_t) (query : string)
    (max_edit_dist : Z) (deletes : list string) : list candidate_t :=
  fold_left
    (fun candidates d =>
       match lookup_probe_loop (Z.to_nat (table_size dict)) dict (xxh3 d) 0 d with
       | Some entry => collect_entry query max_edit_dist entry candidates
       | None => candidates
       end)
    deletes [].

(** The single pass that keeps the best candidate (the build without
    [DO_SORT], which is the one the Makefile produces). *)
Definition best_candidate (first : candidate_t) (others : list candidate_t)
    : candidate_t :=
  fold_left
    (fun best c =>
       if cand_distance c <? cand_distance best then c
       else if (cand_distance c =? cand_distance best)
               && (cand_frequency c >? cand_frequency best) then c
       else best)
    others first.

(** The slow path with the effective maximum distance already decided. *)
Definition lookup_slow (dict : symspell_dict_t) (query : string)
    (max_edit_dist : Z) : list symspell_suggestion_t :=
  let deletes :=
    _generate_all_deletes_reuse query max_edit_dist (prefix_length dict)
      (delete_buffer_capacity dict) in
  match collect_candidates dict query max_edit_dist deletes with
  | [] => []
  | first :: others =>
      let best := best_candidate first others in
      let best_hash := xxh3 (cand_term best) in
      let probability := symspell_get_probability dict best_hash in
      [ {| term := cand_term best;
           distance := cand_distance best;
           frequency := cand_frequency best;
           probability := probability;
           suggestion_iwf := calculate_iwf probability |} ]
  end.

(** The query as the lookup sees it: copied into a 128-byte buffer and
    lowercased. *)
Definition lookup_query (term_s : string) : string :=
  str_tolower (strncpy term_s (Z.to_nat SYMSPELL_MAX_TERM_LENGTH - 1)).

Definition lookup_fast (dict : symspell_dict_t) (query : string)
    : option symspell_suggestion_t :=
  let t := exact_table dict in
  let query_hash := xxh3 query in
  let idx := query_hash mod exact_table_size t in
  lookup_fast_loop (Z.to_nat (exact_table_size t)) t idx query_hash 0 query.

(** [symspell_lookup]: the list holds the suggestions written to the output
    array, its length is the returned count. *)
Definition symspell_lookup (dict : symspell_dict_t) (term_s : string)
    (max_edit_distance_lookup : Z) (max_suggestions : Z)
    : list symspell_suggestion_t :=
  if max_suggestions <=? 0 then []
  else
    let query := lookup_query term_s in
    match lookup_fast dict query with
    | Some s => [s]
    | None =>
        let max_edit_dist :=
          if max_edit_distance_lookup <? max_edit_distance dict
          then max_edit_distance_lookup else max_edit_distance dict in
        let max_edit_dist := if strlen query <=? 4 then 1 else max_edit_dist in
        lookup_slow dict query max_edit_dist
    end.

End Libm.

(** ** [hash.h]: the portable hash table

    The table of [_generate_all_deletes_reuse].  Keys are C strings (the
    table stores the pointer, here the string it points to; [None] is
    [NULL]); data pointers are numbers; a returned [HT_ENTRY*] is the index
    of its bucket.  [malloc] and [calloc] are taken to succeed. *)

Module HT.

Definition HT_INITIAL_SIZE : Z := 32.

(** Binary64, for the load test of [ht_search]. *)
Definition double_prec : Z := 53.
Definition double_emax : Z := 1024.

(** [HT_LOAD_FACTOR], 0.75. *)
Definition HT_LOAD_FACTOR : spec_float := S754_finite false 6755399441055744 (-53).

(** [(double)x] for a [size_t] [x]: round to nearest, ties to even, on a
    53-bit significand. *)
Definition double_of_u64 (x : Z) : spec_float :=
  if x <=? 0 then S754_zero false
  else
    let d := Z.log2 x + 1 in
    if d <=? double_prec then
      S754_finite false (Z.to_pos (x * 2 ^ (double_prec - d))) (d - double_prec)
    else
      let sh := d - double_prec in
      let q := x / 2 ^ sh in
      let r := x mod 2 ^ sh in
      let half := 2 ^ (sh - 1) in
      let q' := if (r >? half) || ((r =? half) && Z.odd q) then q + 1 else q in
      if q' =? 2 ^ double_prec
      then S754_finite false (Z.to_pos (2 ^ (double_prec - 1))) (sh + 1)
      else S754_finite false (Z.to_pos q') sh.

Inductive HT_ACTION := HT_FIND | HT_ENTER.

Record HT_ENTRY := {
  key : option string;
  data : Z
}.

(** [HT_BUCKET]; its [key] and [data] are [bucket_key] and [bucket_data]. *)
Record HT_BUCKET := {
  bucket_key : option string;
  bucket_data : Z;
  hash : Z;
  occupied : bool
}.

Record HT_TABLE := {
  buckets : gmap Z HT_BUCKET;
  size : Z;
  count : Z
}.

(** A bucket as [calloc] leaves it. *)
Definition zero_bucket : HT_BUCKET :=
  {| bucket_key := None; bucket_data := 0; hash := 0; occupied := false |}.

Definition bucket_at (bs : gmap Z HT_BUCKET) (idx : Z) : HT_BUCKET :=
  default zero_bucket (bs !! idx).

(** FNV-1a on 32 bits. *)
Definition ht_hash (key : string) : Z :=
  fold_left (fun hash c => u32 (u32 (Z.lxor hash (byte_of c)) * 16777619))
    (list_ascii_of_string key) 2166136261.

(** [while (size < initial_size) size <<= 1;] for [fuel] rounds; [None]
    when the loop has not ended by then. *)
Fixpoint ht_create_loop (fuel : nat) (size initial_size : Z) : option Z :=
  match fuel with
  | O => None
  | S fuel =>
      if size <? initial_size
      then ht_create_loop fuel (u64 (Z.shiftl size 1)) initial_size
      else Some size
  end.

(** [ht_create].  After 64 doublings [size] has wrapped to 0 and stays
    there, so 65 rounds decide whether the loop ends; [None] is the loop
    that does not. *)
Definition ht_create (initial_size : Z) : option HT_TABLE :=
  let initial_size :=
    if initial_size =? 0 then HT_INITIAL_SIZE else initial_size in
  match ht_create_loop 65 1 initial_size with
  | Some size => Some {| buckets := ∅; size := size; count := 0 |}
  | None => None
  end.

(** The inner [while (table->buckets[idx].occupied)] of [ht_resize]; after
    [new_size] rounds every slot the probe can reach has been seen. *)
Fixpoint ht_resize_probe (fuel : nat) (bs : gmap Z HT_BUCKET)
    (idx new_size : Z) : option Z :=
  match fuel with
  | O => None
  | S fuel =>
      if occupied (bucket_at bs idx)
      then ht_resize_probe fuel bs
             (Z.land (u64 (idx + 1)) (u64 (new_size - 1))) new_size
      else Some idx
  end.

(** The body of the rehash loop of [ht_resize] for the old bucket [i]. *)
Definition ht_resize_move (new_size : Z) (old_buckets : gmap Z HT_BUCKET)
    (table : HT_TABLE) (i : Z) : option HT_TABLE :=
  let b := bucket_at old_buckets i in
  if occupied b then
    let idx := Z.land (hash b) (u64 (new_size - 1)) in
    match ht_resize_probe (Z.to_nat new_size) (buckets table) idx new_size with
    | None => None
    | Some idx =>
        Some {| buckets := <[idx := b]> (buckets table);
                size := size table;
                count := u64 (count table + 1) |}
    end
  else Some table.

(** [for (size_t i = 0; i < old_size; i++)], [fuel] rounds from [i]. *)
Fixpoint ht_resize_loop (fuel : nat) (new_size : Z)
    (old_buckets : gmap Z HT_BUCKET) (table : HT_TABLE) (i : Z)
    : option HT_TABLE :=
  match fuel with
  | O => Some table
  | S fuel =>
      match ht_resize_move new_size old_buckets table i with
      | None => None
      | Some table => ht_resize_loop fuel new_size old_buckets table (i + 1)
      end
  end.

(** [ht_resize]; it returns 1, the table is the result.  [None]: an inner
    probe does not end. *)
Definition ht_resize (table : HT_TABLE) (new_size : Z) : option HT_TABLE :=
  ht_resize_loop (Z.to_nat (size table)) new_size (buckets table)
    {| buckets := ∅; size := new_size; count := 0 |} 0.

(** [(double)table->count / table->size >= HT_LOAD_FACTOR] *)
Definition load_exceeded (table : HT_TABLE) : bool :=
  SFleb HT_LOAD_FACTOR
    (SFdiv double_prec double_emax
       (double_of_u64 (count table)) (double_of_u64 (size table))).

(** The [while (1)] of [ht_search].  The result is the table and the
    returned pointer; [None] when the probe has not come back to
    [start_idx] after [fuel] rounds. *)
Fixpoint ht_search_loop (fuel : nat) (table : HT_TABLE) (item_key : string)
    (item_data : Z) (action : HT_ACTION) (hash_ idx start_idx : Z)
    : option (HT_TABLE * option Z) :=
  match fuel with
  | O => None
  | S fuel =>
      let bucket := bucket_at (buckets table) idx in
      if negb (occupied bucket) then
        match action with
        | HT_ENTER =>
            Some ({| buckets :=
                       <[idx := {| bucket_key := Some item_key;
                                   bucket_data := item_data;
                                   hash := hash_;
                                   occupied := true |}]> (buckets table);
                     size := size table;
                     count := u64 (count table + 1) |}, Some idx)
        | HT_FIND => Some (table, None)
        end
      else if (hash bucket =? hash_)
              && match bucket_key bucket with
                 | Some k => String.eqb k item_key
                 | None => false
                 end
      then
        match action with
        | HT_ENTER =>
            Some ({| buckets :=
                       <[idx := {| bucket_key := bucket_key bucket;
                                   bucket_data := item_data;
                                   hash := hash bucket;
                                   occupied := occupied bucket |}]> (buckets table);
                     size := size table;
                     count := count table |}, Some idx)
        | HT_FIND => Some (table, Some idx)
        end
      else
        let idx := Z.land (u64 (idx + 1)) (u64 (size table - 1)) in
        if idx =? start_idx then Some (table, None)
        else ht_search_loop fuel table item_key item_data action hash_ idx start_idx
  end.

(** [ht_search]. *)
Definition ht_search (table : HT_TABLE) (item : HT_ENTRY) (action : HT_ACTION)
    : option (HT_TABLE * option Z) :=
  match key item with
  | None => Some (table, None)
  | Some item_key =>
      let resized :=
        match action with
        | HT_ENTER =>
            if load_exceeded table
            then ht_resize table (u64 (size table * 2))
            else Some table
        | HT_FIND => Some table
        end in
      match resized with
      | None => None
      | Some table =>
          let hash_ := ht_hash item_key in
          let idx := Z.land hash_ (u64 (size table - 1)) in
          ht_search_loop (Z.to_nat (size table)) table item_key (data item)
            action hash_ idx idx
      end
  end.

(** The rehash loop of [ht_delete], [fuel] rounds. *)
Fixpoint ht_delete_rehash (fuel : nat) (table : HT_TABLE) (next_idx : Z)
    : option HT_TABLE :=
  match fuel with
  | O => None
  | S fuel =>
      let temp := bucket_at (buckets table) next_idx in
      if occupied temp then
        let table :=
          {| buckets :=
               <[next_idx := {| bucket_key := bucket_key temp;
                                bucket_data := bucket_data temp;
                                hash := hash temp;
                                occupied := false |}]> (buckets table);
             size := size table;
             count := u64 (count table - 1) |} in
        match ht_search table {| key := bucket_key temp; data := bucket_data temp |}
                HT_ENTER with
        | None => None
        | Some (table, _) =>
            ht_delete_rehash fuel table
              (Z.land (u64 (next_idx + 1)) (u64 (size table - 1)))
        end
      else Some table
  end.

(** The outer loop of [ht_delete]; [rehash_fuel] bounds the rehash loop. *)
Fixpoint ht_delete_loop (fuel rehash_fuel : nat) (table : HT_TABLE)
    (key_ : string) (hash_ idx start_idx : Z) : option (HT_TABLE * Z) :=
  match fuel with
  | O => None
  | S fuel =>
      let bucket := bucket_at (buckets table) idx in
      if occupied bucket then
        if (hash bucket =? hash_)
           && match bucket_key bucket with
              | Some k => String.eqb k key_
              | None => false
              end
        then
          let table :=
            {| buckets :=
                 <[idx := {| bucket_key := None; bucket_data := 0;
                             hash := hash bucket; occupied := false |}]>
                   (buckets table);
               size := size table;
               count := u64 (count table - 1) |} in
          let next_idx := Z.land (u64 (idx + 1)) (u64 (size table - 1)) in
          match ht_delete_rehash rehash_fuel table next_idx with
          | None => None
          | Some table => Some (table, 1)
          end
        else
          let idx := Z.land (u64 (idx + 1)) (u64 (size table - 1)) in
          if idx =? start_idx then Some (table, 0)
          else ht_delete_loop fuel rehash_fuel table key_ hash_ idx start_idx
      else Some (table, 0)
  end.

(** [ht_delete]; [None] when a loop has not ended within its fuel. *)
Definition ht_delete (rehash_fuel : nat) (table : HT_TABLE) (key_ : option string)
    : option (HT_TABLE * Z) :=
  match key_ with
  | None => Some (table, 0)
  | Some key_ =>
      let hash_ := ht_hash key_ in
      let idx := Z.land hash_ (u64 (size table - 1)) in
      ht_delete_loop (Z.to_nat (size table)) rehash_fuel table key_ hash_ idx idx
  end.

(** [ht_count] *)
Definition ht_count (table : HT_TABLE) : Z := count table.

(** The body of the loop of [ht_iterate], [fuel] rounds from [i]: the
    callback's arguments, in call order. *)
Fixpoint ht_iterate_loop (fuel : nat) (table : HT_TABLE) (i : Z)
    : list (option string * Z) :=
  match fuel with
  | O => []
  | S fuel =>
      let b := bucket_at (buckets table) i in
      if occupied b
      then (bucket_key b, bucket_data b) :: ht_iterate_loop fuel table (i + 1)
      else ht_iterate_loop fuel table (i + 1)
  end.

(** [ht_iterate]: the calls it makes to the callback. *)
Definition ht_iterate (table : HT_TABLE) : list (option string * Z) :=
  ht_iterate_loop (Z.to_nat (size table)) table 0.

End HT.

(** * Specification vocabulary *)

(** ** Open addressing

    All probe loops of [symspell.c] have one shape: visit the slots
    [pos 0], [pos 1], ... and stop at the first one that is empty or holds
    the key.  [probe] is that shape, over a classification of the slots. *)

Inductive slot_class := SEmpty | SMatch | SOther.

Inductive probe_result :=
  | PHit (pos : Z)
  | PEmpty (pos : Z)
  | PFull.

Fixpoint probe (fuel : nat) (cls : Z -> slot_class) (pos : Z -> Z) (k : Z)
    : probe_result :=
  match fuel with
  | O => PFull
  | S fuel =>
      match cls (pos k) with
      | SEmpty => PEmpty (pos k)
      | SMatch => PHit (pos k)
      | SOther => probe fuel cls pos (k + 1)
      end
  end.

Definition exact_cls (hs : gmap Z Z) (h : Z) (p : Z) : slot_class :=
  if slotZ hs p =? 0 then SEmpty
  else if slotZ hs p =? h then SMatch else SOther.

Definition exact_pos (size idx : Z) (k : Z) : Z := (idx + k) mod size.

(** Where the probe for the hash [h] ends in the exact-match table. *)
Definition exact_find (t : exact_match_table_t) (h : Z) : probe_result :=
  probe (Z.to_nat (exact_table_size t)) (exact_cls (hashes t) h)
    (exact_pos (exact_table_size t) (h mod exact_table_size t)) 0.

Definition delete_cls (tbl : gmap Z delete_entry_t) (d : string) (p : Z)
    : slot_class :=
  match tbl !! p with
  | None => SEmpty
  | Some entry => if String.eqb (delete_str entry) d then SMatch else SOther
  end.

Definition delete_pos (size hash : Z) (k : Z) : Z := u64 (hash + k) mod size.

(** Where the probe for the delete variant [d] ends in the delete index. *)
Definition delete_find (dict : symspell_dict_t) (d : string) : probe_result :=
  probe (Z.to_nat (table_size dict)) (delete_cls (table dict) d)
    (delete_pos (table_size dict) (xxh3 d)) 0.

(** What [add_to_entry] leaves in the entry. *)
Definition entry_add (entry : delete_entry_t) (word : string) (freq : Z)
    : delete_entry_t :=
  match find_word (words entry) word 0 with
  | Some i =>
      if freq >? nth i (frequencies entry) 0
      then {| delete_str := delete_str entry; words := words entry;
              frequencies := <[i := freq]> (frequencies entry);
              entry_capacity := entry_capacity entry |}
      else entry
  | None =>
      {| delete_str := delete_str entry;
         words := (words entry ++ [word])%list;
         frequencies := (frequencies entry ++ [freq])%list;
         entry_capacity :=
           if count entry >=? entry_capacity entry
           then (if entry_capacity entry =? 0 then INITIAL_ENTRY_CAPACITY
                 else u64 (entry_capacity entry * 2))
           else entry_capacity entry |}
  end.

(** The frequency an entry records for a word. *)
Definition entry_frequency (entry : delete_entry_t) (word : string) : option Z :=
  match find_word (words entry) word 0 with
  | Some i => frequencies entry !! i
  | None => None
  end.

(** ** The file as the loader reads it *)

Definition file_lines (content : string) : list string :=
  fgets_all (Z.to_nat MAX_LINE_BUFFER) content (Z.to_nat MAX_LINE_BUFFER - 1) "".

(** The (lowercased term, frequency) pairs of the lines that are not
    skipped, in file order. *)
Fixpoint admitted (lines : list string) (term_index count_index : Z)
    : list (string * Z) :=
  match lines with
  | [] => []
  | line :: lines =>
      match parse_line line term_index count_index with
      | Some p => p :: admitted lines term_index count_index
      | None => admitted lines term_index count_index
      end
  end.

Definition admitted_pairs (content : string) (term_index count_index : Z)
    : list (string * Z) :=
  admitted (file_lines content) term_index count_index.

Fixpoint ingest_all (pairs : list (string * Z)) (dict : symspell_dict_t)
    (max_freq : Z) : result (symspell_dict_t * Z) :=
  match pairs with
  | [] => Ret (dict, max_freq)
  | (term_s, freq) :: pairs =>
      do (dict, max_freq) <- ingest dict max_freq term_s freq;
      ingest_all pairs dict max_freq
  end.

(** The frequency on the first admitted line, 0 when no line is admitted. *)
Definition first_frequency (pairs : list (string * Z)) : Z :=
  match pairs with
  | [] => 0
  | (_, freq) :: _ => freq
  end.

(** The largest frequency among all pairs. *)
Definition max_frequency (pairs : list (string * Z)) : Z :=
  fold_right (fun p m => Z.max (snd p) m) 0 pairs.

(** The largest frequency among the pairs of one word. *)
Definition max_observed (word : string) (pairs : list (string * Z)) : Z :=
  fold_right
    (fun p m => if String.eqb (fst p) word then Z.max (snd p) m else m) 0 pairs.

(** The words of a list of pairs, without repetition accounting. *)
Definition distinct_words (pairs : list (string * Z)) : list string :=
  nodup string_dec (map fst pairs).

(** ** Sample inputs for the closed statements below *)

Definition LF : string := String (ascii_of_nat 10) "".
Definition TAB : string := String (ascii_of_nat 9) "".

(** A stand-in for libm's [logf] that is right at 1 (Annex F: [log(1)] is
    [+0]) and returns NaN elsewhere; only the examples use it. *)
Definition logf_at_one (x : float) : float :=
  if SFeqb x float_one then float_zero else S754_nan.

(** A candidate buffer whose slots hold a zero byte at position 127; only
    the examples use it. *)
Definition stale_zero (c : nat) : string := "".

(** The dictionary a load leaves, when it returns [true]. *)
Definition loaded (logf : float -> float) (dict : symspell_dict_t)
    (content : string) (term_index count_index : Z) : option symspell_dict_t :=
  match symspell_load_dictionary logf dict (Some content) term_index count_index with
  | Ret (true, dict') => Some dict'
  | _ => None
  end.

(** A fresh dictionary with edit distance 1 and prefix length 7. *)
Definition dict_1_7 : symspell_dict_t := create_dict 1 7.

(** ** Invariants and auxiliary notions of the proofs *)

(** The delete-index operations leave these fields of the dictionary alone. *)
Definition same_static (d d' : symspell_dict_t) : Prop :=
  table_size d' = table_size d /\
  max_edit_distance d' = max_edit_distance d /\
  prefix_length d' = prefix_length d /\
  delete_buffer_capacity d' = delete_buffer_capacity d /\
  word_count d' = word_count d /\
  exact_table d' = exact_table d.

(** The entry [add_delete] puts into an empty slot, before the first word. *)
Definition new_entry (d : string) : delete_entry_t :=
  {| delete_str := d; words := []; frequencies := []; entry_capacity := 0 |}.

(** [add_exact_match] seen from outside: insert at the empty slot, raise
    the frequency at a hit, leave a full table alone. *)
Definition exact_insert (t : exact_match_table_t) (h f : Z) : exact_match_table_t :=
  match exact_find t h with
  | PEmpty pos => set_hash_freq t pos h f
  | PHit pos => if f >? slotZ (exact_frequencies t) pos then set_freq t pos f else t
  | PFull => t
  end.

(** A dictionary whose string arena has no room left. *)
Definition dict_full_arena : symspell_dict_t :=
  set_string_arena dict_1_7
    {| capacity := STRING_ARENA_SIZE; used := STRING_ARENA_SIZE |}.

(** A dictionary whose string arena has eight bytes left. *)
Definition dict_low_arena : symspell_dict_t :=
  set_string_arena dict_1_7
    {| capacity := STRING_ARENA_SIZE; used := STRING_ARENA_SIZE - 8 |}.

(** The dictionary [dict] with arenas of the capacities [cs] and [ce]: the
    same tables, counters and bump offsets, more or less room. *)
Definition with_capacity (cs ce : Z) (dict : symspell_dict_t) : symspell_dict_t :=
  {| table := table dict; exact_table := exact_table dict;
     table_size := table_size dict;
     max_edit_distance := max_edit_distance dict;
     prefix_length := prefix_length dict; word_count := word_count dict;
     entry_count := entry_count dict;
     string_arena := {| capacity := cs; used := used (string_arena dict) |};
     entry_arena := {| capacity := ce; used := used (entry_arena dict) |};
     delete_buffer_capacity := delete_buffer_capacity dict |}.

(** An arena as [symspell_create] and [arena_alloc] leave it: the bump
    offset within the capacity, the capacity below [2^63]. *)
Definition arena_sound (a : arena_t) : Prop :=
  0 <= used a <= capacity a /\ capacity a < 2 ^ 63.

Definition arenas_sound (d : symspell_dict_t) : Prop :=
  arena_sound (string_arena d) /\ arena_sound (entry_arena d).

(** What the arenas of [dict] hold fits the capacities [cs] and [ce]. *)
Definition fits (cs ce : Z) (dict : symspell_dict_t) : bool :=
  (used (string_arena dict) <=? cs) && (used (entry_arena dict) <=? ce).

(** From [d] to [d'] the arenas keep their capacities and only fill up. *)
Definition arenas_grow (d d' : symspell_dict_t) : Prop :=
  capacity (string_arena d') = capacity (string_arena d) /\
  capacity (entry_arena d') = capacity (entry_arena d) /\
  used (string_arena d) <= used (string_arena d') /\
  used (entry_arena d) <= used (entry_arena d').

(** A candidate within the edit distance. *)
Definition within (max_edit_dist : Z) (c : candidate_t) : Prop :=
  cand_distance c <= max_edit_dist.

(** The frequencies the loader admits: [strtoull] results, 0 coerced to 1. *)
Definition valid_freq (p : string * Z) : Prop := 1 <= snd p < 2 ^ 64.

(** [grows st st']: the output only grows, and not by the empty string. *)
Definition grows (st st' : deletes_state) : Prop :=
  (forall s, In s (deletes_out st) -> In s (deletes_out st')) /\
  (In "" (deletes_out st') -> In "" (deletes_out st)).

(** The enumerator before its first emission. *)
Definition empty_state : deletes_state :=
  {| deletes_out := []; uniq_set := ∅; pending := []; queue_end := 0 |}.

(** The queue has not outgrown its buffer. *)
Definition queue_ok (st : deletes_state) : Prop :=
  queue_end st <= DELETE_QUEUE_CAPACITY.

(** The number of queue items already dequeued. *)
Definition taken (st : deletes_state) : Z :=
  queue_end st - Z.of_nat (length (pending st)).

(** The frequency the table holds for the hash [h], if the probe hits. *)
Definition stored_freq (t : exact_match_table_t) (h : Z) : option Z :=
  match exact_find t h with
  | PHit pos => Some (slotZ (exact_frequencies t) pos)
  | _ => None
  end.

(** Every hash in the table is found by its probe. *)
Definition exact_ok (t : exact_match_table_t) : Prop :=
  forall p, slotZ (hashes t) p <> 0 ->
    exists q, exact_find t (slotZ (hashes t) p) = PHit q.

(** The exact-match table has a free slot. *)
Definition has_room (t : exact_match_table_t) : Prop :=
  exists e, 0 <= e < exact_table_size t /\ slotZ (hashes t) e = 0.

(** The exact-match table after the pairs have been inserted in order. *)
Definition exact_after (pairs : list (string * Z)) (t : exact_match_table_t)
    : exact_match_table_t :=
  fold_left (fun t p => exact_insert t (xxh3 (fst p)) (snd p)) pairs t.

(** What a hash maps to after the pairs, starting from [init]. *)
Definition hash_observed (h : Z) (pairs : list (string * Z)) (init : option Z)
    : option Z :=
  fold_left
    (fun acc p =>
       if xxh3 (fst p) =? h
       then Some (match acc with
                  | Some f0 => if snd p >? f0 then snd p else f0
                  | None => snd p
                  end)
       else acc)
    pairs init.

(** No byte of [s] is NUL. *)
Definition nulfree (s : string) : Prop :=
  forall c, In c (list_ascii_of_string s) -> is_nul c = false.

(** [n] copies of the byte [c]. *)
Fixpoint str_repeat (n : nat) (c : ascii) : string :=
  match n with
  | O => ""
  | S n => String c (str_repeat n c)
  end.

(** A word of 128 bytes, which a dictionary line can carry. *)
Definition word_128 : string := str_repeat 128 "a".

(** The arrays of an entry run in parallel and list no word twice. *)
Definition entry_ok (e : delete_entry_t) : Prop :=
  length (words e) = length (frequencies e) /\ NoDup (words e).

(** The larger of the recorded and the new frequency, as the code takes it. *)
Definition merge_freq (old : option Z) (f : Z) : Z :=
  match old with
  | Some f0 => if f >? f0 then f else f0
  | None => f
  end.

(** The frequency the index records for [w] under the variant [d]. *)
Definition listed (dict : symspell_dict_t) (d w : string) : option Z :=
  match delete_find dict d with
  | PHit idx =>
      match table dict !! idx with
      | Some e => entry_frequency e w
      | None => None
      end
  | _ => None
  end.

(** Every entry is found by the probe for its variant, and is well formed. *)
Definition table_ok (dict : symspell_dict_t) : Prop :=
  forall idx e, table dict !! idx = Some e ->
    delete_find dict (delete_str e) = PHit idx /\ entry_ok e.

(** One [add_delete] seen from outside: either the probe finds the table
    full and nothing changes, or the pair (variant, word) is recorded with
    the merged frequency and nothing else changes. *)
Definition delete_step_spec (dict dict' : symspell_dict_t) (d0 w0 : string)
    (f0 : Z) : Prop :=
  table_size dict' = table_size dict /\
  (forall d, delete_find dict d = PFull -> delete_find dict' d = PFull) /\
  ((delete_find dict d0 = PFull /\
    forall d w, listed dict' d w = listed dict d w) \/
   (delete_find dict d0 <> PFull /\
    forall d w, listed dict' d w =
      if String.eqb d d0 && String.eqb w w0
      then Some (merge_freq (listed dict d0 w0) f0)
      else listed dict d w)).

(** Membership in a list of variants. *)
Definition mem (d : string) (ds : list string) : bool :=
  existsb (String.eqb d) ds.

(** What the pairs of the word [w] merge to, in file order, from [init]. *)
Definition observed (w : string) (pairs : list (string * Z)) (init : option Z)
    : option Z :=
  fold_left
    (fun acc p =>
       if String.eqb w (fst p) then Some (merge_freq acc (snd p)) else acc)
    pairs init.

(** The delete variants [generate_deletes] enumerates for a word. *)
Definition variants (dict : symspell_dict_t) (w : string) : list string :=
  _generate_all_deletes_reuse w (max_edit_distance dict) (prefix_length dict)
    (delete_buffer_capacity dict).

(** ** Notions of the further properties *)

(** [b] is at least as good as [c]: closer, or as close and at least as
    frequent. *)
Definition no_worse (b c : candidate_t) : Prop :=
  cand_distance b < cand_distance c \/
  (cand_distance b = cand_distance c /\ cand_frequency c <= cand_frequency b).

(** The bookkeeping of the delete index: every entry sits in a slot of the
    table, and [entry_count] is the number of slots in use. *)
Definition index_counted (dict : symspell_dict_t) : Prop :=
  entry_count dict = Z.of_nat (size (table dict)) /\
  (forall k e, table dict !! k = Some e -> 0 <= k < table_size dict) /\
  0 < table_size dict < 2 ^ 64.

(** The candidate [c] was read off an entry of the delete index. *)
Definition cand_from (stale : nat -> string) (dict : symspell_dict_t)
    (query : string) (D : Z) (c : candidate_t) : Prop :=
  exists idx e j w n,
    table dict !! idx = Some e /\ words e !! j = Some w /\
    cand_term c =
      strncpy_open w (Z.to_nat SYMSPELL_MAX_TERM_LENGTH - 1) (stale n) /\
    cand_frequency c = nth j (frequencies e) 0 /\
    cand_distance c = edit_distance query w D /\
    cand_distance c <= D.

(** The collecting loops only append. *)
Definition extends (a b : list candidate_t) : Prop :=
  (forall c, In c a -> In c b) /\ (length a <= length b)%nat.

Definition collect_word (stale : nat -> string) (query : string) (D : Z)
    (entry : delete_entry_t) (candidates : list candidate_t) (j : nat)
    : list candidate_t :=
  if Z.of_nat (length candidates) <? MAX_CANDIDATES_PER_LOOKUP then
    let w := nth j (words entry) "" in
    let dist := edit_distance query w D in
    if dist <=? D then
      let found := existsb (fun c => String.eqb (cand_term c) w) candidates in
      if found then candidates
      else (candidates ++
            [ {| cand_term :=
                   strncpy_open w (Z.to_nat SYMSPELL_MAX_TERM_LENGTH - 1)
                     (stale (length candidates));
                 cand_frequency := nth j (frequencies entry) 0;
                 cand_distance := dist |} ])%list
    else candidates
  else candidates.

Definition collect_delete (stale : nat -> string) (dict : symspell_dict_t)
    (query : string) (D : Z) (candidates : list candidate_t) (d : string)
    : list candidate_t :=
  match lookup_probe_loop (Z.to_nat (table_size dict)) dict (xxh3 d) 0 d with
  | Some entry => collect_entry stale query D entry candidates
  | None => candidates
  end.

(** [t] is [s] after [n] successive removals of one byte. *)
Inductive shrinks (s : string) : nat -> string -> Prop :=
  | shrinks_O : shrinks s 0 s
  | shrinks_S n t i :
      shrinks s n t -> (i < String.length t)%nat ->
      shrinks s (S n) (str_remove i t).

(** The output and the uniqueness table agree, and the output has no
    repetition. *)
Definition uniq_ok (st : deletes_state) : Prop :=
  NoDup (deletes_out st) /\
  forall s, s ∈ uniq_set st <-> In s (deletes_out st).

(** The state in which [_generate_all_deletes_reuse] enters its loop: the
    empty string and the prefix emitted, the prefix queued. *)
Definition deletes_start (max_deletes : Z) (prefix : string) (D : Z)
    : deletes_state :=
  let st1 :=
    if (strlen prefix <=? D) && (delete_count empty_state <? max_deletes)
    then emit max_deletes "" empty_state else empty_state in
  let st2 :=
    if delete_count st1 <? max_deletes then emit max_deletes prefix st1 else st1 in
  {| deletes_out := deletes_out st2; uniq_set := uniq_set st2;
     pending := [ {| str := prefix; item_distance := 0 |} ];
     queue_end := 1 |}.

(** Every emitted variant, and every queued string with its distance, is
    the prefix after so many removals. *)
Definition sound_state (prefix : string) (D : Z) (st : deletes_state) : Prop :=
  (forall d, In d (deletes_out st) ->
     exists n, Z.of_nat n <= Z.max 0 D /\ shrinks prefix n d) /\
  (forall q, In q (pending st) ->
     exists n, item_distance q = Z.of_nat n /\ shrinks prefix n (str q)).

(** Neither the output buffer nor the queue is exhausted. *)
Definition no_trunc (md : Z) (st : deletes_state) : Prop :=
  delete_count st < md /\ queue_end st < DELETE_QUEUE_CAPACITY.

Definition mono (st st' : deletes_state) : Prop :=
  delete_count st <= delete_count st' /\ queue_end st <= queue_end st'.

(** The number of removals that lead from the prefix [p] to [t]. *)
Definition dist_of (p t : string) : Z := strlen p - strlen t.

(** [seen] holds the strings already taken off the queue: the variants of
    each of them that had to be expanded are emitted, and queued or seen. *)
Definition closed (p : string) (D : Z) (st : deletes_state)
    (seen : list string) : Prop :=
  (forall q, In q (pending st) -> item_distance q = dist_of p (str q)) /\
  (forall t, In t seen -> dist_of p t < D -> 2 <= strlen t ->
     forall i, (i < String.length t)%nat ->
       In (str_remove i t) (deletes_out st) /\
       (In (str_remove i t) (map str (pending st)) \/ In (str_remove i t) seen)) /\
  (In p (map str (pending st)) \/ In p seen).

(** An upper bound on the queue slots that a string of at most [L] bytes
    with [k] removals still allowed takes, itself included:
    [1 + L + L^2 + ... + L^k]. *)
Fixpoint queue_need (L : Z) (k : nat) : Z :=
  match k with
  | O => 1
  | S k => 1 + L * queue_need L k
  end.

Definition item_cost (L D : Z) (q : queue_item_t) : Z :=
  queue_need L (Z.to_nat (D - item_distance q)) - 1.

Definition budget (L D : Z) (st : deletes_state) : Z :=
  queue_end st + fold_right (fun q acc => item_cost L D q + acc) 0 (pending st).

Definition within_budget (L D : Z) (st : deletes_state) : Prop :=
  budget L D st <= queue_need L (Z.to_nat D) /\
  forall q, In q (pending st) ->
    0 <= item_distance q <= D /\ strlen (str q) <= L.

(** What the row for the first [i] bytes of [a] knows: no cell is below
    the difference of the two lengths, and the diagonal cell is 0 exactly
    when the two prefixes are equal. *)
Definition row_ok (a b : string) (i : Z) (r : list Z) : Prop :=
  length r = S (String.length b) /\
  (forall j, 0 <= j <= strlen b -> Z.abs (i - j) <= cell r j) /\
  (i <= strlen b ->
   (cell r i = 0 <-> str_take (Z.to_nat i) a = str_take (Z.to_nat i) b)).

(** How [ht_search] sees the slot [p] when it looks for [k] with hash [h]. *)
Definition ht_cls (bs : gmap Z HT.HT_BUCKET) (h : Z) (k : string) (p : Z)
    : slot_class :=
  let b := HT.bucket_at bs p in
  if negb (HT.occupied b) then SEmpty
  else if (HT.hash b =? h)
          && match HT.bucket_key b with
             | Some k' => String.eqb k' k
             | None => false
             end
  then SMatch else SOther.

(** Where the probe of [ht_search] for the key [k] ends. *)
Definition ht_slot (t : HT.HT_TABLE) (k : string) : probe_result :=
  probe (Z.to_nat (HT.size t)) (ht_cls (HT.buckets t) (HT.ht_hash k) k)
    (exact_pos (HT.size t) (HT.ht_hash k mod HT.size t)) 0.

(** The data the table maps [k] to. *)
Definition ht_lookup (t : HT.HT_TABLE) (k : string) : option Z :=
  match ht_slot t k with
  | PHit i => Some (HT.bucket_data (HT.bucket_at (HT.buckets t) i))
  | _ => None
  end.

(** Some occupied bucket holds the key [k] with the data [d]. *)
Definition ht_holds (t : HT.HT_TABLE) (k : string) (d : Z) : Prop :=
  exists i,
    HT.occupied (HT.bucket_at (HT.buckets t) i) = true /\
    HT.bucket_key (HT.bucket_at (HT.buckets t) i) = Some k /\
    HT.bucket_data (HT.bucket_at (HT.buckets t) i) = d.

(** The occupied buckets. *)
Definition ht_live (bs : gmap Z HT.HT_BUCKET) : gmap Z HT.HT_BUCKET :=
  filter (fun kv => HT.occupied kv.2 = true) bs.

Definition pow2 (n : Z) : Prop := exists e, 0 <= e < 64 /\ n = 2 ^ e.

(** The invariant of the table: its size is a power of two, every occupied
    bucket lies inside the table, carries the hash of its key and is where
    the probe for its key ends, and [count] counts the occupied buckets. *)
Definition ht_ok (t : HT.HT_TABLE) : Prop :=
  pow2 (HT.size t) /\
  (forall i, HT.occupied (HT.bucket_at (HT.buckets t) i) = true ->
     0 <= i < HT.size t /\
     exists k, HT.bucket_key (HT.bucket_at (HT.buckets t) i) = Some k /\
               HT.hash (HT.bucket_at (HT.buckets t) i) = HT.ht_hash k /\
               ht_slot t k = PHit i) /\
  HT.count t = Z.of_nat (size (ht_live (HT.buckets t))).

(** What [ht_search] does with the slot its probe ends at. *)
Definition ht_search_at (t : HT.HT_TABLE) (k : string) (d : Z)
    (action : HT.HT_ACTION) (r : probe_result) : HT.HT_TABLE * option Z :=
  match r, action with
  | PHit i, HT.HT_FIND => (t, Some i)
  | PHit i, HT.HT_ENTER =>
      let b := HT.bucket_at (HT.buckets t) i in
      ({| HT.buckets :=
            <[i := {| HT.bucket_key := HT.bucket_key b; HT.bucket_data := d;
                      HT.hash := HT.hash b; HT.occupied := HT.occupied b |}]>
              (HT.buckets t);
          HT.size := HT.size t; HT.count := HT.count t |}, Some i)
  | PEmpty i, HT.HT_ENTER =>
      ({| HT.buckets :=
            <[i := {| HT.bucket_key := Some k; HT.bucket_data := d;
                      HT.hash := HT.ht_hash k; HT.occupied := true |}]>
              (HT.buckets t);
          HT.size := HT.size t; HT.count := u64 (HT.count t + 1) |}, Some i)
  | _, _ => (t, None)
  end.

(** The number of occupied buckets among the first [n]. *)
Fixpoint occ_upto (bs : gmap Z HT.HT_BUCKET) (n : nat) : nat :=
  match n with
  | O => O
  | S n =>
      (if HT.occupied (HT.bucket_at bs (Z.of_nat n)) then 1 else 0)
      + occ_upto bs n
  end.

Definition ht_free_cls (bs : gmap Z HT.HT_BUCKET) (p : Z) : slot_class :=
  if HT.occupied (HT.bucket_at bs p) then SOther else SEmpty.

(** The new table once the first [n] old buckets have been moved. *)
Definition resize_inv (old : HT.HT_TABLE) (N : Z) (n : nat) (nt : HT.HT_TABLE) : Prop :=
  ht_ok nt /\ HT.size nt = N /\
  HT.count nt = Z.of_nat (occ_upto (HT.buckets old) n) /\
  forall k d, ht_holds nt k d <->
    exists p, 0 <= p < Z.of_nat n /\
      HT.occupied (HT.bucket_at (HT.buckets old) p) = true /\
      HT.bucket_key (HT.bucket_at (HT.buckets old) p) = Some k /\
      HT.bucket_data (HT.bucket_at (HT.buckets old) p) = d.

(** What a caller reads through [ht_search(table, {key, ...}, HT_FIND)]:
    the data of the entry returned, [None] for [NULL]. *)
Definition ht_get (t : HT.HT_TABLE) (k : string) : option Z :=
  match HT.ht_search t {| HT.key := Some k; HT.data := 0 |} HT.HT_FIND with
  | Some (t', Some i) => Some (HT.bucket_data (HT.bucket_at (HT.buckets t') i))
  | _ => None
  end.

(** The table [t] holds the set of keys [S]. *)
Definition ht_repr (t : HT.HT_TABLE) (S : gset string) : Prop :=
  ht_ok t /\ forall k, k ∈ S <-> is_Some (ht_get t k).

(** A table of four buckets that holds one key. *)
Definition ht_sample : HT.HT_TABLE :=
  match HT.ht_create 4 with
  | Some t =>
      match HT.ht_search t {| HT.key := Some "th"; HT.data := 1 |} HT.HT_ENTER with
      | Some (t', _) => t'
      | None => t
      end
  | None => {| HT.buckets := ∅; HT.size := 0; HT.count := 0 |}
  end.

(** [aligned a b i j n]: the first [i] bytes of [a] are turned into the
    first [j] bytes of [b] by [n] edits, each a removal, an insertion, a
    substitution or the exchange of two adjacent bytes; no byte is edited
    twice. *)
Inductive aligned (a b : string) : nat -> nat -> Z -> Prop :=
  | al_start : aligned a b 0 0 0
  | al_delete i j n :
      aligned a b i j n -> (i < String.length a)%nat ->
      aligned a b (S i) j (n + 1)
  | al_insert i j n :
      aligned a b i j n -> (j < String.length b)%nat ->
      aligned a b i (S j) (n + 1)
  | al_keep i j n :
      aligned a b i j n ->
      (i < String.length a)%nat -> (j < String.length b)%nat ->
      String.get i a = String.get j b ->
      aligned a b (S i) (S j) n
  | al_subst i j n :
      aligned a b i j n ->
      (i < String.length a)%nat -> (j < String.length b)%nat ->
      aligned a b (S i) (S j) (n + 1)
  | al_swap i j n :
      aligned a b i j n ->
      (S i < String.length a)%nat -> (S j < String.length b)%nat ->
      String.get i a = String.get (S j) b ->
      String.get (S i) a = String.get j b ->
      aligned a b (S (S i)) (S (S j)) (n + 1).

(** The row [r] of the matrix holds, for the first [i] bytes of [a] and
    every prefix of [b], the least number of edits. *)
Definition row_min (a b : string) (i : nat) (r : list Z) : Prop :=
  length r = S (String.length b) /\
  forall j, (j <= String.length b)%nat ->
    aligned a b i j (cell r (Z.of_nat j)) /\
    forall n, aligned a b i j n -> cell r (Z.of_nat j) <= n.

(** * Properties *)

(** ** Outcomes *)

Lemma bind_Ret {A B} (m : result A) (k : A -> result B) (b : B) :
  bind m k = Ret b -> exists a, m = Ret a /\ k a = Ret b.
Proof. destruct m; simpl; [eauto | discriminate]. Qed.

Lemma bind_Exit {A B} (m : result A) (k : A -> result B) (s : Z) :
  bind m k = Exit s -> m = Exit s \/ exists a, m = Ret a /\ k a = Exit s.
Proof. destruct m; simpl; [eauto | intros [= ->]; auto]. Qed.

(** Split the hypothesis [H : bind m k = Ret b] into its two steps. *)
Ltac bind_inv H :=
  let a := fresh "a" in
  let Hm := fresh "Hm" in
  apply bind_Ret in H; destruct H as (a & Hm & H).

(** ** The arena allocator *)

Lemma arena_alloc_Exit (arena : arena_t) (size s : Z) :
  arena_alloc arena size = Exit s -> s = 1.
Proof.
  unfold arena_alloc. destruct (_ >? _); [intros [= <-]; reflexivity | discriminate].
Qed.

Lemma arena_strdup_Exit (arena : arena_t) (w : string) (s : Z) :
  arena_strdup arena w = Exit s -> s = 1.
Proof. apply arena_alloc_Exit. Qed.

Lemma arena_calloc_Exit (arena : arena_t) (num size s : Z) :
  arena_calloc arena num size = Exit s -> s = 1.
Proof. apply arena_alloc_Exit. Qed.

(** ** Frames: what the delete-index operations leave alone *)

Lemma same_static_refl d : same_static d d.
Proof. repeat split. Qed.

Lemma same_static_trans d1 d2 d3 :
  same_static d1 d2 -> same_static d2 d3 -> same_static d1 d3.
Proof.
  unfold same_static. intros (?&?&?&?&?&?) (?&?&?&?&?&?).
  repeat split; congruence.
Qed.

Lemma add_to_entry_Ret dict entry w f ok dict' entry' :
  add_to_entry dict entry w f = Ret (ok, dict', entry') ->
  ok = true /\ entry' = entry_add entry w f /\ same_static dict dict' /\
  table dict' = table dict /\ entry_count dict' = entry_count dict.
Proof.
  unfold add_to_entry, entry_add.
  destruct (find_word (words entry) w 0) as [i|].
  - intros [= <- <- <-]. repeat split.
  - intros H. bind_inv H. injection H as <- <- <-. repeat split.
Qed.

Lemma add_to_entry_Exit dict entry w f s :
  add_to_entry dict entry w f = Exit s -> s = 1.
Proof.
  unfold add_to_entry. destruct (find_word _ _ _); [discriminate|].
  intros H. apply bind_Exit in H as [H | (a & _ & H)]; [|discriminate].
  eapply arena_strdup_Exit; eauto.
Qed.

(** ** [add_delete] through [probe] *)

Lemma add_delete_loop_spec fuel dict hash i d w f ok dict' :
  add_delete_loop fuel dict hash i d w f = Ret (ok, dict') ->
  same_static dict dict' /\
  match probe fuel (delete_cls (table dict) d)
          (delete_pos (table_size dict) hash) i with
  | PFull =>
      ok = false /\ table dict' = table dict /\
      entry_count dict' = entry_count dict
  | PEmpty idx =>
      ok = true /\ table dict !! idx = None /\
      table dict' = <[idx := entry_add (new_entry d) w f]> (table dict) /\
      entry_count dict' = u64 (entry_count dict + 1)
  | PHit idx =>
      exists e, table dict !! idx = Some e /\ delete_str e = d /\ ok = true /\
        table dict' = <[idx := entry_add e w f]> (table dict) /\
        entry_count dict' = entry_count dict
  end.
Proof.
  revert i. induction fuel as [|fuel IH]; intros i; simpl.
  - intros [= <- <-]. split; [apply same_static_refl | auto].
  - unfold delete_cls at 1, delete_pos at 1 2 3.
    destruct (table dict !! (u64 (hash + i) mod table_size dict)) as [e|] eqn:E.
    + destruct (String.eqb (delete_str e) d) eqn:Es.
      * intros H. bind_inv H. destruct a as [[ok1 d1] e1].
        apply add_to_entry_Ret in Hm as (-> & -> & Hst & Ht & Hc).
        injection H as <- <-. split.
        { destruct Hst as (?&?&?&?&?&?). repeat split; assumption. }
        exists e. apply String.eqb_eq in Es. simpl. rewrite Ht. auto.
      * intros H. apply IH in H. exact H.
    + intros H. bind_inv H. bind_inv H. bind_inv H.
      destruct a1 as [[ok1 d1] e1].
      apply add_to_entry_Ret in Hm1 as (-> & -> & Hst & Ht & Hc).
      simpl in H. injection H as <- <-. split.
      { destruct Hst as (?&?&?&?&?&?). repeat split; simpl in *; assumption. }
      simpl in *. rewrite Ht, Hc. auto.
Qed.

Lemma add_delete_loop_Exit fuel dict hash i d w f s :
  add_delete_loop fuel dict hash i d w f = Exit s -> s = 1.
Proof.
  revert i. induction fuel as [|fuel IH]; intros i; simpl; [discriminate|].
  destruct (table dict !! _) as [e|].
  - destruct (String.eqb _ _); [|apply IH].
    intros H. apply bind_Exit in H as [H | (a & _ & H)].
    + eapply add_to_entry_Exit; eauto.
    + destruct a as [[? ?] ?]. discriminate.
  - intros H. apply bind_Exit in H as [H | (a & _ & H)].
    { eapply arena_calloc_Exit; eauto. }
    apply bind_Exit in H as [H | (a0 & _ & H)].
    { eapply arena_strdup_Exit; eauto. }
    apply bind_Exit in H as [H | (a1 & _ & H)].
    { eapply add_to_entry_Exit; eauto. }
    destruct a1 as [[[] ?] ?]; discriminate.
Qed.

Lemma add_delete_spec dict d w f ok dict' :
  add_delete dict d w f = Ret (ok, dict') ->
  same_static dict dict' /\
  match delete_find dict d with
  | PFull =>
      ok = false /\ table dict' = table dict /\
      entry_count dict' = entry_count dict
  | PEmpty idx =>
      ok = true /\ table dict !! idx = None /\
      table dict' = <[idx := entry_add (new_entry d) w f]> (table dict) /\
      entry_count dict' = u64 (entry_count dict + 1)
  | PHit idx =>
      exists e, table dict !! idx = Some e /\ delete_str e = d /\ ok = true /\
        table dict' = <[idx := entry_add e w f]> (table dict) /\
        entry_count dict' = entry_count dict
  end.
Proof. apply add_delete_loop_spec. Qed.

Lemma add_deletes_static ds : forall dict w f dict',
  add_deletes dict ds w f = Ret dict' -> same_static dict dict'.
Proof.
  induction ds as [|d ds IH]; simpl; intros dict w f dict' H.
  - injection H as <-. apply same_static_refl.
  - bind_inv H. destruct a as [ok d1].
    apply add_delete_spec in Hm as [Hst _].
    eapply same_static_trans; eauto.
Qed.

Lemma add_deletes_Exit ds : forall dict w f s,
  add_deletes dict ds w f = Exit s -> s = 1.
Proof.
  induction ds as [|d ds IH]; simpl; intros dict w f s H; [discriminate|].
  apply bind_Exit in H as [H | (a & _ & H)].
  - eapply add_delete_loop_Exit; eauto.
  - destruct a. eauto.
Qed.

Lemma generate_deletes_static dict w f ok dict' :
  generate_deletes dict w f = Ret (ok, dict') -> ok = true /\ same_static dict dict'.
Proof.
  unfold generate_deletes. intros H. bind_inv H. injection H as <- <-.
  split; [reflexivity | eapply add_deletes_static; eauto].
Qed.

Lemma generate_deletes_Exit dict w f s :
  generate_deletes dict w f = Exit s -> s = 1.
Proof.
  unfold generate_deletes. intros H.
  apply bind_Exit in H as [H | (a & _ & H)]; [|discriminate].
  eapply add_deletes_Exit; eauto.
Qed.

(** ** [add_exact_match] through [probe] *)

Lemma add_exact_match_loop_spec fuel t idx h f k :
  add_exact_match_loop fuel t idx h f k =
  match probe fuel (exact_cls (hashes t) h) (exact_pos (exact_table_size t) idx) k with
  | PEmpty pos => (true, set_hash_freq t pos h f)
  | PHit pos =>
      (true, if f >? slotZ (exact_frequencies t) pos then set_freq t pos f else t)
  | PFull => (false, t)
  end.
Proof.
  revert k. induction fuel as [|fuel IH]; intros k; simpl; [reflexivity|].
  unfold exact_cls at 1, exact_pos at 1 2 3.
  destruct (slotZ (hashes t) ((idx + k) mod exact_table_size t) =? 0); [reflexivity|].
  destruct (slotZ (hashes t) ((idx + k) mod exact_table_size t) =? h); [reflexivity|].
  apply IH.
Qed.

Lemma add_exact_match_spec dict w f :
  add_exact_match dict w f =
  (match exact_find (exact_table dict) (xxh3 w) with PFull => false | _ => true end,
   set_exact_table dict (exact_insert (exact_table dict) (xxh3 w) f)).
Proof.
  unfold add_exact_match, exact_insert, exact_find.
  rewrite add_exact_match_loop_spec.
  destruct (probe _ _ _ _); reflexivity.
Qed.

(** ** The load loop *)

Lemma ingest_Ret dict m w f dict' m' :
  ingest dict m w f = Ret (dict', m') ->
  m' = (if m =? 0 then f else m) /\
  word_count dict' = u64 (word_count dict + 1) /\
  exact_table dict' = exact_insert (exact_table dict) (xxh3 w) f /\
  table_size dict' = table_size dict /\
  max_edit_distance dict' = max_edit_distance dict /\
  prefix_length dict' = prefix_length dict /\
  delete_buffer_capacity dict' = delete_buffer_capacity dict.
Proof.
  unfold ingest. rewrite add_exact_match_spec. intros H. bind_inv H.
  destruct a as [ok d1]. injection H as <- <-.
  apply generate_deletes_static in Hm as (_ & ? & ? & ? & ? & Hw & He).
  simpl in *. rewrite Hw, He. repeat split; assumption.
Qed.

Lemma ingest_Exit dict m w f s : ingest dict m w f = Exit s -> s = 1.
Proof.
  unfold ingest. destruct (add_exact_match dict w f) as [ok d1]. intros H.
  apply bind_Exit in H as [H | (a & _ & H)].
  - eapply generate_deletes_Exit; eauto.
  - destruct a; discriminate.
Qed.

Lemma load_lines_admitted lines ti ci : forall dict m,
  load_lines lines ti ci dict m = ingest_all (admitted lines ti ci) dict m.
Proof.
  induction lines as [|l lines IH]; intros dict m; simpl; [reflexivity|].
  destruct (parse_line l ti ci) as [[w f]|]; simpl; [|apply IH].
  destruct (ingest dict m w f) as [[d1 m1]|]; simpl; [apply IH | reflexivity].
Qed.

Lemma ingest_all_Exit pairs : forall dict m s,
  ingest_all pairs dict m = Exit s -> s = 1.
Proof.
  induction pairs as [|[w f] pairs IH]; simpl; intros dict m s H; [discriminate|].
  apply bind_Exit in H as [H | (a & _ & H)].
  - eapply ingest_Exit; eauto.
  - destruct a. eauto.
Qed.

Section LoadShape.
Variable logf : float -> float.

(** A load that returns has read the admitted pairs in order and then swept
    the exact-match table. *)
Lemma load_Ret dict content ti ci b dict' :
  symspell_load_dictionary logf dict (Some content) ti ci = Ret (b, dict') ->
  b = true /\
  exists d1 m1,
    ingest_all (admitted_pairs content ti ci) dict 0 = Ret (d1, m1) /\
    dict' = set_exact_table d1 (sweep logf (exact_table d1) m1).
Proof.
  unfold symspell_load_dictionary. fold (file_lines content).
  rewrite load_lines_admitted. fold (admitted_pairs content ti ci).
  intros H. bind_inv H. destruct a as [d1 m1]. injection H as <- <-.
  split; [reflexivity | eauto].
Qed.

End LoadShape.

(** ** Creation *)

(** C3 (as amended): [symspell_create] fails exactly when
    [max_edit_distance] is outside 1..3.  The prefix length is not checked:
    with a distance in range every prefix length, zero and negative ones
    included, gives a dictionary that stores it as passed. *)
Theorem symspell_create_checks_distance_only (max_edit_dist prefix_len : Z) :
  (symspell_create max_edit_dist prefix_len = None <->
   max_edit_dist < 1 \/ max_edit_dist > 3) /\
  (1 <= max_edit_dist <= 3 ->
   exists dict, symspell_create max_edit_dist prefix_len = Some dict /\
     max_edit_distance dict = max_edit_dist /\
     prefix_length dict = prefix_len).
Proof.
  unfold symspell_create, SYMSPELL_MAX_EDIT_DISTANCE. split.
  - destruct (max_edit_dist <? 1) eqn:E1; destruct (max_edit_dist >? 3) eqn:E2;
      simpl; split; intros H; try reflexivity; try discriminate; lia.
  - intros H.
    replace (max_edit_dist <? 1) with false by (symmetry; apply Z.ltb_ge; lia).
    replace (max_edit_dist >? 3) with false by (symmetry; lia).
    simpl. eexists. split; [reflexivity | split; reflexivity].
Qed.

Lemma symspell_create_checks_distance_only_witness :
  symspell_create 0 7 = None /\ symspell_create 4 7 = None /\
  exists dict, symspell_create 2 0 = Some dict /\ prefix_length dict = 0.
Proof.
  split; [| split].
  - apply (symspell_create_checks_distance_only 0 7). lia.
  - apply (symspell_create_checks_distance_only 4 7). lia.
  - destruct (proj2 (symspell_create_checks_distance_only 2 0)) as (d & H1 & _ & H2);
      [lia | exists d; split; assumption].
Defined.

(** C3, counterexample: a negative prefix length is accepted. *)
Lemma symspell_create_accepts_negative_prefix :
  exists dict, symspell_create 2 (-1) = Some dict /\ prefix_length dict = -1.
Proof. eexists. split; reflexivity. Qed.

(** ** The short-word rule *)

Lemma fold_left_preserves {A B} (P : A -> Prop) (f : A -> B -> A) (l : list B) :
  (forall a b, P a -> P (f a b)) -> forall a, P a -> P (fold_left f l a).
Proof. intros Hf. induction l as [|b l IH]; simpl; auto. Qed.

Lemma collect_entry_within stale query D entry cands :
  Forall (within D) cands -> Forall (within D) (collect_entry stale query D entry cands).
Proof.
  unfold collect_entry. apply fold_left_preserves. intros a j Ha.
  destruct (_ <? _); [|assumption].
  destruct (edit_distance query _ D <=? D) eqn:E; [|assumption].
  destruct (existsb _ _); [assumption|].
  apply Forall_app. split; [assumption|].
  constructor; [|constructor]. unfold within. simpl. lia.
Qed.

Lemma collect_candidates_within stale dict query D deletes :
  Forall (within D) (collect_candidates stale dict query D deletes).
Proof.
  unfold collect_candidates. apply fold_left_preserves; [|constructor].
  intros a d Ha. destruct (lookup_probe_loop _ _ _ _ _); [|assumption].
  apply collect_entry_within. assumption.
Qed.

Lemma best_candidate_In first others :
  In (best_candidate first others) (first :: others).
Proof.
  unfold best_candidate. revert first.
  induction others as [|c others IH]; intros first; simpl; [auto|].
  match goal with |- context [fold_left _ others ?b] =>
    assert (Hb : b = first \/ b = c) by
      (destruct (_ <? _); [auto | destruct (_ && _); auto]);
    destruct (IH b) as [H | H] end.
  - rewrite <- H. destruct Hb as [-> | ->]; auto.
  - auto.
Qed.

Section ShortWords.
Variable logf : float -> float.
Variable stale : nat -> string.

Lemma lookup_slow_within dict query D s :
  In s (lookup_slow logf stale dict query D) -> distance s <= D.
Proof.
  unfold lookup_slow.
  pose proof (collect_candidates_within stale dict query D
    (_generate_all_deletes_reuse query D (prefix_length dict)
       (delete_buffer_capacity dict))) as HF.
  destruct (collect_candidates stale _ _ _ _) as [|first others]; [intros []|].
  intros [<- | []]. simpl.
  rewrite Forall_forall in HF. apply HF.
  apply list_elem_of_In, best_candidate_In.
Qed.

End ShortWords.

(** ** The word counter *)

Lemma u64_range x : 0 <= u64 x < 2 ^ 64.
Proof. unfold u64. apply Z.mod_pos_bound. lia. Qed.

Lemma u64_add_l x y : u64 (u64 x + y) = u64 (x + y).
Proof. unfold u64. apply Z.add_mod_idemp_l. lia. Qed.

Lemma u64_small x : 0 <= x < 2 ^ 64 -> u64 x = x.
Proof. unfold u64. apply Z.mod_small. Qed.

Lemma ingest_all_word_count pairs : forall dict m dict' m',
  0 <= word_count dict < 2 ^ 64 ->
  ingest_all pairs dict m = Ret (dict', m') ->
  word_count dict' = u64 (word_count dict + Z.of_nat (length pairs)).
Proof.
  induction pairs as [|[w f] pairs IH]; simpl; intros dict m dict' m' Hr H.
  - injection H as <- <-. rewrite Z.add_0_r, u64_small; auto.
  - bind_inv H. destruct a as [d1 m1].
    apply ingest_Ret in Hm as (_ & Hw & _).
    apply IH in H; [|rewrite Hw; apply u64_range].
    rewrite H, Hw, u64_add_l. f_equal. lia.
Qed.

Section WordCount.
Variable logf : float -> float.

(** C9: the word count [symspell_get_stats] reports grows by one for every
    admitted line of a load, duplicates included (modulo 2^64, the counter
    being a [size_t]); it counts lines, not distinct words. *)
Theorem word_count_counts_admitted_lines dict content ti ci dict' :
  0 <= ti -> 0 <= ci ->
  0 <= word_count dict < 2 ^ 64 ->
  symspell_load_dictionary logf dict (Some content) ti ci = Ret (true, dict') ->
  fst (symspell_get_stats dict')
  = u64 (word_count dict + Z.of_nat (length (admitted_pairs content ti ci))).
Proof.
  intros _ _ Hr H. apply load_Ret in H as (_ & d1 & m1 & H & ->).
  simpl. eapply ingest_all_word_count; eauto.
Qed.

End WordCount.

(** Running a load on a concrete file: the load is evaluated and the goal
    goes on with the dictionary it returned; [E] records the run. *)
Ltac run_load :=
  match goal with
  | |- context [loaded ?lg ?d ?c ?ti ?ci] =>
      let v := eval vm_compute in (symspell_load_dictionary lg d (Some c) ti ci) in
      let E := fresh "E" in
      assert (E : symspell_load_dictionary lg d (Some c) ti ci = v)
        by (vm_compute; reflexivity);
      unfold loaded; rewrite E; cbv beta iota
  end.

(** The same word on two lines is counted twice. *)
Lemma word_count_counts_admitted_lines_witness :
  match loaded logf_at_one dict_1_7 ("a 1" ++ LF ++ "a 2" ++ LF) 0 1 with
  | Some dict' =>
      fst (symspell_get_stats dict') = 2 /\
      length (distinct_words (admitted_pairs ("a 1" ++ LF ++ "a 2" ++ LF) 0 1)) = 1%nat
  | None => False
  end.
Proof.
  run_load. split; [|vm_compute; reflexivity].
  rewrite (word_count_counts_admitted_lines logf_at_one dict_1_7
             ("a 1" ++ LF ++ "a 2" ++ LF) 0 1 _ ltac:(lia) ltac:(lia)
             ltac:(vm_compute; split; [discriminate | reflexivity]) E).
  vm_compute. reflexivity.
Defined.

(** ** Comment lines *)

(** A line without a byte outside blanks is skipped. *)
Lemma strtok_all_blank line :
  (forall c, In c (list_ascii_of_string line) -> is_blank c = true) ->
  strtok_all is_blank line "" = [].
Proof.
  induction line as [|c line IH]; simpl; intros H; [reflexivity|].
  rewrite (H c) by auto. simpl. apply IH. intros c' Hc'. apply H. auto.
Qed.

Lemma str_until_In stop s c :
  In c (list_ascii_of_string (str_until stop s)) -> In c (list_ascii_of_string s).
Proof.
  induction s as [|a s IH]; simpl; [auto|].
  destruct (stop a); simpl; [intros [] | intros [H | H]; auto].
Qed.

(** Blank lines, whether empty or made of spaces and tabs, are skipped. *)
Lemma blank_line_skipped line ti ci :
  0 <= ti ->
  (forall c, In c (list_ascii_of_string line) ->
             is_blank c = true \/ is_crlf c = true) ->
  parse_line line ti ci = None.
Proof.
  intros Hti Hb. unfold parse_line.
  destruct (strlen _ =? 0); [reflexivity|].
  rewrite strtok_all_blank.
  - simpl. replace (Z.of_nat 0 <=? ti) with true
      by (symmetry; apply Z.leb_le; lia).
    reflexivity.
  - intros c Hc.
    assert (Hs : is_crlf c = false).
    { clear Hb. revert Hc. generalize (c_str line). intros s.
      induction s as [|a s IH]; simpl; [intros []|].
      destruct (is_crlf a) eqn:Ea; simpl; [intros [] | intros [<- | H]; auto]. }
    apply str_until_In in Hc. apply str_until_In in Hc.
    destruct (Hb c Hc) as [H | H]; [exact H | congruence].
Qed.

(** C8, at the failing input: the comment line that [docs/DICTIONARY.md]
    shows in a dictionary file is not skipped.  Its first field, "#", is
    ingested as a word of frequency 1 (the second field is not a number and
    reads as 0, coerced to 1), the word count goes up for it, and a lookup
    of "#" then hits the exact-match table. *)
Theorem comment_line_is_ingested :
  admitted_pairs ("# Core technical terms" ++ LF ++ "stdin" ++ TAB ++ "1" ++ LF) 0 1
  = [("#", 1); ("stdin", 1)] /\
  match loaded logf_at_one dict_1_7
          ("# Core technical terms" ++ LF ++ "stdin" ++ TAB ++ "1" ++ LF) 0 1 with
  | Some dict' =>
      fst (symspell_get_stats dict') = 2 /\
      map (fun s => (term s, distance s, frequency s))
          (symspell_lookup logf_at_one stale_zero dict' "#" 1 5) = [("#", 0, 1)]
  | None => False
  end.
Proof. vm_compute. split; [reflexivity | split; reflexivity]. Qed.

(** ** Frequencies read from the file *)

Lemma digits_value_nonneg s : forall acc, 0 <= acc -> 0 <= digits_value s acc.
Proof.
  induction s as [|c s IH]; simpl; intros acc H; [assumption|].
  destruct (isdigit c) eqn:E; [|assumption].
  apply IH. unfold isdigit in E. apply andb_prop in E as [E _]. lia.
Qed.

Lemma strtoull_range s : 0 <= strtoull s < 2 ^ 64.
Proof.
  unfold strtoull.
  destruct (match skip_space s with
            | String "-"%char rest => (true, rest)
            | String "+"%char rest => (false, rest)
            | _ => (false, skip_space s)
            end) as [negative rest].
  pose proof (digits_value_nonneg rest 0 ltac:(lia)) as Hv.
  unfold ULLONG_MAX.
  destruct (digits_value rest 0 >? 2 ^ 64 - 1) eqn:E; [lia|].
  destruct negative; [apply u64_range | lia].
Qed.

Lemma parse_line_freq line ti ci w f :
  parse_line line ti ci = Some (w, f) -> 1 <= f < 2 ^ 64.
Proof.
  unfold parse_line. destruct (_ =? 0); [discriminate|].
  destruct (_ || _); [discriminate|]. intros [= _ <-].
  match goal with |- context [strtoull ?x] =>
    pose proof (strtoull_range x) as Hr; destruct (strtoull x =? 0) eqn:E end; lia.
Qed.

Lemma admitted_valid lines ti ci : Forall valid_freq (admitted lines ti ci).
Proof.
  induction lines as [|l lines IH]; simpl; [constructor|].
  destruct (parse_line l ti ci) as [[w f]|] eqn:E; [|assumption].
  constructor; [|assumption]. eapply parse_line_freq; eauto.
Qed.

Lemma ingest_all_max_freq pairs : forall dict m dict' m',
  Forall valid_freq pairs ->
  ingest_all pairs dict m = Ret (dict', m') ->
  m' = if m =? 0 then first_frequency pairs else m.
Proof.
  induction pairs as [|[w f] pairs IH]; simpl; intros dict m dict' m' Hv H.
  - injection H as <- <-. destruct (m =? 0) eqn:E; lia.
  - bind_inv H. destruct a as [d1 m1].
    apply ingest_Ret in Hm as (-> & _).
    inversion Hv as [|? ? Hf Hv']; subst. unfold valid_freq in Hf; simpl in Hf.
    apply IH in H; [|assumption]. rewrite H.
    destruct (m =? 0) eqn:E.
    + replace (f =? 0) with false by (symmetry; apply Z.eqb_neq; lia). reflexivity.
    + rewrite E. reflexivity.
Qed.

(** ** The probability sweep *)

Section Sweep.
Variable logf : float -> float.

Definition swept (max_freq : Z) (t t' : exact_match_table_t) (i : Z) : Prop :=
  probabilities t' !! i =
    Some (float_div (float_of_u64 (slotZ (exact_frequencies t) i))
                    (float_of_u64 max_freq)) /\
  iwf t' !! i =
    Some (calculate_iwf logf
            (float_div (float_of_u64 (slotZ (exact_frequencies t) i))
                       (float_of_u64 max_freq))).

Lemma sweep_loop_spec max_freq fuel : forall t i0,
  let t' := sweep_loop logf fuel max_freq t i0 in
  hashes t' = hashes t /\
  exact_frequencies t' = exact_frequencies t /\
  exact_table_size t' = exact_table_size t /\
  (forall i, i < i0 \/ i0 + Z.of_nat fuel <= i ->
     probabilities t' !! i = probabilities t !! i /\ iwf t' !! i = iwf t !! i) /\
  (forall i, i0 <= i < i0 + Z.of_nat fuel -> slotZ (hashes t) i <> 0 ->
     swept max_freq t t' i) /\
  (forall i, slotZ (hashes t) i = 0 ->
     probabilities t' !! i = probabilities t !! i /\ iwf t' !! i = iwf t !! i).
Proof.
  induction fuel as [|fuel IH]; intros t i0; cbv zeta.
  - simpl. repeat split; auto; intros; lia.
  - cbn [sweep_loop].
    specialize (IH (sweep_slot logf max_freq t i0) (i0 + 1)).
    cbv zeta in IH.
    set (t' := sweep_loop logf fuel max_freq (sweep_slot logf max_freq t i0) (i0 + 1)) in *.
    destruct IH as (Hh & Hf & Hs & Hout & Hin & Hz).
    assert (Hh1 : hashes (sweep_slot logf max_freq t i0) = hashes t)
      by (unfold sweep_slot; destruct (negb _); reflexivity).
    assert (Hf1 : exact_frequencies (sweep_slot logf max_freq t i0)
                  = exact_frequencies t)
      by (unfold sweep_slot; destruct (negb _); reflexivity).
    assert (Hs1 : exact_table_size (sweep_slot logf max_freq t i0)
                  = exact_table_size t)
      by (unfold sweep_slot; destruct (negb _); reflexivity).
    assert (Hne : forall i, i <> i0 ->
              probabilities (sweep_slot logf max_freq t i0) !! i
                = probabilities t !! i /\
              iwf (sweep_slot logf max_freq t i0) !! i = iwf t !! i).
    { intros i Hi. unfold sweep_slot. destruct (negb _); simpl; [|auto].
      rewrite !lookup_insert_ne by congruence. auto. }
    rewrite Hh1, Hf1, Hs1 in *.
    split; [assumption|]. split; [assumption|]. split; [assumption|].
    split; [|split].
    + intros i Hi. destruct (Hout i) as [-> ->]; [lia|]. apply Hne. lia.
    + intros i Hi Hnz. destruct (Z.eq_dec i i0) as [-> | Hd].
      * destruct (Hout i0) as [H1 H2]; [lia|]. unfold swept.
        rewrite H1, H2. unfold sweep_slot.
        replace (slotZ (hashes t) i0 =? 0) with false
          by (symmetry; apply Z.eqb_neq; assumption).
        simpl. rewrite !lookup_insert_eq. auto.
      * specialize (Hin i ltac:(lia) Hnz). unfold swept in *.
        rewrite Hf1 in Hin. exact Hin.
    + intros i Hi. destruct (Hz i Hi) as [-> ->].
      destruct (Z.eq_dec i i0) as [-> | Hd]; [|apply Hne; assumption].
      unfold sweep_slot. rewrite Hi. simpl. auto.
Qed.

(** What the sweep stores, with [max_freq] as the load leaves it. *)
Lemma sweep_stores dict content ti ci dict' :
  0 <= ti -> 0 <= ci ->
  symspell_load_dictionary logf dict (Some content) ti ci = Ret (true, dict') ->
  forall i, 0 <= i < exact_table_size (exact_table dict') ->
    slotZ (hashes (exact_table dict')) i <> 0 ->
    let p := slotF (probabilities (exact_table dict')) i in
    p = float_div
          (float_of_u64 (slotZ (exact_frequencies (exact_table dict')) i))
          (float_of_u64 (first_frequency (admitted_pairs content ti ci))) /\
    slotF (iwf (exact_table dict')) i =
      (if float_gt p float_zero then fabsf (float_neg (logf p)) else float_99).
Proof.
  intros _ _ H i Hi Hnz. apply load_Ret in H as (_ & d1 & m1 & H & ->).
  apply ingest_all_max_freq in H; [|apply admitted_valid]. simpl in H. subst m1.
  simpl in *. unfold sweep in *.
  destruct (sweep_loop_spec (first_frequency (admitted_pairs content ti ci))
              (Z.to_nat (exact_table_size (exact_table d1))) (exact_table d1) 0)
    as (Hh & Hf & Hs & _ & Hin & _).
  rewrite Hh, Hf, Hs in *.
  destruct (Hin i) as [H1 H2]; [lia | assumption |].
  unfold slotF. rewrite H1, H2. simpl. split; reflexivity.
Qed.

(** X22: What the sweep stores.  After a load that returns, every inhabited
    slot of the exact-match table holds
    [probability = (float)frequency / (float)max_freq] and
    [iwf = |-logf(probability)|], or 99.0 when the probability is not above
    zero, where [max_freq] is the frequency on the first admitted line of
    that load call (0 when the call admits no line). *)
Theorem probability_is_frequency_over_first_admitted dict content ti ci dict' :
  0 <= ti -> 0 <= ci ->
  symspell_load_dictionary logf dict (Some content) ti ci = Ret (true, dict') ->
  forall i, 0 <= i < exact_table_size (exact_table dict') ->
    slotZ (hashes (exact_table dict')) i <> 0 ->
    let p := slotF (probabilities (exact_table dict')) i in
    p = float_div
          (float_of_u64 (slotZ (exact_frequencies (exact_table dict')) i))
          (float_of_u64 (first_frequency (admitted_pairs content ti ci))) /\
    slotF (iwf (exact_table dict')) i =
      (if float_gt p float_zero then fabsf (float_neg (logf p)) else float_99).
Proof.
  exact (sweep_stores dict content ti ci dict').
Qed.

End Sweep.

(** When the first admitted line carries the largest frequency, as in a
    file sorted by descending frequency, [max_freq] is the maximum. *)
Lemma first_frequency_max_when_first_largest pairs :
  Forall valid_freq pairs ->
  Forall (fun p => snd p <= first_frequency pairs) pairs ->
  first_frequency pairs = max_frequency pairs.
Proof.
  destruct pairs as [|[w f] pairs]; [reflexivity|]. simpl.
  intros Hv Hle. inversion Hv as [|? ? Hf Hv']; subst.
  inversion Hle as [|? ? _ Hle']; subst. clear Hv Hle.
  unfold valid_freq in Hf. simpl in Hf.
  assert (H : 0 <= max_frequency pairs <= f).
  { induction pairs as [|[w' f'] pairs IH]; simpl; [lia|].
    inversion Hv' as [|? ? Hf' Hv'']; subst.
    inversion Hle' as [|? ? Hl Hle'']; subst. simpl in *.
    specialize (IH Hv'' Hle''). unfold valid_freq in Hf'. simpl in Hf'. lia. }
  unfold max_frequency in *. simpl. lia.
Qed.

(** X22, at an input: the slot of "b" after loading "a 1", "b 5" holds
    5/1. *)
Lemma probability_is_frequency_over_first_admitted_witness :
  match loaded logf_at_one dict_1_7 ("a 1" ++ LF ++ "b 5" ++ LF) 0 1 with
  | Some dict' =>
      let i := xxh3 "b" mod EXACT_MATCH_TABLE_SIZE in
      slotZ (exact_frequencies (exact_table dict')) i = 5 /\
      first_frequency (admitted_pairs ("a 1" ++ LF ++ "b 5" ++ LF) 0 1) = 1 /\
      slotF (probabilities (exact_table dict')) i
      = float_div (float_of_u64 5) (float_of_u64 1)
  | None => False
  end.
Proof.
  run_load.
  split; [vm_compute; reflexivity|]. split; [vm_compute; reflexivity|].
  match type of E with _ = Ret (true, ?d') =>
    destruct (probability_is_frequency_over_first_admitted logf_at_one dict_1_7
                ("a 1" ++ LF ++ "b 5" ++ LF) 0 1 d'
                ltac:(lia) ltac:(lia) E (xxh3 "b" mod EXACT_MATCH_TABLE_SIZE))
      as [H _]
  end.
  - vm_compute. split; [discriminate | reflexivity].
  - vm_compute. discriminate.
  - etransitivity; [exact H|]. vm_compute. reflexivity.
Defined.

(** C1, at the failing input: loading "a 1" then "b 5" admits the
    frequencies 1 and 5, so the largest admitted frequency is 5; yet the
    probability stored for "b" is 5.0 (frequency 5 over [max_freq] 1) and
    not 1.0. *)
Lemma probability_not_over_maximum :
  match loaded logf_at_one dict_1_7 ("a 1" ++ LF ++ "b 5" ++ LF) 0 1 with
  | Some dict' =>
      max_frequency (admitted_pairs ("a 1" ++ LF ++ "b 5" ++ LF) 0 1) = 5 /\
      map (fun s => (term s, frequency s, probability s))
          (symspell_lookup logf_at_one stale_zero dict' "b" 1 5)
      = [("b", 5, float_of_u64 5)] /\
      float_div (float_of_u64 5) (float_of_u64 5) = float_one /\
      float_of_u64 5 <> float_one
  | None => False
  end.
Proof.
  vm_compute. split; [reflexivity|]. split; [reflexivity|].
  split; [reflexivity | discriminate].
Qed.

(** ** Readers of the exact-match table through [probe] *)

Lemma lookup_fast_loop_spec fuel t idx h k query :
  lookup_fast_loop fuel t idx h k query =
  match probe fuel (exact_cls (hashes t) h) (exact_pos (exact_table_size t) idx) k with
  | PHit pos =>
      Some {| term := strncpy query (Z.to_nat SYMSPELL_MAX_TERM_LENGTH - 1);
              distance := 0;
              frequency := slotZ (exact_frequencies t) pos;
              probability := slotF (probabilities t) pos;
              suggestion_iwf := slotF (iwf t) pos |}
  | _ => None
  end.
Proof.
  revert k. induction fuel as [|fuel IH]; intros k; simpl; [reflexivity|].
  unfold exact_cls at 1, exact_pos at 1 2.
  destruct (slotZ (hashes t) ((idx + k) mod exact_table_size t) =? 0); [reflexivity|].
  destruct (slotZ (hashes t) ((idx + k) mod exact_table_size t) =? h); [reflexivity|].
  apply IH.
Qed.

Lemma lookup_fast_spec dict query :
  lookup_fast dict query =
  match exact_find (exact_table dict) (xxh3 query) with
  | PHit pos =>
      Some {| term := strncpy query (Z.to_nat SYMSPELL_MAX_TERM_LENGTH - 1);
              distance := 0;
              frequency := slotZ (exact_frequencies (exact_table dict)) pos;
              probability := slotF (probabilities (exact_table dict)) pos;
              suggestion_iwf := slotF (iwf (exact_table dict)) pos |}
  | _ => None
  end.
Proof. apply lookup_fast_loop_spec. Qed.

Lemma symspell_get_iwf_loop_spec fuel t idx h k :
  symspell_get_iwf_loop fuel t idx h k =
  match probe fuel (exact_cls (hashes t) h) (exact_pos (exact_table_size t) idx) k with
  | PHit pos => slotF (iwf t) pos
  | _ => float_zero
  end.
Proof.
  revert k. induction fuel as [|fuel IH]; intros k; simpl; [reflexivity|].
  unfold exact_cls at 1, exact_pos at 1 2.
  destruct (slotZ (hashes t) ((idx + k) mod exact_table_size t) =? 0); [reflexivity|].
  destruct (slotZ (hashes t) ((idx + k) mod exact_table_size t) =? h); [reflexivity|].
  apply IH.
Qed.

Lemma symspell_get_iwf_spec dict word :
  symspell_get_iwf dict word =
  match exact_find (exact_table dict) (xxh3 word) with
  | PHit pos => slotF (iwf (exact_table dict)) pos
  | _ => float_zero
  end.
Proof. apply symspell_get_iwf_loop_spec. Qed.

Lemma symspell_get_probability_loop_spec fuel t idx h k :
  symspell_get_probability_loop fuel t idx h k =
  match probe fuel (exact_cls (hashes t) h) (exact_pos (exact_table_size t) idx) k with
  | PHit pos => slotF (probabilities t) pos
  | _ => float_zero
  end.
Proof.
  revert k. induction fuel as [|fuel IH]; intros k; simpl; [reflexivity|].
  unfold exact_cls at 1, exact_pos at 1 2.
  destruct (slotZ (hashes t) ((idx + k) mod exact_table_size t) =? 0); [reflexivity|].
  destruct (slotZ (hashes t) ((idx + k) mod exact_table_size t) =? h); [reflexivity|].
  apply IH.
Qed.

(** ** Facts about [probe] *)

Lemma probe_PHit fuel cls pos : forall k q,
  probe fuel cls pos k = PHit q ->
  exists j, k <= j < k + Z.of_nat fuel /\ q = pos j /\ cls q = SMatch /\
    forall i, k <= i < j -> cls (pos i) = SOther.
Proof.
  induction fuel as [|fuel IH]; simpl; intros k q H; [discriminate|].
  destruct (cls (pos k)) eqn:E; try discriminate.
  - injection H as <-. exists k. repeat split; auto; intros; lia.
  - apply IH in H as (j & Hj & -> & Hc & Hb). exists j.
    split; [lia|]. split; [reflexivity|]. split; [assumption|]. intros i Hi.
    destruct (Z.eq_dec i k) as [-> | Hd]; [assumption | apply Hb; lia].
Qed.

Lemma probe_PEmpty fuel cls pos : forall k q,
  probe fuel cls pos k = PEmpty q ->
  exists j, k <= j < k + Z.of_nat fuel /\ q = pos j /\ cls q = SEmpty /\
    forall i, k <= i < j -> cls (pos i) = SOther.
Proof.
  induction fuel as [|fuel IH]; simpl; intros k q H; [discriminate|].
  destruct (cls (pos k)) eqn:E; try discriminate.
  - injection H as <-. exists k. repeat split; auto; intros; lia.
  - apply IH in H as (j & Hj & -> & Hc & Hb). exists j.
    split; [lia|]. split; [reflexivity|]. split; [assumption|]. intros i Hi.
    destruct (Z.eq_dec i k) as [-> | Hd]; [assumption | apply Hb; lia].
Qed.

Lemma probe_PFull fuel cls pos : forall k,
  probe fuel cls pos k = PFull ->
  forall i, k <= i < k + Z.of_nat fuel -> cls (pos i) = SOther.
Proof.
  induction fuel as [|fuel IH]; simpl; intros k H i Hi; [lia|].
  destruct (cls (pos k)) eqn:E; try discriminate.
  destruct (Z.eq_dec i k) as [-> | Hd]; [assumption | eapply IH; eauto; lia].
Qed.

(** The probe is decided by the classes of the slots it visits. *)
Lemma probe_ext fuel cls cls' pos : forall k,
  (forall i, k <= i < k + Z.of_nat fuel -> cls' (pos i) = cls (pos i)) ->
  probe fuel cls' pos k = probe fuel cls pos k.
Proof.
  induction fuel as [|fuel IH]; simpl; intros k H; [reflexivity|].
  rewrite (H k) by lia. destruct (cls (pos k)); try reflexivity.
  apply IH. intros i Hi. apply H. lia.
Qed.

(** Filling empty slots does not disturb a probe that ends in a hit or
    finds the table full: it never looked at an empty slot. *)
Lemma probe_stable fuel cls cls' pos : forall k,
  (forall p, cls p <> SEmpty -> cls' p = cls p) ->
  probe fuel cls pos k <> PFull \/ True ->
  match probe fuel cls pos k with
  | PHit q => probe fuel cls' pos k = PHit q
  | PFull => probe fuel cls' pos k = PFull
  | PEmpty q => True
  end.
Proof.
  intros k Hs _. revert k.
  induction fuel as [|fuel IH]; simpl; intros k; [reflexivity|].
  destruct (cls (pos k)) eqn:E; [exact I | |].
  - rewrite Hs, E by congruence. reflexivity.
  - rewrite Hs, E by congruence. apply IH.
Qed.

(** A probe that ends at an empty slot ends in a hit once that slot holds
    the key. *)
Lemma probe_filled fuel cls cls' pos : forall k q,
  probe fuel cls pos k = PEmpty q ->
  (forall p, cls p <> SEmpty -> cls' p = cls p) ->
  cls' q = SMatch ->
  probe fuel cls' pos k = PHit q.
Proof.
  induction fuel as [|fuel IH]; simpl; intros k q H Hs Hq; [discriminate|].
  destruct (cls (pos k)) eqn:E; try discriminate.
  - injection H as <-. rewrite Hq. reflexivity.
  - rewrite Hs, E by congruence. eapply IH; eauto.
Qed.

Lemma exact_find_PHit t h q :
  exact_find t h = PHit q ->
  0 <= q < exact_table_size t /\ slotZ (hashes t) q = h /\ h <> 0.
Proof.
  unfold exact_find. intros H.
  assert (0 < exact_table_size t).
  { destruct (Z.to_nat (exact_table_size t)) eqn:E; [discriminate H | lia]. }
  apply probe_PHit in H as (j & Hj & -> & Hc & _).
  split; [apply Z.mod_pos_bound; assumption|].
  unfold exact_cls in Hc.
  destruct (slotZ (hashes t) _ =? 0) eqn:E0; [discriminate|].
  destruct (slotZ (hashes t) _ =? h) eqn:E1; [|discriminate].
  apply Z.eqb_eq in E1. apply Z.eqb_neq in E0. split; [assumption | congruence].
Qed.

(** ** Division of a float by itself *)

Lemma float_of_u64_finite x :
  0 < x -> exists m e, float_of_u64 x = S754_finite false m e.
Proof.
  intros H. unfold float_of_u64.
  replace (x <=? 0) with false by (symmetry; apply Z.leb_gt; lia).
  cbv zeta. destruct (_ <=? float_prec); [eauto|].
  destruct (_ =? 2 ^ float_prec); eauto.
Qed.

Lemma SFdiv_self m e :
  float_div (S754_finite false m e) (S754_finite false m e) = float_one.
Proof.
  unfold float_div, SFdiv, SFdiv_core_binary, float_prec, float_emax.
  rewrite !Z.sub_diag.
  change (Z.min (fexp 24 128 0) 0) with (-24).
  change (0 - -24) with 24. cbv beta iota.
  assert (Hd : Z.div_eucl (Z.shiftl (Z.pos m) 24) (Z.pos m) = (2 ^ 24, 0)).
  { rewrite Z.shiftl_mul_pow2 by lia.
    pose proof (Z.div_eucl_eq (Z.pos m * 2 ^ 24) (Z.pos m) ltac:(lia)) as Hq.
    assert (Hdiv : Z.pos m * 2 ^ 24 / Z.pos m = 2 ^ 24)
      by (rewrite Z.mul_comm; apply Z.div_mul; lia).
    assert (Hmod : (Z.pos m * 2 ^ 24) mod Z.pos m = 0)
      by (rewrite Z.mul_comm; apply Z.mod_mul; lia).
    unfold Z.div, Z.modulo in Hdiv, Hmod.
    destruct (Z.div_eucl (Z.pos m * 2 ^ 24) (Z.pos m)) as [q r].
    simpl in Hdiv, Hmod. congruence. }
  rewrite Hd.
  assert (Hl : new_location (Z.pos m) 0 = loc_Exact).
  { unfold new_location. destruct (Z.even (Z.pos m)); reflexivity. }
  rewrite Hl. vm_compute. reflexivity.
Qed.

Lemma float_div_self x :
  0 < x -> float_div (float_of_u64 x) (float_of_u64 x) = float_one.
Proof.
  intros H. destruct (float_of_u64_finite x H) as (m & e & ->). apply SFdiv_self.
Qed.

(** ** IWF of the reference word *)

Lemma first_frequency_positive pairs :
  Forall valid_freq pairs -> pairs <> [] -> 0 < first_frequency pairs.
Proof.
  destruct pairs as [|[w f] pairs]; [congruence|].
  intros Hv _. inversion Hv as [|? ? Hf _]; subst.
  unfold valid_freq in Hf. simpl in *. lia.
Qed.

Section ReferenceWord.
Variable logf : float -> float.
(** Annex F of the C standard: [log(1)] returns [+0]. *)
Hypothesis logf_one : logf float_one = float_zero.

Lemma calculate_iwf_one : calculate_iwf logf float_one = float_zero.
Proof. unfold calculate_iwf. simpl. rewrite logf_one. reflexivity. Qed.

(** X23: After a load, [symspell_get_iwf] returns 0.0 for a word the
    exact-match table does not hold, and also for a word it holds with the
    frequency the load used as [max_freq], the first one admitted: that word
    has probability 1.0 and IWF [|-logf(1)| = 0.0]. *)
Theorem iwf_zero_for_absent_and_for_reference_word
    dict content ti ci dict' word :
  0 <= ti -> 0 <= ci ->
  symspell_load_dictionary logf dict (Some content) ti ci = Ret (true, dict') ->
  (lookup_fast dict' word = None -> symspell_get_iwf dict' word = float_zero) /\
  (forall s, lookup_fast dict' word = Some s ->
     admitted_pairs content ti ci <> [] ->
     frequency s = first_frequency (admitted_pairs content ti ci) ->
     probability s = float_one /\ symspell_get_iwf dict' word = float_zero).
Proof.
  intros Hti Hci Hload.
  rewrite lookup_fast_spec, symspell_get_iwf_spec.
  destruct (exact_find (exact_table dict') (xxh3 word)) as [pos| |] eqn:Ef;
    (split; [try discriminate; reflexivity | try discriminate]).
  intros s [= <-] Hne. simpl. intros Hfreq.
  apply exact_find_PHit in Ef as (Hpos & Hh & Hnz).
  destruct (sweep_stores logf dict content ti ci
              dict' Hti Hci Hload pos Hpos) as [Hp Hi]; [congruence|].
  rewrite Hfreq in Hp.
  rewrite float_div_self in Hp
    by (apply first_frequency_positive; [apply admitted_valid | assumption]).
  split; [exact Hp|]. rewrite Hi, Hp. apply calculate_iwf_one.
Qed.

End ReferenceWord.

(** X23, at an input: after loading "the 100", "tea 5" the IWF of "the",
    the first word, and the IWF of the absent word "xyz" are both 0.0. *)
Lemma iwf_zero_for_absent_and_for_reference_word_witness :
  match loaded logf_at_one dict_1_7 ("the 100" ++ LF ++ "tea 5" ++ LF) 0 1 with
  | Some dict' =>
      symspell_get_iwf dict' "the" = float_zero /\
      symspell_get_iwf dict' "xyz" = float_zero
  | None => False
  end.
Proof.
  run_load.
  match type of E with _ = Ret (true, ?d') =>
    pose proof (iwf_zero_for_absent_and_for_reference_word logf_at_one
                  ltac:(reflexivity) dict_1_7
                  ("the 100" ++ LF ++ "tea 5" ++ LF) 0 1 d' "the"
                  ltac:(lia) ltac:(lia) E) as [_ Hthe];
    pose proof (iwf_zero_for_absent_and_for_reference_word logf_at_one
                  ltac:(reflexivity) dict_1_7
                  ("the 100" ++ LF ++ "tea 5" ++ LF) 0 1 d' "xyz"
                  ltac:(lia) ltac:(lia) E) as [Hxyz _]
  end.
  split.
  - eapply Hthe; [vm_compute; reflexivity | vm_compute; discriminate
                  | vm_compute; reflexivity].
  - apply Hxyz. vm_compute. reflexivity.
Defined.

Section MostFrequentWord.
Variable logf : float -> float.

(** C10, at the failing input: after loading "a 1" then "b 5" the most
    frequent word is "b", with frequency 5.  Its IWF is [|-logf(5.0)|], not
    [|-logf(1.0)|]; the IWF [|-logf(1.0)|], which is 0.0, goes to "a", the
    least frequent word, and the absent "xyz" gets 0.0.  So also in the use
    [docs/DICTIONARY.md] shows, a second load of extra terms with frequency
    1: before it the most frequent word "the" has the IWF [|-logf(1.0)|],
    after it [|-logf(100.0)|], and [|-logf(1.0)|] goes to the extra term. *)
Theorem iwf_zero_for_first_word_not_most_frequent :
  match loaded logf dict_1_7 ("a 1" ++ LF ++ "b 5" ++ LF) 0 1 with
  | Some dict' =>
      max_frequency (admitted_pairs ("a 1" ++ LF ++ "b 5" ++ LF) 0 1) = 5 /\
      map frequency (symspell_lookup logf stale_zero dict' "b" 1 5) = [5] /\
      map frequency (symspell_lookup logf stale_zero dict' "a" 1 5) = [1] /\
      symspell_lookup logf stale_zero dict' "xyz" 1 5 = [] /\
      symspell_get_iwf dict' "b" = fabsf (float_neg (logf (float_of_u64 5))) /\
      symspell_get_iwf dict' "a" = fabsf (float_neg (logf float_one)) /\
      symspell_get_iwf dict' "xyz" = float_zero
  | None => False
  end /\
  match loaded logf dict_1_7 ("the 100" ++ LF ++ "tea 5" ++ LF) 0 1 with
  | Some dict1 =>
      symspell_get_iwf dict1 "the" = fabsf (float_neg (logf float_one)) /\
      match loaded logf dict1 ("kubectl 1" ++ LF) 0 1 with
      | Some dict2 =>
          symspell_get_iwf dict2 "the" = fabsf (float_neg (logf (float_of_u64 100))) /\
          symspell_get_iwf dict2 "kubectl" = fabsf (float_neg (logf float_one))
      | None => False
      end
  | None => False
  end.
Proof.
  split.
  - vm_compute. repeat (split; [reflexivity|]). reflexivity.
  - vm_compute. repeat (split; [reflexivity|]). reflexivity.
Qed.

End MostFrequentWord.

(** ** The delete enumerator *)

Lemma strlen_nonneg s : 0 <= strlen s.
Proof. unfold strlen. lia. Qed.

Lemma strlen_0 s : strlen s = 0 -> s = "".
Proof. destruct s; [reflexivity | unfold strlen; simpl; lia]. Qed.

Lemma str_take_length n : forall s,
  String.length (str_take n s) = Nat.min n (String.length s).
Proof.
  induction n as [|n IH]; intros [|c s]; simpl; try reflexivity.
  rewrite IH. reflexivity.
Qed.

Lemma str_take_all n : forall s, (String.length s <= n)%nat -> str_take n s = s.
Proof.
  induction n as [|n IH]; intros [|c s] H; simpl in *; try reflexivity; try lia.
  rewrite IH by lia. reflexivity.
Qed.

Lemma str_take_take n : forall m s,
  (m <= n)%nat -> str_take n (str_take m s) = str_take m s.
Proof.
  intros m s H. apply str_take_all. rewrite str_take_length. lia.
Qed.

(** For a prefix length the 128-byte buffer can hold, the enumeration starts
    from the first [prefix_length] bytes of the word. *)
Lemma delete_prefix_take word P :
  0 <= P < SYMSPELL_MAX_TERM_LENGTH ->
  delete_prefix word P = str_take (Z.to_nat P) word /\
  strlen (delete_prefix word P) = Z.min (strlen word) P.
Proof.
  unfold SYMSPELL_MAX_TERM_LENGTH. intros HP.
  assert (E : delete_prefix word P = str_take (Z.to_nat P) word).
  { unfold delete_prefix, snprintf_prec, SYMSPELL_MAX_TERM_LENGTH.
    change (Z.to_nat 128 - 1)%nat with 127%nat.
    destruct (strlen word >? P) eqn:E.
    - replace (P <? 0) with false by (symmetry; apply Z.ltb_ge; lia).
      apply str_take_take. lia.
    - pose proof (strlen_nonneg word).
      replace (strlen word <? 0) with false by (symmetry; apply Z.ltb_ge; lia).
      unfold strlen in *. rewrite Nat2Z.id.
      rewrite (str_take_all (String.length word) word) by lia.
      rewrite (str_take_all (Z.to_nat P) word) by lia.
      apply str_take_all. lia. }
  split; [exact E|]. rewrite E. unfold strlen. rewrite str_take_length. lia.
Qed.

Lemma str_remove_length i : forall s,
  (i < String.length s)%nat ->
  String.length (str_remove i s) = (String.length s - 1)%nat.
Proof.
  induction i as [|i IH]; intros [|c s] H; simpl in *; try lia.
  rewrite IH by lia. lia.
Qed.

Lemma grows_refl st : grows st st.
Proof. split; auto. Qed.

Lemma grows_trans st1 st2 st3 : grows st1 st2 -> grows st2 st3 -> grows st1 st3.
Proof. intros [H1 H2] [H3 H4]. split; auto. Qed.

Lemma emit_grows md s st : s <> "" -> grows st (emit md s st).
Proof.
  intros Hs. unfold emit. destruct (ht_find _ _); [apply grows_refl|].
  destruct (_ <? _); [|apply grows_refl].
  split; simpl.
  - intros x Hx. apply in_or_app. auto.
  - intros H. apply in_app_or in H as [H | [H | []]]; [assumption | congruence].
Qed.

Lemma delete_step_grows md current st i :
  (i < String.length (str current))%nat ->
  (2 <= String.length (str current))%nat ->
  grows st (delete_step md current st i).
Proof.
  intros Hi Hlen. unfold delete_step.
  assert (Hne : str_remove i (str current) <> "").
  { intros H. apply (f_equal String.length) in H.
    rewrite str_remove_length in H by assumption.
    change (String.length "") with 0%nat in H. lia. }
  pose proof (emit_grows md _ st Hne) as Hg.
  destruct (_ <? DELETE_QUEUE_CAPACITY); [|assumption].
  destruct (existsb _ _); assumption.
Qed.

Lemma fold_left_preserves_In {A B} (P : A -> Prop) (f : A -> B -> A) (l : list B) :
  (forall a b, In b l -> P a -> P (f a b)) -> forall a, P a -> P (fold_left f l a).
Proof.
  induction l as [|b l IH]; simpl; intros Hf a Ha; [assumption|].
  apply IH; [intros; apply Hf; auto | apply Hf; auto].
Qed.

Lemma deletes_loop_grows fuel D md : forall st,
  grows st (deletes_loop fuel D md st).
Proof.
  induction fuel as [|fuel IH]; intros st; simpl; [apply grows_refl|].
  destruct (pending st) as [|current rest]; [apply grows_refl|].
  destruct (delete_count st <? md); [|apply grows_refl].
  destruct (_ || _) eqn:E.
  - eapply grows_trans; [|apply IH]. split; auto.
  - eapply grows_trans; [|apply IH].
    apply orb_false_elim in E as [_ E]. apply Z.leb_gt in E.
    unfold strlen in E.
    apply (fold_left_preserves_In (fun st' => grows st st')).
    + intros a i Hi Ha. eapply grows_trans; [exact Ha|].
      apply in_seq in Hi. unfold strlen in Hi. rewrite Nat2Z.id in Hi.
      apply delete_step_grows; lia.
    + split; auto.
Qed.

(** What is emitted before the loop. *)
Lemma emitted_before_loop prefix D md :
  prefix <> "" -> 2 <= md ->
  let st1 :=
    if (strlen prefix <=? D) && (delete_count empty_state <? md)
    then emit md "" empty_state else empty_state in
  let st2 := if delete_count st1 <? md then emit md prefix st1 else st1 in
  In prefix (deletes_out st2) /\
  (In "" (deletes_out st2) <-> strlen prefix <= D).
Proof.
  intros Hp Hmd.
  assert (Hf1 : ht_find ∅ "" = false)
    by (unfold ht_find; apply bool_decide_eq_false; set_solver).
  assert (Hf2 : ht_find (ht_enter ∅ "") prefix = false)
    by (unfold ht_find, ht_enter; apply bool_decide_eq_false; set_solver).
  assert (Hf3 : ht_find ∅ prefix = false)
    by (unfold ht_find; apply bool_decide_eq_false; set_solver).
  assert (H0 : (Z.of_nat 0 <? md) = true) by (apply Z.ltb_lt; lia).
  assert (H1 : (Z.of_nat 1 <? md) = true) by (apply Z.ltb_lt; lia).
  unfold emit, delete_count, empty_state. simpl.
  rewrite H0, andb_true_r, Hf1.
  destruct (strlen prefix <=? D) eqn:ED; simpl.
  - rewrite H1, Hf2. simpl.
    apply Z.leb_le in ED. split; [auto | split; auto].
  - rewrite ?H0, Hf3. simpl. apply Z.leb_gt in ED.
    split; [auto|]. split; [intros [H | []]; congruence | lia].
Qed.

(** C2 (as amended): for a non-empty word, a prefix length in 1..127 and an
    output buffer of at least two slots, the produced set contains the
    prefix (the first [P] bytes of the word), and contains the empty string
    exactly when the length of that prefix, [min(|word|, P)], is at most
    [D]. *)
Theorem deletes_contain_prefix_and_empty word D P max_deletes :
  word <> "" ->
  0 < P < SYMSPELL_MAX_TERM_LENGTH ->
  2 <= max_deletes ->
  let out := _generate_all_deletes_reuse word D P max_deletes in
  In (str_take (Z.to_nat P) word) out /\
  (In "" out <-> Z.min (strlen word) P <= D).
Proof.
  intros Hw HP Hmd out. subst out. unfold _generate_all_deletes_reuse.
  destruct (strlen word =? 0) eqn:E0.
  { apply Z.eqb_eq, strlen_0 in E0. contradiction. }
  destruct (delete_prefix_take word P ltac:(lia)) as [Ep El].
  rewrite <- Ep, <- El.
  assert (Hpne : delete_prefix word P <> "").
  { intros H. rewrite H in El. unfold strlen in El at 1.
    simpl in El. apply Z.eqb_neq in E0. pose proof (strlen_nonneg word). lia. }
  generalize dependent (delete_prefix word P). intros prefix _ _ Hpne.
  destruct (emitted_before_loop prefix D max_deletes Hpne Hmd) as [H1 H2].
  cbv zeta in H1, H2. fold empty_state.
  match goal with |- context [deletes_loop ?f D max_deletes ?st0] =>
    destruct (deletes_loop_grows f D max_deletes st0) as [Hin Hemp];
    generalize dependent (deletes_loop f D max_deletes st0)
  end.
  cbn [deletes_out]. intros final Hin Hemp.
  split; [apply Hin; assumption|].
  rewrite <- H2. split; [apply Hemp | apply Hin].
Qed.

Lemma deletes_contain_prefix_and_empty_witness :
  In "hel" (_generate_all_deletes_reuse "hello" 2 3 10000) /\
  (In "" (_generate_all_deletes_reuse "hello" 2 3 10000) <-> Z.min 5 3 <= 2) /\
  In "ab" (_generate_all_deletes_reuse "ab" 2 7 10000) /\
  (In "" (_generate_all_deletes_reuse "ab" 2 7 10000) <-> Z.min 2 7 <= 2).
Proof.
  pose proof (deletes_contain_prefix_and_empty "hello" 2 3 10000
                ltac:(discriminate) ltac:(vm_compute; split; reflexivity)
                ltac:(lia)) as [H1 H2].
  pose proof (deletes_contain_prefix_and_empty "ab" 2 7 10000
                ltac:(discriminate) ltac:(vm_compute; split; reflexivity)
                ltac:(lia)) as [H3 H4].
  split; [exact H1|]. split; [exact H2|]. split; [exact H3 | exact H4].
Defined.

(** C2, counterexample: with [P = 7 > D = 1] the one-byte word "a" still
    yields the empty string, because its prefix has length 1; and the empty
    word yields nothing at all, not even its prefix. *)
Lemma deletes_empty_string_despite_long_prefix :
  _generate_all_deletes_reuse "a" 1 7 10000 = [""; "a"] /\
  _generate_all_deletes_reuse "" 1 7 10000 = [].
Proof. vm_compute. split; reflexivity. Qed.

(** *** The enumeration loop ends on its own condition

    The fuel [DELETE_QUEUE_CAPACITY] is never what stops the loop: it stops
    because the queue is drained or the output buffer is full. *)

Lemma delete_step_queue md current st i :
  queue_ok st ->
  queue_ok (delete_step md current st i) /\
  taken (delete_step md current st i) = taken st.
Proof.
  unfold delete_step, queue_ok, taken, emit. intros H.
  destruct (ht_find _ _); [|destruct (_ <? md)]; simpl;
    (destruct (queue_end st <? DELETE_QUEUE_CAPACITY) eqn:E; [|auto]);
    (destruct (existsb _ _); [auto|]); simpl;
    apply Z.ltb_lt in E; rewrite length_app; simpl; lia.
Qed.

Lemma deletes_loop_ends fuel D md : forall st,
  queue_ok st ->
  DELETE_QUEUE_CAPACITY <= taken st + Z.of_nat fuel ->
  let st' := deletes_loop fuel D md st in
  pending st' = [] \/ md <= delete_count st'.
Proof.
  induction fuel as [|fuel IH]; intros st Hok Hfuel; cbv zeta.
  - simpl. left. unfold queue_ok, taken in *.
    destruct (pending st); [reflexivity | simpl in *; lia].
  - cbn [deletes_loop]. destruct (pending st) as [|current rest] eqn:Ep; [auto|].
    destruct (delete_count st <? md) eqn:Ec; [|right; apply Z.ltb_ge; assumption].
    set (st1 := {| deletes_out := deletes_out st; uniq_set := uniq_set st;
                   pending := rest; queue_end := queue_end st |}).
    assert (Hok1 : queue_ok st1) by exact Hok.
    assert (Ht1 : taken st1 = taken st + 1)
      by (unfold taken, st1; rewrite Ep; simpl; lia).
    destruct (_ || _).
    + apply IH; [assumption | lia].
    + match goal with |- context [fold_left ?f ?l st1] =>
        assert (Hf : queue_ok (fold_left f l st1) /\
                     taken (fold_left f l st1) = taken st1)
      end.
      { apply (fold_left_preserves
                 (fun s => queue_ok s /\ taken s = taken st1)); [|auto].
        intros a i [Ha1 Ha2].
        destruct (delete_step_queue md current a i Ha1) as [? ?].
        split; [assumption | congruence]. }
      destruct Hf as [Hf1 Hf2]. apply IH; [assumption | lia].
Qed.

Lemma _generate_all_deletes_reuse_ends word D P md :
  word <> "" ->
  exists st,
    _generate_all_deletes_reuse word D P md = deletes_out st /\
    (pending st = [] \/ md <= delete_count st).
Proof.
  intros Hw. unfold _generate_all_deletes_reuse.
  destruct (strlen word =? 0) eqn:E0.
  { apply Z.eqb_eq, strlen_0 in E0. contradiction. }
  eexists. split; [reflexivity|].
  apply deletes_loop_ends.
  - unfold queue_ok, DELETE_QUEUE_CAPACITY. cbn [queue_end]. lia.
  - unfold taken. cbn [queue_end pending length].
    unfold DELETE_QUEUE_CAPACITY. lia.
Qed.

(** ** The exact-match table as a map from hashes to frequencies *)

Lemma slotZ_insert (a : gmap Z Z) i v j :
  slotZ (<[i := v]> a) j = if decide (i = j) then v else slotZ a j.
Proof. unfold slotZ. rewrite lookup_insert. destruct (decide (i = j)); reflexivity. Qed.

Lemma exact_cls_SEmpty hs h p : exact_cls hs h p = SEmpty <-> slotZ hs p = 0.
Proof.
  unfold exact_cls. destruct (slotZ hs p =? 0) eqn:E.
  - apply Z.eqb_eq in E. tauto.
  - apply Z.eqb_neq in E. destruct (_ =? h); split; intros; congruence.
Qed.

Lemma exact_cls_SMatch hs h p :
  exact_cls hs h p = SMatch <-> slotZ hs p = h /\ h <> 0.
Proof.
  unfold exact_cls. destruct (slotZ hs p =? 0) eqn:E.
  - apply Z.eqb_eq in E. split; [discriminate | intros [? ?]; congruence].
  - apply Z.eqb_neq in E. destruct (slotZ hs p =? h) eqn:Eh.
    + apply Z.eqb_eq in Eh. split; [intros _; split; congruence | reflexivity].
    + apply Z.eqb_neq in Eh. split; [discriminate | intros [? ?]; congruence].
Qed.

Lemma exact_find_PEmpty t h q :
  exact_find t h = PEmpty q ->
  0 <= q < exact_table_size t /\ slotZ (hashes t) q = 0.
Proof.
  unfold exact_find. intros H.
  assert (0 < exact_table_size t).
  { destruct (Z.to_nat (exact_table_size t)) eqn:E; [discriminate H | lia]. }
  apply probe_PEmpty in H as (j & Hj & -> & Hc & _).
  split; [apply Z.mod_pos_bound; assumption|].
  apply exact_cls_SEmpty in Hc. exact Hc.
Qed.

(** A table with an empty slot is never found full. *)
Lemma has_room_not_full t h : has_room t -> exact_find t h <> PFull.
Proof.
  intros (e & He & Hz) H. unfold exact_find in H.
  set (N := exact_table_size t) in *.
  pose proof (probe_PFull _ _ _ _ H ((e - h mod N) mod N)) as Hc.
  assert (Hm : 0 <= (e - h mod N) mod N < N) by (apply Z.mod_pos_bound; lia).
  rewrite Z2Nat.id in Hc by lia. specialize (Hc ltac:(lia)).
  unfold exact_pos in Hc. rewrite Z.add_mod_idemp_r in Hc by lia.
  replace (h mod N + (e - h mod N)) with e in Hc by lia.
  rewrite Z.mod_small in Hc by lia.
  assert (exact_cls (hashes t) h e = SEmpty) by (apply exact_cls_SEmpty; assumption).
  congruence.
Qed.

Section ExactInsert.
Variables (t : exact_match_table_t) (h f : Z).

Let t' := exact_insert t h f.

Lemma exact_insert_size : exact_table_size t' = exact_table_size t.
Proof.
  unfold t', exact_insert. destruct (exact_find t h); [|reflexivity..].
  destruct (_ >? _); reflexivity.
Qed.

(** Inserting only turns empty slots into slots holding [h]. *)
Lemma exact_insert_hashes p :
  slotZ (hashes t') p = slotZ (hashes t) p \/
  (slotZ (hashes t) p = 0 /\ slotZ (hashes t') p = h /\
   exact_find t h = PEmpty p).
Proof.
  unfold t', exact_insert. destruct (exact_find t h) as [q|q|] eqn:E; auto.
  - destruct (_ >? _); auto.
  - simpl. rewrite slotZ_insert. destruct (decide (q = p)) as [<- | Hd]; [|auto].
    right. apply exact_find_PEmpty in E as [_ E]. auto.
Qed.

Lemma exact_insert_room : has_room t' -> has_room t.
Proof.
  intros (e & He & Hz). rewrite exact_insert_size in He. exists e.
  split; [assumption|].
  destruct (exact_insert_hashes e) as [H | (H & _)]; congruence.
Qed.

Lemma exact_insert_cls k p :
  exact_cls (hashes t) k p <> SEmpty ->
  exact_cls (hashes t') k p = exact_cls (hashes t) k p.
Proof.
  intros H. rewrite exact_cls_SEmpty in H.
  destruct (exact_insert_hashes p) as [E | (E & _)]; [|contradiction].
  unfold exact_cls. rewrite E. reflexivity.
Qed.

Lemma exact_insert_find_stable k q :
  exact_find t k = PHit q -> exact_find t' k = PHit q.
Proof.
  intros H. unfold exact_find in *. rewrite exact_insert_size.
  pose proof (probe_stable (Z.to_nat (exact_table_size t))
                (exact_cls (hashes t) k) (exact_cls (hashes t') k)
                (exact_pos (exact_table_size t) (k mod exact_table_size t)) 0
                (exact_insert_cls k) (or_intror I)) as Hs.
  rewrite H in Hs. exact Hs.
Qed.

Lemma exact_insert_frequencies pos :
  slotZ (exact_frequencies t') pos = slotZ (exact_frequencies t) pos \/
  (exact_find t h = PEmpty pos /\ slotZ (exact_frequencies t') pos = f) \/
  (exact_find t h = PHit pos /\
   slotZ (exact_frequencies t') pos =
     if f >? slotZ (exact_frequencies t) pos then f
     else slotZ (exact_frequencies t) pos).
Proof.
  unfold t', exact_insert. destruct (exact_find t h) as [q|q|] eqn:E; auto.
  - destruct (f >? slotZ (exact_frequencies t) q) eqn:Ef; simpl.
    + rewrite slotZ_insert. destruct (decide (q = pos)) as [<- | Hd]; [|auto].
      right. right. rewrite Ef. auto.
    + destruct (Z.eq_dec q pos) as [<- | Hd]; [|auto].
      right. right. rewrite Ef. auto.
  - simpl. rewrite slotZ_insert. destruct (decide (q = pos)) as [<- | Hd]; auto.
Qed.

(** The inserted hash is found afterwards, with the larger frequency. *)
Lemma exact_insert_stored_same :
  h <> 0 -> exact_find t h <> PFull ->
  stored_freq t' h =
  Some (match stored_freq t h with
        | Some f0 => if f >? f0 then f else f0
        | None => f
        end).
Proof.
  intros Hh Hnf. unfold stored_freq.
  destruct (exact_find t h) as [q|q|] eqn:E; [| |contradiction].
  - rewrite (exact_insert_find_stable h q E). unfold t', exact_insert.
    rewrite E.
    destruct (f >? slotZ (exact_frequencies t) q) eqn:Ef; [|reflexivity].
    simpl. rewrite slotZ_insert.
    destruct (decide (q = q)); [reflexivity | contradiction].
  - assert (Hs : slotZ (hashes t') q = h).
    { unfold t', exact_insert. rewrite E. simpl. rewrite slotZ_insert.
      destruct (decide (q = q)); [reflexivity | contradiction]. }
    assert (Hfq : slotZ (exact_frequencies t') q = f).
    { unfold t', exact_insert. rewrite E. simpl. rewrite slotZ_insert.
      destruct (decide (q = q)); [reflexivity | contradiction]. }
    assert (Ef : exact_find t' h = PHit q).
    { unfold exact_find in *. rewrite exact_insert_size.
      eapply probe_filled; [exact E | apply exact_insert_cls |].
      apply exact_cls_SMatch. auto. }
    rewrite Ef, Hfq. reflexivity.
Qed.

Lemma exact_insert_ok : exact_ok t -> exact_ok t'.
Proof.
  intros Hok p Hp.
  destruct (exact_insert_hashes p) as [E | (E0 & Eh & Ee)].
  - rewrite E in *. destruct (Hok p Hp) as [q Hq]. exists q.
    apply exact_insert_find_stable. assumption.
  - rewrite Eh in *. exists p.
    unfold exact_find in *. rewrite exact_insert_size.
    eapply probe_filled; [exact Ee | apply exact_insert_cls |].
    apply exact_cls_SMatch. auto.
Qed.

(** The other hashes keep what they had. *)
Lemma exact_insert_stored_other k :
  exact_ok t -> k <> h -> stored_freq t' k = stored_freq t k.
Proof.
  intros Hok Hk. unfold stored_freq.
  destruct (exact_find t k) as [q|q|] eqn:E.
  - rewrite (exact_insert_find_stable k q E). f_equal.
    apply exact_find_PHit in E as (_ & Eq & Hnz).
    destruct (exact_insert_frequencies q) as [Hq | [[Hq _] | [Hq _]]];
      [assumption | |].
    + apply exact_find_PEmpty in Hq as [_ Hq]. congruence.
    + apply exact_find_PHit in Hq as (_ & Hq & _). congruence.
  - destruct (exact_find t' k) as [q'| |] eqn:E'; [|reflexivity..].
    exfalso. apply exact_find_PHit in E' as (_ & Eq & Hnz).
    destruct (exact_insert_hashes q') as [Hs | (_ & Hs & _)]; [|congruence].
    rewrite Hs in Eq. destruct (Hok q') as [q2 Hq2]; [congruence|].
    rewrite Eq in Hq2. congruence.
  - destruct (exact_find t' k) as [q'| |] eqn:E'; [|reflexivity..].
    exfalso. apply exact_find_PHit in E' as (_ & Eq & Hnz).
    destruct (exact_insert_hashes q') as [Hs | (_ & Hs & _)]; [|congruence].
    rewrite Hs in Eq. destruct (Hok q') as [q2 Hq2]; [congruence|].
    rewrite Eq in Hq2. congruence.
Qed.

End ExactInsert.

(** ** The exact-match table after a load *)

Lemma ingest_all_exact pairs : forall dict m dict' m',
  ingest_all pairs dict m = Ret (dict', m') ->
  exact_table dict' = exact_after pairs (exact_table dict).
Proof.
  induction pairs as [|[w f] pairs IH]; simpl; intros dict m dict' m' H.
  - injection H as <- <-. reflexivity.
  - bind_inv H. destruct a as [d1 m1].
    apply ingest_Ret in Hm as (_ & _ & He & _).
    apply IH in H. rewrite H, He. reflexivity.
Qed.

Lemma exact_after_ok pairs : forall t, exact_ok t -> exact_ok (exact_after pairs t).
Proof.
  induction pairs as [|[w f] pairs IH]; simpl; intros t H; [assumption|].
  apply IH. apply exact_insert_ok. assumption.
Qed.

Lemma exact_after_room pairs : forall t, has_room (exact_after pairs t) -> has_room t.
Proof.
  induction pairs as [|[w f] pairs IH]; simpl; intros t H; [assumption|].
  apply IH in H. eapply exact_insert_room; eauto.
Qed.

Lemma exact_after_stored h pairs : forall t,
  exact_ok t -> has_room (exact_after pairs t) -> h <> 0 ->
  stored_freq (exact_after pairs t) h = hash_observed h pairs (stored_freq t h).
Proof.
  induction pairs as [|[w f] pairs IH]; intros t Hok Hroom Hh; [reflexivity|].
  unfold exact_after, hash_observed in *. cbn [fold_left fst snd] in *.
  rewrite IH; [|apply exact_insert_ok; assumption | assumption | assumption].
  f_equal. destruct (xxh3 w =? h) eqn:E.
  - apply Z.eqb_eq in E. subst h. apply exact_insert_stored_same; [assumption|].
    apply has_room_not_full. eapply exact_insert_room.
    eapply exact_after_room. exact Hroom.
  - apply Z.eqb_neq in E. apply exact_insert_stored_other; [assumption | congruence].
Qed.

Lemma exact_find_ext t t' h :
  hashes t' = hashes t -> exact_table_size t' = exact_table_size t ->
  exact_find t' h = exact_find t h.
Proof. unfold exact_find. intros -> ->. reflexivity. Qed.

Section Reachable.
Variable logf : float -> float.

Lemma sweep_hashes t m :
  hashes (sweep logf t m) = hashes t /\
  exact_frequencies (sweep logf t m) = exact_frequencies t /\
  exact_table_size (sweep logf t m) = exact_table_size t.
Proof.
  unfold sweep.
  destruct (sweep_loop_spec logf m (Z.to_nat (exact_table_size t)) t 0)
    as (? & ? & ? & _). auto.
Qed.

Lemma sweep_find t m h : exact_find (sweep logf t m) h = exact_find t h.
Proof. destruct (sweep_hashes t m) as (? & _ & ?). apply exact_find_ext; assumption. Qed.

Lemma sweep_stored t m h : stored_freq (sweep logf t m) h = stored_freq t h.
Proof.
  unfold stored_freq. rewrite sweep_find.
  destruct (sweep_hashes t m) as (_ & -> & _). reflexivity.
Qed.

Lemma sweep_ok t m : exact_ok t -> exact_ok (sweep logf t m).
Proof.
  intros H p. destruct (sweep_hashes t m) as (Hh & _). rewrite Hh.
  intros Hp. destruct (H p Hp) as [q Hq]. exists q. rewrite sweep_find. exact Hq.
Qed.

Lemma sweep_room t m : has_room (sweep logf t m) -> has_room t.
Proof.
  destruct (sweep_hashes t m) as (Hh & _ & Hs).
  intros (e & He & Hz). exists e. rewrite <- Hh, <- Hs. auto.
Qed.

(** The dictionaries the API can produce: [symspell_create], then any
    number of loads that return. *)
Inductive reachable : symspell_dict_t -> Prop :=
  | reachable_create D P dict :
      symspell_create D P = Some dict -> reachable dict
  | reachable_load dict content ti ci dict' :
      reachable dict ->
      symspell_load_dictionary logf dict (Some content) ti ci = Ret (true, dict') ->
      reachable dict'.

Lemma load_exact_table dict content ti ci dict' :
  symspell_load_dictionary logf dict (Some content) ti ci = Ret (true, dict') ->
  exists m,
    exact_table dict' =
    sweep logf (exact_after (admitted_pairs content ti ci) (exact_table dict)) m.
Proof.
  intros H. apply load_Ret in H as (_ & d1 & m1 & H & ->).
  apply ingest_all_exact in H. exists m1. simpl. rewrite H. reflexivity.
Qed.

Lemma reachable_exact_ok dict : reachable dict -> exact_ok (exact_table dict).
Proof.
  induction 1 as [D P dict H | dict content ti ci dict' _ IH H].
  - unfold symspell_create in H. destruct (_ || _); [discriminate|].
    injection H as <-. intros p Hp. exfalso. apply Hp. reflexivity.
  - apply load_exact_table in H as [m ->].
    apply sweep_ok, exact_after_ok. assumption.
Qed.

End Reachable.

(** ** Admitted words as queries *)

Lemma tolower_idem c : tolower (tolower c) = tolower c.
Proof. destruct c as [[] [] [] [] [] [] [] []]; reflexivity. Qed.

Lemma tolower_nul c : is_nul (tolower c) = is_nul c.
Proof. destruct c as [[] [] [] [] [] [] [] []]; reflexivity. Qed.

Lemma str_tolower_idem s : str_tolower (str_tolower s) = str_tolower s.
Proof. induction s as [|c s IH]; simpl; [reflexivity|]. rewrite tolower_idem, IH. reflexivity. Qed.

Lemma str_tolower_length s : String.length (str_tolower s) = String.length s.
Proof. induction s as [|c s IH]; simpl; [reflexivity|]. rewrite IH. reflexivity. Qed.

Lemma nulfree_c_str s : nulfree (c_str s).
Proof.
  unfold c_str, nulfree. induction s as [|a s IH]; simpl; [intros c []|].
  destruct (is_nul a) eqn:E; simpl; [intros c [] | intros c [<- | H]; auto].
Qed.

Lemma c_str_nulfree s : nulfree s -> c_str s = s.
Proof.
  unfold c_str, nulfree. induction s as [|a s IH]; simpl; intros H; [reflexivity|].
  rewrite (H a) by auto. rewrite IH; [reflexivity|]. intros c Hc. apply H. auto.
Qed.

Lemma nulfree_tolower s : nulfree s -> nulfree (str_tolower s).
Proof.
  unfold nulfree. induction s as [|a s IH]; simpl; intros H c; [intros []|].
  intros [<- | Hc].
  - rewrite tolower_nul. apply H. auto.
  - apply IH; [|assumption]. intros c' Hc'. apply H. auto.
Qed.

Lemma list_ascii_of_string_app s1 s2 :
  list_ascii_of_string (s1 ++ s2) =
  (list_ascii_of_string s1 ++ list_ascii_of_string s2)%list.
Proof. induction s1 as [|c s1 IH]; simpl; [reflexivity|]. rewrite IH. reflexivity. Qed.

Lemma strtok_all_chars delim s : forall cur tok c,
  In tok (strtok_all delim s cur) ->
  In c (list_ascii_of_string tok) ->
  In c (list_ascii_of_string cur) \/ In c (list_ascii_of_string s).
Proof.
  induction s as [|a s IH]; simpl; intros cur tok c Hin Hc.
  - destruct (String.eqb cur "") eqn:E; [destruct Hin|].
    destruct Hin as [<- | []]. auto.
  - destruct (delim a).
    + apply in_app_or in Hin as [Hin | Hin].
      * destruct (String.eqb cur "") eqn:E; [destruct Hin|].
        destruct Hin as [<- | []]. auto.
      * destruct (IH "" tok c Hin Hc) as [[] | H]. auto.
    + destruct (IH _ tok c Hin Hc) as [H | H]; [|auto].
      rewrite list_ascii_of_string_app in H.
      apply in_app_or in H as [H | [<- | []]]; auto.
Qed.

Lemma In_firstn {A} (x : A) n : forall l, In x (firstn n l) -> In x l.
Proof.
  induction n as [|n IH]; intros [|a l]; simpl; try tauto.
  intros [H | H]; auto.
Qed.

Lemma parse_line_word line ti ci w f :
  parse_line line ti ci = Some (w, f) ->
  exists tok, w = str_tolower tok /\ nulfree tok.
Proof.
  unfold parse_line. destruct (_ =? 0); [discriminate|].
  destruct (_ || _); [discriminate|]. intros [= <- _].
  eexists. split; [reflexivity|].
  match goal with |- nulfree (nth ?i ?l "") =>
    destruct (nth_in_or_default i l "") as [H | ->]
  end.
  - intros c Hc. apply In_firstn in H.
    destruct (strtok_all_chars _ _ _ _ c H Hc) as [[] | H'].
    apply str_until_In in H'. apply nulfree_c_str in H'. exact H'.
  - intros c [].
Qed.

Lemma admitted_In lines ti ci p :
  In p (admitted lines ti ci) ->
  exists line, In line lines /\ parse_line line ti ci = Some p.
Proof.
  induction lines as [|l lines IH]; simpl; [intros []|].
  destruct (parse_line l ti ci) as [q|] eqn:E.
  - intros [<- | H]; [eauto|]. destruct (IH H) as (line & ? & ?). eauto.
  - intros H. destruct (IH H) as (line & ? & ?). eauto.
Qed.

(** An admitted word shorter than the term buffer is its own query. *)
Lemma admitted_word_query lines ti ci w :
  In w (map fst (admitted lines ti ci)) ->
  strlen w < SYMSPELL_MAX_TERM_LENGTH ->
  lookup_query w = w /\ strncpy w (Z.to_nat SYMSPELL_MAX_TERM_LENGTH - 1) = w.
Proof.
  intros Hin Hlen. apply in_map_iff in Hin as ([w' f] & Hw & Hin). simpl in Hw. subst w'.
  apply admitted_In in Hin as (line & _ & Hp).
  apply parse_line_word in Hp as (tok & -> & Hn).
  unfold SYMSPELL_MAX_TERM_LENGTH, strlen in *.
  assert (Hs : strncpy (str_tolower tok) (Z.to_nat 128 - 1) = str_tolower tok).
  { unfold strncpy. rewrite c_str_nulfree by (apply nulfree_tolower; assumption).
    apply str_take_all. change (Z.to_nat 128 - 1)%nat with 127%nat. lia. }
  split; [|exact Hs].
  unfold lookup_query, SYMSPELL_MAX_TERM_LENGTH. rewrite Hs. apply str_tolower_idem.
Qed.

Lemma hash_observed_Some h pairs : forall init p,
  In p pairs -> xxh3 (fst p) = h ->
  exists v, hash_observed h pairs init = Some v.
Proof.
  assert (Hs : forall l a, exists v, hash_observed h l (Some a) = Some v).
  { induction l as [|q l IH]; intros a; simpl; [eauto|].
    unfold hash_observed in *. simpl. destruct (_ =? h); apply IH. }
  induction pairs as [|q pairs IH]; intros init p Hin Hh; [destruct Hin|].
  unfold hash_observed in *. simpl. destruct Hin as [-> | Hin].
  - rewrite Hh, Z.eqb_refl. apply Hs.
  - eapply IH; eauto.
Qed.

Section AdmittedWords.
Variable logf : float -> float.
Variable stale : nat -> string.

(** C5 (as amended): after a load into a freshly created or previously
    loaded dictionary, every admitted word of at most 127 bytes whose hash
    is not the empty-slot sentinel 0 is answered from the exact-match
    table, provided the table still has a free slot: a lookup of the word
    (in any letter case, with any requested distance, asking for at least
    one suggestion) returns exactly one suggestion, whose term is the word
    and whose distance is 0. *)
Theorem admitted_word_is_found
    dict content ti ci dict' w query requested max_suggestions :
  0 <= ti -> 0 <= ci ->
  reachable logf dict ->
  symspell_load_dictionary logf dict (Some content) ti ci = Ret (true, dict') ->
  In w (map fst (admitted_pairs content ti ci)) ->
  strlen w < SYMSPELL_MAX_TERM_LENGTH ->
  xxh3 w <> 0 ->
  has_room (exact_table dict') ->
  0 < max_suggestions ->
  lookup_query query = w ->
  lookup_query w = w /\
  exists s,
    symspell_lookup logf stale dict' query requested max_suggestions = [s] /\
    term s = w /\ distance s = 0.
Proof.
  intros _ _ Hreach Hload Hin Hlen Hh Hroom Hn Hq.
  destruct (admitted_word_query _ _ _ _ Hin Hlen) as [Hqw Hcpy].
  split; [exact Hqw|].
  unfold symspell_lookup.
  replace (max_suggestions <=? 0) with false by (symmetry; apply Z.leb_gt; lia).
  rewrite Hq, lookup_fast_spec.
  destruct (load_exact_table logf _ _ _ _ _ Hload) as [m Ht].
  assert (Hst : exists v, stored_freq (exact_table dict') (xxh3 w) = Some v).
  { rewrite Ht, sweep_stored. rewrite Ht in Hroom. apply sweep_room in Hroom.
    rewrite exact_after_stored;
      [|apply reachable_exact_ok with (logf := logf); assumption
       |assumption | assumption].
    apply in_map_iff in Hin as (p & Hp & Hin).
    eapply hash_observed_Some; [exact Hin | congruence]. }
  destruct Hst as [v Hv]. unfold stored_freq in Hv.
  destruct (exact_find (exact_table dict') (xxh3 w)) as [pos| |]; try discriminate.
  eexists. split; [reflexivity|]. simpl. split; [exact Hcpy | reflexivity].
Qed.

End AdmittedWords.

(** A dictionary file may spell the word in capitals, and so may the query. *)
Lemma admitted_word_is_found_witness :
  match loaded logf_at_one dict_1_7 ("Hello 5000" ++ LF ++ "held 200" ++ LF) 0 1 with
  | Some dict' =>
      exists s, symspell_lookup logf_at_one stale_zero dict' "HELLO" 0 1 = [s] /\
                term s = "hello" /\ distance s = 0
  | None => False
  end.
Proof.
  run_load.
  match type of E with _ = Ret (true, ?d') =>
    destruct (admitted_word_is_found logf_at_one stale_zero dict_1_7
                ("Hello 5000" ++ LF ++ "held 200" ++ LF) 0 1 d'
                "hello" "HELLO" 0 1) as [_ H]
  end; try exact H.
  - lia.
  - lia.
  - apply reachable_create with (D := 1) (P := 7). reflexivity.
  - exact E.
  - vm_compute. auto.
  - vm_compute. reflexivity.
  - vm_compute. discriminate.
  - exists 0. vm_compute. split; [split; [discriminate | reflexivity] | reflexivity].
  - lia.
  - vm_compute. reflexivity.
Defined.

(** C5, counterexample: a 128-byte word is admitted by the load, but a
    lookup of that very word returns no suggestion: the lookup cuts the
    query to 127 bytes, which misses the exact-match table, and on the slow
    path the stored word is rejected for its length. *)
Lemma admitted_long_word_is_not_found :
  match loaded logf_at_one dict_1_7 (word_128 ++ " 1" ++ LF) 0 1 with
  | Some dict' =>
      admitted_pairs (word_128 ++ " 1" ++ LF) 0 1 = [(word_128, 1)] /\
      symspell_lookup logf_at_one stale_zero dict' word_128 1 5 = []
  | None => False
  end.
Proof. vm_compute. split; reflexivity. Qed.

(** ** Entries of the delete index *)

Lemma find_word_spec ws w : forall i0,
  match find_word ws w i0 with
  | Some i => (i0 <= i)%nat /\ ws !! (i - i0)%nat = Some w /\
              forall j, (j < i - i0)%nat -> ws !! j <> Some w
  | None => ~ In w ws
  end.
Proof.
  induction ws as [|a ws IH]; intros i0; simpl; [tauto|].
  destruct (String.eqb a w) eqn:E.
  - apply String.eqb_eq in E. subst a. rewrite Nat.sub_diag. simpl.
    split; [lia|]. split; [reflexivity | intros j Hj; lia].
  - apply String.eqb_neq in E. specialize (IH (S i0)).
    destruct (find_word ws w (S i0)) as [i|].
    + destruct IH as (Hi & Hl & Hb). split; [lia|].
      replace (i - i0)%nat with (S (i - S i0)) by lia. simpl.
      split; [assumption|]. intros [|j] Hj; simpl; [congruence | apply Hb; lia].
    + intros [H | H]; [congruence | contradiction].
Qed.

Lemma find_word_Some ws w i :
  find_word ws w 0 = Some i -> ws !! i = Some w.
Proof.
  intros H. pose proof (find_word_spec ws w 0) as Hs. rewrite H in Hs.
  destruct Hs as (_ & Hs & _). rewrite Nat.sub_0_r in Hs. exact Hs.
Qed.

Lemma find_word_None ws w : find_word ws w 0 = None -> ~ In w ws.
Proof.
  intros H. pose proof (find_word_spec ws w 0) as Hs. rewrite H in Hs. exact Hs.
Qed.

Lemma find_word_NoDup ws w j :
  NoDup ws -> ws !! j = Some w -> find_word ws w 0 = Some j.
Proof.
  intros Hnd Hj. pose proof (find_word_spec ws w 0) as Hs.
  destruct (find_word ws w 0) as [i|].
  - destruct Hs as (_ & Hi & _). rewrite Nat.sub_0_r in Hi. f_equal.
    eapply NoDup_lookup; eauto.
  - exfalso. apply Hs. apply list_elem_of_In. eapply list_elem_of_lookup_2; eauto.
Qed.

Lemma find_word_app_other ws w w' :
  w' <> w -> find_word (ws ++ [w]) w' 0 = find_word ws w' 0.
Proof.
  intros Hne. generalize 0%nat.
  induction ws as [|a ws IH]; intros i0; simpl.
  - destruct (String.eqb w w') eqn:E; [|reflexivity].
    apply String.eqb_eq in E. congruence.
  - destruct (String.eqb a w'); [reflexivity | apply IH].
Qed.

Lemma find_word_app_new ws w :
  ~ In w ws -> find_word (ws ++ [w]) w 0 = Some (length ws).
Proof.
  intros Hn. replace (length ws) with (0 + length ws)%nat by lia.
  generalize 0%nat.
  induction ws as [|a ws IH]; intros i0; simpl.
  - rewrite String.eqb_refl. f_equal. lia.
  - destruct (String.eqb a w) eqn:E.
    + apply String.eqb_eq in E. exfalso. apply Hn. simpl. auto.
    + rewrite IH by (intros H; apply Hn; simpl; auto). f_equal. lia.
Qed.

Lemma entry_add_delete_str e w f : delete_str (entry_add e w f) = delete_str e.
Proof.
  unfold entry_add. destruct (find_word _ _ _); [|reflexivity].
  destruct (_ >? _); reflexivity.
Qed.

Lemma entry_add_ok e w f : entry_ok e -> entry_ok (entry_add e w f).
Proof.
  intros [Hl Hn]. unfold entry_add, entry_ok.
  destruct (find_word (words e) w 0) as [i|] eqn:E.
  - destruct (_ >? _); simpl; [|auto]. rewrite length_insert. auto.
  - simpl. rewrite !length_app. simpl. split; [lia|].
    apply NoDup_app. split; [assumption|]. split; [|apply NoDup_singleton].
    intros x Hx Hx'. apply list_elem_of_singleton in Hx'. subst x.
    apply find_word_None in E. apply E. apply list_elem_of_In. assumption.
Qed.

Lemma entry_add_frequency e w f w' :
  entry_ok e ->
  entry_frequency (entry_add e w f) w' =
  if String.eqb w' w then Some (merge_freq (entry_frequency e w) f)
  else entry_frequency e w'.
Proof.
  intros [Hl Hn]. unfold entry_frequency, entry_add, merge_freq.
  destruct (find_word (words e) w 0) as [i|] eqn:E.
  - assert (Hi : (i < length (frequencies e))%nat).
    { apply find_word_Some in E. apply lookup_lt_Some in E. lia. }
    assert (Hnth : frequencies e !! i = Some (nth i (frequencies e) 0)).
    { destruct (frequencies e !! i) as [v|] eqn:Ev.
      - f_equal. symmetry. apply nth_lookup_Some with (d := 0) in Ev. exact Ev.
      - apply lookup_ge_None in Ev. lia. }
    rewrite Hnth.
    destruct (String.eqb w' w) eqn:Ew.
    + apply String.eqb_eq in Ew. subst w'.
      destruct (f >? nth i (frequencies e) 0); simpl; rewrite E.
      * rewrite list_lookup_insert_eq by assumption. reflexivity.
      * assumption.
    + destruct (f >? nth i (frequencies e) 0); simpl; [|reflexivity].
      destruct (find_word (words e) w' 0) as [j|] eqn:Ej; [|reflexivity].
      apply list_lookup_insert_ne. intros ->.
      apply find_word_Some in E, Ej. apply String.eqb_neq in Ew. congruence.
  - simpl. destruct (String.eqb w' w) eqn:Ew.
    + apply String.eqb_eq in Ew. subst w'.
      rewrite find_word_app_new by (apply find_word_None; assumption).
      rewrite Hl. rewrite lookup_app_r by lia. rewrite Nat.sub_diag. reflexivity.
    + apply String.eqb_neq in Ew. rewrite find_word_app_other by assumption.
      destruct (find_word (words e) w' 0) as [j|] eqn:Ej; [|reflexivity].
      apply find_word_Some in Ej. apply lookup_lt_Some in Ej.
      apply lookup_app_l. lia.
Qed.

Lemma new_entry_ok d : entry_ok (new_entry d).
Proof. split; [reflexivity | apply NoDup_nil_2]. Qed.

Lemma entry_frequency_lookup e w j :
  entry_ok e -> words e !! j = Some w ->
  entry_frequency e w = frequencies e !! j.
Proof.
  intros [_ Hn] Hj. unfold entry_frequency.
  rewrite (find_word_NoDup _ _ _ Hn Hj). reflexivity.
Qed.

(** ** The delete index as a map from (variant, word) to frequency *)

Lemma delete_cls_SEmpty tbl d p : delete_cls tbl d p = SEmpty <-> tbl !! p = None.
Proof.
  unfold delete_cls. destruct (tbl !! p) as [e|]; [|tauto].
  destruct (String.eqb _ _); split; discriminate.
Qed.

Lemma delete_cls_SMatch tbl d p :
  delete_cls tbl d p = SMatch <-> exists e, tbl !! p = Some e /\ delete_str e = d.
Proof.
  unfold delete_cls. destruct (tbl !! p) as [e|].
  - destruct (String.eqb (delete_str e) d) eqn:E.
    + apply String.eqb_eq in E. split; [eauto | reflexivity].
    + apply String.eqb_neq in E. split; [discriminate|].
      intros (e' & [= <-] & ?). contradiction.
  - split; [discriminate | intros (e' & ? & _); discriminate].
Qed.

Lemma delete_find_PHit dict d idx :
  delete_find dict d = PHit idx ->
  exists e, table dict !! idx = Some e /\ delete_str e = d.
Proof.
  unfold delete_find. intros H. apply probe_PHit in H as (j & _ & -> & Hc & _).
  apply delete_cls_SMatch. exact Hc.
Qed.

Lemma delete_find_ext dict dict' d :
  table_size dict' = table_size dict ->
  (forall p, delete_cls (table dict') d p = delete_cls (table dict) d p) ->
  delete_find dict' d = delete_find dict d.
Proof.
  intros Hs Hc. unfold delete_find. rewrite Hs. apply probe_ext.
  intros i _. apply Hc.
Qed.

Section AddDeleteStep.
Variables (dict dict' : symspell_dict_t) (d0 w0 : string) (f0 : Z) (ok : bool).
Hypothesis Hok : table_ok dict.
Hypothesis Hadd : add_delete dict d0 w0 f0 = Ret (ok, dict').

Lemma add_delete_size : table_size dict' = table_size dict.
Proof. apply add_delete_spec in Hadd as [(H & _) _]. exact H. Qed.

(** The three shapes of the table after [add_delete]. *)
Lemma add_delete_table :
  (delete_find dict d0 = PFull /\ table dict' = table dict) \/
  (exists idx, delete_find dict d0 = PEmpty idx /\ table dict !! idx = None /\
     table dict' = <[idx := entry_add (new_entry d0) w0 f0]> (table dict)) \/
  (exists idx e, delete_find dict d0 = PHit idx /\ table dict !! idx = Some e /\
     delete_str e = d0 /\
     table dict' = <[idx := entry_add e w0 f0]> (table dict)).
Proof.
  apply add_delete_spec in Hadd as [_ H].
  destruct (delete_find dict d0) as [idx|idx|].
  - right. right. destruct H as (e & ? & ? & _ & ? & _). eauto 10.
  - right. left. destruct H as (_ & ? & ? & _). eauto.
  - left. tauto.
Qed.

(** Slots that were inhabited keep their class for every variant. *)
Lemma add_delete_cls d p :
  delete_cls (table dict) d p <> SEmpty ->
  delete_cls (table dict') d p = delete_cls (table dict) d p.
Proof.
  intros Hne. rewrite delete_cls_SEmpty in Hne.
  destruct add_delete_table as [[_ ->] | [(idx & _ & Hn & ->) | (idx & e & _ & He & Hd & ->)]].
  - reflexivity.
  - unfold delete_cls. rewrite lookup_insert_ne by congruence. reflexivity.
  - unfold delete_cls. destruct (decide (idx = p)) as [<- | Hp].
    + rewrite lookup_insert_eq, He, entry_add_delete_str. reflexivity.
    + rewrite lookup_insert_ne by assumption. reflexivity.
Qed.

Lemma add_delete_find_stable d :
  match delete_find dict d with
  | PHit q => delete_find dict' d = PHit q
  | PFull => delete_find dict' d = PFull
  | PEmpty _ => True
  end.
Proof.
  unfold delete_find. rewrite add_delete_size.
  apply probe_stable; [apply add_delete_cls | auto].
Qed.

Lemma add_delete_ok : table_ok dict'.
Proof.
  intros idx e He.
  assert (Hcases :
    (table dict !! idx = Some e) \/
    (exists e0, table dict !! idx = Some e0 /\ e = entry_add e0 w0 f0 /\
                delete_find dict d0 = PHit idx) \/
    (table dict !! idx = None /\ e = entry_add (new_entry d0) w0 f0 /\
     delete_find dict d0 = PEmpty idx)).
  { destruct add_delete_table
      as [[_ Ht] | [(i & Hf & Hn & Ht) | (i & e0 & Hf & He0 & Hd & Ht)]];
      rewrite Ht in He.
    - auto.
    - destruct (decide (i = idx)) as [<- | Hp].
      + rewrite lookup_insert_eq in He. injection He as <-. auto.
      + rewrite lookup_insert_ne in He by assumption. auto.
    - destruct (decide (i = idx)) as [<- | Hp].
      + rewrite lookup_insert_eq in He. injection He as <-. eauto 10.
      + rewrite lookup_insert_ne in He by assumption. auto. }
  destruct Hcases as [H | [(e0 & H & -> & Hf) | (H & -> & Hf)]].
  - destruct (Hok idx e H) as [Hfind Hent]. split; [|assumption].
    pose proof (add_delete_find_stable (delete_str e)) as Hs.
    rewrite Hfind in Hs. exact Hs.
  - destruct (Hok idx e0 H) as [Hfind Hent].
    split; [|apply entry_add_ok; assumption].
    rewrite entry_add_delete_str.
    pose proof (add_delete_find_stable (delete_str e0)) as Hs.
    rewrite Hfind in Hs. exact Hs.
  - split; [|apply entry_add_ok, new_entry_ok].
    rewrite entry_add_delete_str. simpl.
    unfold delete_find in *. rewrite add_delete_size.
    eapply probe_filled; [exact Hf | apply add_delete_cls |].
    apply delete_cls_SMatch. exists (entry_add (new_entry d0) w0 f0).
    split; [exact He | apply entry_add_delete_str].
Qed.

(** A variant that is not found before is found afterwards only if it is
    the one just added. *)
Lemma add_delete_find_new d q :
  delete_find dict' d = PHit q ->
  delete_find dict d = PHit q \/ (d = d0 /\ exists i, delete_find dict d0 = PEmpty i /\ q = i).
Proof.
  intros Hq.
  apply delete_find_PHit in Hq as Hq'. destruct Hq' as (e & He & Hd).
  destruct add_delete_table
    as [[_ Ht] | [(i & Hf & Hn & Ht) | (i & e0 & Hf & He0 & Hd0 & Ht)]];
    rewrite Ht in He.
  - left. destruct (Hok q e He) as [H _]. congruence.
  - destruct (decide (i = q)) as [<- | Hp].
    + rewrite lookup_insert_eq in He. injection He as <-.
      rewrite entry_add_delete_str in Hd. simpl in Hd. right. eauto.
    + rewrite lookup_insert_ne in He by assumption.
      left. destruct (Hok q e He) as [H _]. congruence.
  - destruct (decide (i = q)) as [<- | Hp].
    + rewrite lookup_insert_eq in He. injection He as <-.
      rewrite entry_add_delete_str in Hd. left. congruence.
    + rewrite lookup_insert_ne in He by assumption.
      left. destruct (Hok q e He) as [H _]. congruence.
Qed.

Lemma add_delete_step : delete_step_spec dict dict' d0 w0 f0.
Proof.
  split; [apply add_delete_size|]. split.
  { intros d Hd. pose proof (add_delete_find_stable d) as Hs.
    rewrite Hd in Hs. exact Hs. }
  destruct add_delete_table
    as [[Hf Ht] | [(i & Hf & Hn & Ht) | (i & e0 & Hf & He0 & Hd0 & Ht)]].
  - left. split; [assumption|]. intros d w. unfold listed.
    rewrite (delete_find_ext dict dict' d add_delete_size)
      by (intros p; rewrite Ht; reflexivity).
    rewrite Ht. reflexivity.
  - right. split; [congruence|]. intros d w.
    assert (Hl0 : listed dict d0 w0 = None) by (unfold listed; rewrite Hf; reflexivity).
    rewrite Hl0. destruct (String.eqb d d0) eqn:Ed; simpl.
    + apply String.eqb_eq in Ed. subst d.
      assert (Hf' : delete_find dict' d0 = PHit i).
      { unfold delete_find in *. rewrite add_delete_size.
        eapply probe_filled; [exact Hf | apply add_delete_cls |].
        apply delete_cls_SMatch. exists (entry_add (new_entry d0) w0 f0).
        rewrite Ht, lookup_insert_eq. split; [reflexivity | apply entry_add_delete_str]. }
      unfold listed at 1. rewrite Hf', Ht, lookup_insert_eq.
      rewrite entry_add_frequency by apply new_entry_ok.
      destruct (String.eqb w w0); [reflexivity|].
      unfold listed. rewrite Hf. reflexivity.
    + apply String.eqb_neq in Ed. unfold listed.
      destruct (delete_find dict' d) as [q| |] eqn:Eq.
      * destruct (add_delete_find_new d q Eq) as [H | [H _]]; [|contradiction].
        rewrite H. rewrite Ht.
        apply delete_find_PHit in H as (e & He & _).
        rewrite lookup_insert_ne by congruence. reflexivity.
      * pose proof (add_delete_find_stable d) as Hs.
        destruct (delete_find dict d); [congruence | reflexivity | reflexivity].
      * pose proof (add_delete_find_stable d) as Hs.
        destruct (delete_find dict d); [congruence | reflexivity | reflexivity].
  - right. split; [congruence|]. intros d w.
    assert (Hfe : forall d1, delete_find dict' d1 = delete_find dict d1).
    { intros d1. apply delete_find_ext; [apply add_delete_size|].
      intros p. rewrite Ht. unfold delete_cls.
      destruct (decide (i = p)) as [<- | Hp].
      - rewrite lookup_insert_eq, He0, entry_add_delete_str. reflexivity.
      - rewrite lookup_insert_ne by assumption. reflexivity. }
    destruct (Hok i e0 He0) as [_ Hent].
    assert (Hl0 : listed dict d0 w0 = entry_frequency e0 w0)
      by (unfold listed; rewrite Hf, He0; reflexivity).
    unfold listed at 1. rewrite Hfe.
    destruct (String.eqb d d0) eqn:Ed; simpl.
    + apply String.eqb_eq in Ed. subst d. rewrite Hf, Ht, lookup_insert_eq.
      rewrite entry_add_frequency by assumption. rewrite Hl0.
      destruct (String.eqb w w0); [reflexivity|].
      unfold listed. rewrite Hf, He0. reflexivity.
    + apply String.eqb_neq in Ed. unfold listed.
      destruct (delete_find dict d) as [q| |] eqn:Eq; [|reflexivity..].
      rewrite Ht. destruct (decide (i = q)) as [<- | Hp].
      * apply delete_find_PHit in Eq as (e & He & Hd). congruence.
      * rewrite lookup_insert_ne by assumption. reflexivity.
Qed.

End AddDeleteStep.

(** ** Frequencies of repeated words *)

Lemma merge_freq_idem x f : merge_freq (Some (merge_freq x f)) f = merge_freq x f.
Proof.
  destruct x as [v|]; cbn [merge_freq].
  - destruct (f >? v) eqn:E; [|rewrite E; reflexivity].
    rewrite Z.gtb_ltb, Z.ltb_irrefl. reflexivity.
  - rewrite Z.gtb_ltb, Z.ltb_irrefl. reflexivity.
Qed.

Lemma merge_freq_max x f :
  1 <= f -> 0 <= default 0 x -> merge_freq x f = Z.max (default 0 x) f.
Proof.
  intros Hf Hx. destruct x as [v|]; cbn [merge_freq from_option id] in *; [|lia].
  destruct (f >? v) eqn:E; [apply Z.gtb_lt in E | rewrite Z.gtb_ltb in E; apply Z.ltb_ge in E]; lia.
Qed.

Lemma max_observed_cons w p pairs :
  max_observed w (p :: pairs) =
  if String.eqb w (fst p) then Z.max (snd p) (max_observed w pairs)
  else max_observed w pairs.
Proof. unfold max_observed. cbn [fold_right]. rewrite (String.eqb_sym w). reflexivity. Qed.

Lemma max_observed_nonneg w pairs : 0 <= max_observed w pairs.
Proof.
  induction pairs as [|p pairs IH]; [unfold max_observed; simpl; lia|].
  rewrite max_observed_cons. destruct (String.eqb w (fst p)); lia.
Qed.

Lemma max_observed_absent w pairs :
  existsb (fun p => String.eqb w (fst p)) pairs = false -> max_observed w pairs = 0.
Proof.
  induction pairs as [|p pairs IH]; [reflexivity|].
  cbn [existsb]. rewrite max_observed_cons.
  destruct (String.eqb w (fst p)); [discriminate | exact IH].
Qed.

Lemma observed_cons w p pairs init :
  observed w (p :: pairs) init =
  observed w pairs
    (if String.eqb w (fst p) then Some (merge_freq init (snd p)) else init).
Proof. reflexivity. Qed.

(** Merging in file order gives the largest frequency of the word. *)
Lemma observed_spec w pairs : Forall valid_freq pairs -> forall init,
  0 <= default 0 init ->
  observed w pairs init =
    if existsb (fun p => String.eqb w (fst p)) pairs
    then Some (Z.max (default 0 init) (max_observed w pairs))
    else init.
Proof.
  induction 1 as [|p pairs Hp _ IH]; intros init Hi; [reflexivity|].
  rewrite observed_cons, max_observed_cons. cbn [existsb].
  destruct Hp as [Hp _].
  destruct (String.eqb w (fst p)) eqn:E; cbn [orb]; [|apply IH; assumption].
  pose proof (merge_freq_max init (snd p) Hp Hi) as Hm.
  rewrite IH by (cbn [from_option id]; lia). cbn [from_option id]. rewrite Hm.
  destruct (existsb _ pairs) eqn:Ex; f_equal.
  - lia.
  - rewrite (max_observed_absent _ _ Ex). lia.
Qed.

Lemma observed_present w (pairs : list (string * Z)) :
  In w (map fst pairs) -> existsb (fun p => String.eqb w (fst p)) pairs = true.
Proof.
  intros H. apply in_map_iff in H as (p & <- & Hin).
  apply existsb_exists. exists p. split; [assumption | apply String.eqb_refl].
Qed.

(** Without a hash collision among the words, the exact-match table merges
    per word. *)
Lemma hash_observed_observed w pairs : forall init,
  (forall w', In w' (map fst pairs) -> xxh3 w' = xxh3 w -> w' = w) ->
  hash_observed (xxh3 w) pairs init = observed w pairs init.
Proof.
  induction pairs as [|p pairs IH]; intros init Hc; [reflexivity|].
  rewrite observed_cons. unfold hash_observed in *. cbn [fold_left].
  rewrite IH by (intros w' Hw'; apply Hc; right; exact Hw').
  f_equal. destruct (String.eqb w (fst p)) eqn:E.
  - apply String.eqb_eq in E. rewrite <- E, Z.eqb_refl. reflexivity.
  - apply String.eqb_neq in E.
    destruct (xxh3 (fst p) =? xxh3 w) eqn:Eh; [|reflexivity].
    apply Z.eqb_eq in Eh. exfalso. apply E. symmetry. apply Hc; [left; reflexivity | exact Eh].
Qed.

(** *** The delete index through [add_deletes], [ingest] and the load *)

Lemma add_deletes_listed ds : forall dict w0 f0 dict',
  table_ok dict -> add_deletes dict ds w0 f0 = Ret dict' ->
  table_ok dict' /\
  forall d,
    (delete_find dict d = PFull -> delete_find dict' d = PFull) /\
    (delete_find dict' d = PFull \/
     forall w, listed dict' d w =
       if mem d ds && String.eqb w w0
       then Some (merge_freq (listed dict d w0) f0)
       else listed dict d w).
Proof.
  induction ds as [|d1 ds IH]; intros dict w0 f0 dict' Hok H.
  - injection H as <-. split; [assumption|]. intros d. split; [auto|].
    right. intros w. reflexivity.
  - cbn [add_deletes] in H. bind_inv H. destruct a as [ok dict1].
    pose proof (add_delete_ok _ _ _ _ _ _ Hok Hm) as Hok1.
    destruct (add_delete_step _ _ _ _ _ _ Hok Hm) as (_ & Hfull & Hcase).
    destruct (IH _ _ _ _ Hok1 H) as [Hok' Hd].
    split; [assumption|]. intros d. destruct (Hd d) as [Hp Hl].
    split; [auto|]. destruct Hl as [Hl | Hl]; [left; assumption|].
    unfold mem. cbn [existsb]. fold (mem d ds).
    destruct Hcase as [[Hf1 Hsame] | [_ Hupd]].
    + destruct (String.eqb d d1) eqn:E.
      * apply String.eqb_eq in E. subst d1. left. auto.
      * right. intros w. rewrite Hl, !Hsame. reflexivity.
    + right. intros w. rewrite Hl, (Hupd d w0), (Hupd d w), String.eqb_refl.
      destruct (String.eqb d d1) eqn:E; [apply String.eqb_eq in E; subst d1|];
        destruct (mem d ds), (String.eqb w w0); cbn [andb orb];
        rewrite ?merge_freq_idem; reflexivity.
Qed.

Lemma generate_deletes_variants dict w f :
  generate_deletes dict w f =
  (do dict <- add_deletes dict (variants dict w) w f; Ret (true, dict)).
Proof. reflexivity. Qed.

Lemma ingest_listed dict m w0 f0 dict' m' :
  table_ok dict -> ingest dict m w0 f0 = Ret (dict', m') ->
  table_ok dict' /\
  forall d,
    (delete_find dict d = PFull -> delete_find dict' d = PFull) /\
    (delete_find dict' d = PFull \/
     forall w, listed dict' d w =
       if mem d (variants dict w0) && String.eqb w w0
       then Some (merge_freq (listed dict d w0) f0)
       else listed dict d w).
Proof.
  unfold ingest. rewrite add_exact_match_spec. intros Hok H. bind_inv H.
  destruct a as [ok d1]. injection H as <- _.
  rewrite generate_deletes_variants in Hm. bind_inv Hm. injection Hm as _ <-.
  apply add_deletes_listed in Hm0; [|exact Hok]. exact Hm0.
Qed.

Lemma variants_static dict dict' w :
  max_edit_distance dict' = max_edit_distance dict ->
  prefix_length dict' = prefix_length dict ->
  delete_buffer_capacity dict' = delete_buffer_capacity dict ->
  variants dict' w = variants dict w.
Proof. unfold variants. intros -> -> ->. reflexivity. Qed.

Lemma ingest_all_listed pairs : forall dict m dict' m',
  table_ok dict -> ingest_all pairs dict m = Ret (dict', m') ->
  table_ok dict' /\
  forall d,
    (delete_find dict d = PFull -> delete_find dict' d = PFull) /\
    (delete_find dict' d = PFull \/
     forall w, listed dict' d w =
       if mem d (variants dict w)
       then observed w pairs (listed dict d w)
       else listed dict d w).
Proof.
  induction pairs as [|[w0 f0] pairs IH]; intros dict m dict' m' Hok H.
  - injection H as <- _. split; [assumption|]. intros d. split; [auto|].
    right. intros w. destruct (mem _ _); reflexivity.
  - cbn [ingest_all] in H. bind_inv H. destruct a as [d1 m1].
    destruct (ingest_listed _ _ _ _ _ _ Hok Hm) as [Hok1 H1].
    apply ingest_Ret in Hm as (_ & _ & _ & _ & Hs1 & Hs2 & Hs3).
    destruct (IH _ _ _ _ Hok1 H) as [Hok' H'].
    split; [assumption|]. intros d.
    destruct (H1 d) as [Hp1 Hl1]. destruct (H' d) as [Hp' Hl'].
    split; [auto|].
    destruct Hl' as [Hl' | Hl']; [left; assumption|].
    destruct Hl1 as [Hl1 | Hl1]; [left; auto|].
    right. intros w.
    rewrite Hl', (variants_static _ _ w Hs1 Hs2 Hs3), (Hl1 w), observed_cons.
    cbn [fst snd].
    destruct (String.eqb w w0) eqn:Ew.
    + apply String.eqb_eq in Ew. subst w0.
      destruct (mem d (variants dict w)); reflexivity.
    + rewrite andb_false_r. reflexivity.
Qed.

Lemma listed_create D P d w : listed (create_dict D P) d w = None.
Proof.
  unfold listed. destruct (delete_find _ _) as [idx| |]; reflexivity.
Qed.

Lemma table_ok_create D P : table_ok (create_dict D P).
Proof.
  intros idx e H.
  change (table (create_dict D P)) with (∅ : gmap Z delete_entry_t) in H.
  rewrite lookup_empty in H. discriminate.
Qed.

Lemma stored_freq_create D P h : stored_freq (exact_table (create_dict D P)) h = None.
Proof.
  unfold stored_freq. destruct (exact_find _ h) as [pos| |] eqn:E; try reflexivity.
  apply exact_find_PHit in E as (_ & E1 & E2). exfalso. apply E2.
  rewrite <- E1. reflexivity.
Qed.

Section RepeatedWords.
Variable logf : float -> float.

(** C7: after a freshly created dictionary has been loaded, every entry of
    the delete index that lists the word [w] holds for it the largest
    frequency among the admitted pairs of [w]; and so does the exact-match
    table for an admitted [w], provided the hash of [w] is not the
    empty-slot sentinel 0, no other admitted word has the same 64-bit hash,
    and the table still has a free slot. *)
Theorem stored_frequency_is_maximum D P dict content ti ci dict' w :
  symspell_create D P = Some dict ->
  symspell_load_dictionary logf dict (Some content) ti ci = Ret (true, dict') ->
  (forall idx e j,
     table dict' !! idx = Some e -> words e !! j = Some w ->
     frequencies e !! j = Some (max_observed w (admitted_pairs content ti ci))) /\
  (In w (map fst (admitted_pairs content ti ci)) ->
   xxh3 w <> 0 ->
   has_room (exact_table dict') ->
   (forall w', In w' (map fst (admitted_pairs content ti ci)) ->
               xxh3 w' = xxh3 w -> w' = w) ->
   stored_freq (exact_table dict') (xxh3 w) =
   Some (max_observed w (admitted_pairs content ti ci))).
Proof.
  intros Hc Hload.
  assert (dict = create_dict D P) as ->.
  { unfold symspell_create in Hc. destruct (_ || _); [discriminate|].
    injection Hc as <-. reflexivity. }
  clear Hc.
  pose proof (admitted_valid (file_lines content) ti ci) as Hv.
  fold (admitted_pairs content ti ci) in Hv.
  pose proof (max_observed_nonneg w (admitted_pairs content ti ci)) as Hnn.
  split.
  - intros idx e j He Hj.
    apply load_Ret in Hload as (_ & d1 & m1 & Hing & ->).
    destruct (ingest_all_listed _ _ _ _ _ (table_ok_create D P) Hing) as [Hok Hl].
    change (table d1 !! idx = Some e) in He.
    destruct (Hok idx e He) as [Hfind Hent].
    assert (Hsome : exists v, frequencies e !! j = Some v).
    { apply lookup_lt_is_Some. destruct Hent as [<- _].
      apply lookup_lt_Some in Hj. exact Hj. }
    destruct (Hl (delete_str e)) as [_ [Hfull | Hlist]]; [congruence|].
    specialize (Hlist w). unfold listed at 1 in Hlist.
    rewrite Hfind, He, (entry_frequency_lookup e w j Hent Hj), listed_create in Hlist.
    rewrite Hlist in *. destruct Hsome as [v Hsome].
    destruct (mem _ _); [|discriminate].
    rewrite observed_spec in * by (assumption || (cbn [from_option id]; lia)).
    destruct (existsb _ _); [|discriminate].
    f_equal. cbn [from_option id]. lia.
  - intros Hin Hh Hroom Hcol.
    destruct (load_exact_table logf _ _ _ _ _ Hload) as [m Ht].
    rewrite Ht, sweep_stored. rewrite Ht in Hroom. apply sweep_room in Hroom.
    rewrite exact_after_stored;
      [|intros p Hp; exfalso; apply Hp; reflexivity | assumption | assumption].
    rewrite stored_freq_create, hash_observed_observed by assumption.
    rewrite observed_spec by (assumption || (cbn [from_option id]; lia)).
    rewrite observed_present by assumption.
    f_equal. cbn [from_option id]. lia.
Qed.

End RepeatedWords.

(** The word on three lines, the largest frequency in the middle: the
    exact-match table and the entry of the variant [th] both keep 9. *)
Lemma stored_frequency_is_maximum_witness :
  match loaded logf_at_one dict_1_7
          ("the 5" ++ LF ++ "the 9" ++ LF ++ "the 7" ++ LF) 0 1 with
  | Some dict' =>
      stored_freq (exact_table dict') (xxh3 "the") = Some 9 /\
      listed dict' "th" "the" = Some 9
  | None => False
  end.
Proof.
  run_load.
  match type of E with _ = Ret (true, ?d') =>
    destruct (stored_frequency_is_maximum logf_at_one 1 7 dict_1_7
                ("the 5" ++ LF ++ "the 9" ++ LF ++ "the 7" ++ LF) 0 1 d' "the"
                eq_refl E) as [Hd Hx]
  end.
  split.
  - rewrite Hx.
    + vm_compute. reflexivity.
    + vm_compute. auto.
    + vm_compute. discriminate.
    + exists 0. vm_compute. split; [split; [discriminate | reflexivity] | reflexivity].
    + intros w' Hw' _. vm_compute in Hw'. intuition congruence.
  - unfold listed.
    match goal with |- context [delete_find ?d ?s] =>
      let r := eval vm_compute in (delete_find d s) in
      replace (delete_find d s) with r by (vm_compute; reflexivity)
    end.
    cbv beta iota.
    match goal with |- context [table ?d !! ?i] =>
      let r := eval vm_compute in (table d !! i) in
      assert (Et : table d !! i = r) by (vm_compute; reflexivity);
      rewrite Et
    end.
    cbv beta iota.
    match type of Et with _ = Some ?e =>
      assert (Hent : entry_ok e) by (split; [reflexivity | apply NoDup_singleton]);
      pose proof (entry_frequency_lookup e "the" 0 Hent eq_refl) as Hf
    end.
    rewrite Hf, (Hd _ _ 0%nat Et eq_refl).
    vm_compute. reflexivity.
Defined.

(** * Further properties *)

(** ** Counting the keys of a map *)

Lemma gmap_size_bounded {A} (m : gmap Z A) (N : Z) :
  0 <= N -> (forall k x, m !! k = Some x -> 0 <= k < N) -> Z.of_nat (size m) <= N.
Proof.
  intros HN H. rewrite <- size_dom.
  assert (Hs : dom m ⊆ (list_to_set (seqZ 0 N) : gset Z)).
  { intros k Hk. apply elem_of_dom in Hk as [e He].
    apply elem_of_list_to_set, elem_of_seqZ. specialize (H k e He). lia. }
  apply subseteq_size in Hs.
  rewrite size_list_to_set in Hs by apply NoDup_seqZ.
  rewrite length_seqZ in Hs. lia.
Qed.

Lemma gmap_size_covering {A} (m : gmap Z A) (N : Z) :
  (forall k, 0 <= k < N -> is_Some (m !! k)) -> N <= Z.of_nat (size m).
Proof.
  intros H. rewrite <- size_dom.
  assert (Hs : (list_to_set (seqZ 0 N) : gset Z) ⊆ dom m).
  { intros k Hk. apply elem_of_list_to_set, elem_of_seqZ in Hk.
    apply elem_of_dom, H. lia. }
  apply subseteq_size in Hs.
  rewrite size_list_to_set in Hs by apply NoDup_seqZ.
  rewrite length_seqZ in Hs. lia.
Qed.

(** ** The query of a lookup *)

Lemma c_str_tolower s : c_str (str_tolower s) = str_tolower (c_str s).
Proof.
  unfold c_str. induction s as [|c s IH]; [reflexivity|].
  cbn [str_tolower str_until]. rewrite tolower_nul.
  destruct (is_nul c); [reflexivity|]. cbn [str_tolower]. rewrite IH. reflexivity.
Qed.

Lemma str_take_tolower n : forall s,
  str_take n (str_tolower s) = str_tolower (str_take n s).
Proof.
  induction n as [|n IH]; intros [|c s]; try reflexivity.
  cbn [str_tolower str_take]. rewrite IH. reflexivity.
Qed.

Lemma lookup_query_tolower term_s :
  lookup_query (str_tolower term_s) = lookup_query term_s.
Proof.
  unfold lookup_query, strncpy.
  rewrite c_str_tolower, str_take_tolower. apply str_tolower_idem.
Qed.

Section LookupShape.
Variable logf : float -> float.
Variable stale : nat -> string.

(** X1: A lookup does not depend on the letter case of the query. *)
Theorem lookup_ignores_case dict term_s requested max_suggestions :
  symspell_lookup logf stale dict (str_tolower term_s) requested max_suggestions =
  symspell_lookup logf stale dict term_s requested max_suggestions.
Proof. unfold symspell_lookup. rewrite lookup_query_tolower. reflexivity. Qed.

Lemma lookup_slow_length dict query D :
  (length (lookup_slow logf stale dict query D) <= 1)%nat.
Proof.
  unfold lookup_slow. destruct (collect_candidates stale _ _ _ _); cbn [length]; lia.
Qed.

(** X2: Whatever [max_suggestions] is, a lookup writes at most one suggestion,
    and none when [max_suggestions] is not positive. *)
Theorem lookup_returns_at_most_one dict term_s requested max_suggestions :
  (length (symspell_lookup logf stale dict term_s requested max_suggestions) <= 1)%nat /\
  (max_suggestions <= 0 ->
   symspell_lookup logf stale dict term_s requested max_suggestions = []).
Proof.
  unfold symspell_lookup. split.
  - destruct (max_suggestions <=? 0); [cbn [length]; lia|].
    destruct (lookup_fast _ _); [cbn [length]; lia | apply lookup_slow_length].
  - intros H. apply Z.leb_le in H. rewrite H. reflexivity.
Qed.

Lemma lookup_probe_loop_create fuel D P hash k d :
  lookup_probe_loop fuel (create_dict D P) hash k d = None.
Proof. destruct fuel; reflexivity. Qed.

Lemma collect_candidates_create D P query md deletes :
  collect_candidates stale (create_dict D P) query md deletes = [].
Proof.
  unfold collect_candidates.
  apply (fold_left_preserves (fun c => c = [])); [|reflexivity].
  intros a d ->. rewrite lookup_probe_loop_create. reflexivity.
Qed.

(** X3: A dictionary that was created and not loaded suggests nothing. *)
Theorem lookup_in_created_dictionary D P term_s requested max_suggestions :
  symspell_lookup logf stale (create_dict D P) term_s requested max_suggestions = [].
Proof.
  unfold symspell_lookup. destruct (max_suggestions <=? 0); [reflexivity|].
  rewrite lookup_fast_spec.
  destruct (exact_find _ _) as [pos| |] eqn:E.
  - apply exact_find_PHit in E as (_ & E1 & E2). exfalso. apply E2.
    rewrite <- E1. reflexivity.
  - unfold lookup_slow. rewrite collect_candidates_create. reflexivity.
  - unfold lookup_slow. rewrite collect_candidates_create. reflexivity.
Qed.

End LookupShape.

(** ** The best candidate *)

Lemma best_candidate_no_worse others : forall first c,
  In c (first :: others) -> no_worse (best_candidate first others) c.
Proof.
  unfold best_candidate.
  induction others as [|x others IH]; intros first c Hc.
  - destruct Hc as [<- | []]. right. cbn. lia.
  - cbn [fold_left].
    set (b := if cand_distance x <? cand_distance first then x
              else if (cand_distance x =? cand_distance first)
                      && (cand_frequency x >? cand_frequency first) then x
              else first).
    assert (Hb : no_worse b first /\ no_worse b x).
    { unfold b, no_worse.
      destruct (cand_distance x <? cand_distance first) eqn:E1;
        [apply Z.ltb_lt in E1; lia | apply Z.ltb_ge in E1].
      destruct (cand_distance x =? cand_distance first) eqn:E2;
        [apply Z.eqb_eq in E2 | apply Z.eqb_neq in E2; cbn [andb]; lia].
      cbn [andb].
      destruct (cand_frequency x >? cand_frequency first) eqn:E3;
        [apply Z.gtb_lt in E3; lia | rewrite Z.gtb_ltb in E3; apply Z.ltb_ge in E3; lia]. }
    pose proof (IH b b (or_introl eq_refl)) as Ht.
    destruct Hc as [<- | [<- | Hc]].
    + destruct Hb as [Hb _]. unfold no_worse in *. lia.
    + destruct Hb as [_ Hb]. unfold no_worse in *. lia.
    + apply IH. right. exact Hc.
Qed.

Section BestSuggestion.
Variable logf : float -> float.
Variable stale : nat -> string.


End BestSuggestion.

(** ** The delete index of a reachable dictionary *)

Lemma delete_find_PEmpty_range dict d idx :
  delete_find dict d = PEmpty idx -> 0 <= idx < table_size dict.
Proof.
  unfold delete_find. intros H.
  assert (0 < table_size dict).
  { destruct (Z.to_nat (table_size dict)) eqn:E; [discriminate H | lia]. }
  apply probe_PEmpty in H as (j & _ & -> & _). unfold delete_pos.
  apply Z.mod_pos_bound. assumption.
Qed.

Lemma add_delete_counted dict d w f ok dict' :
  index_counted dict -> add_delete dict d w f = Ret (ok, dict') ->
  index_counted dict'.
Proof.
  intros (Hc & Hr & Hs) H.
  pose proof (add_delete_spec _ _ _ _ _ _ H) as [(Hsz & _) Hcase].
  unfold index_counted. rewrite Hsz.
  destruct (delete_find dict d) as [idx|idx|] eqn:Ef.
  - destruct Hcase as (e & He & _ & _ & Ht & Hn). rewrite Ht, Hn, Hc.
    assert (Hdom : forall k, is_Some (<[idx := entry_add e w f]> (table dict) !! k)
                             <-> is_Some (table dict !! k)).
    { intros k. destruct (decide (idx = k)) as [<- | Hk].
      - rewrite lookup_insert_eq, He. split; eauto.
      - rewrite lookup_insert_ne by assumption. tauto. }
    split; [|split; [|assumption]].
    + f_equal. rewrite <- !size_dom. f_equal. apply set_eq. intros k.
      rewrite !elem_of_dom. symmetry. apply Hdom.
    + intros k e' Hk. destruct (proj1 (Hdom k) (ex_intro _ e' Hk)) as [e0 He0]. eauto.
  - destruct Hcase as (_ & Hnone & Ht & Hn). rewrite Ht, Hn, Hc.
    apply delete_find_PEmpty_range in Ef.
    assert (Hr' : forall k e, <[idx := entry_add (new_entry d) w f]> (table dict) !! k = Some e ->
                              0 <= k < table_size dict).
    { intros k e Hk. destruct (decide (idx = k)) as [<- | Hne]; [assumption|].
      rewrite lookup_insert_ne in Hk by assumption. eauto. }
    pose proof (gmap_size_bounded _ (table_size dict) ltac:(lia) Hr') as Hb.
    rewrite map_size_insert_None in * by assumption.
    split; [|split; assumption].
    unfold u64. rewrite Z.mod_small by lia. lia.
  - destruct Hcase as (_ & Ht & Hn). rewrite Ht, Hn. auto.
Qed.

Lemma add_deletes_counted ds : forall dict w f dict',
  index_counted dict /\ table_ok dict ->
  add_deletes dict ds w f = Ret dict' ->
  index_counted dict' /\ table_ok dict'.
Proof.
  induction ds as [|d ds IH]; intros dict w f dict' [Hc Hok] H.
  - injection H as <-. auto.
  - cbn [add_deletes] in H. bind_inv H. destruct a as [ok d1].
    apply (IH d1 w f); [|assumption]. split.
    + eapply add_delete_counted; eauto.
    + eapply add_delete_ok; eauto.
Qed.

Lemma ingest_counted dict m w f dict' m' :
  index_counted dict /\ table_ok dict ->
  ingest dict m w f = Ret (dict', m') ->
  index_counted dict' /\ table_ok dict'.
Proof.
  unfold ingest. rewrite add_exact_match_spec. intros Hi H. bind_inv H.
  destruct a as [ok d1]. injection H as <- _.
  rewrite generate_deletes_variants in Hm. bind_inv Hm. injection Hm as _ <-.
  apply add_deletes_counted in Hm0; [|exact Hi]. exact Hm0.
Qed.

Lemma ingest_all_counted pairs : forall dict m dict' m',
  index_counted dict /\ table_ok dict ->
  ingest_all pairs dict m = Ret (dict', m') ->
  index_counted dict' /\ table_ok dict'.
Proof.
  induction pairs as [|[w f] pairs IH]; intros dict m dict' m' Hi H.
  - injection H as <- _. assumption.
  - cbn [ingest_all] in H. bind_inv H. destruct a as [d1 m1].
    eapply IH; [|exact H]. eapply ingest_counted; eauto.
Qed.

Section ReachableIndex.
Variable logf : float -> float.

Lemma reachable_index dict :
  reachable logf dict -> index_counted dict /\ table_ok dict.
Proof.
  induction 1 as [D P dict H | dict content ti ci dict' _ IH H].
  - unfold symspell_create in H. destruct (_ || _); [discriminate|].
    injection H as <-. split; [|apply table_ok_create].
    split; [reflexivity|]. split.
    + intros k e Hk. change (table (create_dict D P)) with (∅ : gmap Z delete_entry_t) in Hk.
      rewrite lookup_empty in Hk. discriminate.
    + cbn [table_size create_dict].
      unfold TABLE_SIZE_D1, TABLE_SIZE_D2, TABLE_SIZE_D3.
      destruct (D =? 1); [lia|]. destruct (D =? 2); lia.
  - apply load_Ret in H as (_ & d1 & m1 & H & ->).
    apply (ingest_all_counted _ _ _ _ _ IH) in H. exact H.
Qed.

(** X8: For every dictionary the API can produce, the entry count that
    [symspell_get_stats] reports is the number of slots of the delete index
    in use, and no two slots hold the same delete variant. *)
Theorem entry_count_counts_delete_variants dict :
  reachable logf dict ->
  snd (symspell_get_stats dict) = Z.of_nat (size (table dict)) /\
  forall i j e e',
    table dict !! i = Some e -> table dict !! j = Some e' ->
    delete_str e = delete_str e' -> i = j.
Proof.
  intros H. apply reachable_index in H as [(Hc & _) Hok]. split; [exact Hc|].
  intros i j e e' Hi Hj Hd.
  destruct (Hok i e Hi) as [Hfi _]. destruct (Hok j e' Hj) as [Hfj _].
  rewrite Hd in Hfi. congruence.
Qed.

End ReachableIndex.

(** ** Where suggestions come from *)

Lemma lookup_probe_loop_Some fuel dict hash d e : forall k,
  lookup_probe_loop fuel dict hash k d = Some e ->
  exists idx, table dict !! idx = Some e /\ delete_str e = d.
Proof.
  induction fuel as [|fuel IH]; intros k H; [discriminate|].
  cbn [lookup_probe_loop] in H.
  destruct (table dict !! _) as [e0|] eqn:E; [|discriminate].
  destruct (String.eqb (delete_str e0) d) eqn:Ed; [|eapply IH; eauto].
  injection H as <-. apply String.eqb_eq in Ed. eauto.
Qed.

Lemma collect_entry_from stale dict query D idx e cands :
  table dict !! idx = Some e ->
  Forall (cand_from stale dict query D) cands ->
  Forall (cand_from stale dict query D) (collect_entry stale query D e cands).
Proof.
  intros He. unfold collect_entry.
  apply (fold_left_preserves_In (Forall (cand_from stale dict query D))).
  intros a j Hj Ha.
  destruct (_ <? _); [|assumption].
  destruct (edit_distance query _ D <=? D) eqn:E; [|assumption].
  destruct (existsb _ _); [assumption|].
  apply Forall_app. split; [assumption|].
  constructor; [|constructor].
  apply in_seq in Hj. exists idx, e, j, (nth j (words e) ""), (length a).
  split; [assumption|]. split.
  - destruct (words e !! j) as [w|] eqn:Ew.
    + f_equal. symmetry. apply nth_lookup_Some with (d := "") in Ew. exact Ew.
    + apply lookup_ge_None in Ew. lia.
  - cbn. apply Z.leb_le in E. auto.
Qed.

Lemma collect_candidates_from stale dict query D deletes :
  Forall (cand_from stale dict query D) (collect_candidates stale dict query D deletes).
Proof.
  unfold collect_candidates. apply fold_left_preserves; [|constructor].
  intros a d Ha. destruct (lookup_probe_loop _ _ _ _ _) as [e|] eqn:E; [|assumption].
  apply lookup_probe_loop_Some in E as (idx & He & _).
  eapply collect_entry_from; eauto.
Qed.

Lemma edit_distance_within_short s1 s2 D :
  edit_distance s1 s2 D <= D ->
  strlen s1 < SYMSPELL_MAX_TERM_LENGTH /\ strlen s2 < SYMSPELL_MAX_TERM_LENGTH.
Proof.
  unfold edit_distance. destruct (_ || _) eqn:E; [lia|]. intros _.
  apply orb_false_elim in E as [E1 E2].
  rewrite Z.geb_leb in E1, E2. apply Z.leb_gt in E1, E2. lia.
Qed.

Lemma nulfree_take n : forall s, nulfree s -> nulfree (str_take n s).
Proof.
  unfold nulfree.
  induction n as [|n IH]; intros [|a s] H c Hc; cbn in Hc; try contradiction.
  destruct Hc as [<- | Hc]; [apply H; left; reflexivity|].
  eapply IH; [|exact Hc]. intros c' Hc'. apply H. right. exact Hc'.
Qed.

Lemma lookup_query_copy term_s :
  strncpy (lookup_query term_s) (Z.to_nat SYMSPELL_MAX_TERM_LENGTH - 1) =
  lookup_query term_s.
Proof.
  unfold strncpy at 1.
  rewrite c_str_nulfree
    by (apply nulfree_tolower, nulfree_take, nulfree_c_str).
  apply str_take_all. unfold lookup_query, strncpy.
  rewrite str_tolower_length, str_take_length. lia.
Qed.

Lemma exact_after_hashes pairs p h : forall t,
  slotZ (hashes (exact_after pairs t)) p = h -> h <> 0 ->
  slotZ (hashes t) p = h \/ exists w, In w (map fst pairs) /\ xxh3 w = h.
Proof.
  induction pairs as [|[w f] pairs IH]; intros t H Hh; [left; exact H|].
  unfold exact_after in *. cbn [fold_left fst snd] in H.
  destruct (IH _ H Hh) as [H1 | (w' & Hw' & Hx)].
  - destruct (exact_insert_hashes t (xxh3 w) f p) as [E | (_ & E & _)].
    + left. congruence.
    + right. exists w. split; [left; reflexivity | congruence].
  - right. exists w'. split; [right; exact Hw' | exact Hx].
Qed.

Lemma admitted_word_c_str lines ti ci w :
  In w (map fst (admitted lines ti ci)) -> c_str w = w.
Proof.
  intros Hin. apply in_map_iff in Hin as ([w' f] & Hw & Hin). simpl in Hw. subst w'.
  apply admitted_In in Hin as (line & _ & Hp).
  apply parse_line_word in Hp as (tok & -> & Hn).
  apply c_str_nulfree, nulfree_tolower. exact Hn.
Qed.

(** The candidate slot read back: the word itself when it has fewer than
    127 bytes, the word and then the stale bytes when it has 127. *)
Lemma strncpy_open_word w rest :
  c_str w = w -> strlen w < SYMSPELL_MAX_TERM_LENGTH ->
  (strlen w < SYMSPELL_MAX_TERM_LENGTH - 1 ->
   strncpy_open w (Z.to_nat SYMSPELL_MAX_TERM_LENGTH - 1) rest = w) /\
  (strlen w = SYMSPELL_MAX_TERM_LENGTH - 1 ->
   strncpy_open w (Z.to_nat SYMSPELL_MAX_TERM_LENGTH - 1) rest = w ++ c_str rest).
Proof.
  unfold strncpy_open, strlen, SYMSPELL_MAX_TERM_LENGTH. intros -> Hlen.
  change (Z.to_nat 128 - 1)%nat with 127%nat. split; intros H.
  - replace (String.length w <? 127)%nat with true
      by (symmetry; apply Nat.ltb_lt; lia).
    reflexivity.
  - replace (String.length w <? 127)%nat with false
      by (symmetry; apply Nat.ltb_ge; lia).
    rewrite str_take_all by lia. reflexivity.
Qed.

Lemma str_append_length a : forall b,
  String.length (a ++ b) = (String.length a + String.length b)%nat.
Proof. induction a as [|c a IH]; intros b; simpl; [reflexivity | f_equal; apply IH]. Qed.

Lemma str_append_inj a : forall a' b b',
  String.length a = String.length a' -> (a ++ b)%string = (a' ++ b')%string -> a = a'.
Proof.
  induction a as [|c a IH]; intros [|c' a'] b b' Hl H; cbn in Hl; try discriminate.
  - reflexivity.
  - simpl in H. injection H as -> H. f_equal. eapply IH; [lia | exact H].
Qed.

Lemma str_append_nil a : (a ++ "")%string = a.
Proof.
  induction a as [|c a IH]; [reflexivity|].
  change (String c (a ++ "") = String c a). f_equal. exact IH.
Qed.

Lemma strncpy_open_nil w :
  c_str w = w -> strlen w < SYMSPELL_MAX_TERM_LENGTH ->
  strncpy_open w (Z.to_nat SYMSPELL_MAX_TERM_LENGTH - 1) "" = w.
Proof.
  intros Hc Hl. destruct (strncpy_open_word w "" Hc Hl) as [H1 H2].
  destruct (Z_lt_dec (strlen w) (SYMSPELL_MAX_TERM_LENGTH - 1)) as [H | H]; [auto|].
  rewrite H2 by lia. apply str_append_nil.
Qed.

(** Two words whose copies read the same are the same word, whatever the
    stale bytes are. *)
Lemma strncpy_open_inj w w' r r' :
  c_str w = w -> c_str w' = w' ->
  strlen w < SYMSPELL_MAX_TERM_LENGTH -> strlen w' < SYMSPELL_MAX_TERM_LENGTH ->
  strncpy_open w (Z.to_nat SYMSPELL_MAX_TERM_LENGTH - 1) r =
  strncpy_open w' (Z.to_nat SYMSPELL_MAX_TERM_LENGTH - 1) r' ->
  w = w'.
Proof.
  intros Hc Hc' Hl Hl'.
  destruct (strncpy_open_word w r Hc Hl) as [H1 H2].
  destruct (strncpy_open_word w' r' Hc' Hl') as [H1' H2'].
  unfold strlen, SYMSPELL_MAX_TERM_LENGTH in *.
  destruct (Z_lt_dec (Z.of_nat (String.length w)) (128 - 1)) as [Hs | Hs];
    destruct (Z_lt_dec (Z.of_nat (String.length w')) (128 - 1)) as [Hs' | Hs'].
  - rewrite H1, H1' by assumption. auto.
  - rewrite H1, H2' by lia. intros E.
    assert (El : String.length w = String.length (w' ++ c_str r')) by congruence.
    rewrite str_append_length in El. lia.
  - rewrite H2, H1' by lia. intros E.
    assert (El : String.length (w ++ c_str r) = String.length w') by congruence.
    rewrite str_append_length in El. lia.
  - rewrite H2, H2' by lia. apply str_append_inj. lia.
Qed.

Section LoadedIndex.
Variable logf : float -> float.
Variable stale : nat -> string.

(** What a load into a fresh dictionary leaves in an entry of the delete
    index. *)
Lemma loaded_entry D P content ti ci dict' idx e j w :
  symspell_load_dictionary logf (create_dict D P) (Some content) ti ci
    = Ret (true, dict') ->
  table dict' !! idx = Some e -> words e !! j = Some w ->
  In w (map fst (admitted_pairs content ti ci)) /\
  frequencies e !! j = Some (max_observed w (admitted_pairs content ti ci)) /\
  mem (delete_str e) (variants (create_dict D P) w) = true.
Proof.
  intros Hload He Hj.
  pose proof (admitted_valid (file_lines content) ti ci) as Hv.
  fold (admitted_pairs content ti ci) in Hv.
  pose proof (max_observed_nonneg w (admitted_pairs content ti ci)) as Hnn.
  apply load_Ret in Hload as (_ & d1 & m1 & Hing & ->).
  destruct (ingest_all_listed _ _ _ _ _ (table_ok_create D P) Hing) as [Hok Hl].
  change (table d1 !! idx = Some e) in He.
  destruct (Hok idx e He) as [Hfind Hent].
  assert (Hsome : exists v, frequencies e !! j = Some v).
  { apply lookup_lt_is_Some. destruct Hent as [<- _].
    apply lookup_lt_Some in Hj. exact Hj. }
  destruct (Hl (delete_str e)) as [_ [Hfull | Hlist]]; [congruence|].
  specialize (Hlist w). unfold listed at 1 in Hlist.
  rewrite Hfind, He, (entry_frequency_lookup e w j Hent Hj), listed_create in Hlist.
  rewrite Hlist in *. destruct Hsome as [v Hsome].
  destruct (mem _ _); [|discriminate].
  rewrite observed_spec in * by (assumption || (cbn [from_option id]; lia)).
  destruct (existsb _ _) eqn:Ex; [|discriminate].
  split; [|split; [|reflexivity]].
  - apply existsb_exists in Ex as (p & Hp & Ep). apply String.eqb_eq in Ep.
    subst w. apply in_map. exact Hp.
  - f_equal. cbn [from_option id]. lia.
Qed.

(** X5: After a fresh dictionary has been loaded, a lookup suggests nothing
    that is not in the file.  A suggestion from the exact-match table is
    the lowercased query itself, at distance 0, and some admitted word has
    its hash.  A suggestion from the delete index stems from an admitted
    word: it has the largest frequency listed for that word and the
    distance that [edit_distance] computes from the query to it, under the
    distance bound the lookup searched with.  Its term is that word when
    the word has fewer than 127 bytes; a word of 127 bytes is copied
    without a terminator, and the term is the word followed by the stale
    bytes of the candidate slot. *)
Theorem suggestions_come_from_the_file
    D P dict content ti ci dict' term_s requested max_suggestions s :
  symspell_create D P = Some dict ->
  symspell_load_dictionary logf dict (Some content) ti ci = Ret (true, dict') ->
  In s (symspell_lookup logf stale dict' term_s requested max_suggestions) ->
  (distance s = 0 /\ term s = lookup_query term_s /\
   exists w, In w (map fst (admitted_pairs content ti ci)) /\
             xxh3 w = xxh3 (lookup_query term_s)) \/
  (exists w,
     In w (map fst (admitted_pairs content ti ci)) /\
     (strlen w < SYMSPELL_MAX_TERM_LENGTH - 1 -> term s = w) /\
     (strlen w = SYMSPELL_MAX_TERM_LENGTH - 1 ->
      exists n, term s = w ++ c_str (stale n)) /\
     frequency s = max_observed w (admitted_pairs content ti ci) /\
     exists bound,
       (bound = 1 \/ bound = Z.min requested (max_edit_distance dict')) /\
       distance s = edit_distance (lookup_query term_s) w bound /\
       distance s <= bound).
Proof.
  intros Hc Hload Hin.
  assert (dict = create_dict D P) as ->.
  { unfold symspell_create in Hc. destruct (_ || _); [discriminate|].
    injection Hc as <-. reflexivity. }
  clear Hc. unfold symspell_lookup in Hin.
  destruct (max_suggestions <=? 0); [destruct Hin|].
  rewrite lookup_fast_spec in Hin.
  set (query := lookup_query term_s) in *.
  assert (Hb : forall b : Z,
            b = (if strlen query <=? 4 then 1
                 else if requested <? max_edit_distance dict'
                      then requested else max_edit_distance dict') ->
            b = 1 \/ b = Z.min requested (max_edit_distance dict')).
  { intros b ->. destruct (strlen query <=? 4); [left; reflexivity|]. right.
    destruct (requested <? max_edit_distance dict') eqn:E;
      [apply Z.ltb_lt in E | apply Z.ltb_ge in E]; lia. }
  assert (Hslow :
    (exists pos, exact_find (exact_table dict') (xxh3 query) = PHit pos /\
       term s = strncpy query (Z.to_nat SYMSPELL_MAX_TERM_LENGTH - 1) /\
       distance s = 0) \/
    exists bound,
      (bound = 1 \/ bound = Z.min requested (max_edit_distance dict')) /\
      In s (lookup_slow logf stale dict' query bound)).
  { destruct (exact_find _ _) as [pos| |].
    - left. exists pos. destruct Hin as [<- | []]. auto.
    - right. eexists. split; [apply Hb; reflexivity | exact Hin].
    - right. eexists. split; [apply Hb; reflexivity | exact Hin]. }
  clear Hin Hb. destruct Hslow as [(pos & Hf & Ht & Hd) | (bound & Hb & Hin)].
  - left. split; [exact Hd|].
    split; [rewrite Ht; apply lookup_query_copy|].
    apply exact_find_PHit in Hf as (_ & Hslot & Hnz).
    destruct (load_exact_table logf _ _ _ _ _ Hload) as [m Hm].
    rewrite Hm in Hslot. destruct (sweep_hashes logf
      (exact_after (admitted_pairs content ti ci) (exact_table (create_dict D P))) m)
      as (Hh & _). rewrite Hh in Hslot.
    apply exact_after_hashes in Hslot as [H0 | H1]; [|assumption|assumption].
    exfalso. apply Hnz. rewrite <- H0. reflexivity.
  - right. unfold lookup_slow in Hin.
    pose proof (collect_candidates_from stale dict' query bound
      (_generate_all_deletes_reuse query bound (prefix_length dict')
         (delete_buffer_capacity dict'))) as HF.
    destruct (collect_candidates stale _ _ _ _) as [|first others]; [destruct Hin|].
    destruct Hin as [<- | []]. cbn [term frequency distance].
    rewrite Forall_forall in HF.
    destruct (HF (best_candidate first others)
                (proj2 (list_elem_of_In _ _) (best_candidate_In first others)))
      as (idx & e & j & w & n & He & Hj & Ht & Hfr & Hd & Hle).
    destruct (loaded_entry _ _ _ _ _ _ _ _ _ _ Hload He Hj) as (Hw & Hfq & _).
    rewrite Hd in Hle. pose proof (edit_distance_within_short _ _ _ Hle) as [_ Hlen].
    pose proof (admitted_word_c_str _ _ _ _ Hw) as Hcs.
    destruct (strncpy_open_word w (stale n) Hcs Hlen) as [Hshort Hfull].
    exists w. split; [exact Hw|]. rewrite Ht.
    split; [exact Hshort|]. split; [intros H; exists n; apply Hfull; exact H|].
    split.
    + rewrite Hfr. apply nth_lookup_Some with (d := 0) in Hfq. exact Hfq.
    + exists bound. rewrite Hd in *. auto.
Qed.

End LoadedIndex.

Section AdmittedWordRecord.
Variable logf : float -> float.
Variable stale : nat -> string.

(** What the exact-match table holds for an admitted word after a load
    into a fresh dictionary. *)
Lemma loaded_exact_slot D P content ti ci dict' w :
  symspell_load_dictionary logf (create_dict D P) (Some content) ti ci
    = Ret (true, dict') ->
  In w (map fst (admitted_pairs content ti ci)) ->
  xxh3 w <> 0 ->
  has_room (exact_table dict') ->
  (forall w', In w' (map fst (admitted_pairs content ti ci)) ->
              xxh3 w' = xxh3 w -> w' = w) ->
  let M := max_observed w (admitted_pairs content ti ci) in
  let p := float_div (float_of_u64 M)
             (float_of_u64 (first_frequency (admitted_pairs content ti ci))) in
  exists pos,
    exact_find (exact_table dict') (xxh3 w) = PHit pos /\
    slotZ (exact_frequencies (exact_table dict')) pos = M /\
    slotF (probabilities (exact_table dict')) pos = p /\
    slotF (iwf (exact_table dict')) pos = calculate_iwf logf p.
Proof.
  intros Hload Hin Hh Hroom Hcol M p.
  pose proof (admitted_valid (file_lines content) ti ci) as Hv.
  fold (admitted_pairs content ti ci) in Hv.
  pose proof (max_observed_nonneg w (admitted_pairs content ti ci)) as Hnn.
  assert (Hst : stored_freq (exact_table dict') (xxh3 w) = Some M).
  { destruct (load_exact_table logf _ _ _ _ _ Hload) as [m Ht].
    rewrite Ht, sweep_stored. rewrite Ht in Hroom. apply sweep_room in Hroom.
    rewrite exact_after_stored;
      [|intros q Hq; exfalso; apply Hq; reflexivity | assumption | assumption].
    rewrite stored_freq_create, hash_observed_observed by assumption.
    rewrite observed_spec by (assumption || (cbn [from_option id]; lia)).
    rewrite observed_present by assumption.
    f_equal. cbn [from_option id]. unfold M. lia. }
  unfold stored_freq in Hst.
  destruct (exact_find (exact_table dict') (xxh3 w)) as [pos| |] eqn:Ef;
    try discriminate.
  injection Hst as Hfreq. exists pos. split; [reflexivity|].
  split; [exact Hfreq|].
  apply exact_find_PHit in Ef as (Hpos & Hslot & _).
  apply load_Ret in Hload as (_ & d1 & m1 & H & ->).
  apply ingest_all_max_freq in H; [|assumption].
  change (0 =? 0) with true in H. cbv iota in H. subst m1.
  cbn [exact_table set_exact_table] in *. unfold sweep in *.
  destruct (sweep_loop_spec logf (first_frequency (admitted_pairs content ti ci))
              (Z.to_nat (exact_table_size (exact_table d1))) (exact_table d1) 0)
    as (Eh & Efq & Es & _ & Hsw & _).
  rewrite Eh in Hslot. rewrite Efq in Hfreq. rewrite Es in Hpos.
  destruct (Hsw pos) as [H1 H2]; [lia | congruence |].
  unfold slotF. rewrite H1, H2, Hfreq. split; reflexivity.
Qed.

(** X6: The complete answer for a dictionary word.  After a load into a fresh
    dictionary, a lookup of an admitted word of at most 127 bytes returns
    one suggestion: the word, distance 0, the largest frequency listed for
    it, that frequency over the frequency of the first admitted line as its
    probability, and [calculate_iwf] of that probability.
    [symspell_get_probability] and [symspell_get_iwf] return the same two
    numbers.  The provisos are those of the table: the hash of the word is
    not 0, no other admitted word has the same hash, and a slot is free. *)
Theorem admitted_word_suggestion
    D P dict content ti ci dict' w requested max_suggestions :
  symspell_create D P = Some dict ->
  symspell_load_dictionary logf dict (Some content) ti ci = Ret (true, dict') ->
  In w (map fst (admitted_pairs content ti ci)) ->
  strlen w < SYMSPELL_MAX_TERM_LENGTH ->
  xxh3 w <> 0 ->
  has_room (exact_table dict') ->
  (forall w', In w' (map fst (admitted_pairs content ti ci)) ->
              xxh3 w' = xxh3 w -> w' = w) ->
  0 < max_suggestions ->
  let M := max_observed w (admitted_pairs content ti ci) in
  let p := float_div (float_of_u64 M)
             (float_of_u64 (first_frequency (admitted_pairs content ti ci))) in
  symspell_lookup logf stale dict' w requested max_suggestions =
    [ {| term := w; distance := 0; frequency := M; probability := p;
         suggestion_iwf := calculate_iwf logf p |} ] /\
  symspell_get_probability dict' (xxh3 w) = p /\
  symspell_get_iwf dict' w = calculate_iwf logf p.
Proof.
  intros Hc Hload Hin Hlen Hh Hroom Hcol Hn M p.
  assert (dict = create_dict D P) as ->.
  { unfold symspell_create in Hc. destruct (_ || _); [discriminate|].
    injection Hc as <-. reflexivity. }
  destruct (loaded_exact_slot _ _ _ _ _ _ _ Hload Hin Hh Hroom Hcol)
    as (pos & Hf & Hfreq & Hp & Hi).
  destruct (admitted_word_query _ _ _ _ Hin Hlen) as [Hq Hcpy].
  split; [|split].
  - unfold symspell_lookup.
    replace (max_suggestions <=? 0) with false by (symmetry; apply Z.leb_gt; lia).
    rewrite Hq, lookup_fast_spec, Hf, Hcpy, Hfreq, Hp, Hi. reflexivity.
  - unfold symspell_get_probability.
    rewrite symspell_get_probability_loop_spec.
    fold (exact_find (exact_table dict') (xxh3 w)). rewrite Hf. exact Hp.
  - rewrite symspell_get_iwf_spec, Hf. exact Hi.
Qed.

End AdmittedWordRecord.

(** ** Recall of the lookup *)

Lemma lookup_probe_loop_spec fuel dict hash d : forall k,
  lookup_probe_loop fuel dict hash k d =
  match probe fuel (delete_cls (table dict) d) (delete_pos (table_size dict) hash) k with
  | PHit idx => table dict !! idx
  | _ => None
  end.
Proof.
  induction fuel as [|fuel IH]; intros k; [reflexivity|].
  cbn [lookup_probe_loop probe]. unfold delete_cls at 1, delete_pos at 1 2.
  destruct (table dict !! _) as [e|] eqn:E; [|reflexivity].
  destruct (String.eqb (delete_str e) d); [|apply IH].
  change (delete_pos (table_size dict) hash k)
    with (u64 (hash + k) mod table_size dict).
  rewrite E. reflexivity.
Qed.

Lemma extends_refl a : extends a a.
Proof. split; auto. Qed.

Lemma extends_trans a b c : extends a b -> extends b c -> extends a c.
Proof. intros [H1 H2] [H3 H4]. split; [auto | lia]. Qed.

Lemma collect_entry_fold stale query D entry cands :
  collect_entry stale query D entry cands =
  fold_left (collect_word stale query D entry) (seq 0 (length (words entry))) cands.
Proof. reflexivity. Qed.

Lemma collect_word_extends stale query D entry cands j :
  extends cands (collect_word stale query D entry cands j).
Proof.
  unfold collect_word. destruct (_ <? _); [|apply extends_refl].
  cbv zeta. destruct (_ <=? D); [|apply extends_refl].
  destruct (existsb _ _); [apply extends_refl|].
  split; [intros c Hc; apply in_or_app; auto | rewrite length_app; lia].
Qed.

Lemma fold_extends {B} (f : list candidate_t -> B -> list candidate_t) l :
  (forall a b, extends a (f a b)) -> forall a, extends a (fold_left f l a).
Proof.
  intros Hf. induction l as [|b l IH]; intros a; [apply extends_refl|].
  cbn [fold_left]. eapply extends_trans; [apply Hf | apply IH].
Qed.

Lemma collect_entry_extends stale query D entry cands :
  extends cands (collect_entry stale query D entry cands).
Proof. rewrite collect_entry_fold. apply fold_extends. apply collect_word_extends. Qed.

(** A word of the entry that is within the bound ends up among the
    candidates, unless the candidate buffer has run full: some candidate
    reads as a copy of the word. *)
Lemma collect_entry_has stale query D entry cands j w :
  words entry !! j = Some w ->
  c_str w = w ->
  edit_distance query w D <= D ->
  Z.of_nat (length (collect_entry stale query D entry cands)) < MAX_CANDIDATES_PER_LOOKUP ->
  exists c r, In c (collect_entry stale query D entry cands) /\
    cand_term c = strncpy_open w (Z.to_nat SYMSPELL_MAX_TERM_LENGTH - 1) r.
Proof.
  intros Hj Hcs Hd Hlen. rewrite collect_entry_fold in *.
  pose proof (edit_distance_within_short _ _ _ Hd) as [_ Hshort].
  assert (Hin : In j (seq 0 (length (words entry)))).
  { apply in_seq. apply lookup_lt_Some in Hj. lia. }
  apply in_split in Hin as (l1 & l2 & El). rewrite El in *.
  rewrite fold_left_app in *. cbn [fold_left] in *.
  set (a := fold_left (collect_word stale query D entry) l1 cands) in *.
  pose proof (fold_extends (collect_word stale query D entry) l2
                (collect_word_extends stale query D entry)
                (collect_word stale query D entry a j)) as [Hsub Hl2].
  pose proof (collect_word_extends stale query D entry a j) as [_ Hl1].
  assert (Hstep : exists c r, In c (collect_word stale query D entry a j) /\
            cand_term c = strncpy_open w (Z.to_nat SYMSPELL_MAX_TERM_LENGTH - 1) r).
  { unfold collect_word.
    replace (Z.of_nat (length a) <? MAX_CANDIDATES_PER_LOOKUP) with true
      by (symmetry; apply Z.ltb_lt; lia).
    cbv zeta. apply nth_lookup_Some with (d := "") in Hj. rewrite Hj.
    replace (edit_distance query w D <=? D) with true by (symmetry; apply Z.leb_le; lia).
    destruct (existsb _ a) eqn:Ex.
    - apply existsb_exists in Ex as (c & Hc & E). apply String.eqb_eq in E.
      exists c, "". split; [exact Hc|]. rewrite strncpy_open_nil by assumption. exact E.
    - eexists _, (stale (length a)).
      split; [apply in_or_app; right; left; reflexivity|]. reflexivity. }
  destruct Hstep as (c & r & Hc & Ht). exists c, r. auto.
Qed.

Lemma collect_delete_extends stale dict query D cands d :
  extends cands (collect_delete stale dict query D cands d).
Proof.
  unfold collect_delete. destruct (lookup_probe_loop _ _ _ _ _);
    [apply collect_entry_extends | apply extends_refl].
Qed.

Lemma collect_candidates_has stale dict query D deletes d idx e j w :
  In d deletes ->
  delete_find dict d = PHit idx -> table dict !! idx = Some e ->
  words e !! j = Some w ->
  c_str w = w ->
  edit_distance query w D <= D ->
  Z.of_nat (length (collect_candidates stale dict query D deletes))
    < MAX_CANDIDATES_PER_LOOKUP ->
  exists c r, In c (collect_candidates stale dict query D deletes) /\
    cand_term c = strncpy_open w (Z.to_nat SYMSPELL_MAX_TERM_LENGTH - 1) r.
Proof.
  intros Hd Hf He Hj Hcpy Hdist Hlen.
  change (collect_candidates stale dict query D deletes)
    with (fold_left (collect_delete stale dict query D) deletes []) in *.
  apply in_split in Hd as (l1 & l2 & ->).
  rewrite fold_left_app in *. cbn [fold_left] in *.
  set (a := fold_left (collect_delete stale dict query D) l1 []) in *.
  pose proof (fold_extends (collect_delete stale dict query D) l2
                (collect_delete_extends stale dict query D)
                (collect_delete stale dict query D a d)) as [Hsub Hl2].
  assert (E : collect_delete stale dict query D a d = collect_entry stale query D e a).
  { unfold collect_delete. rewrite lookup_probe_loop_spec.
    fold (delete_find dict d). rewrite Hf, He. reflexivity. }
  rewrite E in *.
  destruct (collect_entry_has stale query D e a j w Hj Hcpy Hdist ltac:(lia))
    as (c & r & Hc & Ht).
  exists c, r. auto.
Qed.

Section Recall.
Variable logf : float -> float.
Variable stale : nat -> string.

(** The recall of a search with the distance [bound], whatever decided
    that bound. *)
Lemma lookup_slow_recall
    D P dict content ti ci dict' query bound w d :
  symspell_create D P = Some dict ->
  symspell_load_dictionary logf dict (Some content) ti ci = Ret (true, dict') ->
  In w (map fst (admitted_pairs content ti ci)) ->
  In d (_generate_all_deletes_reuse w D P DELETE_QUEUE_CAPACITY) ->
  In d (_generate_all_deletes_reuse query bound P DELETE_QUEUE_CAPACITY) ->
  delete_find dict' d <> PFull ->
  edit_distance query w bound <= bound ->
  Z.of_nat (length (collect_candidates stale dict' query bound
                      (_generate_all_deletes_reuse query bound P DELETE_QUEUE_CAPACITY)))
    < MAX_CANDIDATES_PER_LOOKUP ->
  exists s,
    lookup_slow logf stale dict' query bound = [s] /\
    (distance s < edit_distance query w bound \/
     (distance s = edit_distance query w bound /\
      max_observed w (admitted_pairs content ti ci) <= frequency s)).
Proof.
  intros Hc Hload Hw Hdw Hdq Hnf Hdist Hlen.
  assert (dict = create_dict D P) as ->.
  { unfold symspell_create in Hc. destruct (_ || _); [discriminate|].
    injection Hc as <-. reflexivity. }
  clear Hc.
  pose proof (admitted_valid (file_lines content) ti ci) as Hv.
  fold (admitted_pairs content ti ci) in Hv.
  pose proof (max_observed_nonneg w (admitted_pairs content ti ci)) as Hnn.
  pose proof Hload as Hload0.
  apply load_Ret in Hload as (_ & d1 & m1 & Hing & ->).
  destruct (ingest_all_listed _ _ _ _ _ (table_ok_create D P) Hing) as [Hok Hl].
  assert (Hst : prefix_length d1 = P /\ delete_buffer_capacity d1 = DELETE_QUEUE_CAPACITY).
  { clear -Hing. revert Hing. generalize 0 at 1 as m.
    assert (G : forall pairs dict m dict' m',
              ingest_all pairs dict m = Ret (dict', m') ->
              prefix_length dict' = prefix_length dict /\
              delete_buffer_capacity dict' = delete_buffer_capacity dict).
    { induction pairs as [|[w0 f0] pairs IH]; intros dict m dict' m' H.
      - injection H as <- _. auto.
      - cbn [ingest_all] in H. bind_inv H. destruct a as [d2 m2].
        apply ingest_Ret in Hm as (_ & _ & _ & _ & _ & H1 & H2).
        apply IH in H as [H3 H4]. split; congruence. }
    intros m H. apply G in H. exact H. }
  destruct Hst as [HP Hcap].
  set (dict' := set_exact_table d1 _) in *.
  assert (Hfd : delete_find dict' d = delete_find d1 d) by reflexivity.
  rewrite Hfd in Hnf.
  destruct (Hl d) as [_ [Hfull | Hlist]]; [contradiction|].
  specialize (Hlist w). rewrite listed_create in Hlist.
  assert (Hmem : mem d (variants (create_dict D P) w) = true).
  { unfold mem, variants. cbn [max_edit_distance prefix_length delete_buffer_capacity create_dict].
    apply existsb_exists. exists d. split; [exact Hdw | apply String.eqb_refl]. }
  rewrite Hmem in Hlist.
  rewrite observed_spec in Hlist by (assumption || (cbn [from_option id]; lia)).
  rewrite observed_present in Hlist by assumption.
  cbn [from_option id] in Hlist.
  replace (Z.max 0 (max_observed w (admitted_pairs content ti ci)))
    with (max_observed w (admitted_pairs content ti ci)) in Hlist by lia.
  unfold listed in Hlist.
  destruct (delete_find d1 d) as [idx| |] eqn:Ef; try discriminate.
  destruct (table d1 !! idx) as [e|] eqn:He; [|discriminate].
  destruct (Hok idx e He) as [_ Hent].
  unfold entry_frequency in Hlist.
  destruct (find_word (words e) w 0) as [j|] eqn:Efw; [|discriminate].
  apply find_word_Some in Efw.
  pose proof (edit_distance_within_short _ _ _ Hdist) as [_ Hshort].
  pose proof (admitted_word_c_str _ _ _ _ Hw) as Hcs.
  unfold lookup_slow.
  change (prefix_length dict') with (prefix_length d1).
  change (delete_buffer_capacity dict') with (delete_buffer_capacity d1).
  rewrite HP, Hcap.
  destruct (collect_candidates_has stale dict' query bound _ d idx e j w
              Hdq Ef He Efw Hcs Hdist Hlen) as (c & r & Hc & Ht).
  pose proof (collect_candidates_from stale dict' query bound
    (_generate_all_deletes_reuse query bound P DELETE_QUEUE_CAPACITY)) as HF.
  destruct (collect_candidates stale _ _ _ _) as [|first others] eqn:Ec; [destruct Hc|].
  eexists. split; [reflexivity|]. cbn [distance frequency].
  pose proof (best_candidate_no_worse others first c Hc) as Hbest.
  rewrite Forall_forall in HF.
  destruct (HF c (proj2 (list_elem_of_In _ _) Hc))
    as (idx' & e' & j' & w' & n' & He' & Hj' & Ht' & Hfr' & Hd' & Hle').
  destruct (loaded_entry logf _ _ _ _ _ _ _ _ _ _ Hload0 He' Hj') as (Hw' & Hfq' & _).
  rewrite Hd' in Hle'. pose proof (edit_distance_within_short _ _ _ Hle') as [_ Hshort'].
  pose proof (admitted_word_c_str _ _ _ _ Hw') as Hcs'.
  assert (w' = w).
  { symmetry. apply (strncpy_open_inj w w' r (stale n') Hcs Hcs' Hshort Hshort').
    congruence. }
  subst w'.
  apply nth_lookup_Some with (d := 0) in Hfq'.
  unfold no_worse in Hbest. rewrite Hd', Hfr', Hfq' in Hbest. exact Hbest.
Qed.

(** X7: The recall of the slow path.  After a load into a fresh dictionary,
    let [w] be an admitted word that shares a delete variant [d] with the
    query and lies within the distance bound of the search.  Unless the
    delete index had no room for [d] or the candidate buffer ran full, the
    search returns a suggestion that is at least as good as [w]: closer
    than [w], or as close and at least as frequent. *)
Theorem slow_path_finds_words_sharing_a_variant
    D P dict content ti ci dict' query bound w d :
  symspell_create D P = Some dict ->
  symspell_load_dictionary logf dict (Some content) ti ci = Ret (true, dict') ->
  In w (map fst (admitted_pairs content ti ci)) ->
  In d (_generate_all_deletes_reuse w D P DELETE_QUEUE_CAPACITY) ->
  In d (_generate_all_deletes_reuse query bound P DELETE_QUEUE_CAPACITY) ->
  delete_find dict' d <> PFull ->
  edit_distance query w bound <= bound ->
  Z.of_nat (length (collect_candidates stale dict' query bound
                      (_generate_all_deletes_reuse query bound P DELETE_QUEUE_CAPACITY)))
    < MAX_CANDIDATES_PER_LOOKUP ->
  exists s,
    lookup_slow logf stale dict' query bound = [s] /\
    (distance s < edit_distance query w bound \/
     (distance s = edit_distance query w bound /\
      max_observed w (admitted_pairs content ti ci) <= frequency s)).
Proof.
  apply lookup_slow_recall.
Qed.

End Recall.

(** *** The short-word rule *)

Section ShortQuery.
Variable logf : float -> float.
Variable stale : nat -> string.

(** C6: a query of at most four bytes that misses the exact-match table is
    searched with maximum edit distance 1, whatever distance the caller
    asked for and whatever the dictionary was created with.  The result is
    that of the slow path run with distance 1, and no suggestion is farther
    than 1 from the query.  On a dictionary loaded from a file that search
    finds what lies within 1: an admitted word [w] within distance 1 that
    shares a delete variant [d] with the query yields a suggestion at least
    as good as [w], unless the delete index had no room for [d] or the
    candidate buffer ran full. *)
Theorem short_query_searches_with_distance_one dict term_s requested max_suggestions :
  0 < max_suggestions ->
  strlen (lookup_query term_s) <= 4 ->
  lookup_fast dict (lookup_query term_s) = None ->
  symspell_lookup logf stale dict term_s requested max_suggestions
  = lookup_slow logf stale dict (lookup_query term_s) 1 /\
  (forall s, In s (symspell_lookup logf stale dict term_s requested max_suggestions) ->
             distance s <= 1) /\
  (forall D P dict0 content ti ci w d,
     symspell_create D P = Some dict0 ->
     symspell_load_dictionary logf dict0 (Some content) ti ci = Ret (true, dict) ->
     In w (map fst (admitted_pairs content ti ci)) ->
     In d (_generate_all_deletes_reuse w D P DELETE_QUEUE_CAPACITY) ->
     In d (_generate_all_deletes_reuse (lookup_query term_s) 1 P DELETE_QUEUE_CAPACITY) ->
     delete_find dict d <> PFull ->
     edit_distance (lookup_query term_s) w 1 <= 1 ->
     Z.of_nat (length (collect_candidates stale dict (lookup_query term_s) 1
                         (_generate_all_deletes_reuse (lookup_query term_s) 1 P
                            DELETE_QUEUE_CAPACITY)))
       < MAX_CANDIDATES_PER_LOOKUP ->
     exists s,
       symspell_lookup logf stale dict term_s requested max_suggestions = [s] /\
       (distance s < edit_distance (lookup_query term_s) w 1 \/
        (distance s = edit_distance (lookup_query term_s) w 1 /\
         max_observed w (admitted_pairs content ti ci) <= frequency s))).
Proof.
  intros Hn Hlen Hmiss.
  assert (E : symspell_lookup logf stale dict term_s requested max_suggestions
              = lookup_slow logf stale dict (lookup_query term_s) 1).
  { unfold symspell_lookup.
    replace (max_suggestions <=? 0) with false by (symmetry; apply Z.leb_gt; lia).
    rewrite Hmiss.
    replace (strlen (lookup_query term_s) <=? 4) with true
      by (symmetry; apply Z.leb_le; lia).
    reflexivity. }
  split; [exact E|]. rewrite E. split; [intros s; apply lookup_slow_within|].
  intros D P dict0 content ti ci w d.
  apply lookup_slow_recall.
Qed.

End ShortQuery.

(** C6, at an input: the dictionary is created with distance 2 and the
    caller asks for distance 3; the query "Helo" finds "hello" at distance
    1, and not the more frequent "hellos" at distance 2. *)
Lemma short_query_searches_with_distance_one_witness :
  match loaded logf_at_one (create_dict 2 7)
          ("hellos 9000" ++ LF ++ "hello 5000" ++ LF) 0 1 with
  | Some dict' =>
      map (fun s => (term s, distance s, frequency s))
        (symspell_lookup logf_at_one stale_zero dict' "Helo" 3 5)
      = [("hello", 1, 5000)] /\
      edit_distance "helo" "hellos" 2 = 2 /\
      symspell_lookup logf_at_one stale_zero dict' "Helo" 3 5
      = lookup_slow logf_at_one stale_zero dict' "helo" 1 /\
      (forall s, In s (symspell_lookup logf_at_one stale_zero dict' "Helo" 3 5) ->
                 distance s <= 1) /\
      exists s,
        symspell_lookup logf_at_one stale_zero dict' "Helo" 3 5 = [s] /\
        (distance s < edit_distance "helo" "hello" 1 \/
         (distance s = edit_distance "helo" "hello" 1 /\
          max_observed "hello"
            (admitted_pairs ("hellos 9000" ++ LF ++ "hello 5000" ++ LF) 0 1)
          <= frequency s))
  | None => False
  end.
Proof.
  run_load.
  split; [vm_compute; reflexivity|]. split; [vm_compute; reflexivity|].
  match type of E with _ = Ret (true, ?d') =>
    destruct (short_query_searches_with_distance_one logf_at_one stale_zero d'
                "Helo" 3 5) as (H1 & H2 & H3);
      [lia | vm_compute; discriminate | vm_compute; reflexivity |]
  end.
  split; [exact H1|]. split; [exact H2|].
  apply (H3 2 7 (create_dict 2 7) ("hellos 9000" ++ LF ++ "hello 5000" ++ LF) 0 1
           "hello" "helo" eq_refl E).
  - vm_compute. auto.
  - vm_compute. tauto.
  - vm_compute. tauto.
  - vm_compute. discriminate.
  - vm_compute. discriminate.
  - vm_compute. reflexivity.
Defined.

(** ** The delete enumerator: what it emits *)

Lemma NoDup_snoc (l : list string) (x : string) :
  NoDup l -> ~ In x l -> NoDup (l ++ [x]).
Proof.
  intros Hl Hx. apply NoDup_app. split; [assumption|]. split.
  - intros y Hy Hy'. apply list_elem_of_In in Hy.
    apply list_elem_of_In in Hy'. destruct Hy' as [<- | []]. contradiction.
  - apply NoDup_singleton.
Qed.

Lemma emit_uniq md s st : uniq_ok st -> uniq_ok (emit md s st).
Proof.
  intros [Hn Hs]. unfold emit, ht_find.
  destruct (bool_decide (s ∈ uniq_set st)) eqn:E; [split; assumption|].
  destruct (_ <? _); [|split; assumption].
  apply bool_decide_eq_false in E. rewrite Hs in E.
  split; cbn [deletes_out uniq_set].
  - apply NoDup_snoc; assumption.
  - intros x. unfold ht_enter. rewrite elem_of_union, elem_of_singleton, Hs, in_app_iff.
    cbn [In]. intuition congruence.
Qed.

Lemma emit_count md s st :
  delete_count st <= Z.max 0 md ->
  delete_count st <= delete_count (emit md s st) <= Z.max 0 md.
Proof.
  unfold emit. destruct (ht_find _ _); [lia|].
  destruct (delete_count st <? md) eqn:E; [|lia].
  apply Z.ltb_lt in E. unfold delete_count in *. cbn [deletes_out].
  rewrite length_app. cbn [length]. lia.
Qed.

Lemma delete_step_out md current st i :
  deletes_out (delete_step md current st i) =
    deletes_out (emit md (str_remove i (str current)) st) /\
  uniq_set (delete_step md current st i) =
    uniq_set (emit md (str_remove i (str current)) st).
Proof.
  unfold delete_step. destruct (_ <? DELETE_QUEUE_CAPACITY); [|auto].
  destruct (existsb _ _); auto.
Qed.

Lemma delete_step_uniq md current st i :
  uniq_ok st -> uniq_ok (delete_step md current st i).
Proof.
  intros H. apply (emit_uniq md (str_remove i (str current))) in H.
  destruct (delete_step_out md current st i) as [E1 E2].
  unfold uniq_ok. rewrite E1, E2. exact H.
Qed.

Lemma delete_step_count md current st i :
  delete_count st <= Z.max 0 md ->
  delete_count st <= delete_count (delete_step md current st i) <= Z.max 0 md.
Proof.
  intros H. destruct (delete_step_out md current st i) as [E1 _].
  unfold delete_count at 2 3. rewrite E1. apply emit_count. assumption.
Qed.

Lemma deletes_loop_uniq fuel D md : forall st,
  uniq_ok st /\ delete_count st <= Z.max 0 md ->
  uniq_ok (deletes_loop fuel D md st) /\
  delete_count (deletes_loop fuel D md st) <= Z.max 0 md.
Proof.
  induction fuel as [|fuel IH]; intros st H; [exact H|].
  cbn [deletes_loop]. destruct (pending st) as [|current rest]; [exact H|].
  destruct (delete_count st <? md); [|exact H].
  destruct (_ || _).
  - apply IH. exact H.
  - apply IH.
    apply (fold_left_preserves
             (fun st => uniq_ok st /\ delete_count st <= Z.max 0 md)); [|exact H].
    intros a i [Ha Hc]. split; [apply delete_step_uniq; assumption|].
    apply delete_step_count. assumption.
Qed.

Lemma generate_all_deletes_start word D P md :
  _generate_all_deletes_reuse word D P md =
    if strlen word =? 0 then []
    else deletes_out
           (deletes_loop (Z.to_nat DELETE_QUEUE_CAPACITY) D md
              (deletes_start md (delete_prefix word P) D)).
Proof. reflexivity. Qed.

Lemma uniq_empty_state : uniq_ok empty_state.
Proof. split; [constructor|]. intros s. cbn. set_solver. Qed.

Lemma deletes_start_uniq md p D :
  uniq_ok (deletes_start md p D) /\
  delete_count (deletes_start md p D) <= Z.max 0 md.
Proof.
  set (inv := fun st => uniq_ok st /\ delete_count st <= Z.max 0 md).
  assert (H0 : inv empty_state).
  { split; [apply uniq_empty_state | unfold delete_count; cbn; lia]. }
  assert (He : forall st s, inv st -> inv (emit md s st)).
  { intros st s [Ha Hb]. split; [apply emit_uniq; assumption|].
    apply emit_count. assumption. }
  assert (H1 : inv (if (strlen p <=? D) && (delete_count empty_state <? md)
                    then emit md "" empty_state else empty_state))
    by (destruct (_ && _); [apply He; exact H0 | exact H0]).
  unfold deletes_start.
  set (st1 := if _ && _ then _ else _) in *.
  assert (H2 : inv (if delete_count st1 <? md then emit md p st1 else st1))
    by (destruct (delete_count st1 <? md); [apply He; exact H1 | exact H1]).
  cbv zeta. exact H2.
Qed.

Lemma deletes_loop_uniq_out fuel D md st :
  uniq_ok st /\ delete_count st <= Z.max 0 md ->
  NoDup (deletes_out (deletes_loop fuel D md st)) /\
  Z.of_nat (length (deletes_out (deletes_loop fuel D md st))) <= Z.max 0 md.
Proof.
  intros H. destruct (deletes_loop_uniq fuel D md st H) as [[Hn _] Hc].
  split; [exact Hn | exact Hc].
Qed.

(** X9: The enumerator never emits a variant twice and never more than
    [max_deletes] of them. *)
Theorem deletes_are_distinct_and_bounded word D P max_deletes :
  NoDup (_generate_all_deletes_reuse word D P max_deletes) /\
  Z.of_nat (length (_generate_all_deletes_reuse word D P max_deletes))
    <= Z.max 0 max_deletes.
Proof.
  rewrite generate_all_deletes_start.
  destruct (strlen word =? 0).
  { split; [constructor | unfold length; lia]. }
  apply deletes_loop_uniq_out, deletes_start_uniq.
Qed.

Lemma shrinks_upto s n :
  (n <= String.length s)%nat ->
  exists t, shrinks s n t /\ String.length t = (String.length s - n)%nat.
Proof.
  induction n as [|n IH]; intros H.
  - exists s. split; [constructor | lia].
  - destruct IH as (t & Ht & Hl); [lia|].
    exists (str_remove 0 t). split; [constructor; [assumption | lia]|].
    rewrite str_remove_length by lia. lia.
Qed.

Lemma shrinks_all s : shrinks s (String.length s) "".
Proof.
  destruct (shrinks_upto s (String.length s)) as (t & Ht & Hl); [lia|].
  replace (String.length s - String.length s)%nat with 0%nat in Hl by lia.
  destruct t; [exact Ht | discriminate].
Qed.

Lemma emit_sound prefix D md s st n :
  Z.of_nat n <= Z.max 0 D -> shrinks prefix n s ->
  sound_state prefix D st -> sound_state prefix D (emit md s st).
Proof.
  intros Hn Hs [Ho Hq]. unfold emit.
  destruct (ht_find _ _); [split; assumption|].
  destruct (_ <? _); [|split; assumption].
  split; cbn [deletes_out pending]; [|assumption].
  intros d Hd. apply in_app_or in Hd as [Hd | [<- | []]]; eauto.
Qed.

Lemma delete_step_sound prefix D md current st i n :
  item_distance current = Z.of_nat n -> shrinks prefix n (str current) ->
  Z.of_nat n < D -> (i < String.length (str current))%nat ->
  sound_state prefix D st -> sound_state prefix D (delete_step md current st i).
Proof.
  intros Hd Hs Hn Hi Hst.
  assert (Hs' : shrinks prefix (S n) (str_remove i (str current)))
    by (constructor; assumption).
  apply (emit_sound prefix D md (str_remove i (str current)) st (S n)) in Hst; [|lia|assumption].
  unfold delete_step. destruct (_ <? DELETE_QUEUE_CAPACITY); [|assumption].
  destruct (existsb _ _); [assumption|].
  destruct Hst as [Ho Hq]. split; cbn [deletes_out pending]; [assumption|].
  intros q Hin. apply in_app_or in Hin as [Hin | [<- | []]]; [auto|].
  exists (S n). cbn [item_distance str]. split; [lia | assumption].
Qed.

Lemma deletes_loop_sound prefix fuel D md : forall st,
  sound_state prefix D st -> sound_state prefix D (deletes_loop fuel D md st).
Proof.
  induction fuel as [|fuel IH]; intros st H; [exact H|].
  cbn [deletes_loop]. destruct (pending st) as [|current rest] eqn:Ep; [exact H|].
  destruct (delete_count st <? md); [|exact H].
  destruct H as [Ho Hq].
  assert (Hpop : sound_state prefix D
            {| deletes_out := deletes_out st; uniq_set := uniq_set st;
               pending := rest; queue_end := queue_end st |}).
  { split; cbn [deletes_out pending]; [assumption|].
    intros q Hin. apply Hq. rewrite Ep. right. exact Hin. }
  destruct (_ || _) eqn:E; [apply IH; exact Hpop|].
  apply IH. apply orb_false_elim in E as [E1 E2].
  rewrite Z.geb_leb in E1. apply Z.leb_gt in E1.
  destruct (Hq current) as (n & Hn & Hs); [rewrite Ep; left; reflexivity|].
  apply (fold_left_preserves_In (sound_state prefix D)); [|exact Hpop].
  intros a i Hi Ha. apply in_seq in Hi. unfold strlen in Hi. rewrite Nat2Z.id in Hi.
  eapply delete_step_sound; eauto; lia.
Qed.

Lemma deletes_start_sound md p D : sound_state p D (deletes_start md p D).
Proof.
  assert (H0 : sound_state p D empty_state) by (split; intros ? []).
  assert (H1 : sound_state p D
                 (if (strlen p <=? D) && (delete_count empty_state <? md)
                  then emit md "" empty_state else empty_state)).
  { destruct (strlen p <=? D) eqn:E; [|exact H0].
    cbn [andb]. destruct (delete_count empty_state <? md); [|exact H0].
    apply Z.leb_le in E. unfold strlen in E.
    apply (emit_sound p D md "" empty_state (String.length p));
      [lia | apply shrinks_all | exact H0]. }
  unfold deletes_start.
  set (st1 := if _ && _ then _ else _) in *.
  assert (H2 : sound_state p D
                 (if delete_count st1 <? md then emit md p st1 else st1)).
  { destruct (delete_count st1 <? md); [|exact H1].
    apply (emit_sound p D md p st1 0); [lia | constructor | exact H1]. }
  cbv zeta. destruct H2 as [Ho _]. split; cbn [deletes_out pending]; [exact Ho|].
  intros q [<- | []]. exists 0%nat. split; [reflexivity | constructor].
Qed.

(** X10: Every variant the enumerator emits is the prefix with at most
    [max_distance] of its bytes removed. *)
Theorem deletes_are_removals_from_the_prefix word D P max_deletes :
  Forall
    (fun d => exists n,
       Z.of_nat n <= Z.max 0 D /\ shrinks (delete_prefix word P) n d)
    (_generate_all_deletes_reuse word D P max_deletes).
Proof.
  rewrite generate_all_deletes_start.
  destruct (strlen word =? 0); [constructor|].
  apply Forall_forall. intros x Hx. apply list_elem_of_In in Hx. revert x Hx.
  apply deletes_loop_sound, deletes_start_sound.
Qed.

(** *** Completeness, when neither buffer runs out *)

Lemma mono_refl st : mono st st.
Proof. unfold mono. lia. Qed.

Lemma mono_trans a b c : mono a b -> mono b c -> mono a c.
Proof. unfold mono. lia. Qed.

Lemma emit_mono md s st : mono st (emit md s st).
Proof.
  unfold emit, mono. destruct (ht_find _ _); [lia|].
  destruct (_ <? _); [|lia]. unfold delete_count. cbn [deletes_out queue_end].
  rewrite length_app. cbn [length]. lia.
Qed.

Lemma delete_step_mono md current st i : mono st (delete_step md current st i).
Proof.
  eapply mono_trans; [apply (emit_mono md (str_remove i (str current)))|].
  unfold delete_step, mono. destruct (_ <? DELETE_QUEUE_CAPACITY); [|lia].
  destruct (existsb _ _); [lia|]. unfold delete_count. cbn [deletes_out queue_end]. lia.
Qed.

Lemma fold_delete_step_mono md current l : forall st,
  mono st (fold_left (delete_step md current) l st).
Proof.
  induction l as [|i l IH]; intros st; [apply mono_refl|].
  cbn [fold_left]. eapply mono_trans; [apply delete_step_mono | apply IH].
Qed.

Lemma deletes_loop_mono fuel D md : forall st, mono st (deletes_loop fuel D md st).
Proof.
  induction fuel as [|fuel IH]; intros st; [apply mono_refl|].
  cbn [deletes_loop]. destruct (pending st); [apply mono_refl|].
  destruct (_ <? md); [|apply mono_refl].
  destruct (_ || _).
  - eapply mono_trans; [|apply IH]. unfold mono, delete_count. cbn [deletes_out queue_end]. lia.
  - eapply mono_trans; [|apply IH]. eapply mono_trans; [|apply fold_delete_step_mono].
    unfold mono, delete_count. cbn [deletes_out queue_end]. lia.
Qed.

Lemma emit_in md s st :
  uniq_ok st -> delete_count (emit md s st) < md ->
  In s (deletes_out (emit md s st)) /\
  forall x, In x (deletes_out st) -> In x (deletes_out (emit md s st)).
Proof.
  intros [_ Hs]. unfold emit, ht_find.
  destruct (bool_decide (s ∈ uniq_set st)) eqn:E.
  - apply bool_decide_eq_true in E. rewrite Hs in E. auto.
  - destruct (delete_count st <? md) eqn:Ec.
    + intros _. cbn [deletes_out]. split; [|intros x Hx]; apply in_or_app; cbn; auto.
    + apply Z.ltb_ge in Ec. lia.
Qed.

Lemma existsb_str (l : list queue_item_t) (s : string) :
  existsb (fun q => String.eqb (str q) s) l = true -> In s (map str l).
Proof.
  intros H. apply existsb_exists in H as (q & Hq & E).
  apply String.eqb_eq in E. subst s. apply in_map. exact Hq.
Qed.

Lemma delete_step_closed md current st i :
  uniq_ok st -> no_trunc md (delete_step md current st i) ->
  let st' := delete_step md current st i in
  let del := str_remove i (str current) in
  In del (deletes_out st') /\ In del (map str (pending st')) /\
  (forall x, In x (deletes_out st) -> In x (deletes_out st')) /\
  (forall q, In q (pending st) -> In q (pending st')) /\
  (forall q, In q (pending st') ->
     In q (pending st) \/
     q = {| str := del; item_distance := item_distance current + 1 |}).
Proof.
  intros Hu [Hc Hq]. cbv zeta.
  destruct (delete_step_out md current st i) as [Eo _].
  rewrite Eo. unfold delete_count in Hc. rewrite Eo in Hc.
  destruct (emit_in md (str_remove i (str current)) st Hu Hc) as [Hin Hsub].
  split; [exact Hin|]. split; [|split; [exact Hsub|]].
  - revert Hq. unfold delete_step.
    destruct (_ <? DELETE_QUEUE_CAPACITY) eqn:E; [|apply Z.ltb_ge in E; lia].
    destruct (existsb _ _) eqn:Ex; intros _.
    + apply existsb_str. exact Ex.
    + cbn [pending]. rewrite map_app. apply in_or_app. right. left. reflexivity.
  - assert (Hp : pending (emit md (str_remove i (str current)) st) = pending st).
    { unfold emit. destruct (ht_find _ _); [reflexivity|].
      destruct (_ <? _); reflexivity. }
    unfold delete_step. destruct (_ <? DELETE_QUEUE_CAPACITY).
    + destruct (existsb _ _).
      * rewrite Hp. auto.
      * cbn [pending]. rewrite Hp. split.
        -- intros q H. apply in_or_app. auto.
        -- intros q H. apply in_app_or in H as [H | [<- | []]]; auto.
    + rewrite Hp. auto.
Qed.

Lemma fold_delete_step_closed md current st0 k :
  uniq_ok st0 ->
  let st' := fold_left (delete_step md current) (seq 0 k) st0 in
  no_trunc md st' ->
  uniq_ok st' /\
  (forall i, (i < k)%nat ->
     In (str_remove i (str current)) (deletes_out st') /\
     In (str_remove i (str current)) (map str (pending st'))) /\
  (forall x, In x (deletes_out st0) -> In x (deletes_out st')) /\
  (forall q, In q (pending st0) -> In q (pending st')) /\
  (forall q, In q (pending st') ->
     In q (pending st0) \/
     exists i, (i < k)%nat /\
       q = {| str := str_remove i (str current);
              item_distance := item_distance current + 1 |}).
Proof.
  intros Hu. induction k as [|k IH]; cbv zeta.
  - intros _. cbn [seq fold_left]. split; [assumption|].
    split; [intros i Hi; lia|]. auto.
  - rewrite seq_S, fold_left_app. cbn [fold_left Nat.add].
    set (stk := fold_left (delete_step md current) (seq 0 k) st0) in *.
    intros Hnt.
    assert (Hntk : no_trunc md stk).
    { destruct (delete_step_mono md current stk k) as [M1 M2].
      destruct Hnt as [N1 N2]. split; lia. }
    destruct (IH Hntk) as (Huk & Hdone & Hsub & Hpsub & Hpnew).
    destruct (delete_step_closed md current stk k Huk Hnt)
      as (Hin & Hinq & Hs & Hp & Hn).
    split; [apply delete_step_uniq; assumption|].
    split; [|split; [auto|split; [auto|]]].
    + intros i Hi. destruct (Nat.eq_dec i k) as [-> | Hne]; [auto|].
      destruct (Hdone i ltac:(lia)) as [H1 H2]. split; [auto|].
      apply in_map_iff in H2 as (q & Eq & Hq). apply in_map_iff. eauto.
    + intros q Hq. destruct (Hn q Hq) as [Hq' | ->].
      * destruct (Hpnew q Hq') as [? | (i & Hi & ->)]; [auto|].
        right. exists i. split; [lia | reflexivity].
      * right. exists k. split; [lia | reflexivity].
Qed.

Lemma deletes_loop_closed p fuel D md : forall st seen,
  uniq_ok st -> closed p D st seen ->
  no_trunc md (deletes_loop fuel D md st) ->
  exists seen', closed p D (deletes_loop fuel D md st) seen'.
Proof.
  induction fuel as [|fuel IH]; intros st seen Hu Hcl Hnt; [eauto|].
  cbn [deletes_loop] in *.
  destruct (pending st) as [|current rest] eqn:Ep; [eauto|].
  destruct (delete_count st <? md); [|eauto].
  destruct Hcl as (Hd & Hc & Hp). rewrite Ep in *.
  set (st1 := {| deletes_out := deletes_out st; uniq_set := uniq_set st;
                 pending := rest; queue_end := queue_end st |}) in *.
  assert (Hu1 : uniq_ok st1) by exact Hu.
  assert (Hcur : item_distance current = dist_of p (str current))
    by (apply Hd; left; reflexivity).
  assert (Hmem : forall x, In x (map str (current :: rest)) ->
                 In x (map str rest) \/ In x (str current :: seen)).
  { intros x [<- | H]; [right; left; reflexivity | left; exact H]. }
  destruct (_ || _) eqn:E.
  - apply (IH st1 (str current :: seen)); [assumption| |assumption].
    split; [intros q Hq; apply Hd; right; exact Hq|]. split.
    + intros t [<- | Ht] Hlt Hlen i Hi.
      * exfalso. apply orb_true_iff in E as [E | E].
        -- rewrite Z.geb_leb in E. apply Z.leb_le in E. lia.
        -- apply Z.leb_le in E. lia.
      * destruct (Hc t Ht Hlt Hlen i Hi) as [H1 H2]. split; [exact H1|].
        destruct H2 as [H2 | H2]; [apply Hmem in H2; tauto | right; right; exact H2].
    + destruct Hp as [Hp | Hp]; [apply Hmem in Hp; tauto | right; right; exact Hp].
  - apply orb_false_elim in E as [E1 E2].
    rewrite Z.geb_leb in E1. apply Z.leb_gt in E1. apply Z.leb_gt in E2.
    set (stf := fold_left (delete_step md current)
                  (seq 0 (Z.to_nat (strlen (str current)))) st1) in *.
    assert (Hntf : no_trunc md stf).
    { destruct (deletes_loop_mono fuel D md stf) as [M1 M2].
      destruct Hnt as [N1 N2]. split; lia. }
    destruct (fold_delete_step_closed md current st1 _ Hu1 Hntf)
      as (Huf & Hdone & Hsub & Hpsub & Hpnew). fold stf in Huf, Hdone, Hsub, Hpsub, Hpnew.
    apply (IH stf (str current :: seen)); [assumption| |assumption].
    assert (Hmapsub : forall x, In x (map str rest) -> In x (map str (pending stf))).
    { intros x Hx. apply in_map_iff in Hx as (q & Eq & Hq). apply in_map_iff.
      exists q. split; [exact Eq | apply Hpsub; exact Hq]. }
    split; [|split].
    + intros q Hq. destruct (Hpnew q Hq) as [Hq' | (i & Hi & ->)].
      * apply Hd. right. exact Hq'.
      * cbn [item_distance str]. rewrite Hcur. unfold dist_of, strlen in *.
        rewrite Nat2Z.id in Hi. rewrite str_remove_length by exact Hi. lia.
    + intros t [<- | Ht] Hlt Hlen i Hi.
      * unfold strlen in Hdone. rewrite Nat2Z.id in Hdone.
        destruct (Hdone i Hi) as [H1 H2]. auto.
      * destruct (Hc t Ht Hlt Hlen i Hi) as [H1 H2]. split; [apply Hsub; exact H1|].
        destruct H2 as [H2 | H2]; [|right; right; exact H2].
        apply Hmem in H2 as [H2 | H2]; [left; apply Hmapsub; exact H2 | right; exact H2].
    + destruct Hp as [Hp | Hp]; [|right; right; exact Hp].
      apply Hmem in Hp as [Hp | Hp]; [left; apply Hmapsub; exact Hp | right; exact Hp].
Qed.

Lemma shrinks_length p n t :
  shrinks p n t -> (String.length t + n = String.length p)%nat.
Proof.
  induction 1 as [|n t i _ IH Hi]; [lia|].
  rewrite str_remove_length by exact Hi. lia.
Qed.

(** Once the queue is empty, a closed state holds every variant. *)
Lemma closed_complete p D st seen :
  closed p D st seen -> pending st = [] ->
  In p (deletes_out st) -> (strlen p <= D -> In "" (deletes_out st)) ->
  forall n t, shrinks p n t -> Z.of_nat n <= D ->
    In t (deletes_out st) /\ (In t seen \/ t = "").
Proof.
  intros (_ & Hc & Hp) Hq Hpo He. rewrite Hq in *.
  induction 1 as [|n t i Hs IH Hi]; intros Hn.
  - split; [exact Hpo|]. destruct Hp as [[] | Hp]. left. exact Hp.
  - destruct IH as [_ [Ht | ->]]; [lia| |cbn in Hi; lia].
    pose proof (shrinks_length _ _ _ Hs) as Hl.
    destruct (Z.le_gt_cases 2 (strlen t)) as [H2 | H1].
    + destruct (Hc t Ht) with (i := i) as [H3 [[] | H4]]; auto.
      unfold dist_of, strlen. lia.
    + unfold strlen in H1.
      assert (E : str_remove i t = "").
      { destruct t as [|c [|c' t']]; cbn in *; try lia.
        destruct i; [reflexivity | lia]. }
      rewrite E. split; [|right; reflexivity]. apply He. unfold strlen. lia.
Qed.

(** *** How many queue slots a run can take *)

Lemma queue_need_pos L k : 0 <= L -> 1 <= queue_need L k.
Proof. intros HL. induction k as [|k IH]; cbn [queue_need]; nia. Qed.

Lemma costs_nonneg L D l :
  0 <= L -> 0 <= fold_right (fun q acc => item_cost L D q + acc) 0 l.
Proof.
  intros HL. induction l as [|q l IH]; [cbn [fold_right]; lia|].
  change (0 <= item_cost L D q + fold_right (fun q acc => item_cost L D q + acc) 0 l).
  pose proof (queue_need_pos L (Z.to_nat (D - item_distance q)) HL).
  unfold item_cost at 1. lia.
Qed.

Lemma costs_app L D l q :
  fold_right (fun q acc => item_cost L D q + acc) 0 (l ++ [q]) =
  fold_right (fun q acc => item_cost L D q + acc) 0 l + item_cost L D q.
Proof. induction l as [|x l IH]; cbn [fold_right app]; lia. Qed.

Lemma str_remove_le i : forall s,
  (String.length (str_remove i s) <= String.length s)%nat.
Proof.
  induction i as [|i IH]; intros [|c s]; cbn; try lia. specialize (IH s). lia.
Qed.

Lemma delete_step_budget L D md current st i :
  0 <= L -> 0 <= item_distance current < D -> strlen (str current) <= L ->
  (forall q, In q (pending st) -> 0 <= item_distance q <= D /\ strlen (str q) <= L) ->
  budget L D (delete_step md current st i) <=
    budget L D st + queue_need L (Z.to_nat (D - (item_distance current + 1))) /\
  (forall q, In q (pending (delete_step md current st i)) ->
     0 <= item_distance q <= D /\ strlen (str q) <= L).
Proof.
  intros HL Hd Hlen Hq.
  pose proof (queue_need_pos L (Z.to_nat (D - (item_distance current + 1))) HL) as Hw.
  assert (He : pending (emit md (str_remove i (str current)) st) = pending st /\
               queue_end (emit md (str_remove i (str current)) st) = queue_end st).
  { unfold emit. destruct (ht_find _ _); [auto|]. destruct (_ <? _); auto. }
  destruct He as [Ep Eq]. unfold delete_step, budget.
  destruct (_ <? DELETE_QUEUE_CAPACITY); [|rewrite Ep, Eq; split; [lia | assumption]].
  destruct (existsb _ _); [rewrite Ep, Eq; split; [lia | assumption]|].
  cbn [pending queue_end]. rewrite Ep, Eq, costs_app. split.
  - unfold item_cost at 2. cbn [item_distance]. lia.
  - intros q H. apply in_app_or in H as [H | [<- | []]]; [auto|].
    cbn [item_distance str]. split; [lia|].
    pose proof (str_remove_le i (str current)). unfold strlen in *. lia.
Qed.

Lemma fold_delete_step_budget L D md current k : forall st,
  0 <= L -> 0 <= item_distance current < D -> strlen (str current) <= L ->
  (forall q, In q (pending st) -> 0 <= item_distance q <= D /\ strlen (str q) <= L) ->
  let st' := fold_left (delete_step md current) (seq 0 k) st in
  budget L D st' <=
    budget L D st
    + Z.of_nat k * queue_need L (Z.to_nat (D - (item_distance current + 1))) /\
  (forall q, In q (pending st') -> 0 <= item_distance q <= D /\ strlen (str q) <= L).
Proof.
  intros st HL Hd Hlen Hq. induction k as [|k IH]; cbv zeta.
  - cbn [seq fold_left]. split; [lia | assumption].
  - rewrite seq_S, fold_left_app. cbn [fold_left Nat.add].
    destruct IH as [IH1 IH2].
    destruct (delete_step_budget L D md current
                (fold_left (delete_step md current) (seq 0 k) st) k HL Hd Hlen IH2)
      as [H1 H2].
    split; [lia | assumption].
Qed.

Lemma deletes_loop_budget L fuel D md : forall st,
  0 <= L -> within_budget L D st ->
  within_budget L D (deletes_loop fuel D md st).
Proof.
  induction fuel as [|fuel IH]; intros st HL H; [exact H|].
  cbn [deletes_loop]. destruct (pending st) as [|current rest] eqn:Ep; [exact H|].
  destruct (delete_count st <? md); [|exact H].
  destruct H as [Hb Hq]. rewrite Ep in Hq.
  unfold budget in Hb. rewrite Ep in Hb. cbn [fold_right] in Hb.
  set (st1 := {| deletes_out := deletes_out st; uniq_set := uniq_set st;
                 pending := rest; queue_end := queue_end st |}).
  assert (Hq1 : forall q, In q (pending st1) ->
                0 <= item_distance q <= D /\ strlen (str q) <= L)
    by (intros q Hin; apply Hq; right; exact Hin).
  destruct (Hq current (or_introl eq_refl)) as [Hdc Hlc].
  pose proof (queue_need_pos L (Z.to_nat (D - item_distance current)) HL) as Hpos.
  destruct (_ || _) eqn:E.
  - apply IH; [assumption|]. split; [|exact Hq1].
    unfold budget. cbn [pending queue_end st1]. unfold item_cost at 1 in Hb. lia.
  - apply orb_false_elim in E as [E1 _].
    rewrite Z.geb_leb in E1. apply Z.leb_gt in E1.
    apply IH; [assumption|].
    destruct (fold_delete_step_budget L D md current
                (Z.to_nat (strlen (str current))) st1 HL ltac:(lia) Hlc Hq1)
      as [H1 H2].
    split; [|exact H2].
    eapply Z.le_trans; [exact H1|].
    unfold budget at 1. cbn [pending queue_end st1].
    unfold item_cost at 1 in Hb.
    replace (Z.to_nat (D - item_distance current))
      with (S (Z.to_nat (D - (item_distance current + 1)))) in Hb by lia.
    cbn [queue_need] in Hb.
    pose proof (queue_need_pos L (Z.to_nat (D - (item_distance current + 1))) HL).
    pose proof (strlen_nonneg (str current)).
    rewrite Z2Nat.id by assumption.
    assert (strlen (str current)
              * queue_need L (Z.to_nat (D - (item_distance current + 1)))
            <= L * queue_need L (Z.to_nat (D - (item_distance current + 1))))
      by (apply Z.mul_le_mono_nonneg_r; lia).
    lia.
Qed.

Lemma deletes_start_out md p D :
  delete_count (deletes_start md p D) < md ->
  In p (deletes_out (deletes_start md p D)) /\
  (strlen p <= D -> In "" (deletes_out (deletes_start md p D))).
Proof.
  unfold deletes_start. cbv zeta. unfold delete_count at 1. cbn [deletes_out].
  set (e1 := if (strlen p <=? D) && (delete_count empty_state <? md)
             then emit md "" empty_state else empty_state).
  assert (Hu1 : uniq_ok e1).
  { unfold e1. destruct (_ && _); [apply emit_uniq|]; apply uniq_empty_state. }
  assert (H0 : 0 <= delete_count e1) by (unfold delete_count; lia).
  destruct (delete_count e1 <? md) eqn:E; [|apply Z.ltb_ge in E; unfold delete_count in *; lia].
  intros Hc. destruct (emit_in md p e1 Hu1 Hc) as [Hp Hsub].
  split; [exact Hp|]. intros Hle. apply Hsub.
  apply Z.ltb_lt in E.
  assert (E1 : e1 = emit md "" empty_state).
  { unfold e1. apply Z.leb_le in Hle. rewrite Hle.
    assert (E0 : (delete_count empty_state <? md) = true)
      by (apply Z.ltb_lt; change (delete_count empty_state) with 0; lia).
    rewrite E0. reflexivity. }
  rewrite E1 in E |- *.
  destruct (emit_in md "" empty_state uniq_empty_state E) as [H _]. exact H.
Qed.

Lemma deletes_loop_complete_from fuel D md p st3 :
  0 <= D -> DELETE_QUEUE_CAPACITY <= Z.of_nat fuel ->
  queue_need (strlen p) (Z.to_nat D) < DELETE_QUEUE_CAPACITY ->
  pending st3 = [ {| str := p; item_distance := 0 |} ] -> queue_end st3 = 1 ->
  uniq_ok st3 ->
  (delete_count st3 < md ->
   In p (deletes_out st3) /\ (strlen p <= D -> In "" (deletes_out st3))) ->
  delete_count (deletes_loop fuel D md st3) < md ->
  forall n t, shrinks p n t -> Z.of_nat n <= D ->
    In t (deletes_out (deletes_loop fuel D md st3)).
Proof.
  intros HD Hfuel Hneed Ep Eq Hu3 Hstart Hcount n t Hs Hn.
  destruct (deletes_loop_mono fuel D md st3) as [Hm3 _].
  destruct (Hstart ltac:(lia)) as [Hp3 He3].
  assert (Hb : within_budget (strlen p) D (deletes_loop fuel D md st3)).
  { apply deletes_loop_budget; [apply strlen_nonneg|]. split.
    - unfold budget, item_cost. rewrite Ep, Eq. cbn [fold_right item_distance].
      rewrite Z.sub_0_r. lia.
    - intros q. rewrite Ep. intros [<- | []]. cbn [item_distance str]. lia. }
  destruct Hb as [Hb _]. unfold budget in Hb.
  pose proof (costs_nonneg (strlen p) D
                (pending (deletes_loop fuel D md st3)) (strlen_nonneg p)) as Hc.
  assert (Hnt : no_trunc md (deletes_loop fuel D md st3)) by (split; lia).
  assert (Hcl3 : closed p D st3 []).
  { split; [|split].
    - intros q. rewrite Ep. intros [<- | []]. cbn [item_distance str]. unfold dist_of. lia.
    - intros t' [].
    - left. rewrite Ep. left. reflexivity. }
  destruct (deletes_loop_closed p fuel D md st3 [] Hu3 Hcl3 Hnt) as [seen Hcl].
  assert (Hend : pending (deletes_loop fuel D md st3) = []).
  { destruct (deletes_loop_ends fuel D md st3) as [H | H]; [| |exact H|lia].
    - unfold queue_ok, DELETE_QUEUE_CAPACITY. rewrite Eq. lia.
    - unfold taken. rewrite Ep, Eq. cbn [length]. lia. }
  destruct (deletes_loop_grows fuel D md st3) as [Hg _].
  destruct (closed_complete p D _ seen Hcl Hend) with (n := n) (t := t) as [H _]; auto.
Qed.

Lemma deletes_loop_complete fuel D md p n t :
  0 <= D -> DELETE_QUEUE_CAPACITY <= Z.of_nat fuel ->
  queue_need (strlen p) (Z.to_nat D) < DELETE_QUEUE_CAPACITY ->
  Z.of_nat (length (deletes_out (deletes_loop fuel D md (deletes_start md p D)))) < md ->
  shrinks p n t -> Z.of_nat n <= D ->
  In t (deletes_out (deletes_loop fuel D md (deletes_start md p D))).
Proof.
  intros HD Hfuel Hneed Hcount Hs Hn.
  apply (deletes_loop_complete_from fuel D md p (deletes_start md p D) HD Hfuel Hneed
           eq_refl eq_refl (proj1 (deletes_start_uniq md p D))
           (deletes_start_out md p D) Hcount n t Hs Hn).
Qed.

(** X11: With room left in both buffers, the enumerator emits every string
    that is the prefix with at most [max_distance] of its bytes removed.
    The queue has room when [1 + L + ... + L^max_distance] stays below its
    capacity, [L] being the length of the prefix; the output buffer had
    room when fewer than [max_deletes] variants were returned. *)
Theorem deletes_are_complete word D P max_deletes n t :
  word <> "" -> 0 <= D ->
  queue_need (strlen (delete_prefix word P)) (Z.to_nat D) < DELETE_QUEUE_CAPACITY ->
  Z.of_nat (length (_generate_all_deletes_reuse word D P max_deletes)) < max_deletes ->
  shrinks (delete_prefix word P) n t -> Z.of_nat n <= D ->
  In t (_generate_all_deletes_reuse word D P max_deletes).
Proof.
  intros Hw HD Hneed. rewrite generate_all_deletes_start.
  destruct (strlen word =? 0) eqn:E0.
  { apply Z.eqb_eq, strlen_0 in E0. contradiction. }
  apply deletes_loop_complete; [exact HD| |exact Hneed].
  rewrite Z2Nat.id; unfold DELETE_QUEUE_CAPACITY; lia.
Qed.

(** ** The distance matrix *)

Lemma cell_app_l r x j :
  0 <= j < Z.of_nat (length r) -> cell (r ++ [x]) j = cell r j.
Proof. intros H. unfold cell. apply app_nth1. lia. Qed.

Lemma cell_app_last r x : cell (r ++ [x]) (Z.of_nat (length r)) = x.
Proof. unfold cell. rewrite Nat2Z.id. apply nth_middle. Qed.

Lemma edit_cell_ext s1 s2 i j p2 p c c' :
  cell c (j - 1) = cell c' (j - 1) ->
  edit_cell s1 s2 i j p2 p c = edit_cell s1 s2 i j p2 p c'.
Proof. intros H. unfold edit_cell. rewrite H. reflexivity. Qed.

(** The row the inner loops fill: its first cell is [i], every other cell
    is computed from the two rows above and the cell to its left. *)
Lemma edit_row_spec s1 s2 i p2 p :
  let r := edit_row s1 s2 i p2 p in
  length r = S (String.length s2) /\ cell r 0 = i /\
  forall j, 1 <= j <= strlen s2 -> cell r j = edit_cell s1 s2 i j p2 p r.
Proof.
  unfold edit_row, strlen. generalize (String.length s2) as m.
  induction m as [|m IH]; cbv zeta.
  - cbn. split; [reflexivity|]. split; [reflexivity|]. intros j Hj. lia.
  - rewrite seqZ_S, fold_left_app. cbn [fold_left].
    set (r := fold_left _ (seqZ 1 (Z.of_nat m)) [i]) in *.
    destruct IH as (Hl & H0 & Hc).
    split; [rewrite length_app, Hl; cbn; lia|].
    split; [rewrite cell_app_l by lia; exact H0|].
    intros j Hj. destruct (Z.eq_dec j (Z.of_nat (S m))) as [-> | Hne].
    + replace (Z.of_nat (S m)) with (Z.of_nat (length r)) at 1 by lia.
      rewrite cell_app_last. replace (1 + Z.of_nat m) with (Z.of_nat (S m)) by lia.
      apply edit_cell_ext. rewrite cell_app_l by lia. reflexivity.
    + rewrite cell_app_l by lia. rewrite Hc by lia.
      apply edit_cell_ext. rewrite cell_app_l by lia. reflexivity.
Qed.

Lemma str_take_S_eq k : forall a b,
  (k < String.length a)%nat -> (k < String.length b)%nat ->
  (str_take (S k) a = str_take (S k) b <->
   str_take k a = str_take k b /\ String.get k a = String.get k b).
Proof.
  induction k as [|k IH]; intros [|x a] [|y b] Ha Hb; cbn in Ha, Hb; try lia.
  - cbn. split; [intros [= ->]; auto | intros [_ [= ->]]; reflexivity].
  - cbn [str_take String.get]. specialize (IH a b ltac:(lia) ltac:(lia)).
    split.
    + intros [= -> H]. apply IH in H as [H1 H2]. rewrite H1. auto.
    + intros [[= -> H1] H2]. f_equal. apply IH. auto.
Qed.

Lemma char_at_eq a b k :
  (k < String.length a)%nat -> (k < String.length b)%nat ->
  (Ascii.eqb (char_at a (Z.of_nat k)) (char_at b (Z.of_nat k)) = true <->
   String.get k a = String.get k b).
Proof.
  intros Ha Hb. unfold char_at. rewrite Nat2Z.id.
  revert a b Ha Hb. induction k as [|k IH]; intros [|x a] [|y b] Ha Hb;
    cbn in Ha, Hb; try lia; cbn [String.get].
  - cbn. rewrite Ascii.eqb_eq. split; [intros ->; reflexivity | intros [= ->]; reflexivity].
  - apply IH; lia.
Qed.

Lemma row_ok_first a b : row_ok a b 0 (seqZ 0 (strlen b + 1)).
Proof.
  unfold row_ok, strlen. split; [rewrite length_seqZ; lia|].
  assert (Hc : forall j, 0 <= j <= Z.of_nat (String.length b) ->
                 cell (seqZ 0 (Z.of_nat (String.length b) + 1)) j = j).
  { intros j Hj. unfold cell.
    pose proof (lookup_seqZ_lt 0 (Z.of_nat (String.length b) + 1) (Z.to_nat j)) as H.
    rewrite Z2Nat.id in H by lia. specialize (H ltac:(lia)).
    apply nth_lookup_Some with (d := 0) in H. rewrite H. lia. }
  split.
  - intros j Hj. rewrite Hc by lia. lia.
  - intros _. rewrite Hc by lia. cbn. tauto.
Qed.

Lemma edit_row_ok a b i p2 p :
  1 <= i <= strlen a ->
  row_ok a b (i - 1) p -> (2 <= i -> row_ok a b (i - 2) p2) ->
  row_ok a b i (edit_row a b i p2 p).
Proof.
  intros Hi (_ & Hp & Hpz) Hp2.
  destruct (edit_row_spec a b i p2 p) as (Hl & H0 & Hc).
  set (r := edit_row a b i p2 p) in *.
  assert (Hcell : forall j, 1 <= j <= strlen b ->
            Z.abs (i - (j - 1)) <= cell r (j - 1) ->
            Z.abs (i - j) <= cell r j /\
            (j = i ->
             (cell r j = 0 <->
              cell p (j - 1) = 0 /\
              Ascii.eqb (char_at a (i - 1)) (char_at b (j - 1)) = true))).
  { intros j Hj Hleft. rewrite (Hc j Hj). unfold edit_cell.
    pose proof (Hp j ltac:(lia)) as B1.
    pose proof (Hp (j - 1) ltac:(lia)) as B2.
    replace (i - 1 - (j - 1)) with (i - j) in B2 by lia.
    assert (B3 : (i >? 1) = true -> (j >? 1) = true ->
                 Z.abs (i - j) <= cell p2 (j - 2)).
    { intros E1 E2. apply Z.gtb_lt in E1, E2.
      destruct (Hp2 ltac:(lia)) as (_ & H2 & _).
      specialize (H2 (j - 2) ltac:(lia)). replace (i - 2 - (j - 2)) with (i - j) in H2 by lia.
      exact H2. }
    destruct (Ascii.eqb (char_at a (i - 1)) (char_at b (j - 1))) eqn:Ec;
    destruct (cell p j + 1 <? cell r (j - 1) + 1) eqn:E1;
    match goal with |- context [?x <? ?y] =>
      match x with context [cell p (j - 1)] => destruct (x <? y) eqn:E2 end end;
    (destruct (i >? 1) eqn:Ei; cbn [andb];
     [destruct (j >? 1) eqn:Ej; cbn [andb];
      [specialize (B3 eq_refl eq_refl);
       destruct (Ascii.eqb (char_at a (i - 1)) (char_at b (j - 2))); cbn [andb];
       [destruct (Ascii.eqb (char_at a (i - 2)) (char_at b (j - 1)));
        [match goal with |- context [if ?x <? ?y then _ else _] =>
           destruct (x <? y) eqn:E3 end|]|]|]|]);
    rewrite ?Z.ltb_lt, ?Z.ltb_ge in *;
    (split; [lia | intros ->; split; [intros H; split; [lia | reflexivity || lia]
                                     | intros [H1 H2]; try discriminate; lia]]). }
  assert (Hb : forall n : nat, Z.of_nat n <= strlen b ->
                 Z.abs (i - Z.of_nat n) <= cell r (Z.of_nat n)).
  { induction n as [|n IH]; intros Hn; [change (Z.of_nat 0) with 0; rewrite H0; lia|].
    destruct (Hcell (Z.of_nat (S n)) ltac:(lia)) as [H _]; [|exact H].
    replace (Z.of_nat (S n) - 1) with (Z.of_nat n) by lia. apply IH. lia. }
  split; [exact Hl|]. split.
  - intros j Hj. specialize (Hb (Z.to_nat j)). rewrite Z2Nat.id in Hb by lia.
    apply Hb. lia.
  - intros Hib.
    destruct (Hcell i ltac:(lia)) as [_ Hz].
    { specialize (Hb (Z.to_nat (i - 1))). rewrite Z2Nat.id in Hb by lia.
      apply Hb. lia. }
    rewrite (Hz eq_refl). rewrite (Hpz ltac:(lia)).
    unfold strlen in *.
    replace (Z.to_nat i) with (S (Z.to_nat (i - 1))) by lia.
    rewrite str_take_S_eq by lia.
    pose proof (char_at_eq a b (Z.to_nat (i - 1)) ltac:(lia) ltac:(lia)) as Hch.
    rewrite Z2Nat.id in Hch by lia. rewrite Hch. tauto.
Qed.

Lemma fold_min_le l : forall m0,
  let m := fold_left (fun m x => if x <? m then x else m) l m0 in
  m <= m0 /\ forall y, In y l -> m <= y.
Proof.
  induction l as [|x l IH]; intros m0; cbv zeta; cbn [fold_left].
  - split; [lia | intros y []].
  - destruct (IH (if x <? m0 then x else m0)) as [H1 H2].
    destruct (x <? m0) eqn:E; [apply Z.ltb_lt in E | apply Z.ltb_ge in E];
      (split; [lia | intros y [<- | Hy]; [lia | auto]]).
Qed.

Lemma min_in_row_le r j :
  0 <= j < Z.of_nat (length r) -> min_in_row r <= cell r j.
Proof.
  intros Hj. unfold min_in_row. destruct r as [|x r]; [cbn in Hj; lia|].
  cbn [tl]. destruct (fold_min_le r (cell (x :: r) 0)) as [H1 H2].
  destruct (Z.eq_dec j 0) as [-> | Hne]; [exact H1|].
  apply H2. unfold cell. replace (Z.to_nat j) with (S (Z.to_nat (j - 1))) by lia.
  cbn [nth]. apply nth_In. cbn [length] in Hj. lia.
Qed.

Lemma edit_rows_ok a b D k : forall i0 p2 p,
  1 <= i0 -> i0 + Z.of_nat k - 1 <= strlen a ->
  row_ok a b (i0 - 1) p -> (2 <= i0 -> row_ok a b (i0 - 2) p2) ->
  match edit_rows a b D (seqZ i0 (Z.of_nat k)) p2 p with
  | Some last => row_ok a b (i0 + Z.of_nat k - 1) last
  | None => True
  end.
Proof.
  induction k as [|k IH]; intros i0 p2 p Hi Hk Hp Hp2.
  - rewrite seqZ_nil by lia. cbn [edit_rows].
    replace (i0 + Z.of_nat 0 - 1) with (i0 - 1) by lia. exact Hp.
  - rewrite seqZ_cons by lia. cbn [edit_rows].
    replace (Z.pred (Z.of_nat (S k))) with (Z.of_nat k) by lia.
    destruct (_ >? D); [exact I|].
    replace (i0 + Z.of_nat (S k) - 1) with (Z.succ i0 + Z.of_nat k - 1) by lia.
    apply IH; try lia.
    + replace (Z.succ i0 - 1) with i0 by lia. apply edit_row_ok; [lia | exact Hp | exact Hp2].
    + intros _. replace (Z.succ i0 - 2) with (i0 - 1) by lia. exact Hp.
Qed.

Lemma edit_rows_same a D k : forall i0 p2 p,
  0 <= D -> 1 <= i0 -> i0 + Z.of_nat k - 1 <= strlen a ->
  row_ok a a (i0 - 1) p -> (2 <= i0 -> row_ok a a (i0 - 2) p2) ->
  exists last, edit_rows a a D (seqZ i0 (Z.of_nat k)) p2 p = Some last.
Proof.
  induction k as [|k IH]; intros i0 p2 p HD Hi Hk Hp Hp2.
  - rewrite seqZ_nil by lia. cbn [edit_rows]. eauto.
  - rewrite seqZ_cons by lia. cbn [edit_rows].
    replace (Z.pred (Z.of_nat (S k))) with (Z.of_nat k) by lia.
    pose proof (edit_row_ok a a i0 p2 p ltac:(lia) Hp Hp2) as Hr.
    destruct Hr as (Hl & Hb & Hz).
    assert (Hm : min_in_row (edit_row a a i0 p2 p) <= 0).
    { rewrite <- (proj2 (Hz ltac:(lia)) eq_refl).
      apply min_in_row_le. rewrite Hl. unfold strlen in *. lia. }
    replace (min_in_row (edit_row a a i0 p2 p) >? D) with false
      by (symmetry; rewrite Z.gtb_ltb; apply Z.ltb_ge; lia).
    apply IH; try lia.
    + replace (Z.succ i0 - 1) with i0 by lia. exact (conj Hl (conj Hb Hz)).
    + intros _. replace (Z.succ i0 - 2) with (i0 - 1) by lia. exact Hp.
Qed.

(** X12: [edit_distance] is never negative for a non-negative bound, and it is
    0 exactly when the two strings are equal (strings below the 128-byte
    limit; longer ones always give [max_distance + 1]). *)
Theorem edit_distance_zero_iff_equal a b D :
  0 <= D ->
  strlen a < SYMSPELL_MAX_TERM_LENGTH -> strlen b < SYMSPELL_MAX_TERM_LENGTH ->
  0 <= edit_distance a b D /\ (edit_distance a b D = 0 <-> a = b).
Proof.
  intros HD Ha Hb. unfold edit_distance.
  replace (strlen a >=? SYMSPELL_MAX_TERM_LENGTH) with false
    by (symmetry; rewrite Z.geb_leb; apply Z.leb_gt; lia).
  replace (strlen b >=? SYMSPELL_MAX_TERM_LENGTH) with false
    by (symmetry; rewrite Z.geb_leb; apply Z.leb_gt; lia).
  cbn [orb].
  pose proof (strlen_nonneg a) as Na. pose proof (strlen_nonneg b) as Nb.
  pose proof (edit_rows_ok a b D (String.length a) 1 [] (seqZ 0 (strlen b + 1))
                ltac:(lia) ltac:(unfold strlen; lia) (row_ok_first a b)
                ltac:(intros; lia)) as Hrows.
  fold (strlen a) in Hrows.
  destruct (Z.abs (strlen a - strlen b) >? D) eqn:El.
  - apply Z.gtb_lt in El. split; [lia|]. split; [lia|].
    intros ->. lia.
  - rewrite Z.gtb_ltb in El. apply Z.ltb_ge in El.
    destruct (edit_rows a b D (seqZ 1 (strlen a)) [] (seqZ 0 (strlen b + 1)))
      as [last|] eqn:Er.
    + replace (1 + strlen a - 1) with (strlen a) in Hrows by lia.
      destruct Hrows as (Hl & Hbound & Hz).
      pose proof (Hbound (strlen b) ltac:(lia)) as Hlb.
      split; [lia|]. split.
      * intros H0. rewrite H0 in Hlb.
        assert (Heq : strlen a = strlen b) by lia.
        rewrite <- Heq in H0. apply Hz in H0; [|lia].
        unfold strlen in *.
        rewrite Nat2Z.id in H0.
        rewrite (str_take_all _ a) in H0 by lia.
        rewrite (str_take_all _ b) in H0 by lia. exact H0.
      * intros ->. apply Hz; [lia | reflexivity].
    + split; [lia|]. split; [lia|]. intros ->.
      destruct (edit_rows_same b D (String.length b) 1 [] (seqZ 0 (strlen b + 1))
                  HD ltac:(lia) ltac:(unfold strlen; lia) (row_ok_first b b)
                  ltac:(intros; lia)) as [last H].
      fold (strlen b) in H. congruence.
Qed.

(** ** [edit_distance] against edit scripts *)

Lemma aligned_bound a b i j n :
  aligned a b i j n ->
  (i <= String.length a)%nat /\ (j <= String.length b)%nat /\
  Z.abs (Z.of_nat i - Z.of_nat j) <= n.
Proof. induction 1; lia. Qed.

Lemma aligned_deletes a b i :
  (i <= String.length a)%nat -> aligned a b i 0 (Z.of_nat i).
Proof.
  induction i as [|i IH]; intros H; [constructor|].
  replace (Z.of_nat (S i)) with (Z.of_nat i + 1) by lia.
  apply al_delete; [apply IH; lia | lia].
Qed.

Lemma aligned_inserts a b j :
  (j <= String.length b)%nat -> aligned a b 0 j (Z.of_nat j).
Proof.
  induction j as [|j IH]; intros H; [constructor|].
  replace (Z.of_nat (S j)) with (Z.of_nat j + 1) by lia.
  apply al_insert; [apply IH; lia | lia].
Qed.

(** An alignment that reaches the row [i'] has passed every row above it,
    or jumped over it by an exchange, at no greater cost. *)
Lemma aligned_through_row a b i' j' n :
  aligned a b i' j' n ->
  forall i, (i <= i')%nat -> exists j m, aligned a b i j m /\ m <= n.
Proof.
  induction 1 as [|i' j' n H IH Hi|i' j' n H IH Hj|i' j' n H IH Hi Hj E
                  |i' j' n H IH Hi Hj|i' j' n H IH Hi Hj E1 E2]; intros i Hle.
  - replace i with 0%nat by lia. exists 0%nat, 0. split; [constructor | lia].
  - destruct (Nat.eq_dec i (S i')) as [-> | Hne].
    + exists j', (n + 1). split; [apply al_delete; assumption | lia].
    + destruct (IH i ltac:(lia)) as (j & m & Hm & Hmn). exists j, m. split; [exact Hm | lia].
  - destruct (IH i Hle) as (j & m & Hm & Hmn). exists j, m. split; [exact Hm | lia].
  - destruct (Nat.eq_dec i (S i')) as [-> | Hne].
    + exists (S j'), n. split; [apply al_keep; assumption | lia].
    + destruct (IH i ltac:(lia)) as (j & m & Hm & Hmn). exists j, m. split; [exact Hm | lia].
  - destruct (Nat.eq_dec i (S i')) as [-> | Hne].
    + exists (S j'), (n + 1). split; [apply al_subst; assumption | lia].
    + destruct (IH i ltac:(lia)) as (j & m & Hm & Hmn). exists j, m. split; [exact Hm | lia].
  - destruct (Nat.eq_dec i (S (S i'))) as [-> | Hne].
    + exists (S (S j')), (n + 1). split; [apply al_swap; assumption | lia].
    + destruct (Nat.eq_dec i (S i')) as [-> | Hne'].
      * exists j', (n + 1). split; [apply al_delete; [assumption | lia] | lia].
      * destruct (IH i ltac:(lia)) as (j & m & Hm & Hmn). exists j, m. split; [exact Hm | lia].
Qed.

Lemma get_char_at s k :
  (k < String.length s)%nat -> String.get k s = Some (char_at s (Z.of_nat k)).
Proof.
  unfold char_at. rewrite Nat2Z.id. revert s.
  induction k as [|k IH]; intros [|c s] H; cbn in H; try lia; cbn [String.get].
  - reflexivity.
  - apply IH. lia.
Qed.

Lemma char_test a b ka kb :
  (ka < String.length a)%nat -> (kb < String.length b)%nat ->
  (Ascii.eqb (char_at a (Z.of_nat ka)) (char_at b (Z.of_nat kb)) = true <->
   String.get ka a = String.get kb b).
Proof.
  intros Ha Hb. rewrite (get_char_at a ka Ha), (get_char_at b kb Hb), Ascii.eqb_eq.
  split; [intros ->; reflexivity | intros [= ->]; reflexivity].
Qed.

(** [d[i][j]] is the least of the costs the loop body compares. *)
Lemma edit_cell_min s1 s2 i j p2 p c :
  let v := edit_cell s1 s2 i j p2 p c in
  let cost := if Ascii.eqb (char_at s1 (i - 1)) (char_at s2 (j - 1)) then 0 else 1 in
  let swap := (i >? 1) && (j >? 1)
              && Ascii.eqb (char_at s1 (i - 1)) (char_at s2 (j - 2))
              && Ascii.eqb (char_at s1 (i - 2)) (char_at s2 (j - 1)) in
  v <= cell p j + 1 /\ v <= cell c (j - 1) + 1 /\ v <= cell p (j - 1) + cost /\
  (swap = true -> v <= cell p2 (j - 2) + 1) /\
  (v = cell p j + 1 \/ v = cell c (j - 1) + 1 \/ v = cell p (j - 1) + cost \/
   (swap = true /\ v = cell p2 (j - 2) + 1)).
Proof.
  cbv zeta. unfold edit_cell.
  set (cost := if Ascii.eqb (char_at s1 (i - 1)) (char_at s2 (j - 1)) then 0 else 1).
  set (swap := (i >? 1) && (j >? 1)
               && Ascii.eqb (char_at s1 (i - 1)) (char_at s2 (j - 2))
               && Ascii.eqb (char_at s1 (i - 2)) (char_at s2 (j - 1))).
  destruct (cell p j + 1 <? cell c (j - 1) + 1) eqn:E1;
    [apply Z.ltb_lt in E1 | apply Z.ltb_ge in E1].
  - destruct (cell p (j - 1) + cost <? cell p j + 1) eqn:E2;
      [apply Z.ltb_lt in E2 | apply Z.ltb_ge in E2];
      (destruct swap; [match goal with |- context [if ?x <? ?y then _ else _] =>
                         destruct (x <? y) eqn:E3;
                         [apply Z.ltb_lt in E3 | apply Z.ltb_ge in E3] end|]);
      repeat split; try lia; try discriminate; tauto || (intros _; lia).
  - destruct (cell p (j - 1) + cost <? cell c (j - 1) + 1) eqn:E2;
      [apply Z.ltb_lt in E2 | apply Z.ltb_ge in E2];
      (destruct swap; [match goal with |- context [if ?x <? ?y then _ else _] =>
                         destruct (x <? y) eqn:E3;
                         [apply Z.ltb_lt in E3 | apply Z.ltb_ge in E3] end|]);
      repeat split; try lia; try discriminate; tauto || (intros _; lia).
Qed.

Lemma cell_first_row b j :
  0 <= j <= strlen b -> cell (seqZ 0 (strlen b + 1)) j = j.
Proof.
  intros Hj. unfold cell.
  pose proof (lookup_seqZ_lt 0 (strlen b + 1) (Z.to_nat j)) as H.
  rewrite Z2Nat.id in H by lia. specialize (H ltac:(lia)).
  apply nth_lookup_Some with (d := 0) in H. rewrite H. lia.
Qed.

Lemma row_min_first a b : row_min a b 0 (seqZ 0 (strlen b + 1)).
Proof.
  split; [rewrite length_seqZ; unfold strlen; lia|].
  intros j Hj. rewrite cell_first_row by (unfold strlen; lia). split.
  - apply aligned_inserts. exact Hj.
  - intros n Hn. apply aligned_bound in Hn. lia.
Qed.

Lemma edit_row_min a b (i : nat) p2 p :
  (i < String.length a)%nat ->
  row_min a b i p -> ((1 <= i)%nat -> row_min a b (i - 1) p2) ->
  row_min a b (S i) (edit_row a b (Z.of_nat (S i)) p2 p).
Proof.
  intros Hi [Hpl Hp] Hp2.
  destruct (edit_row_spec a b (Z.of_nat (S i)) p2 p) as (Hl & H0 & Hc).
  set (r := edit_row a b (Z.of_nat (S i)) p2 p) in *.
  split; [exact Hl|].
  induction j as [|j IH]; intros Hj.
  - change (Z.of_nat 0) with 0. rewrite H0. split.
    + apply aligned_deletes. lia.
    + intros n Hn. apply aligned_bound in Hn. lia.
  - destruct (IH ltac:(lia)) as [Hleft Hleft_min].
    destruct (Hp (S j) Hj) as [Hup Hup_min].
    destruct (Hp j ltac:(lia)) as [Hdiag Hdiag_min].
    rewrite (Hc (Z.of_nat (S j))) by (unfold strlen; lia).
    pose proof (edit_cell_min a b (Z.of_nat (S i)) (Z.of_nat (S j)) p2 p r) as Hm.
    cbv zeta in Hm.
    replace (Z.of_nat (S j) - 1) with (Z.of_nat j) in Hm by lia.
    replace (Z.of_nat (S i) - 1) with (Z.of_nat i) in Hm by lia.
    pose proof (char_test a b i j Hi ltac:(lia)) as Hch.
    set (v := edit_cell a b (Z.of_nat (S i)) (Z.of_nat (S j)) p2 p r) in *.
    set (swap := (Z.of_nat (S i) >? 1) && (Z.of_nat (S j) >? 1)
                 && Ascii.eqb (char_at a (Z.of_nat i)) (char_at b (Z.of_nat (S j) - 2))
                 && Ascii.eqb (char_at a (Z.of_nat (S i) - 2)) (char_at b (Z.of_nat j)))
      in *.
    (* the exchange, read on the two strings *)
    assert (Hswap : swap = true <->
              exists i' j', i = S i' /\ j = S j' /\
                String.get i' a = String.get (S j') b /\
                String.get (S i') a = String.get j' b).
    { unfold swap.
      destruct i as [|i'].
      { change (Z.of_nat 1 >? 1) with false. cbn [andb].
        split; [discriminate | intros (? & ? & ? & _); lia]. }
      destruct j as [|j'].
      { change (Z.of_nat 1 >? 1) with false. rewrite andb_false_r. cbn [andb].
        split; [discriminate | intros (? & ? & ? & ? & _); lia]. }
      replace (Z.of_nat (S (S i')) >? 1) with true by (symmetry; apply Z.gtb_lt; lia).
      replace (Z.of_nat (S (S j')) >? 1) with true by (symmetry; apply Z.gtb_lt; lia).
      cbn [andb].
      replace (Z.of_nat (S (S j')) - 2) with (Z.of_nat j') by lia.
      replace (Z.of_nat (S (S i')) - 2) with (Z.of_nat i') by lia.
      rewrite andb_true_iff.
      rewrite (char_test a b (S i') j') by lia.
      rewrite (char_test a b i' (S j')) by lia.
      split.
      - intros [E1 E2]. exists i', j'. auto.
      - intros (i2 & j2 & [= <-] & [= <-] & E1 & E2). auto. }
    destruct Hm as (M1 & M2 & M3 & M4 & M5).
    split.
    + destruct M5 as [E | [E | [E | [Hs E]]]]; rewrite E.
      * apply al_delete; assumption.
      * apply al_insert; [exact Hleft | lia].
      * destruct (Ascii.eqb (char_at a (Z.of_nat i)) (char_at b (Z.of_nat j))) eqn:Ec.
        -- rewrite Z.add_0_r. apply al_keep; [exact Hdiag | lia | lia |].
           apply Hch. reflexivity.
        -- apply al_subst; [exact Hdiag | lia | lia].
      * apply Hswap in Hs as (i' & j' & -> & -> & E1 & E2).
        replace (Z.of_nat (S (S j')) - 2) with (Z.of_nat j') by lia.
        destruct (Hp2 ltac:(lia)) as [_ Hq]. replace (S i' - 1)%nat with i' in Hq by lia.
        destruct (Hq j' ltac:(lia)) as [Hq1 _].
        apply al_swap; [exact Hq1 | lia | lia | exact E1 | exact E2].
    + intros n Hn. inversion Hn as [|i0 j0 n0 H1 H2|i0 j0 n0 H1 H2|i0 j0 n0 H1 H2 H3 H4
                                    |i0 j0 n0 H1 H2 H3|i0 j0 n0 H1 H2 H3 H4 H5]; subst.
      * specialize (Hup_min _ H1). lia.
      * specialize (Hleft_min _ H1). lia.
      * specialize (Hdiag_min _ H1).
        apply Hch in H4. rewrite H4 in M3. lia.
      * specialize (Hdiag_min _ H1).
        destruct (Ascii.eqb (char_at a (Z.of_nat i)) (char_at b (Z.of_nat j))); lia.
      * assert (Hs : swap = true).
        { apply Hswap. exists i0, j0. auto. }
        specialize (M4 Hs).
        replace (Z.of_nat (S (S j0)) - 2) with (Z.of_nat j0) in M4 by lia.
        destruct (Hp2 ltac:(lia)) as [_ Hq]. replace (S i0 - 1)%nat with i0 in Hq by lia.
        destruct (Hq j0 ltac:(lia)) as [_ Hq2]. specialize (Hq2 _ H1). lia.
Qed.

Lemma edit_rows_min a b D k : forall (i : nat) p2 p,
  (i + k <= String.length a)%nat ->
  row_min a b i p -> ((1 <= i)%nat -> row_min a b (i - 1) p2) ->
  match edit_rows a b D (seqZ (Z.of_nat (S i)) (Z.of_nat k)) p2 p with
  | Some last => row_min a b (i + k) last
  | None =>
      exists i', (i' <= String.length a)%nat /\
        forall j n, aligned a b i' j n -> D < n
  end.
Proof.
  induction k as [|k IH]; intros i p2 p Hk Hp Hp2.
  - rewrite seqZ_nil by lia. cbn [edit_rows].
    replace (i + 0)%nat with i by lia. exact Hp.
  - rewrite seqZ_cons by lia. cbn [edit_rows].
    replace (Z.pred (Z.of_nat (S k))) with (Z.of_nat k) by lia.
    pose proof (edit_row_min a b i p2 p ltac:(lia) Hp Hp2) as Hcur.
    destruct (min_in_row (edit_row a b (Z.of_nat (S i)) p2 p) >? D) eqn:E.
    + apply Z.gtb_lt in E. exists (S i). split; [lia|].
      intros j n Hn. destruct Hcur as [Hl Hc].
      pose proof (aligned_bound _ _ _ _ _ Hn) as (_ & Hj & _).
      destruct (Hc j Hj) as [_ Hmin]. specialize (Hmin n Hn).
      pose proof (min_in_row_le (edit_row a b (Z.of_nat (S i)) p2 p) (Z.of_nat j)
                    ltac:(rewrite Hl; lia)).
      lia.
    + replace (Z.succ (Z.of_nat (S i))) with (Z.of_nat (S (S i))) by lia.
      replace (i + S k)%nat with (S i + k)%nat by lia.
      apply IH; [lia | exact Hcur|].
      intros _. replace (S i - 1)%nat with i by lia. exact Hp.
Qed.

(** X21: [edit_distance] against the edit scripts, for strings below the
    128-byte limit.  The result is a lower bound of the cost of every
    script of at most [max_distance] edits that turns [a] into [b], and
    when the result is at most [max_distance] some script has exactly that
    cost: up to [max_distance] the function returns the least number of
    removals, insertions, substitutions and exchanges of adjacent bytes,
    and it returns more than [max_distance] when no such script exists. *)
Theorem edit_distance_is_least_cost a b D :
  strlen a < SYMSPELL_MAX_TERM_LENGTH -> strlen b < SYMSPELL_MAX_TERM_LENGTH ->
  (forall n, aligned a b (String.length a) (String.length b) n -> n <= D ->
     edit_distance a b D <= n) /\
  (edit_distance a b D <= D ->
   aligned a b (String.length a) (String.length b) (edit_distance a b D)).
Proof.
  intros Ha Hb. unfold edit_distance.
  replace (strlen a >=? SYMSPELL_MAX_TERM_LENGTH) with false
    by (symmetry; rewrite Z.geb_leb; apply Z.leb_gt; lia).
  replace (strlen b >=? SYMSPELL_MAX_TERM_LENGTH) with false
    by (symmetry; rewrite Z.geb_leb; apply Z.leb_gt; lia).
  cbn [orb].
  pose proof (edit_rows_min a b D (String.length a) 0 [] (seqZ 0 (strlen b + 1))
                ltac:(lia) (row_min_first a b) ltac:(intros; lia)) as Hrows.
  change (Z.of_nat 1) with 1 in Hrows. fold (strlen a) in Hrows.
  destruct (Z.abs (strlen a - strlen b) >? D) eqn:El.
  - apply Z.gtb_lt in El. split; [|lia].
    intros n Hn Hle. apply aligned_bound in Hn. unfold strlen in El. lia.
  - destruct (edit_rows a b D (seqZ 1 (strlen a)) [] (seqZ 0 (strlen b + 1)))
      as [last|].
    + cbn [Nat.add] in Hrows. destruct Hrows as [_ Hc].
      destruct (Hc (String.length b) ltac:(lia)) as [Hr Hmin].
      fold (strlen b) in Hr, Hmin. split.
      * intros n Hn _. apply Hmin. exact Hn.
      * intros _. exact Hr.
    + destruct Hrows as (i & Hi & Hrow). split; [|lia].
      intros n Hn Hle.
      destruct (aligned_through_row _ _ _ _ _ Hn i Hi) as (j & m & Hm & Hmn).
      specialize (Hrow j m Hm). lia.
Qed.

(** ** The arena allocator *)

Lemma align_up_8 x :
  0 <= x -> x + 7 < 2 ^ 64 ->
  Z.land (u64 (x + 7)) (u64 (Z.lnot 7)) = 8 * ((x + 7) / 8).
Proof.
  intros H0 H1. unfold u64.
  rewrite (Z.mod_small (x + 7)) by lia.
  change (2 ^ 64) with (2 ^ 64) at 1.
  rewrite <- (Z.land_ones (Z.lnot 7) 64) by lia.
  rewrite (Z.land_comm (Z.lnot 7)), Z.land_assoc.
  rewrite <- (Z.land_comm (Z.ones 64)), <- Z.land_assoc, (Z.land_comm (Z.ones 64)).
  rewrite Z.land_ones by lia. rewrite <- Z.ldiff_land.
  change 7 with (Z.ones 3) at 2.
  rewrite Z.ldiff_ones_r by lia.
  rewrite Z.shiftr_div_pow2, Z.shiftl_mul_pow2 by lia.
  change (2 ^ 3) with 8.
  rewrite Z.mod_small.
  - lia.
  - split; [apply Z.mul_nonneg_nonneg; [apply Z.div_pos|]; lia|].
    pose proof (Z.mul_div_le (x + 7) 8 ltac:(lia)). lia.
Qed.

(** X13: [arena_alloc] rounds [used] up to the next multiple of 8 and adds the
    size.  On an arena with [used <= capacity], a request below [2^63]
    bytes either leaves the process (exactly when the rounded-up request
    does not fit) or returns an arena with the same capacity whose [used]
    has grown by at least [size] and by less than [size + 8], and is still
    within the capacity. *)
Theorem arena_alloc_bumps_aligned arena size :
  0 <= used arena <= capacity arena -> capacity arena < 2 ^ 63 ->
  0 <= size < 2 ^ 63 ->
  let aligned := 8 * ((used arena + 7) / 8) in
  used arena <= aligned < used arena + 8 /\ aligned mod 8 = 0 /\
  arena_alloc arena size =
    if aligned + size >? capacity arena then Exit 1
    else Ret {| capacity := capacity arena; used := aligned + size |}.
Proof.
  intros Hu Hc Hs aligned.
  assert (Ha : used arena <= aligned < used arena + 8).
  { unfold aligned. pose proof (Z.mul_div_le (used arena + 7) 8 ltac:(lia)).
    pose proof (Z.mul_succ_div_gt (used arena + 7) 8 ltac:(lia)). lia. }
  split; [exact Ha|]. split.
  - unfold aligned. rewrite Z.mul_comm. apply Z.mod_mul. lia.
  - unfold arena_alloc. cbv zeta.
    rewrite align_up_8 by lia. fold aligned.
    unfold u64. rewrite Z.mod_small by lia. reflexivity.
Qed.

(** ** Resource exhaustion at load *)

(** *** Lengths of the strings a load copies into the string arena *)

(** A line [fgets] returns holds at most [size - 1] bytes. *)
Lemma fgets_all_length size : (2 <= size)%nat -> forall file room cur l,
  (1 <= room)%nat -> (String.length cur + room <= size - 1)%nat ->
  In l (fgets_all size file room cur) -> (String.length l <= size - 1)%nat.
Proof.
  intros Hs. induction file as [|c rest IH]; intros room cur l Hr Hc; simpl.
  - destruct (String.eqb cur ""); [intros [] | intros [<- | []]; lia].
  - assert (Hl : String.length (cur ++ String c "") = S (String.length cur)).
    { rewrite str_append_length. simpl. lia. }
    destruct (_ || _) eqn:E.
    + intros [<- | H]; [lia|]. apply (IH (size - 1)%nat "" l); [lia | simpl; lia | exact H].
    + apply orb_false_iff in E as [_ E]. apply Nat.leb_gt in E.
      apply IH; lia.
Qed.

Lemma str_until_length stop s : (String.length (str_until stop s) <= String.length s)%nat.
Proof. induction s as [|c s IH]; simpl; [lia|]. destruct (stop c); simpl; lia. Qed.

Lemma strtok_all_length delim s : forall cur tok,
  In tok (strtok_all delim s cur) ->
  (String.length tok <= String.length cur + String.length s)%nat.
Proof.
  induction s as [|a s IH]; simpl; intros cur tok Hin.
  - destruct (String.eqb cur ""); [destruct Hin|]. destruct Hin as [<- | []]. lia.
  - destruct (delim a).
    + apply in_app_or in Hin as [Hin | Hin].
      * destruct (String.eqb cur ""); [destruct Hin|]. destruct Hin as [<- | []]. lia.
      * apply IH in Hin. simpl in Hin. lia.
    + apply IH in Hin. rewrite str_append_length in Hin. simpl in Hin. lia.
Qed.

Lemma parse_line_length line ti ci w f :
  parse_line line ti ci = Some (w, f) -> (String.length w <= String.length line)%nat.
Proof.
  unfold parse_line. destruct (_ =? 0); [discriminate|].
  destruct (_ || _); [discriminate|]. intros [= <- _].
  rewrite str_tolower_length.
  match goal with |- (String.length (nth ?i ?l "") <= _)%nat =>
    destruct (nth_in_or_default i l "") as [H | ->]
  end.
  - apply In_firstn in H. apply strtok_all_length in H. simpl in H.
    pose proof (str_until_length is_crlf (c_str line)).
    pose proof (str_until_length is_nul line). unfold c_str in *. lia.
  - simpl. lia.
Qed.

(** An admitted word is shorter than the line buffer. *)
Lemma admitted_word_length content ti ci w :
  In w (map fst (admitted_pairs content ti ci)) -> strlen w < MAX_LINE_BUFFER.
Proof.
  intros H. apply in_map_iff in H as ([w' f] & <- & H).
  apply admitted_In in H as (line & Hl & Hp).
  apply parse_line_length in Hp. unfold file_lines in Hl.
  apply fgets_all_length in Hl.
  - unfold strlen, MAX_LINE_BUFFER in *. simpl in *. 
    change (Z.to_nat 512) with 512%nat in Hl. lia.
  - change (Z.to_nat MAX_LINE_BUFFER) with 512%nat. lia.
  - change (Z.to_nat MAX_LINE_BUFFER) with 512%nat. lia.
  - change (Z.to_nat MAX_LINE_BUFFER) with 512%nat. simpl. lia.
Qed.

Lemma delete_prefix_length word P :
  (String.length (delete_prefix word P) <= 127)%nat.
Proof.
  unfold delete_prefix, snprintf_prec. rewrite str_take_length.
  change (Z.to_nat SYMSPELL_MAX_TERM_LENGTH - 1)%nat with 127%nat. lia.
Qed.

(** A delete variant is shorter than the term buffer. *)
Lemma deletes_length word D P md d :
  In d (_generate_all_deletes_reuse word D P md) -> strlen d < SYMSPELL_MAX_TERM_LENGTH.
Proof.
  rewrite generate_all_deletes_start.
  destruct (strlen word =? 0); [intros []|].
  intros H.
  pose proof (deletes_loop_sound (delete_prefix word P) (Z.to_nat DELETE_QUEUE_CAPACITY)
                D md _ (deletes_start_sound md (delete_prefix word P) D)) as [Ho _].
  destruct (Ho d H) as (n & _ & Hs).
  apply shrinks_length in Hs. pose proof (delete_prefix_length word P).
  unfold strlen, SYMSPELL_MAX_TERM_LENGTH. lia.
Qed.

(** *** The same run with more room

    Each operation of the load is followed on a dictionary [b] and on
    [with_capacity cs ce b]: the two runs bump the arenas alike, and the
    second leaves the process as soon as an arena holds more than [cs],
    respectively [ce], bytes. *)

Lemma arena_alloc_track a size a' :
  arena_sound a -> 0 <= size < 2 ^ 63 -> arena_alloc a size = Ret a' ->
  arena_sound a' /\ capacity a' = capacity a /\ used a <= used a' /\
  forall c, arena_alloc {| capacity := c; used := used a |} size =
            if used a' <=? c then Ret {| capacity := c; used := used a' |} else Exit 1.
Proof.
  intros [Hu Hc] Hs. unfold arena_alloc. cbv zeta. cbn [used capacity].
  rewrite align_up_8 by lia.
  pose proof (Z.mul_div_le (used a + 7) 8 ltac:(lia)).
  pose proof (Z.mul_succ_div_gt (used a + 7) 8 ltac:(lia)).
  unfold u64. rewrite Z.mod_small by lia.
  destruct (_ >? capacity a) eqn:E; [discriminate|]. intros [= <-].
  cbn [used capacity]. unfold arena_sound. cbn [used capacity].
  split; [lia|]. split; [reflexivity|]. split; [lia|].
  intros c. destruct (_ >? c) eqn:E1.
  - replace (_ <=? c) with false by (symmetry; apply Z.leb_gt; lia). reflexivity.
  - replace (_ <=? c) with true by (symmetry; apply Z.leb_le; lia). reflexivity.
Qed.

Lemma arenas_grow_refl d : arenas_grow d d.
Proof. unfold arenas_grow. lia. Qed.

Lemma arenas_grow_trans d1 d2 d3 :
  arenas_grow d1 d2 -> arenas_grow d2 d3 -> arenas_grow d1 d3.
Proof. unfold arenas_grow. lia. Qed.

Lemma fits_grow cs ce d d' :
  arenas_grow d d' -> fits cs ce d = false -> fits cs ce d' = false.
Proof.
  unfold arenas_grow, fits. intros (_ & _ & H1 & H2) H.
  apply andb_false_iff in H. apply andb_false_iff.
  destruct H as [H | H]; apply Z.leb_gt in H; [left | right]; apply Z.leb_gt; lia.
Qed.

Lemma fits_true cs ce d :
  fits cs ce d = true <-> used (string_arena d) <= cs /\ used (entry_arena d) <= ce.
Proof. unfold fits. rewrite andb_true_iff, !Z.leb_le. tauto. Qed.

Lemma add_to_entry_track b entry w f ok b' entry' :
  arenas_sound b -> strlen w < 2 ^ 62 ->
  add_to_entry b entry w f = Ret (ok, b', entry') ->
  arenas_sound b' /\ arenas_grow b b' /\
  forall cs ce, fits cs ce b = true ->
    add_to_entry (with_capacity cs ce b) entry w f =
      if fits cs ce b' then Ret (ok, with_capacity cs ce b', entry') else Exit 1.
Proof.
  intros [Hs He] Hw. unfold add_to_entry.
  destruct (find_word (words entry) w 0) as [i|].
  - intros [= <- <- <-]. split; [split; assumption|]. split; [apply arenas_grow_refl|].
    intros cs ce Hf. rewrite Hf. reflexivity.
  - intros H. bind_inv H. injection H as <- <- <-.
    unfold arena_strdup in Hm.
    pose proof (strlen_nonneg w).
    apply arena_alloc_track in Hm as (Hs' & Hc' & Hu' & Hsim); [|assumption|lia].
    split; [split; assumption|].
    split; [unfold arenas_grow; cbn [string_arena entry_arena set_string_arena]; lia|].
    intros cs ce Hf. apply fits_true in Hf as [Hf1 Hf2].
    unfold arena_strdup. cbn [string_arena with_capacity]. rewrite Hsim.
    unfold fits. cbn [string_arena entry_arena set_string_arena].
    replace (used (entry_arena b) <=? ce) with true by (symmetry; apply Z.leb_le; lia).
    rewrite andb_true_r. destruct (used a <=? cs); reflexivity.
Qed.

Lemma add_delete_loop_track fuel w f d hash : forall i b ok b',
  arenas_sound b -> strlen w < 2 ^ 62 -> strlen d < 2 ^ 62 ->
  add_delete_loop fuel b hash i d w f = Ret (ok, b') ->
  arenas_sound b' /\ arenas_grow b b' /\
  forall cs ce, fits cs ce b = true ->
    add_delete_loop fuel (with_capacity cs ce b) hash i d w f =
      if fits cs ce b' then Ret (ok, with_capacity cs ce b') else Exit 1.
Proof.
  induction fuel as [|fuel IH]; intros i b ok b' Hb Hw Hd; cbn [add_delete_loop].
  - intros [= <- <-]. split; [assumption|]. split; [apply arenas_grow_refl|].
    intros cs ce Hf. rewrite Hf. reflexivity.
  - cbn [table table_size with_capacity].
    destruct (table b !! (u64 (hash + i) mod table_size b)) as [e|].
    + destruct (String.eqb (delete_str e) d); [|apply IH; assumption].
      intros H. bind_inv H. destruct a as [[ok1 b1] e1]. injection H as <- <-.
      apply add_to_entry_track in Hm as (Hs1 & Hg1 & Hsim); [|assumption..].
      split; [exact Hs1|]. split; [exact Hg1|].
      intros cs ce Hf. fold (with_capacity cs ce b). rewrite (Hsim cs ce Hf).
      change (fits cs ce (set_table b1 (<[u64 (hash + i) mod table_size b := e1]> (table b1))))
        with (fits cs ce b1).
      destruct (fits cs ce b1); reflexivity.
    + intros H. bind_inv H. rename a into ea, Hm into Hea.
      bind_inv H. rename a into sa, Hm into Hsa.
      bind_inv H. destruct a as [[ok1 b1] e1].
      destruct Hb as [Hbs Hbe].
      unfold arena_calloc in Hea.
      apply arena_alloc_track in Hea as (Hea1 & Hea2 & Hea3 & Hsim1);
        [|assumption | vm_compute; split; [discriminate | reflexivity]].
      unfold arena_strdup in Hsa. cbn [string_arena set_entry_arena] in Hsa.
      pose proof (strlen_nonneg d).
      apply arena_alloc_track in Hsa as (Hsa1 & Hsa2 & Hsa3 & Hsim2); [|assumption | lia].
      apply add_to_entry_track in Hm as (Hs1 & Hg1 & Hsim3);
        [|split; assumption | assumption].
      assert (Hg : arenas_grow b b1).
      { unfold arenas_grow in *.
        cbn [string_arena entry_arena set_string_arena set_entry_arena] in Hg1. lia. }
      assert (Hfin : arenas_sound b' /\ arenas_grow b b' /\
                     forall cs ce, fits cs ce b' = fits cs ce b1).
      { destruct (negb ok1); injection H as <- <-;
          (split; [exact Hs1|]; split; [exact Hg|]; reflexivity). }
      destruct Hfin as (Hs' & Hg' & Hfe).
      split; [exact Hs'|]. split; [exact Hg'|].
      intros cs ce Hf. rewrite Hfe. apply fits_true in Hf as [Hf1 Hf2].
      unfold arena_calloc. cbn [entry_arena with_capacity]. rewrite Hsim1.
      destruct (used ea <=? ce) eqn:E1.
      * cbn [bind]. unfold arena_strdup.
        cbn [string_arena set_entry_arena with_capacity]. rewrite Hsim2.
        destruct (used sa <=? cs) eqn:E2.
        -- cbn [bind].
           match goal with |- context [add_to_entry ?x _ _ _] =>
             change x with (with_capacity cs ce
                              (set_string_arena (set_entry_arena b ea) sa)) end.
           rewrite Hsim3.
           2:{ apply fits_true. cbn [string_arena entry_arena set_string_arena set_entry_arena].
               apply Z.leb_le in E1, E2. lia. }
           destruct (fits cs ce b1); [|reflexivity]. cbn [bind].
           destruct (negb ok1); injection H as <- <-; reflexivity.
        -- cbn [bind]. symmetry.
           replace (fits cs ce b1) with false; [reflexivity|]. symmetry.
           apply (fits_grow cs ce _ _ Hg1). unfold fits.
           cbn [string_arena set_string_arena]. rewrite E2. reflexivity.
      * cbn [bind]. symmetry.
        replace (fits cs ce b1) with false; [reflexivity|]. symmetry.
        apply (fits_grow cs ce _ _ Hg1). unfold fits.
        cbn [string_arena entry_arena set_string_arena set_entry_arena]. rewrite E1.
        apply andb_false_r.
Qed.

Lemma add_deletes_track w f ds : forall b b',
  arenas_sound b -> strlen w < 2 ^ 62 ->
  (forall d, In d ds -> strlen d < 2 ^ 62) ->
  add_deletes b ds w f = Ret b' ->
  arenas_sound b' /\ arenas_grow b b' /\
  forall cs ce, fits cs ce b = true ->
    add_deletes (with_capacity cs ce b) ds w f =
      if fits cs ce b' then Ret (with_capacity cs ce b') else Exit 1.
Proof.
  induction ds as [|d ds IH]; intros b b' Hb Hw Hds; cbn [add_deletes].
  - intros [= <-]. split; [assumption|]. split; [apply arenas_grow_refl|].
    intros cs ce Hf. rewrite Hf. reflexivity.
  - intros H. bind_inv H. destruct a as [ok1 b1].
    unfold add_delete in *.
    apply add_delete_loop_track in Hm as (Hs1 & Hg1 & Hsim1);
      [|assumption | assumption | apply Hds; left; reflexivity].
    apply IH in H as (Hs2 & Hg2 & Hsim2);
      [|assumption | assumption | intros d' Hd'; apply Hds; right; exact Hd'].
    split; [exact Hs2|]. split; [exact (arenas_grow_trans _ _ _ Hg1 Hg2)|].
    intros cs ce Hf. cbn [table_size with_capacity]. fold (with_capacity cs ce b).
    rewrite (Hsim1 cs ce Hf).
    destruct (fits cs ce b1) eqn:E1.
    + cbn [bind]. apply Hsim2. exact E1.
    + cbn [bind]. rewrite (fits_grow cs ce _ _ Hg2 E1). reflexivity.
Qed.

Lemma generate_deletes_track b w f ok b' :
  arenas_sound b -> strlen w < 2 ^ 62 ->
  generate_deletes b w f = Ret (ok, b') ->
  arenas_sound b' /\ arenas_grow b b' /\
  forall cs ce, fits cs ce b = true ->
    generate_deletes (with_capacity cs ce b) w f =
      if fits cs ce b' then Ret (ok, with_capacity cs ce b') else Exit 1.
Proof.
  intros Hb Hw. unfold generate_deletes. cbv zeta.
  cbn [max_edit_distance prefix_length delete_buffer_capacity with_capacity].
  intros H. bind_inv H. injection H as <- <-.
  apply add_deletes_track in Hm as (Hs1 & Hg1 & Hsim1); [|assumption | assumption |].
  - split; [exact Hs1|]. split; [exact Hg1|].
    intros cs ce Hf. fold (with_capacity cs ce b). rewrite (Hsim1 cs ce Hf).
    destruct (fits cs ce a); reflexivity.
  - intros d Hd. apply deletes_length in Hd.
    unfold SYMSPELL_MAX_TERM_LENGTH in Hd. lia.
Qed.

Lemma ingest_track b m w f b' m' :
  arenas_sound b -> strlen w < 2 ^ 62 ->
  ingest b m w f = Ret (b', m') ->
  arenas_sound b' /\ arenas_grow b b' /\
  forall cs ce, fits cs ce b = true ->
    ingest (with_capacity cs ce b) m w f =
      if fits cs ce b' then Ret (with_capacity cs ce b', m') else Exit 1.
Proof.
  intros Hb Hw. unfold ingest. cbv zeta.
  unfold add_exact_match. cbv zeta. cbn [exact_table with_capacity].
  destruct (add_exact_match_loop _ _ _ _ _ _) as [ok0 t0].
  intros H. bind_inv H. destruct a as [ok1 b1]. injection H as <- <-.
  apply generate_deletes_track in Hm as (Hs1 & Hg1 & Hsim1); [|assumption..].
  split; [exact Hs1|]. split; [exact Hg1|].
  intros cs ce Hf.
  match goal with |- context [generate_deletes ?x _ _] =>
    change x with (with_capacity cs ce (set_exact_table b t0)) end.
  rewrite (Hsim1 cs ce Hf).
  change (fits cs ce (set_word_count b1 (u64 (word_count b1 + 1)))) with (fits cs ce b1).
  destruct (fits cs ce b1); reflexivity.
Qed.

Lemma ingest_all_track pairs : forall b m b' m',
  arenas_sound b ->
  (forall w, In w (map fst pairs) -> strlen w < 2 ^ 62) ->
  ingest_all pairs b m = Ret (b', m') ->
  arenas_sound b' /\ arenas_grow b b' /\
  forall cs ce, fits cs ce b = true ->
    ingest_all pairs (with_capacity cs ce b) m =
      if fits cs ce b' then Ret (with_capacity cs ce b', m') else Exit 1.
Proof.
  induction pairs as [|[w f] pairs IH]; intros b m b' m' Hb Hws; cbn [ingest_all].
  - intros [= <- <-]. split; [assumption|]. split; [apply arenas_grow_refl|].
    intros cs ce Hf. rewrite Hf. reflexivity.
  - intros H. bind_inv H. destruct a as [b1 m1].
    apply ingest_track in Hm as (Hs1 & Hg1 & Hsim1);
      [|assumption | apply Hws; left; reflexivity].
    apply IH in H as (Hs2 & Hg2 & Hsim2);
      [|assumption | intros w' Hw'; apply Hws; right; exact Hw'].
    split; [exact Hs2|]. split; [exact (arenas_grow_trans _ _ _ Hg1 Hg2)|].
    intros cs ce Hf. rewrite (Hsim1 cs ce Hf).
    destruct (fits cs ce b1) eqn:E1.
    + cbn [bind]. apply Hsim2. exact E1.
    + cbn [bind]. rewrite (fits_grow cs ce _ _ Hg2 E1). reflexivity.
Qed.

Section LoadExhaustion.
Variable logf : float -> float.

Lemma load_track big content ti ci big' :
  arenas_sound big ->
  symspell_load_dictionary logf big (Some content) ti ci = Ret (true, big') ->
  arenas_sound big' /\ arenas_grow big big' /\
  forall cs ce, fits cs ce big = true ->
    symspell_load_dictionary logf (with_capacity cs ce big) (Some content) ti ci =
      if fits cs ce big' then Ret (true, with_capacity cs ce big') else Exit 1.
Proof.
  intros Hb H. apply load_Ret in H as (_ & d1 & m1 & H & ->).
  apply ingest_all_track in H as (Hs1 & Hg1 & Hsim1); [|assumption|].
  - split; [exact Hs1|]. split; [exact Hg1|].
    intros cs ce Hf. unfold symspell_load_dictionary. fold (file_lines content).
    rewrite load_lines_admitted. fold (admitted_pairs content ti ci).
    rewrite (Hsim1 cs ce Hf).
    change (fits cs ce (set_exact_table d1 (sweep logf (exact_table d1) m1)))
      with (fits cs ce d1).
    destruct (fits cs ce d1); reflexivity.
  - intros w Hw. apply admitted_word_length in Hw. unfold MAX_LINE_BUFFER in Hw. lia.
Qed.

End LoadExhaustion.

Lemma with_capacity_same dict :
  with_capacity (capacity (string_arena dict)) (capacity (entry_arena dict)) dict = dict.
Proof. destruct dict as [? ? ? ? ? ? ? [? ?] [? ?] ?]. reflexivity. Qed.

(** [arena_alloc] leaves the process exactly when the request, placed at
    the next multiple of 8, ends beyond the capacity. *)
Lemma arena_alloc_exits arena size :
  arena_sound arena -> 0 <= size < 2 ^ 63 ->
  (arena_alloc arena size = Exit 1 <->
   capacity arena < 8 * ((used arena + 7) / 8) + size).
Proof.
  intros [Hu Hc] Hs. unfold arena_alloc. cbv zeta.
  rewrite align_up_8 by lia.
  pose proof (Z.mul_div_le (used arena + 7) 8 ltac:(lia)).
  pose proof (Z.mul_succ_div_gt (used arena + 7) 8 ltac:(lia)).
  unfold u64. rewrite Z.mod_small by lia.
  destruct (_ >? capacity arena) eqn:E.
  - split; [lia | reflexivity].
  - split; [discriminate | lia].
Qed.

Section LoadOutcome.
Variable logf : float -> float.

(** C4 (as amended): an arena allocation that does not fit ends the process
    with [exit(1)]; the load does not return, and no error result reaches
    the caller.
    - [arena_alloc] exits with status 1 exactly when the request, placed at
      the next multiple of 8, ends beyond the capacity of the arena.
    - Let [roomy] be what the same load returns when the arenas have the
      capacities [cs] and [ce], at least those of [dict].  When [roomy]
      holds more bytes in the string arena or in the entry arena than that
      arena of [dict] can take, the load on [dict] exits with status 1;
      otherwise it returns [roomy], with the capacities of [dict].
    - A load that exits does so with status 1 and on an opened file; a load
      that returns reports [false] only for a file that could not be
      opened, and [true] for an opened file. *)
Theorem load_exits_when_an_allocation_does_not_fit dict file ti ci :
  (forall arena size, arena_sound arena -> 0 <= size < 2 ^ 63 ->
     (arena_alloc arena size = Exit 1 <->
      capacity arena < 8 * ((used arena + 7) / 8) + size)) /\
  (forall content cs ce roomy,
     file = Some content ->
     arena_sound (string_arena dict) -> arena_sound (entry_arena dict) ->
     capacity (string_arena dict) <= cs < 2 ^ 63 ->
     capacity (entry_arena dict) <= ce < 2 ^ 63 ->
     symspell_load_dictionary logf (with_capacity cs ce dict) file ti ci
       = Ret (true, roomy) ->
     (capacity (string_arena dict) < used (string_arena roomy) \/
      capacity (entry_arena dict) < used (entry_arena roomy) ->
      symspell_load_dictionary logf dict file ti ci = Exit 1) /\
     (used (string_arena roomy) <= capacity (string_arena dict) /\
      used (entry_arena roomy) <= capacity (entry_arena dict) ->
      symspell_load_dictionary logf dict file ti ci =
        Ret (true, with_capacity (capacity (string_arena dict))
                     (capacity (entry_arena dict)) roomy))) /\
  (forall s, symspell_load_dictionary logf dict file ti ci = Exit s ->
     s = 1 /\ file <> None) /\
  (forall b dict', symspell_load_dictionary logf dict file ti ci = Ret (b, dict') ->
     (b = false <-> file = None)).
Proof.
  split; [intros arena size; apply arena_alloc_exits|]. split.
  - intros content cs ce roomy -> Hs He Hcs Hce Hroomy.
    apply load_track in Hroomy as (_ & _ & Hsim).
    2:{ destruct Hs, He. split; split; cbn [used capacity string_arena entry_arena with_capacity]; lia. }
    specialize (Hsim (capacity (string_arena dict)) (capacity (entry_arena dict))).
    change (with_capacity _ _ (with_capacity cs ce dict))
      with (with_capacity (capacity (string_arena dict)) (capacity (entry_arena dict)) dict)
      in Hsim.
    rewrite with_capacity_same in Hsim. rewrite Hsim.
    2:{ apply fits_true. destruct Hs, He. cbn [used string_arena entry_arena with_capacity]. lia. }
    split.
    + intros Hover. replace (fits _ _ roomy) with false; [reflexivity|].
      symmetry. unfold fits. apply andb_false_iff.
      destruct Hover; [left | right]; apply Z.leb_gt; assumption.
    + intros Hin. apply fits_true in Hin. rewrite Hin. reflexivity.
  - destruct file as [content|]; simpl.
    + split.
      * intros s H. split; [|discriminate].
        apply bind_Exit in H as [H | (a & _ & H)].
        -- rewrite load_lines_admitted in H. eapply ingest_all_Exit; eauto.
        -- destruct a; discriminate.
      * intros b dict' H. bind_inv H. destruct a. injection H as <- <-.
        split; discriminate.
    + split; [discriminate|]. intros b dict' [= <- <-]. split; reflexivity.
Qed.

End LoadOutcome.

(** C4, at two inputs: with eight bytes left in the string arena, loading
    "hello 5000" exits at the second string it copies; on a fresh dictionary
    the same load returns, with 78 bytes of strings and five entries. *)
Lemma load_exits_when_an_allocation_does_not_fit_witness :
  symspell_load_dictionary logf_at_one dict_low_arena (Some ("hello 5000" ++ LF)) 0 1
    = Exit 1 /\
  exists dict',
    symspell_load_dictionary logf_at_one dict_1_7 (Some ("hello 5000" ++ LF)) 0 1
      = Ret (true, dict') /\
    used (string_arena dict') = 78 /\ used (entry_arena dict') = 200.
Proof.
  split.
  - destruct (load_exits_when_an_allocation_does_not_fit logf_at_one dict_low_arena
                (Some ("hello 5000" ++ LF)) 0 1) as (_ & H & _).
    let v := eval vm_compute in
      (symspell_load_dictionary logf_at_one
         (with_capacity (2 * STRING_ARENA_SIZE) ENTRY_ARENA_SIZE dict_low_arena)
         (Some ("hello 5000" ++ LF)) 0 1) in
    match v with
    | Ret (true, ?r) =>
        destruct (H ("hello 5000" ++ LF) (2 * STRING_ARENA_SIZE) ENTRY_ARENA_SIZE r
                    eq_refl) as [Hexit _]
    end.
    + vm_compute. split; [split; discriminate | reflexivity].
    + vm_compute. split; [split; discriminate | reflexivity].
    + vm_compute. split; [discriminate | reflexivity].
    + vm_compute. split; [discriminate | reflexivity].
    + vm_compute. reflexivity.
    + apply Hexit. left. vm_compute. reflexivity.
  - destruct (load_exits_when_an_allocation_does_not_fit logf_at_one dict_1_7
                (Some ("hello 5000" ++ LF)) 0 1) as (_ & H & _).
    let v := eval vm_compute in
      (symspell_load_dictionary logf_at_one
         (with_capacity STRING_ARENA_SIZE ENTRY_ARENA_SIZE dict_1_7)
         (Some ("hello 5000" ++ LF)) 0 1) in
    match v with
    | Ret (true, ?r) =>
        destruct (H ("hello 5000" ++ LF) STRING_ARENA_SIZE ENTRY_ARENA_SIZE r
                    eq_refl) as [_ Hret];
        [| | | | |
         exists (with_capacity (capacity (string_arena dict_1_7))
                   (capacity (entry_arena dict_1_7)) r);
         split; [apply Hret; vm_compute; split; discriminate
                | vm_compute; split; reflexivity]]
    end.
    + vm_compute. split; [split; discriminate | reflexivity].
    + vm_compute. split; [split; discriminate | reflexivity].
    + vm_compute. split; [discriminate | reflexivity].
    + vm_compute. split; [discriminate | reflexivity].
    + vm_compute. reflexivity.
Defined.

(** C4, counterexample: with the string arena exhausted, loading one word
    ends in [exit(1)]; no result, and so no error, reaches the caller. *)
Lemma load_exits_on_full_arena :
  symspell_load_dictionary logf_at_one dict_full_arena (Some ("a 1" ++ LF)) 0 1
  = Exit 1.
Proof. vm_compute. reflexivity. Qed.

(** ** The hash table of [hash.h] as a finite map *)

(** ** [hash.h]: probing *)

Lemma pow2_pos n : pow2 n -> 0 < n <= 2 ^ 63.
Proof.
  intros (e & He & ->). split; [apply Z.pow_pos_nonneg; lia|].
  apply Z.pow_le_mono_r; lia.
Qed.

Lemma pow2_mask n x : pow2 n -> 0 <= x -> Z.land x (u64 (n - 1)) = x mod n.
Proof.
  intros Hn Hx. pose proof (pow2_pos n Hn) as Hp. destruct Hn as (e & He & ->).
  unfold u64. rewrite Z.mod_small by lia.
  replace (2 ^ e - 1) with (Z.ones e) by (rewrite Z.ones_equiv; lia).
  apply Z.land_ones. lia.
Qed.

Lemma pow2_next n start j :
  pow2 n -> 0 <= start < n -> 0 <= j ->
  Z.land (u64 ((start + j) mod n + 1)) (u64 (n - 1)) = (start + (j + 1)) mod n.
Proof.
  intros Hn Hs Hj. pose proof (pow2_pos n Hn) as Hp.
  pose proof (Z.mod_pos_bound (start + j) n ltac:(lia)) as Hm.
  unfold u64 at 1. rewrite Z.mod_small by lia.
  rewrite pow2_mask by (assumption || lia).
  rewrite Z.add_mod_idemp_l by lia. f_equal. lia.
Qed.

Lemma wrap_iff n start j :
  0 < n -> 0 <= start < n -> 0 <= j < n ->
  ((start + (j + 1)) mod n = start <-> j + 1 = n).
Proof.
  intros Hn Hs Hj. split.
  - intros H.
    assert (E : (j + 1) mod n = 0).
    { rewrite <- (Z.mod_small start n) in H at 2 by lia.
      assert (Hd : ((start + (j + 1)) - start) mod n = 0).
      { rewrite Zminus_mod, H, Z.sub_diag. apply Z.mod_0_l. lia. }
      replace (start + (j + 1) - start) with (j + 1) in Hd by lia. exact Hd. }
    destruct (Z.eq_dec (j + 1) n) as [|Hne]; [assumption|].
    rewrite Z.mod_small in E by lia. lia.
  - intros H. replace (start + (j + 1)) with (start + 1 * n) by lia.
    rewrite Z.mod_add by lia. apply Z.mod_small. lia.
Qed.

Lemma ht_search_loop_spec t k d action start fuel : forall j,
  pow2 (HT.size t) -> 0 <= start < HT.size t ->
  0 <= j -> j + Z.of_nat fuel = HT.size t -> (0 < fuel)%nat ->
  HT.ht_search_loop fuel t k d action (HT.ht_hash k)
    ((start + j) mod HT.size t) start =
  Some (ht_search_at t k d action
          (probe fuel (ht_cls (HT.buckets t) (HT.ht_hash k) k)
             (exact_pos (HT.size t) start) j)).
Proof.
  induction fuel as [|fuel IH]; intros j Hp Hs Hj Hf Hpos; [lia|].
  cbn [HT.ht_search_loop probe]. unfold exact_pos at 1, ht_cls at 1.
  cbv zeta.
  destruct (negb (HT.occupied (HT.bucket_at (HT.buckets t) ((start + j) mod HT.size t))));
    [destruct action; reflexivity|].
  destruct (_ && _); [destruct action; reflexivity|].
  rewrite pow2_next by assumption.
  destruct (Z.eqb_spec ((start + (j + 1)) mod HT.size t) start) as [E | E].
  - apply wrap_iff in E; [|lia..]. assert (fuel = 0%nat) by lia. subst fuel.
    cbn [probe]. destruct action; reflexivity.
  - assert (j + 1 <> HT.size t) by (intros H; apply E, wrap_iff; lia).
    apply IH; try assumption; lia.
Qed.

Lemma ht_hash_range k : 0 <= HT.ht_hash k < 2 ^ 32.
Proof.
  unfold HT.ht_hash.
  assert (G : forall l h0, 0 <= h0 < 2 ^ 32 ->
    0 <= fold_left (fun hash c => u32 (u32 (Z.lxor hash (byte_of c)) * 16777619)) l h0
      < 2 ^ 32).
  { induction l as [|c l IHl]; intros h0 H0; cbn [fold_left]; [exact H0|].
    apply IHl. unfold u32 at 1. apply Z.mod_pos_bound. lia. }
  apply G. lia.
Qed.

(** [ht_search] with [HT_FIND]: the table is left as it is, the result is
    the slot of the key. *)
Lemma ht_search_find t k d :
  pow2 (HT.size t) ->
  HT.ht_search t {| HT.key := Some k; HT.data := d |} HT.HT_FIND =
  Some (t, match ht_slot t k with PHit i => Some i | _ => None end).
Proof.
  intros Hp. pose proof (pow2_pos _ Hp) as Hs.
  unfold HT.ht_search. cbn [HT.key HT.data].
  pose proof (ht_hash_range k) as Hh.
  rewrite pow2_mask by (assumption || lia).
  pose proof (Z.mod_pos_bound (HT.ht_hash k) (HT.size t) ltac:(lia)) as Hm.
  pose proof (ht_search_loop_spec t k d HT.HT_FIND (HT.ht_hash k mod HT.size t)
                (Z.to_nat (HT.size t)) 0 Hp Hm ltac:(lia) ltac:(lia) ltac:(lia)) as H.
  rewrite Z.add_0_r, Z.mod_mod in H by lia. rewrite H.
  unfold ht_slot. destruct (probe _ _ _ _); reflexivity.
Qed.

(** [ht_search] with [HT_ENTER] once the load test is behind it. *)
Lemma ht_search_enter_loop t k d :
  pow2 (HT.size t) ->
  HT.ht_search_loop (Z.to_nat (HT.size t)) t k d HT.HT_ENTER (HT.ht_hash k)
    (Z.land (HT.ht_hash k) (u64 (HT.size t - 1)))
    (Z.land (HT.ht_hash k) (u64 (HT.size t - 1))) =
  Some (ht_search_at t k d HT.HT_ENTER (ht_slot t k)).
Proof.
  intros Hp. pose proof (pow2_pos _ Hp) as Hs.
  pose proof (ht_hash_range k) as Hh.
  rewrite pow2_mask by (assumption || lia).
  pose proof (Z.mod_pos_bound (HT.ht_hash k) (HT.size t) ltac:(lia)) as Hm.
  pose proof (ht_search_loop_spec t k d HT.HT_ENTER (HT.ht_hash k mod HT.size t)
                (Z.to_nat (HT.size t)) 0 Hp Hm ltac:(lia) ltac:(lia) ltac:(lia)) as H.
  rewrite Z.add_0_r, Z.mod_mod in H by lia. exact H.
Qed.

(** ** [hash.h]: the invariant *)

Lemma bucket_at_insert bs i b p :
  HT.bucket_at (<[i := b]> bs) p = if decide (i = p) then b else HT.bucket_at bs p.
Proof.
  unfold HT.bucket_at. destruct (decide (i = p)) as [<- | H].
  - rewrite lookup_insert_eq. reflexivity.
  - rewrite lookup_insert_ne by assumption. reflexivity.
Qed.

Lemma ht_live_lookup bs i b :
  ht_live bs !! i = Some b <-> bs !! i = Some b /\ HT.occupied b = true.
Proof. unfold ht_live. rewrite map_lookup_filter_Some. reflexivity. Qed.

Lemma ht_live_occupied bs i :
  is_Some (ht_live bs !! i) <-> HT.occupied (HT.bucket_at bs i) = true.
Proof.
  unfold HT.bucket_at. split.
  - intros [b Hb]. apply ht_live_lookup in Hb as [-> Ho]. exact Ho.
  - destruct (bs !! i) as [b|] eqn:E; cbn; [|discriminate].
    intros Ho. exists b. apply ht_live_lookup. auto.
Qed.

Lemma ht_live_insert_new bs i b :
  HT.occupied (HT.bucket_at bs i) = false -> HT.occupied b = true ->
  size (ht_live (<[i := b]> bs)) = S (size (ht_live bs)).
Proof.
  intros Hf Hb. unfold ht_live.
  rewrite map_filter_insert_True by exact Hb.
  apply map_size_insert_None.
  destruct (filter _ bs !! i) as [x|] eqn:E; [|reflexivity].
  assert (Hs : is_Some (ht_live bs !! i)) by (unfold ht_live; eauto).
  apply ht_live_occupied in Hs. congruence.
Qed.

Lemma ht_live_insert_same bs i b :
  HT.occupied (HT.bucket_at bs i) = true -> HT.occupied b = true ->
  size (ht_live (<[i := b]> bs)) = size (ht_live bs).
Proof.
  intros Hf Hb. unfold ht_live.
  rewrite map_filter_insert_True by exact Hb.
  apply ht_live_occupied in Hf as [x Hx]. unfold ht_live in Hx.
  apply map_size_insert_Some. eauto.
Qed.

Lemma ht_cls_SEmpty bs h k p :
  ht_cls bs h k p = SEmpty <-> HT.occupied (HT.bucket_at bs p) = false.
Proof.
  unfold ht_cls. cbv zeta. destruct (HT.occupied _); cbn [negb].
  - destruct (_ && _); split; discriminate.
  - tauto.
Qed.

Lemma ht_cls_SMatch bs h k p :
  ht_cls bs h k p = SMatch <->
  HT.occupied (HT.bucket_at bs p) = true /\ HT.hash (HT.bucket_at bs p) = h /\
  HT.bucket_key (HT.bucket_at bs p) = Some k.
Proof.
  unfold ht_cls. cbv zeta. destruct (HT.occupied _); cbn [negb].
  - destruct (Z.eqb_spec (HT.hash (HT.bucket_at bs p)) h) as [E | E]; cbn [andb].
    + destruct (HT.bucket_key _) as [k'|].
      * destruct (String.eqb_spec k' k) as [-> | Hne].
        -- tauto.
        -- split; [discriminate | intros (_ & _ & [= ?]); contradiction].
      * split; [discriminate | intros (_ & _ & ?); discriminate].
    + split; [discriminate | intros (_ & ? & _); contradiction].
  - split; [discriminate | intros (? & _); discriminate].
Qed.

Lemma ht_slot_PHit t k i :
  ht_slot t k = PHit i ->
  0 <= i < HT.size t /\
  HT.occupied (HT.bucket_at (HT.buckets t) i) = true /\
  HT.hash (HT.bucket_at (HT.buckets t) i) = HT.ht_hash k /\
  HT.bucket_key (HT.bucket_at (HT.buckets t) i) = Some k.
Proof.
  unfold ht_slot. intros H.
  assert (0 < HT.size t).
  { destruct (Z.to_nat (HT.size t)) eqn:E; [discriminate H | lia]. }
  apply probe_PHit in H as (j & _ & -> & Hc & _).
  split; [apply Z.mod_pos_bound; assumption|]. apply ht_cls_SMatch. exact Hc.
Qed.

Lemma ht_slot_PEmpty t k i :
  ht_slot t k = PEmpty i ->
  0 <= i < HT.size t /\ HT.occupied (HT.bucket_at (HT.buckets t) i) = false.
Proof.
  unfold ht_slot. intros H.
  assert (0 < HT.size t).
  { destruct (Z.to_nat (HT.size t)) eqn:E; [discriminate H | lia]. }
  apply probe_PEmpty in H as (j & _ & -> & Hc & _).
  split; [apply Z.mod_pos_bound; assumption|]. apply ht_cls_SEmpty in Hc. exact Hc.
Qed.

Lemma ht_lookup_holds t k d :
  ht_ok t -> (ht_lookup t k = Some d <-> ht_holds t k d).
Proof.
  intros (_ & Hf & _). unfold ht_lookup, ht_holds. split.
  - destruct (ht_slot t k) as [i| |] eqn:E; try discriminate.
    intros [= <-]. apply ht_slot_PHit in E as (_ & Ho & _ & Hk). eauto.
  - intros (i & Ho & Hk & Hd). destruct (Hf i Ho) as (_ & k' & Hk' & _ & Hs).
    assert (k' = k) by congruence. subst k'. rewrite Hs, Hd. reflexivity.
Qed.

Lemma ht_count_bound t : ht_ok t -> 0 <= HT.count t <= HT.size t.
Proof.
  intros (Hp & Hf & Hc). rewrite Hc. split; [lia|].
  apply gmap_size_bounded; [apply pow2_pos in Hp; lia|].
  intros i b Hb. apply ht_live_lookup in Hb as [Hb Ho].
  apply Hf. unfold HT.bucket_at. rewrite Hb. exact Ho.
Qed.

(** A full probe has seen every slot of the table occupied. *)
Lemma ht_slot_PFull t k :
  ht_ok t -> ht_slot t k = PFull -> HT.count t = HT.size t.
Proof.
  intros Hok H. pose proof (ht_count_bound t Hok) as Hb.
  destruct Hok as (Hp & _ & Hc). pose proof (pow2_pos _ Hp) as Hs.
  assert (HT.size t <= HT.count t); [|lia].
  rewrite Hc. apply gmap_size_covering. intros i Hi. apply ht_live_occupied.
  unfold ht_slot in H.
  pose proof (probe_PFull _ _ _ _ H ((i - HT.ht_hash k mod HT.size t) mod HT.size t)) as Hq.
  pose proof (Z.mod_pos_bound (i - HT.ht_hash k mod HT.size t) (HT.size t) ltac:(lia)).
  specialize (Hq ltac:(lia)). unfold exact_pos in Hq.
  rewrite Z.add_mod_idemp_r in Hq by lia.
  replace (HT.ht_hash k mod HT.size t + (i - HT.ht_hash k mod HT.size t)) with i in Hq by lia.
  rewrite Z.mod_small in Hq by lia.
  destruct (HT.occupied (HT.bucket_at (HT.buckets t) i)) eqn:E; [reflexivity|].
  apply (proj2 (ht_cls_SEmpty (HT.buckets t) (HT.ht_hash k) k i)) in E.
  rewrite E in Hq. discriminate.
Qed.

(** *** Putting a new key into the slot its probe ends at *)

Section HtInsert.
Variables (t : HT.HT_TABLE) (k : string) (d i : Z).
Hypothesis Hok : ht_ok t.
Hypothesis Hslot : ht_slot t k = PEmpty i.

Let t' : HT.HT_TABLE :=
  {| HT.buckets :=
       <[i := {| HT.bucket_key := Some k; HT.bucket_data := d;
                 HT.hash := HT.ht_hash k; HT.occupied := true |}]> (HT.buckets t);
     HT.size := HT.size t; HT.count := u64 (HT.count t + 1) |}.

Lemma ht_insert_cls h' k' p :
  ht_cls (HT.buckets t) h' k' p <> SEmpty ->
  ht_cls (HT.buckets t') h' k' p = ht_cls (HT.buckets t) h' k' p.
Proof.
  intros H. rewrite ht_cls_SEmpty in H.
  apply ht_slot_PEmpty in Hslot as [_ He].
  unfold ht_cls. cbn [HT.buckets t']. rewrite bucket_at_insert.
  destruct (decide (i = p)) as [<- | _]; [congruence | reflexivity].
Qed.

Lemma ht_insert_slot_stable k' q :
  ht_slot t k' = PHit q -> ht_slot t' k' = PHit q.
Proof.
  intros H. unfold ht_slot in *. cbn [HT.size t'].
  pose proof (probe_stable (Z.to_nat (HT.size t))
    (ht_cls (HT.buckets t) (HT.ht_hash k') k')
    (ht_cls (HT.buckets t') (HT.ht_hash k') k')
    (exact_pos (HT.size t) (HT.ht_hash k' mod HT.size t)) 0
    (ht_insert_cls _ _) (or_intror I)) as Hs.
  rewrite H in Hs. exact Hs.
Qed.

Lemma ht_insert_slot_new : ht_slot t' k = PHit i.
Proof.
  unfold ht_slot in *. cbn [HT.size t'].
  eapply probe_filled; [exact Hslot | apply ht_insert_cls |].
  apply ht_cls_SMatch. cbn [HT.buckets t']. rewrite bucket_at_insert.
  destruct (decide (i = i)); [|contradiction]. cbn. auto.
Qed.

Lemma ht_insert_ok : ht_ok t'.
Proof.
  pose proof (ht_count_bound t Hok) as Hb.
  destruct Hok as (Hp & Hf & Hc). pose proof (pow2_pos _ Hp) as Hs.
  pose proof (ht_slot_PEmpty _ _ _ Hslot) as [Hi He].
  split; [exact Hp|]. split.
  - intros p Ho. cbn [HT.buckets HT.size t'] in *. rewrite bucket_at_insert in *.
    destruct (decide (i = p)) as [<- | Hne].
    + split; [exact Hi|]. exists k. cbn. split; [reflexivity|].
      split; [reflexivity | apply ht_insert_slot_new].
    + destruct (Hf p Ho) as (Hr & k' & Hk' & Hh & Hsl).
      split; [exact Hr|]. exists k'. split; [exact Hk'|]. split; [exact Hh|].
      apply ht_insert_slot_stable. exact Hsl.
  - cbn [HT.buckets HT.count t'].
    rewrite ht_live_insert_new by (assumption || reflexivity).
    unfold u64. rewrite Z.mod_small by lia. lia.
Qed.

Lemma ht_insert_holds k' d' :
  ht_holds t' k' d' <-> ht_holds t k' d' \/ (k' = k /\ d' = d).
Proof.
  pose proof (ht_slot_PEmpty _ _ _ Hslot) as [_ He].
  unfold ht_holds. cbn [HT.buckets t']. split.
  - intros (p & Ho & Hk & Hd). rewrite bucket_at_insert in *.
    destruct (decide (i = p)) as [<- | Hne].
    + right. cbn in Hk, Hd. split; congruence.
    + left. eauto.
  - intros [(p & Ho & Hk & Hd) | [-> ->]].
    + exists p. rewrite bucket_at_insert.
      destruct (decide (i = p)) as [<- | Hne]; [congruence | auto].
    + exists i. rewrite bucket_at_insert.
      destruct (decide (i = i)); [|contradiction]. cbn. auto.
Qed.

End HtInsert.

(** *** New data for a key that is in the table *)

Section HtUpdate.
Variables (t : HT.HT_TABLE) (k : string) (d i : Z).
Hypothesis Hok : ht_ok t.
Hypothesis Hslot : ht_slot t k = PHit i.

Let b : HT.HT_BUCKET := HT.bucket_at (HT.buckets t) i.
Let t' : HT.HT_TABLE :=
  {| HT.buckets :=
       <[i := {| HT.bucket_key := HT.bucket_key b; HT.bucket_data := d;
                 HT.hash := HT.hash b; HT.occupied := HT.occupied b |}]>
         (HT.buckets t);
     HT.size := HT.size t; HT.count := HT.count t |}.

Lemma ht_update_cls h' k' p :
  ht_cls (HT.buckets t') h' k' p = ht_cls (HT.buckets t) h' k' p.
Proof.
  unfold ht_cls. cbn [HT.buckets t']. rewrite bucket_at_insert.
  destruct (decide (i = p)) as [<- | _]; reflexivity.
Qed.

Lemma ht_update_slot k' : ht_slot t' k' = ht_slot t k'.
Proof.
  unfold ht_slot. cbn [HT.size t']. apply probe_ext.
  intros j _. apply ht_update_cls.
Qed.

Lemma ht_update_ok : ht_ok t'.
Proof.
  destruct Hok as (Hp & Hf & Hc).
  pose proof (ht_slot_PHit _ _ _ Hslot) as (Hi & Ho & Hh & Hk).
  split; [exact Hp|]. split.
  - intros p Hop. cbn [HT.buckets HT.size t'] in *. rewrite bucket_at_insert in *.
    destruct (decide (i = p)) as [<- | Hne].
    + split; [exact Hi|]. exists k. cbn. fold b.
      split; [exact Hk|]. split; [exact Hh|]. rewrite ht_update_slot. exact Hslot.
    + destruct (Hf p Hop) as (Hr & k' & Hk' & Hh' & Hsl).
      split; [exact Hr|]. exists k'. rewrite ht_update_slot. auto.
  - cbn [HT.buckets HT.count t'].
    rewrite ht_live_insert_same by (exact Ho). exact Hc.
Qed.

Lemma ht_update_holds k' d' :
  ht_holds t' k' d' <-> (k' <> k /\ ht_holds t k' d') \/ (k' = k /\ d' = d).
Proof.
  destruct Hok as (_ & Hf & _).
  pose proof (ht_slot_PHit _ _ _ Hslot) as (Hi & Ho & Hh & Hk).
  unfold ht_holds. cbn [HT.buckets t']. split.
  - intros (p & Hop & Hkp & Hd). rewrite bucket_at_insert in *.
    destruct (decide (i = p)) as [<- | Hne].
    + right. cbn in Hkp, Hd. fold b in Hk. split; congruence.
    + left. split; [|eauto]. intros ->.
      destruct (Hf p Hop) as (_ & k' & Hk' & _ & Hsl).
      assert (k' = k) by congruence. subst k'. congruence.
  - intros [[Hne (p & Hop & Hkp & Hd)] | [-> ->]].
    + exists p. rewrite bucket_at_insert.
      destruct (decide (i = p)) as [<- | _]; [congruence | auto].
    + exists i. rewrite bucket_at_insert.
      destruct (decide (i = i)); [|contradiction]. cbn. fold b. auto.
Qed.

End HtUpdate.

(** ** [hash.h]: resizing *)

Lemma occ_upto_ext bs bs' n :
  (forall i, 0 <= i < Z.of_nat n -> HT.bucket_at bs' i = HT.bucket_at bs i) ->
  occ_upto bs' n = occ_upto bs n.
Proof.
  induction n as [|n IH]; intros H; [reflexivity|].
  cbn [occ_upto]. rewrite H by lia. rewrite IH; [reflexivity|].
  intros i Hi. apply H. lia.
Qed.

Lemma ht_live_count n : forall bs,
  (forall i, HT.occupied (HT.bucket_at bs i) = true -> 0 <= i < Z.of_nat n) ->
  size (ht_live bs) = occ_upto bs n.
Proof.
  induction n as [|n IH]; intros bs H.
  - cbn [occ_upto]. apply map_size_empty_iff. apply map_empty. intros i.
    destruct (ht_live bs !! i) as [b|] eqn:E; [|reflexivity].
    assert (Hs : is_Some (ht_live bs !! i)) by eauto.
    apply ht_live_occupied, H in Hs. lia.
  - cbn [occ_upto].
    assert (Hd : forall i, HT.bucket_at (delete (Z.of_nat n) bs) i =
                   if decide (Z.of_nat n = i) then HT.zero_bucket else HT.bucket_at bs i).
    { intros i. unfold HT.bucket_at. destruct (decide (Z.of_nat n = i)) as [<- | Hne].
      - rewrite lookup_delete_eq. reflexivity.
      - rewrite lookup_delete_ne by assumption. reflexivity. }
    rewrite (occ_upto_ext (delete (Z.of_nat n) bs) bs n).
    2:{ intros i Hi. rewrite Hd. destruct (decide _); [lia | reflexivity]. }
    rewrite <- (IH (delete (Z.of_nat n) bs)).
    2:{ intros i Ho. rewrite Hd in Ho. destruct (decide _) as [|Hne]; [discriminate|].
        specialize (H i Ho). lia. }
    unfold ht_live. rewrite map_filter_delete.
    destruct (HT.occupied (HT.bucket_at bs (Z.of_nat n))) eqn:E.
    + apply ht_live_occupied in E as [b Hb]. unfold ht_live in Hb.
      rewrite map_size_delete_Some by eauto.
      assert (Hne : size (filter (fun kv : Z * HT.HT_BUCKET => HT.occupied kv.2 = true) bs) <> 0%nat).
      { intros E0. apply map_size_empty_iff in E0. rewrite E0, lookup_empty in Hb.
        discriminate. }
      lia.
    + rewrite map_size_delete_None; [reflexivity|].
      destruct (filter _ bs !! Z.of_nat n) as [b|] eqn:Hb; [|reflexivity].
      assert (Hs : is_Some (ht_live bs !! Z.of_nat n)) by (unfold ht_live; eauto).
      apply ht_live_occupied in Hs. congruence.
Qed.

Lemma ht_resize_probe_spec bs N start fuel : forall j,
  pow2 N -> 0 <= start < N -> 0 <= j ->
  HT.ht_resize_probe fuel bs ((start + j) mod N) N =
  match probe fuel (ht_free_cls bs) (exact_pos N start) j with
  | PEmpty i => Some i
  | _ => None
  end.
Proof.
  induction fuel as [|fuel IH]; intros j Hp Hs Hj; [reflexivity|].
  cbn [HT.ht_resize_probe probe]. unfold exact_pos at 1, ht_free_cls at 1.
  destruct (HT.occupied _); [|reflexivity].
  rewrite pow2_next by assumption. apply IH; (assumption || lia).
Qed.

Lemma ht_absent_probe t k :
  (forall d, ~ ht_holds t k d) ->
  ht_slot t k =
  probe (Z.to_nat (HT.size t)) (ht_free_cls (HT.buckets t))
    (exact_pos (HT.size t) (HT.ht_hash k mod HT.size t)) 0.
Proof.
  intros Hn. unfold ht_slot. apply probe_ext. intros j _.
  set (p := exact_pos _ _ j).
  destruct (ht_cls (HT.buckets t) (HT.ht_hash k) k p) eqn:E.
  - apply ht_cls_SEmpty in E. unfold ht_free_cls. rewrite E. reflexivity.
  - apply ht_cls_SMatch in E as (Ho & _ & Hk). exfalso.
    apply (Hn (HT.bucket_data (HT.bucket_at (HT.buckets t) p))).
    exists p. auto.
  - unfold ht_free_cls.
    destruct (HT.occupied (HT.bucket_at (HT.buckets t) p)) eqn:Ho; [reflexivity|].
    apply (proj2 (ht_cls_SEmpty (HT.buckets t) (HT.ht_hash k) k p)) in Ho. congruence.
Qed.

Section HtResize.
Variable old : HT.HT_TABLE.
Hypothesis Hold : ht_ok old.
Variable N : Z.
Hypothesis HN : pow2 N.
Hypothesis Hbig : HT.size old < N.

Lemma occ_upto_le bs n : (occ_upto bs n <= n)%nat.
Proof. induction n as [|n IH]; cbn [occ_upto]; [lia|]. destruct (HT.occupied _); lia. Qed.

Lemma ht_resize_move_inv n nt :
  Z.of_nat n < HT.size old -> resize_inv old N n nt ->
  exists nt', HT.ht_resize_move N (HT.buckets old) nt (Z.of_nat n) = Some nt' /\
              resize_inv old N (S n) nt'.
Proof.
  intros Hn (Hok & Hsz & Hcnt & Hh). unfold HT.ht_resize_move. cbv zeta.
  pose proof (occ_upto_le (HT.buckets old) n) as Hle.
  destruct (HT.occupied (HT.bucket_at (HT.buckets old) (Z.of_nat n))) eqn:Ho.
  - destruct Hold as (_ & Hf & _).
    destruct (Hf _ Ho) as (_ & k & Hk & Hhash & Hslot).
    assert (Habs : forall d, ~ ht_holds nt k d).
    { intros d Hd. apply Hh in Hd as (p & Hp & Hop & Hkp & _).
      destruct (Hf _ Hop) as (_ & k' & Hk' & _ & Hs').
      assert (k' = k) by congruence. subst k'. rewrite Hslot in Hs'.
      injection Hs' as E. lia. }
    pose proof (ht_hash_range k) as Hr. pose proof (pow2_pos _ HN) as HNp.
    rewrite Hhash, pow2_mask by (assumption || lia).
    pose proof (Z.mod_pos_bound (HT.ht_hash k) N ltac:(lia)) as Hm.
    pose proof (ht_resize_probe_spec (HT.buckets nt) N (HT.ht_hash k mod N)
                  (Z.to_nat N) 0 HN Hm ltac:(lia)) as Hpr.
    rewrite Z.add_0_r, Z.mod_mod in Hpr by lia. rewrite Hpr.
    pose proof (ht_absent_probe nt k Habs) as Hab. rewrite Hsz in Hab.
    rewrite <- Hab.
    destruct (ht_slot nt k) as [q|q|] eqn:Es.
    + exfalso. apply ht_slot_PHit in Es as (_ & Hoq & _ & Hkq).
      apply (Habs (HT.bucket_data (HT.bucket_at (HT.buckets nt) q))). exists q. auto.
    + eexists. split; [reflexivity|].
      assert (Eb : HT.bucket_at (HT.buckets old) (Z.of_nat n) =
                   {| HT.bucket_key := Some k;
                      HT.bucket_data := HT.bucket_data (HT.bucket_at (HT.buckets old) (Z.of_nat n));
                      HT.hash := HT.ht_hash k; HT.occupied := true |}).
      { destruct (HT.bucket_at (HT.buckets old) (Z.of_nat n)); cbn in *. congruence. }
      rewrite Eb.
      split; [apply ht_insert_ok; assumption|]. split; [exact Hsz|]. split.
      * cbn [HT.count occ_upto]. rewrite Ho, Hcnt.
        unfold u64. rewrite Z.mod_small; [lia|].
        pose proof (pow2_pos _ HN). lia.
      * intros k' d'. rewrite (ht_insert_holds nt k _ q Es k' d'), Hh. split.
        -- intros [(p & Hp & H1) | [-> ->]].
           ++ exists p. split; [lia | exact H1].
           ++ exists (Z.of_nat n). split; [lia|]. auto.
        -- intros (p & Hp & Hop & Hkp & Hdp).
           destruct (Z.eq_dec p (Z.of_nat n)) as [-> | Hne].
           ++ right. split; congruence.
           ++ left. exists p. split; [lia | auto].
    + exfalso. apply ht_slot_PFull in Es; [|assumption]. lia.
  - eexists. split; [reflexivity|].
    split; [exact Hok|]. split; [exact Hsz|]. split.
    + cbn [occ_upto]. rewrite Ho. exact Hcnt.
    + intros k d. rewrite Hh. split.
      * intros (p & Hp & H1). exists p. split; [lia | exact H1].
      * intros (p & Hp & Hop & H1).
        destruct (Z.eq_dec p (Z.of_nat n)) as [-> | Hne]; [congruence|].
        exists p. split; [lia | auto].
Qed.

Lemma ht_resize_loop_inv fuel : forall n nt,
  Z.of_nat n + Z.of_nat fuel <= HT.size old -> resize_inv old N n nt ->
  exists nt', HT.ht_resize_loop fuel N (HT.buckets old) nt (Z.of_nat n) = Some nt' /\
              resize_inv old N (n + fuel) nt'.
Proof.
  induction fuel as [|fuel IH]; intros n nt Hf Hinv.
  - exists nt. split; [reflexivity|]. rewrite Nat.add_0_r. exact Hinv.
  - cbn [HT.ht_resize_loop].
    destruct (ht_resize_move_inv n nt ltac:(lia) Hinv) as (nt1 & E & Hinv1).
    rewrite E. replace (Z.of_nat n + 1) with (Z.of_nat (S n)) by lia.
    destruct (IH (S n) nt1 ltac:(lia) Hinv1) as (nt' & E' & Hinv').
    exists nt'. split; [exact E'|]. replace (n + S fuel)%nat with (S n + fuel)%nat by lia.
    exact Hinv'.
Qed.

Lemma ht_resize_spec :
  exists t', HT.ht_resize old N = Some t' /\
    ht_ok t' /\ HT.size t' = N /\ HT.count t' = HT.count old /\
    forall k d, ht_holds t' k d <-> ht_holds old k d.
Proof.
  pose proof (pow2_pos _ HN) as HNp.
  destruct Hold as (Hp & Hf & Hc). pose proof (pow2_pos _ Hp) as Hsp.
  assert (H0 : resize_inv old N 0 {| HT.buckets := ∅; HT.size := N; HT.count := 0 |}).
  { split; [|split; [reflexivity|split; [reflexivity|]]].
    - split; [exact HN|]. split.
      + intros i Ho. cbn in Ho. unfold HT.bucket_at in Ho.
        rewrite lookup_empty in Ho. discriminate.
      + cbn. unfold ht_live. rewrite map_filter_empty. reflexivity.
    - intros k d. split.
      + intros (i & Ho & _). cbn in Ho. unfold HT.bucket_at in Ho.
        rewrite lookup_empty in Ho. discriminate.
      + intros (p & Hp0 & _). lia. }
  destruct (ht_resize_loop_inv (Z.to_nat (HT.size old)) 0 _ ltac:(lia) H0)
    as (t' & E & Hok' & Hsz & Hcnt & Hh).
  exists t'. split; [exact E|]. split; [exact Hok'|]. split; [exact Hsz|]. split.
  - rewrite Hcnt, Hc. f_equal. symmetry. apply ht_live_count.
    intros i Ho. destruct (Hf i Ho) as [Hr _]. lia.
  - intros k d. rewrite Hh. unfold ht_holds. split.
    + intros (p & _ & H1). eauto.
    + intros (p & Ho & H1). exists p. split; [|auto].
      destruct (Hf p Ho) as [Hr _]. lia.
Qed.

End HtResize.

(** ** [hash.h]: the operations *)

Lemma ht_get_lookup t k : pow2 (HT.size t) -> ht_get t k = ht_lookup t k.
Proof.
  intros Hp. unfold ht_get, ht_lookup. rewrite ht_search_find by exact Hp.
  destruct (ht_slot t k); reflexivity.
Qed.

(** X16: [ht_resize] to a larger power of two keeps the table: the same keys
    with the same data, the same count, and the invariant. *)
Theorem ht_resize_keeps_the_entries t N :
  ht_ok t -> pow2 N -> HT.size t < N ->
  exists t',
    HT.ht_resize t N = Some t' /\ ht_ok t' /\ HT.size t' = N /\
    HT.ht_count t' = HT.ht_count t /\
    forall k, ht_get t' k = ht_get t k.
Proof.
  intros Hok HN Hbig.
  destruct (ht_resize_spec t Hok N HN Hbig) as (t' & E & Hok' & Hsz & Hc & Hh).
  exists t'. split; [exact E|]. split; [exact Hok'|]. split; [exact Hsz|].
  split; [exact Hc|]. intros k.
  rewrite (ht_get_lookup t') by apply Hok'. rewrite (ht_get_lookup t) by apply Hok.
  destruct (ht_lookup t k) as [d|] eqn:E1.
  - apply ht_lookup_holds in E1; [|exact Hok]. apply Hh in E1.
    apply ht_lookup_holds; assumption.
  - destruct (ht_lookup t' k) as [d|] eqn:E2; [|reflexivity].
    apply ht_lookup_holds in E2; [|exact Hok']. apply Hh in E2.
    apply ht_lookup_holds in E2; [|exact Hok]. congruence.
Qed.

Lemma double_of_u64_finite x :
  0 < x -> exists m e, HT.double_of_u64 x = S754_finite false m e.
Proof.
  intros H. unfold HT.double_of_u64.
  replace (x <=? 0) with false by (symmetry; apply Z.leb_gt; lia).
  cbv zeta. destruct (_ <=? HT.double_prec); [eauto|].
  destruct (_ =? 2 ^ HT.double_prec); eauto.
Qed.

Lemma double_div_self m e :
  SFdiv HT.double_prec HT.double_emax (S754_finite false m e) (S754_finite false m e)
  = S754_finite false 4503599627370496 (-52).
Proof.
  unfold SFdiv, SFdiv_core_binary, HT.double_prec, HT.double_emax.
  rewrite !Z.sub_diag.
  change (Z.min (fexp 53 1024 0) 0) with (-53).
  change (0 - -53) with 53. cbv beta iota.
  assert (Hd : Z.div_eucl (Z.shiftl (Z.pos m) 53) (Z.pos m) = (2 ^ 53, 0)).
  { rewrite Z.shiftl_mul_pow2 by lia.
    pose proof (Z.div_eucl_eq (Z.pos m * 2 ^ 53) (Z.pos m) ltac:(lia)) as Hq.
    assert (Hdiv : Z.pos m * 2 ^ 53 / Z.pos m = 2 ^ 53)
      by (rewrite Z.mul_comm; apply Z.div_mul; lia).
    assert (Hmod : (Z.pos m * 2 ^ 53) mod Z.pos m = 0)
      by (rewrite Z.mul_comm; apply Z.mod_mul; lia).
    unfold Z.div, Z.modulo in Hdiv, Hmod.
    destruct (Z.div_eucl (Z.pos m * 2 ^ 53) (Z.pos m)) as [q r].
    cbn in Hdiv, Hmod. congruence. }
  rewrite Hd.
  assert (Hl : new_location (Z.pos m) 0 = loc_Exact).
  { unfold new_location. destruct (Z.even (Z.pos m)); reflexivity. }
  rewrite Hl. vm_compute. reflexivity.
Qed.

(** A table without a free bucket fails the load test. *)
Lemma load_exceeded_full t :
  0 < HT.size t -> HT.count t = HT.size t -> HT.load_exceeded t = true.
Proof.
  intros Hs Hc. unfold HT.load_exceeded. rewrite Hc.
  destruct (double_of_u64_finite _ Hs) as (m & e & ->).
  rewrite double_div_self. vm_compute. reflexivity.
Qed.

(** [ht_search] with [HT_ENTER]: possibly a resize, then the slot of the key
    is filled or updated. *)
Lemma ht_search_enter t k d :
  ht_ok t -> HT.size t < 2 ^ 63 ->
  exists t1,
    ht_ok t1 /\ HT.count t1 = HT.count t /\
    (forall k' d', ht_holds t1 k' d' <-> ht_holds t k' d') /\
    ht_slot t1 k <> PFull /\
    HT.ht_search t {| HT.key := Some k; HT.data := d |} HT.HT_ENTER =
    Some (ht_search_at t1 k d HT.HT_ENTER (ht_slot t1 k)).
Proof.
  intros Hok Hlt. unfold HT.ht_search. cbn [HT.key HT.data].
  pose proof (ht_count_bound t Hok) as Hb.
  pose proof Hok as (Hp & _). pose proof (pow2_pos _ Hp) as Hs.
  destruct (HT.load_exceeded t) eqn:El.
  - assert (HN : pow2 (u64 (HT.size t * 2))).
    { destruct Hp as (e & He & E). exists (e + 1).
      assert (e < 63).
      { destruct (Z.lt_ge_cases e 63) as [|Hge]; [assumption|].
        assert (2 ^ 63 <= 2 ^ e) by (apply Z.pow_le_mono_r; lia). lia. }
      split; [lia|]. unfold u64. rewrite Z.mod_small by lia.
      rewrite E, Z.pow_add_r by lia. lia. }
    assert (Hbig : HT.size t < u64 (HT.size t * 2)).
    { unfold u64. rewrite Z.mod_small by lia. lia. }
    destruct (ht_resize_spec t Hok _ HN Hbig) as (t1 & E & Hok1 & Hsz & Hcnt & Hh).
    rewrite E. exists t1. split; [exact Hok1|]. split; [exact Hcnt|].
    split; [exact Hh|]. split.
    + intros Hf. apply ht_slot_PFull in Hf; [|exact Hok1]. lia.
    + destruct Hok1 as (Hp1 & _). apply ht_search_enter_loop. exact Hp1.
  - exists t. split; [exact Hok|]. split; [reflexivity|]. split; [tauto|]. split.
    + intros Hf. apply ht_slot_PFull in Hf; [|exact Hok].
      rewrite load_exceeded_full in El by lia. discriminate.
    + apply ht_search_enter_loop. exact Hp.
Qed.

Lemma ht_enter_spec t k d :
  ht_ok t -> HT.size t < 2 ^ 63 ->
  exists t' i,
    HT.ht_search t {| HT.key := Some k; HT.data := d |} HT.HT_ENTER
      = Some (t', Some i) /\
    ht_ok t' /\
    ht_get t' k = Some d /\
    (forall k', k' <> k -> ht_get t' k' = ht_get t k') /\
    HT.ht_count t' =
      HT.ht_count t + match ht_get t k with Some _ => 0 | None => 1 end.
Proof.
  intros Hok Hlt.
  destruct (ht_search_enter t k d Hok Hlt) as (t1 & Hok1 & Hcnt & Hh & Hnf & E).
  rewrite E. clear E.
  assert (Hget : forall k', ht_get t k' = ht_lookup t1 k').
  { intros k'. destruct Hok as (Hp & ?). rewrite ht_get_lookup by exact Hp.
    destruct (ht_lookup t1 k') as [x|] eqn:E1.
    - apply ht_lookup_holds; [split; assumption|]. apply Hh.
      apply ht_lookup_holds; assumption.
    - destruct (ht_lookup t k') as [x|] eqn:E0; [|reflexivity].
      apply ht_lookup_holds in E0; [|split; assumption].
      apply Hh, ht_lookup_holds in E0; [congruence | assumption]. }
  pose proof (ht_count_bound t1 Hok1) as Hb.
  destruct (ht_slot t1 k) as [i|i|] eqn:Es; [| |contradiction].
  - (* the key is there: new data *)
    cbn [ht_search_at]. eexists _, i. split; [reflexivity|].
    pose proof (ht_update_ok t1 k d i Hok1 Es) as Hok'.
    pose proof (ht_update_holds t1 k d i Hok1 Es) as Hh'.
    cbv zeta in Hok', Hh'.
    split; [exact Hok'|].
    assert (Hl : forall k' x, ht_get _ k' = Some x <-> _) by
      (intros k' x; rewrite ht_get_lookup by (apply Hok');
       rewrite (ht_lookup_holds _ k' x Hok'); apply Hh').
    split; [apply Hl; right; auto|]. split.
    + intros k' Hne. rewrite Hget.
      match goal with |- ?a = ?b => destruct a as [x|] eqn:Ea; destruct b as [y|] eqn:Eb end;
        try reflexivity.
      * apply Hl in Ea as [[_ Ea] | [? _]]; [|contradiction].
        apply ht_lookup_holds in Ea; [congruence | assumption].
      * apply Hl in Ea as [[_ Ea] | [? _]]; [|contradiction].
        apply ht_lookup_holds in Ea; [congruence | assumption].
      * apply ht_lookup_holds in Eb; [|assumption].
        assert (Hx : ht_get {| HT.buckets := _; HT.size := HT.size t1; HT.count := HT.count t1 |} k' = Some y)
          by (apply Hl; left; split; assumption).
        rewrite Hx in Ea. discriminate.
    + unfold HT.ht_count. cbn [HT.count]. rewrite Hget.
      unfold ht_lookup. rewrite Es. lia.
  - (* the key is new *)
    cbn [ht_search_at]. eexists _, i. split; [reflexivity|].
    pose proof (ht_insert_ok t1 k d i Hok1 Es) as Hok'.
    pose proof (ht_insert_holds t1 k d i Es) as Hh'.
    cbv zeta in Hok', Hh'.
    split; [exact Hok'|].
    assert (Hl : forall k' x, ht_get _ k' = Some x <-> _) by
      (intros k' x; rewrite ht_get_lookup by (apply Hok');
       rewrite (ht_lookup_holds _ k' x Hok'); apply Hh').
    split; [apply Hl; right; auto|]. split.
    + intros k' Hne. rewrite Hget.
      match goal with |- ?a = ?b => destruct a as [x|] eqn:Ea; destruct b as [y|] eqn:Eb end;
        try reflexivity.
      * apply Hl in Ea as [Ea | [? _]]; [|contradiction].
        apply ht_lookup_holds in Ea; [congruence | assumption].
      * apply Hl in Ea as [Ea | [? _]]; [|contradiction].
        apply ht_lookup_holds in Ea; [congruence | assumption].
      * apply ht_lookup_holds in Eb; [|assumption].
        assert (Hx : ht_get {| HT.buckets := _; HT.size := HT.size t1;
                               HT.count := u64 (HT.count t1 + 1) |} k' = Some y)
          by (apply Hl; left; assumption).
        rewrite Hx in Ea. discriminate.
    + unfold HT.ht_count. cbn [HT.count]. rewrite Hget.
      unfold ht_lookup. rewrite Es.
      pose proof (pow2_pos _ (proj1 Hok1)).
      unfold u64. rewrite Z.mod_small by lia. lia.
Qed.

(** X17: [ht_search(table, {key, data}, HT_ENTER)] on a table that satisfies the
    invariant (and has fewer than [2^63] buckets) returns an entry, keeps
    the invariant, maps the key to the data, leaves every other key as it
    was, and counts one more entry exactly when the key is new. *)
Theorem ht_enter_then_find t k d :
  ht_ok t -> HT.size t < 2 ^ 63 ->
  exists t' i,
    HT.ht_search t {| HT.key := Some k; HT.data := d |} HT.HT_ENTER
      = Some (t', Some i) /\
    ht_ok t' /\
    ht_get t' k = Some d /\
    (forall k', k' <> k -> ht_get t' k' = ht_get t k') /\
    HT.ht_count t' =
      HT.ht_count t + match ht_get t k with Some _ => 0 | None => 1 end.
Proof. exact (ht_enter_spec t k d). Qed.

(** *** [ht_create] *)

Lemma ht_create_loop_ends m fuel : forall j,
  0 < m <= 2 ^ 63 -> 0 <= j <= 63 -> (65 <= Z.to_nat j + fuel)%nat ->
  (j = 0 \/ 2 ^ (j - 1) < m) ->
  exists e, 0 <= e <= 63 /\ HT.ht_create_loop fuel (2 ^ j) m = Some (2 ^ e) /\
            m <= 2 ^ e /\ (e = 0 \/ 2 ^ (e - 1) < m).
Proof.
  induction fuel as [|fuel IH]; intros j Hm Hj Hf Hlow; [lia|].
  cbn [HT.ht_create_loop].
  destruct (2 ^ j <? m) eqn:E.
  - apply Z.ltb_lt in E.
    assert (j < 63).
    { destruct (Z.eq_dec j 63) as [-> | Hne]; [lia | lia]. }
    rewrite Z.shiftl_mul_pow2 by lia. change (2 ^ 1) with 2.
    replace (2 ^ j * 2) with (2 ^ (j + 1)) by (rewrite Z.pow_add_r by lia; lia).
    unfold u64. rewrite Z.mod_small.
    + apply IH; [lia | lia | lia|]. right. replace (j + 1 - 1) with j by lia. exact E.
    + split; [apply Z.pow_nonneg; lia|]. apply Z.pow_lt_mono_r; lia.
  - apply Z.ltb_ge in E. exists j. repeat split; try lia; try exact Hlow.
Qed.

Lemma ht_create_spec initial_size :
  0 <= initial_size <= 2 ^ 63 ->
  let m := if initial_size =? 0 then HT.HT_INITIAL_SIZE else initial_size in
  exists t e,
    HT.ht_create initial_size = Some t /\
    HT.buckets t = ∅ /\ HT.ht_count t = 0 /\
    HT.size t = 2 ^ e /\ 0 <= e <= 63 /\
    m <= 2 ^ e /\ (e = 0 \/ 2 ^ (e - 1) < m) /\
    ht_ok t /\ forall k, ht_get t k = None.
Proof.
  intros Hn m. unfold HT.ht_create. fold m.
  assert (Hm : 0 < m <= 2 ^ 63).
  { unfold m, HT.HT_INITIAL_SIZE. destruct (Z.eqb_spec initial_size 0); lia. }
  destruct (ht_create_loop_ends m 65 0 Hm ltac:(lia) ltac:(lia) ltac:(auto))
    as (e & He & E & Hge & Hlow).
  change (2 ^ 0) with 1 in E. rewrite E.
  assert (Hok : ht_ok {| HT.buckets := ∅; HT.size := 2 ^ e; HT.count := 0 |}).
  { split; [exists e; split; [lia | reflexivity]|]. split.
    - intros i Ho. cbn in Ho. unfold HT.bucket_at in Ho.
      rewrite lookup_empty in Ho. discriminate.
    - cbn. unfold ht_live. rewrite map_filter_empty. reflexivity. }
  eexists _, e. split; [reflexivity|]. unfold HT.ht_count.
  cbn [HT.buckets HT.size HT.count].
  split; [reflexivity|]. split; [reflexivity|]. split; [reflexivity|].
  split; [lia|]. split; [exact Hge|]. split; [exact Hlow|]. split; [exact Hok|].
  intros k. rewrite ht_get_lookup by apply Hok.
  destruct (ht_lookup _ k) as [x|] eqn:El; [|reflexivity].
  apply ht_lookup_holds in El as (i & Ho & _); [|exact Hok].
  cbn in Ho. unfold HT.bucket_at in Ho. rewrite lookup_empty in Ho. discriminate.
Qed.

(** X14: [ht_create] gives an empty table whose size is the least power of two
    that is not below the requested size (32 when 0 is requested), for
    requests up to [2^63]. *)
Theorem ht_create_rounds_up initial_size :
  0 <= initial_size <= 2 ^ 63 ->
  let m := if initial_size =? 0 then HT.HT_INITIAL_SIZE else initial_size in
  exists t e,
    HT.ht_create initial_size = Some t /\
    HT.buckets t = ∅ /\ HT.ht_count t = 0 /\
    HT.size t = 2 ^ e /\ 0 <= e <= 63 /\
    m <= 2 ^ e /\ (e = 0 \/ 2 ^ (e - 1) < m) /\
    ht_ok t /\ forall k, ht_get t k = None.
Proof. exact (ht_create_spec initial_size). Qed.

(** X15: Above [2^63] the rounding loop of [ht_create] never ends: [size]
    doubles up to [2^63], wraps to 0 and stays below the request. *)
Theorem ht_create_does_not_return initial_size fuel :
  2 ^ 63 < initial_size ->
  HT.ht_create_loop fuel 1 initial_size = None /\
  HT.ht_create initial_size = None.
Proof.
  intros Hn.
  assert (G : forall fuel size,
            size = 0 \/ (exists j, 0 <= j <= 63 /\ size = 2 ^ j) ->
            HT.ht_create_loop fuel size initial_size = None).
  { clear fuel. induction fuel as [|fuel IH]; intros size Hs; [reflexivity|].
    cbn [HT.ht_create_loop].
    assert (Hlt : size < initial_size).
    { destruct Hs as [-> | (j & Hj & ->)]; [lia|].
      assert (2 ^ j <= 2 ^ 63) by (apply Z.pow_le_mono_r; lia). lia. }
    apply Z.ltb_lt in Hlt. rewrite Hlt. apply IH.
    destruct Hs as [-> | (j & Hj & ->)]; [left; reflexivity|].
    rewrite Z.shiftl_mul_pow2 by lia. change (2 ^ 1) with 2.
    destruct (Z.eq_dec j 63) as [-> | Hne]; [left; reflexivity|].
    right. exists (j + 1). split; [lia|].
    replace (2 ^ j * 2) with (2 ^ (j + 1)) by (rewrite Z.pow_add_r by lia; lia).
    unfold u64. apply Z.mod_small.
    split; [apply Z.pow_nonneg; lia|]. apply Z.pow_lt_mono_r; lia. }
  split.
  - apply G. right. exists 0. split; [lia | reflexivity].
  - unfold HT.ht_create.
    replace (initial_size =? 0) with false by (symmetry; apply Z.eqb_neq; lia).
    rewrite G; [reflexivity|]. right. exists 0. split; [lia | reflexivity].
Qed.

(** *** The uniqueness table of the delete enumerator *)

(** X18: The enumerator's model keeps its uniqueness table as a finite set,
    with [ht_find] for [ht_search(..., HT_FIND) != NULL] and [ht_enter] for
    [ht_search(..., HT_ENTER)].  The table of [hash.h] realises it: a table
    from [ht_create] holds the empty set, finding a key answers membership
    and leaves the table alone, and entering a key succeeds and gives a
    table that holds the set with the key added. *)
Theorem uniq_set_is_realised :
  (forall initial_size t,
     HT.ht_create initial_size = Some t -> 0 <= initial_size <= 2 ^ 63 ->
     ht_repr t ∅) /\
  (forall t S k d,
     ht_repr t S -> HT.size t < 2 ^ 63 ->
     (exists r,
        HT.ht_search t {| HT.key := Some k; HT.data := d |} HT.HT_FIND
          = Some (t, r) /\
        ht_find S k = bool_decide (r <> None)) /\
     (exists t' i,
        HT.ht_search t {| HT.key := Some k; HT.data := d |} HT.HT_ENTER
          = Some (t', Some i) /\
        ht_repr t' (ht_enter S k))).
Proof.
  split.
  - intros n t E Hn. destruct (ht_create_spec n Hn)
      as (t0 & e & E0 & _ & _ & _ & _ & _ & _ & Hok & Hnone).
    rewrite E in E0. injection E0 as <-. split; [exact Hok|].
    intros k. rewrite Hnone. split; [set_solver | intros [x Hx]; discriminate].
  - intros t S k d [Hok Hs] Hlt. split.
    + rewrite ht_search_find by apply Hok. eexists. split; [reflexivity|].
      unfold ht_find. specialize (Hs k). rewrite ht_get_lookup in Hs by apply Hok.
      unfold ht_lookup in Hs. apply bool_decide_ext. rewrite Hs.
      destruct (ht_slot t k); split; intros H; try congruence; try (destruct H; discriminate);
        eauto.
    + destruct (ht_enter_spec t k d Hok Hlt) as (t' & i & E & Hok' & Hk & Hother & _).
      exists t', i. split; [exact E|]. split; [exact Hok'|].
      intros k'. unfold ht_enter. rewrite elem_of_union, elem_of_singleton.
      destruct (String.eqb_spec k' k) as [-> | Hne].
      * rewrite Hk. split; eauto.
      * rewrite (Hother k' Hne), Hs. split; [intros [? | ?]; [contradiction | assumption] | auto].
Qed.

(** *** [ht_iterate] *)

Lemma ht_iterate_loop_In t ko d fuel : forall i : nat,
  In (ko, d) (HT.ht_iterate_loop fuel t (Z.of_nat i)) <->
  exists p, Z.of_nat i <= p < Z.of_nat i + Z.of_nat fuel /\
    HT.occupied (HT.bucket_at (HT.buckets t) p) = true /\
    HT.bucket_key (HT.bucket_at (HT.buckets t) p) = ko /\
    HT.bucket_data (HT.bucket_at (HT.buckets t) p) = d.
Proof.
  induction fuel as [|fuel IH]; intros i.
  - cbn. split; [intros [] | intros (p & Hp & _); lia].
  - cbn [HT.ht_iterate_loop].
    replace (Z.of_nat i + 1) with (Z.of_nat (S i)) by lia.
    destruct (HT.occupied (HT.bucket_at (HT.buckets t) (Z.of_nat i))) eqn:Ho.
    + cbn [In]. rewrite IH. split.
      * intros [[= <- <-] | (p & Hp & H)].
        -- exists (Z.of_nat i). split; [lia | auto].
        -- exists p. split; [lia | exact H].
      * intros (p & Hp & Hop & Hk & Hd).
        destruct (Z.eq_dec p (Z.of_nat i)) as [-> | Hne].
        -- left. congruence.
        -- right. exists p. split; [lia | auto].
    + rewrite IH. split.
      * intros (p & Hp & H). exists p. split; [lia | exact H].
      * intros (p & Hp & Hop & H).
        destruct (Z.eq_dec p (Z.of_nat i)) as [-> | Hne]; [congruence|].
        exists p. split; [lia | auto].
Qed.

Lemma ht_iterate_loop_length t fuel : forall i : nat,
  (length (HT.ht_iterate_loop fuel t (Z.of_nat i)) + occ_upto (HT.buckets t) i
   = occ_upto (HT.buckets t) (i + fuel))%nat.
Proof.
  induction fuel as [|fuel IH]; intros i.
  - cbn. rewrite Nat.add_0_r. reflexivity.
  - cbn [HT.ht_iterate_loop].
    replace (Z.of_nat i + 1) with (Z.of_nat (S i)) by lia.
    replace (i + S fuel)%nat with (S i + fuel)%nat by lia.
    rewrite <- IH. cbn [occ_upto].
    destruct (HT.occupied (HT.bucket_at (HT.buckets t) (Z.of_nat i))); cbn [length]; lia.
Qed.

(** X19: [ht_iterate] calls the callback once for every entry of the table, with
    its key and its data, and for nothing else; the number of calls is
    [ht_count]. *)
Theorem ht_iterate_visits_the_entries t :
  ht_ok t ->
  (forall k d, In (Some k, d) (HT.ht_iterate t) <-> ht_get t k = Some d) /\
  (forall d, ~ In (None, d) (HT.ht_iterate t)) /\
  Z.of_nat (length (HT.ht_iterate t)) = HT.ht_count t.
Proof.
  intros Hok. pose proof Hok as (Hp & Hf & Hc).
  pose proof (pow2_pos _ Hp) as Hs. unfold HT.ht_iterate.
  split; [|split].
  - intros k d. rewrite ht_get_lookup, ht_lookup_holds by assumption.
    rewrite (ht_iterate_loop_In t (Some k) d _ 0). unfold ht_holds. split.
    + intros (p & _ & H). eauto.
    + intros (p & Ho & H). exists p. split; [|auto].
      destruct (Hf p Ho) as [Hr _]. lia.
  - intros d H. apply (ht_iterate_loop_In t None d _ 0) in H as (p & _ & Ho & Hk & _).
    destruct (Hf p Ho) as (_ & k & Hk' & _). congruence.
  - pose proof (ht_iterate_loop_length t (Z.to_nat (HT.size t)) 0) as H.
    cbn [occ_upto] in H. rewrite Nat.add_0_r in H. cbn [Nat.add] in H.
    change (Z.of_nat 0) with 0 in H.
    unfold HT.ht_count. rewrite Hc, H. f_equal. symmetry. apply ht_live_count.
    intros i Ho. destruct (Hf i Ho) as [Hr _]. lia.
Qed.

(** *** [ht_delete] of a key that is not there *)

Lemma ht_delete_loop_absent t k rf start fuel : forall j,
  pow2 (HT.size t) -> 0 <= start < HT.size t ->
  0 <= j -> j + Z.of_nat fuel = HT.size t -> (0 < fuel)%nat ->
  (forall q, probe fuel (ht_cls (HT.buckets t) (HT.ht_hash k) k)
               (exact_pos (HT.size t) start) j <> PHit q) ->
  HT.ht_delete_loop fuel rf t k (HT.ht_hash k) ((start + j) mod HT.size t) start
  = Some (t, 0).
Proof.
  induction fuel as [|fuel IH]; intros j Hp Hs Hj Hf Hpos Hn; [lia|].
  cbn [HT.ht_delete_loop probe] in *. unfold exact_pos at 1, ht_cls at 1 in Hn.
  cbv zeta in *.
  destruct (HT.occupied (HT.bucket_at (HT.buckets t) ((start + j) mod HT.size t)));
    cbn [negb] in *; [|reflexivity].
  destruct (_ && _); [exfalso; eapply Hn; reflexivity|].
  rewrite pow2_next by assumption.
  destruct (Z.eqb_spec ((start + (j + 1)) mod HT.size t) start) as [E | E];
    [reflexivity|].
  assert (j + 1 <> HT.size t) by (intros H; apply E, wrap_iff; lia).
  apply IH; try assumption; lia.
Qed.

(** X20: [ht_delete] of a key that the table does not hold, and of [NULL],
    returns 0 and leaves the table as it is. *)
Theorem ht_delete_absent_key rehash_fuel t :
  ht_ok t ->
  HT.ht_delete rehash_fuel t None = Some (t, 0) /\
  forall k, ht_get t k = None ->
    HT.ht_delete rehash_fuel t (Some k) = Some (t, 0).
Proof.
  intros Hok. split; [reflexivity|]. intros k Hk.
  pose proof Hok as (Hp & _). pose proof (pow2_pos _ Hp) as Hs.
  rewrite ht_get_lookup in Hk by exact Hp.
  unfold HT.ht_delete. pose proof (ht_hash_range k) as Hh.
  rewrite pow2_mask by (assumption || lia).
  pose proof (Z.mod_pos_bound (HT.ht_hash k) (HT.size t) ltac:(lia)) as Hm.
  pose proof (ht_delete_loop_absent t k rehash_fuel (HT.ht_hash k mod HT.size t)
                (Z.to_nat (HT.size t)) 0 Hp Hm ltac:(lia) ltac:(lia) ltac:(lia)) as H.
  rewrite Z.add_0_r, Z.mod_mod in H by lia. apply H.
  intros q Hq. unfold ht_lookup, ht_slot in Hk. rewrite Hq in Hk. discriminate.
Qed.

(** ** Examples *)

(** X8, at an input: a file that lists [the] twice fills four slots. *)
Lemma entry_count_counts_delete_variants_witness :
  match loaded logf_at_one dict_1_7 ("the 5" ++ LF ++ "the 9" ++ LF) 0 1 with
  | Some dict' => snd (symspell_get_stats dict') = 4
  | None => False
  end.
Proof.
  run_load.
  match type of E with _ = Ret (true, ?d') =>
    destruct (entry_count_counts_delete_variants logf_at_one d') as [H _]
  end.
  - eapply reachable_load; [|exact E].
    apply reachable_create with (D := 1) (P := 7). reflexivity.
  - rewrite H. vm_compute. reflexivity.
Defined.

(** X5, at an input: a two-word file and the query [Helo]. *)
Lemma suggestions_come_from_the_file_witness :
  match loaded logf_at_one dict_1_7 ("hello 5000" ++ LF ++ "held 200" ++ LF) 0 1 with
  | Some dict' =>
      match symspell_lookup logf_at_one stale_zero dict' "Helo" 1 1 with
      | [s] =>
          (distance s = 0 /\ term s = lookup_query "Helo" /\
           exists w,
             In w (map fst (admitted_pairs
                              ("hello 5000" ++ LF ++ "held 200" ++ LF) 0 1)) /\
             xxh3 w = xxh3 (lookup_query "Helo")) \/
          (exists w,
             In w (map fst (admitted_pairs
                              ("hello 5000" ++ LF ++ "held 200" ++ LF) 0 1)) /\
             (strlen w < SYMSPELL_MAX_TERM_LENGTH - 1 -> term s = w) /\
             (strlen w = SYMSPELL_MAX_TERM_LENGTH - 1 ->
              exists n, term s = w ++ c_str (stale_zero n)) /\
             frequency s =
               max_observed w
                 (admitted_pairs ("hello 5000" ++ LF ++ "held 200" ++ LF) 0 1) /\
             exists bound,
               (bound = 1 \/ bound = Z.min 1 (max_edit_distance dict')) /\
               distance s = edit_distance (lookup_query "Helo") w bound /\
               distance s <= bound)
      | _ => False
      end
  | None => False
  end.
Proof.
  run_load.
  match goal with |- context [symspell_lookup ?l ?st ?d ?q ?r ?n] =>
    let v := eval vm_compute in (symspell_lookup l st d q r n) in
    assert (El : symspell_lookup l st d q r n = v) by (vm_compute; reflexivity)
  end.
  rewrite El. cbv beta iota.
  match type of El with _ = [?s0] =>
    match type of E with _ = Ret (true, ?d') =>
      apply (suggestions_come_from_the_file logf_at_one stale_zero 1 7 dict_1_7
               ("hello 5000" ++ LF ++ "held 200" ++ LF) 0 1 d' "Helo" 1 1 s0
               eq_refl E)
    end
  end.
  rewrite El. left. reflexivity.
Defined.

(** X6, at an input: the word [held] of a two-word file. *)
Lemma admitted_word_suggestion_witness :
  match loaded logf_at_one dict_1_7 ("hello 5000" ++ LF ++ "held 200" ++ LF) 0 1 with
  | Some dict' =>
      let M := max_observed "held"
                 (admitted_pairs ("hello 5000" ++ LF ++ "held 200" ++ LF) 0 1) in
      let p := float_div (float_of_u64 M)
                 (float_of_u64
                    (first_frequency
                       (admitted_pairs
                          ("hello 5000" ++ LF ++ "held 200" ++ LF) 0 1))) in
      symspell_lookup logf_at_one stale_zero dict' "held" 2 5 =
        [ {| term := "held"; distance := 0; frequency := M; probability := p;
             suggestion_iwf := calculate_iwf logf_at_one p |} ] /\
      symspell_get_probability dict' (xxh3 "held") = p /\
      symspell_get_iwf dict' "held" = calculate_iwf logf_at_one p
  | None => False
  end.
Proof.
  run_load.
  match type of E with _ = Ret (true, ?d') =>
    apply (admitted_word_suggestion logf_at_one stale_zero 1 7 dict_1_7
             ("hello 5000" ++ LF ++ "held 200" ++ LF) 0 1 d' "held" 2 5 eq_refl E)
  end.
  - vm_compute. auto.
  - vm_compute. reflexivity.
  - vm_compute. discriminate.
  - exists 0. vm_compute. split; [split; [discriminate | reflexivity] | reflexivity].
  - intros w' Hw' Hx. vm_compute in Hw'. destruct Hw' as [<- | [<- | []]].
    + vm_compute in Hx. discriminate.
    + reflexivity.
  - lia.
Defined.

(** X7, at an input: the query [helo] shares the variant [helo] with [hello]. *)
Lemma slow_path_finds_words_sharing_a_variant_witness :
  match loaded logf_at_one dict_1_7 ("hello 5000" ++ LF ++ "held 200" ++ LF) 0 1 with
  | Some dict' =>
      exists s,
        lookup_slow logf_at_one stale_zero dict' "helo" 1 = [s] /\
        (distance s < edit_distance "helo" "hello" 1 \/
         (distance s = edit_distance "helo" "hello" 1 /\
          max_observed "hello"
            (admitted_pairs ("hello 5000" ++ LF ++ "held 200" ++ LF) 0 1)
          <= frequency s))
  | None => False
  end.
Proof.
  run_load.
  match type of E with _ = Ret (true, ?d') =>
    apply (slow_path_finds_words_sharing_a_variant logf_at_one stale_zero 1 7 dict_1_7
             ("hello 5000" ++ LF ++ "held 200" ++ LF) 0 1 d' "helo" 1 "hello" "helo"
             eq_refl E)
  end.
  - vm_compute. auto.
  - vm_compute. tauto.
  - vm_compute. tauto.
  - vm_compute. discriminate.
  - vm_compute. discriminate.
  - vm_compute. reflexivity.
Defined.

(** X11, at an input: [hlo] is [hello] with two bytes removed. *)
Lemma deletes_are_complete_witness :
  In "hlo" (_generate_all_deletes_reuse "hello" 2 7 10000).
Proof.
  apply (deletes_are_complete "hello" 2 7 10000 2 "hlo").
  - discriminate.
  - lia.
  - vm_compute. reflexivity.
  - vm_compute. reflexivity.
  - replace (delete_prefix "hello" 7) with "hello" by (vm_compute; reflexivity).
    change "hlo" with (str_remove 1 (str_remove 1 "hello")).
    constructor; [constructor; [constructor | cbn; lia] | cbn; lia].
  - lia.
Defined.

(** X12, at an input: [hello] against [help]. *)
Lemma edit_distance_zero_iff_equal_witness :
  0 <= edit_distance "hello" "help" 2 /\
  (edit_distance "hello" "help" 2 = 0 <-> "hello" = "help").
Proof.
  apply edit_distance_zero_iff_equal.
  - lia.
  - vm_compute. reflexivity.
  - vm_compute. reflexivity.
Defined.

(** X21, at an input: [hello] against [help], at most two edits. *)
Lemma edit_distance_is_least_cost_witness :
  (forall n, aligned "hello" "help" 5 4 n -> n <= 2 ->
     edit_distance "hello" "help" 2 <= n) /\
  (edit_distance "hello" "help" 2 <= 2 ->
   aligned "hello" "help" 5 4 (edit_distance "hello" "help" 2)).
Proof.
  apply (edit_distance_is_least_cost "hello" "help" 2).
  - vm_compute. reflexivity.
  - vm_compute. reflexivity.
Defined.

(** X13, at an input: five bytes from an arena that has used three. *)
Lemma arena_alloc_bumps_aligned_witness :
  let arena := {| capacity := 1024; used := 3 |} in
  let aligned := 8 * ((used arena + 7) / 8) in
  used arena <= aligned < used arena + 8 /\ aligned mod 8 = 0 /\
  arena_alloc arena 5 =
    if aligned + 5 >? capacity arena then Exit 1
    else Ret {| capacity := capacity arena; used := aligned + 5 |}.
Proof.
  apply (arena_alloc_bumps_aligned {| capacity := 1024; used := 3 |} 5);
    cbn [used capacity]; lia.
Defined.

(** X14, at an input: the table of the enumerator, [ht_create(20000)]. *)
Lemma ht_create_rounds_up_witness :
  exists t e,
    HT.ht_create 20000 = Some t /\
    HT.buckets t = ∅ /\ HT.ht_count t = 0 /\
    HT.size t = 2 ^ e /\ 0 <= e <= 63 /\
    20000 <= 2 ^ e /\ (e = 0 \/ 2 ^ (e - 1) < 20000) /\
    ht_ok t /\ forall k, ht_get t k = None.
Proof. apply (ht_create_rounds_up 20000). lia. Defined.

(** X15, at an input: a request of [2^63 + 1] buckets. *)
Lemma ht_create_does_not_return_witness :
  HT.ht_create_loop 1000 1 (2 ^ 63 + 1) = None /\
  HT.ht_create (2 ^ 63 + 1) = None.
Proof. apply ht_create_does_not_return. lia. Defined.

Lemma ht_sample_ok : ht_ok ht_sample.
Proof.
  set (t0 := {| HT.buckets := ∅; HT.size := 4; HT.count := 0 |}).
  assert (H0 : ht_ok t0).
  { split; [exists 2; split; [lia | reflexivity]|]. split.
    - intros i H. unfold HT.bucket_at in H. cbn [HT.buckets t0] in H.
      rewrite lookup_empty in H. discriminate.
    - reflexivity. }
  assert (Hs : ht_slot t0 "th" = PEmpty (HT.ht_hash "th" mod 4))
    by (vm_compute; reflexivity).
  pose proof (ht_insert_ok t0 "th" 1 _ H0 Hs) as H. cbv zeta in H.
  assert (E : ht_sample =
              {| HT.buckets :=
                   <[HT.ht_hash "th" mod 4 :=
                       {| HT.bucket_key := Some "th"; HT.bucket_data := 1;
                          HT.hash := HT.ht_hash "th"; HT.occupied := true |}]>
                     (HT.buckets t0);
                 HT.size := HT.size t0; HT.count := u64 (HT.count t0 + 1) |})
    by (vm_compute; reflexivity).
  rewrite E. exact H.
Qed.

(** X16, at an input: a table of four buckets resized to eight. *)
Lemma ht_resize_keeps_the_entries_witness :
  exists t',
    HT.ht_resize ht_sample 8 = Some t' /\ ht_ok t' /\ HT.size t' = 8 /\
    HT.ht_count t' = HT.ht_count ht_sample /\
    forall k, ht_get t' k = ht_get ht_sample k.
Proof.
  apply (ht_resize_keeps_the_entries ht_sample 8).
  - apply ht_sample_ok.
  - exists 3. split; [lia | reflexivity].
  - vm_compute. reflexivity.
Defined.

(** X17, at an input: a second key entered into a table that holds one. *)
Lemma ht_enter_then_find_witness :
  exists t' i,
    HT.ht_search ht_sample {| HT.key := Some "he"; HT.data := 1 |} HT.HT_ENTER
      = Some (t', Some i) /\
    ht_ok t' /\
    ht_get t' "he" = Some 1 /\
    (forall k', k' <> "he" -> ht_get t' k' = ht_get ht_sample k') /\
    HT.ht_count t' =
      HT.ht_count ht_sample + match ht_get ht_sample "he" with Some _ => 0 | None => 1 end.
Proof.
  apply (ht_enter_then_find ht_sample "he" 1).
  - apply ht_sample_ok.
  - vm_compute. reflexivity.
Defined.

(** X19, at an input: a table of four buckets that holds one key. *)
Lemma ht_iterate_visits_the_entries_witness :
  (forall k d, In (Some k, d) (HT.ht_iterate ht_sample) <-> ht_get ht_sample k = Some d) /\
  (forall d, ~ In (None, d) (HT.ht_iterate ht_sample)) /\
  Z.of_nat (length (HT.ht_iterate ht_sample)) = HT.ht_count ht_sample.
Proof. apply (ht_iterate_visits_the_entries ht_sample). apply ht_sample_ok. Defined.

(** X20, at an input: a table of four buckets that holds one key. *)
Lemma ht_delete_absent_key_witness :
  HT.ht_delete 8 ht_sample None = Some (ht_sample, 0) /\
  forall k, ht_get ht_sample k = None ->
    HT.ht_delete 8 ht_sample (Some k) = Some (ht_sample, 0).
Proof. apply (ht_delete_absent_key 8 ht_sample). apply ht_sample_ok. Defined.
